(** * SlimCode: validation and minification of pasted or uploaded source text

    A shallow embedding of the page component of SlimCode
    ([validateContent], [handleFileUpload], [handleCodeChange], [mockMinify],
    [handleMinify], [downloadFile]) together with the platform functions it calls
    (regular-expression [replace] and [test], [String.prototype.trim],
    [Blob] sizes, [JSON.parse], [JSON.stringify], [Math.round]).

    A JavaScript string is a sequence of UTF-16 code units; regular
    expressions without the [u] flag work on code units. *)

From Stdlib Require Import List NArith ZArith Bool Ascii String Lia.
From Stdlib Require Import QArith Qround Qabs.
From Stdlib Require Import Floats.SpecFloat.
Import ListNotations.

Close Scope Q_scope.

(** ** Strings *)

Definition cu := N.
Definition jsstring := list cu.

Definition ch (a : ascii) : cu := N_of_ascii a.
Arguments ch a%_char.

(** An ASCII literal of the source as a JavaScript string. *)
Definition lit (s : string) : jsstring := map N_of_ascii (list_ascii_of_string s).

(** The same, with every apostrophe standing for a double quote. *)
Definition litq (s : string) : jsstring :=
  map (fun c => if N.eqb c 39 then 34%N else c) (lit s).

Module Chars.

Open Scope N_scope.

(** ECMAScript LineTerminator: LF, CR, LS, PS. *)
Definition is_line_terminator (c : cu) : bool :=
  (c =? 10) || (c =? 13) || (c =? 0x2028) || (c =? 0x2029).

(** The class [\s], which is also what [trim] strips: WhiteSpace (TAB, VT,
    FF, SP, NBSP, ZWNBSP and the Unicode space separators) and
    LineTerminator. *)
Definition is_space (c : cu) : bool :=
  ((9 <=? c) && (c <=? 13))
  || (c =? 32) || (c =? 0xA0) || (c =? 0x1680)
  || ((0x2000 <=? c) && (c <=? 0x200A))
  || (c =? 0x2028) || (c =? 0x2029) || (c =? 0x202F) || (c =? 0x205F)
  || (c =? 0x3000) || (c =? 0xFEFF).

Definition any (_ : cu) : bool := true.
Definition other_than (a : ascii) (c : cu) : bool := negb (c =? ch a).
Arguments other_than a%_char c.
(** [.] without the [s] flag. *)
Definition dot (c : cu) : bool := negb (is_line_terminator c).
(** [[A-Z]] *)
Definition upper (c : cu) : bool := (65 <=? c) && (c <=? 90).
(** [[^{}]] *)
Definition not_brace (c : cu) : bool := negb ((c =? 123) || (c =? 125)).

Definition is_high_surrogate (c : cu) : bool := (0xD800 <=? c) && (c <=? 0xDBFF).
Definition is_low_surrogate (c : cu) : bool := (0xDC00 <=? c) && (c <=? 0xDFFF).

End Chars.

(** ** Regular expressions

    The patterns of the source are sequences of single characters, character
    classes, greedy or lazy repetitions of a class and the anchor [$]; one of
    them is an alternation of such sequences.  The matcher is the usual
    backtracking one and returns the length of the match that starts at the
    head of the text. *)

Module Regex.

Inductive atom : Type :=
| Chr (a : ascii)              (* one literal character *)
| Cls (p : cu -> bool)         (* one character of a class *)
| Greedy (p : cu -> bool)      (* [p*]  *)
| Lazy (p : cu -> bool)        (* [p*?] *)
| EndOfLine.                   (* [$] under the flag [m] *)

Arguments Chr a%_char.

(** A pattern is a list of alternatives, tried in order. *)
Definition regex := list (list atom).

Definition at_eol (t : jsstring) : bool :=
  match t with
  | [] => true
  | c :: _ => Chars.is_line_terminator c
  end.

Fixpoint match_seq (r : list atom) : jsstring -> option nat :=
  match r with
  | [] => fun _ => Some O
  | Chr a :: r' => fun t =>
      match t with
      | c :: t' => if N.eqb c (ch a) then option_map S (match_seq r' t') else None
      | [] => None
      end
  | Cls p :: r' => fun t =>
      match t with
      | c :: t' => if p c then option_map S (match_seq r' t') else None
      | [] => None
      end
  | Greedy p :: r' =>
      fix star (t : jsstring) : option nat :=
        match t with
        | c :: t' =>
            if p c then
              match star t' with
              | Some n => Some (S n)
              | None => match_seq r' t
              end
            else match_seq r' t
        | [] => match_seq r' []
        end
  | Lazy p :: r' =>
      fix star (t : jsstring) : option nat :=
        match match_seq r' t with
        | Some n => Some n
        | None =>
            match t with
            | c :: t' => if p c then option_map S (star t') else None
            | [] => None
            end
        end
  | EndOfLine :: r' => fun t => if at_eol t then match_seq r' t else None
  end.

Fixpoint match_at (re : regex) (t : jsstring) : option nat :=
  match re with
  | [] => None
  | r :: re' =>
      match match_seq r t with
      | Some n => Some n
      | None => match_at re' t
      end
  end.

(** [re.test(t)] for a pattern without the [g] flag: is there a match
    starting anywhere in [t]. *)
Fixpoint test (re : regex) (t : jsstring) : bool :=
  match match_at re t with
  | Some _ => true
  | None =>
      match t with
      | [] => false
      | _ :: t' => test re t'
      end
  end.

(** [t.replace(re, rep)] for a pattern with the [g] flag and a replacement
    text without [$]: matches are looked for from left to right, each
    search starting where the previous match ended (one character further
    after an empty match).  [skip] counts the characters of the current
    match that are still to be dropped. *)
Fixpoint replace_from (re : regex) (rep : jsstring) (skip : nat) (t : jsstring)
  : jsstring :=
  match t with
  | [] =>
      match skip, match_at re [] with
      | O, Some _ => rep
      | _, _ => []
      end
  | c :: t' =>
      match skip with
      | S k => replace_from re rep k t'
      | O =>
          match match_at re t with
          | Some (S n) => rep ++ replace_from re rep n t'
          | Some O => rep ++ c :: replace_from re rep O t'
          | None => c :: replace_from re rep O t'
          end
      end
  end.

Definition replace (re : regex) (rep : jsstring) (t : jsstring) : jsstring :=
  replace_from re rep O t.

End Regex.

Import Regex.

(** [String.prototype.trim] *)
Fixpoint trimStart (t : jsstring) : jsstring :=
  match t with
  | c :: t' => if Chars.is_space c then trimStart t' else t
  | [] => []
  end.

Definition trimEnd (t : jsstring) : jsstring := rev (trimStart (rev t)).

Definition trim (t : jsstring) : jsstring := trimEnd (trimStart t).

(** [parts.join(sep)] *)
Fixpoint join (sep : jsstring) (parts : list jsstring) : jsstring :=
  match parts with
  | [] => []
  | [p] => p
  | p :: ps => p ++ sep ++ join sep ps
  end.

(** [new Blob([t]).size]: the length of the UTF-8 encoding of [t], in which a
    surrogate pair takes four bytes and a lone surrogate is replaced by
    U+FFFD (three bytes). *)
Fixpoint utf8_length (t : jsstring) : N :=
  match t with
  | [] => 0
  | c :: t' =>
      if (c <? 0x80)%N then 1 + utf8_length t'
      else if (c <? 0x800)%N then 2 + utf8_length t'
      else if Chars.is_high_surrogate c then
        match t' with
        | d :: t'' =>
            if Chars.is_low_surrogate d then 4 + utf8_length t''
            else 3 + utf8_length t'
        | [] => 3
        end
      else 3 + utf8_length t'
  end%N.

(** The patterns of the source. *)
Module Pat.

Import Chars.

(** [/<!--[\s\S]*?-->/g] *)
Definition html_comment : regex :=
  [[Chr "<"; Chr "!"; Chr "-"; Chr "-"; Lazy any; Chr "-"; Chr "-"; Chr ">"]].
(** [/\/\*[\s\S]*?\*\//g] *)
Definition block_comment : regex :=
  [[Chr "/"; Chr "*"; Lazy any; Chr "*"; Chr "/"]].
(** [/\/\/.*$/gm] *)
Definition line_comment : regex :=
  [[Chr "/"; Chr "/"; Greedy dot; EndOfLine]].
(** [/\s+/g] *)
Definition spaces : regex := [[Cls is_space; Greedy is_space]].
(** [/>\s+</g] *)
Definition between_tags : regex := [[Chr ">"; Cls is_space; Greedy is_space; Chr "<"]].
(** [/;\s+/g] *)
Definition after_semicolon : regex := [[Chr ";"; Cls is_space; Greedy is_space]].
(** [/{\s+/g] *)
Definition after_open_brace : regex := [[Chr "{"; Cls is_space; Greedy is_space]].
(** [/\s+}/g] *)
Definition before_close_brace : regex := [[Cls is_space; Greedy is_space; Chr "}"]].
(** [/<[^>]+>/] *)
Definition html_tag : regex := [[Chr "<"; Cls (other_than ">"); Greedy (other_than ">"); Chr ">"]].
(** [/[^{}]*\{[^{}]*\}/] *)
Definition css_rule : regex :=
  [[Greedy not_brace; Chr "{"; Greedy not_brace; Chr "}"]].

Definition word (s : string) : list atom := map Chr (list_ascii_of_string s).

(** [/(?:function|const|let|var|class|import|export|=>)/] *)
Definition js_marker : regex :=
  [word "function"; word "const"; word "let"; word "var"; word "class";
   word "import"; word "export"; word "=>"].
(** [/(?:function|const|let|var|class|import|export|=>|<[A-Z]|<\/[A-Z])/] *)
Definition jsx_marker : regex :=
  js_marker ++ [[Chr "<"; Cls upper]; [Chr "<"; Chr "/"; Cls upper]].

End Pat.

(** ** Numbers

    A JavaScript Number is an IEEE 754 binary64 value: [spec_float] at
    precision 53 with exponent bound 1024, with the operations of the
    specification of floating-point arithmetic of the standard library. *)

Module Num.

Definition prec : Z := 53.
Definition emax : Z := 1024.

Definition number := spec_float.

Definition NaN : number := S754_nan.
Definition zero : number := S754_zero false.

(** The Number nearest to an integer (ties to even). *)
Definition of_Z (z : Z) : number := binary_normalize prec emax z 0 false.
Definition of_N (n : N) : number := of_Z (Z.of_N n).

Definition sub : number -> number -> number := SFsub prec emax.
Definition mul : number -> number -> number := SFmul prec emax.
Definition div : number -> number -> number := SFdiv prec emax.

(** Equality of representations (it tells [+0] from [-0]). *)
Definition eqb (x y : number) : bool :=
  match x, y with
  | S754_zero a, S754_zero b => Bool.eqb a b
  | S754_infinity a, S754_infinity b => Bool.eqb a b
  | S754_nan, S754_nan => true
  | S754_finite a m e, S754_finite b m' e' => Bool.eqb a b && Pos.eqb m m' && Z.eqb e e'
  | _, _ => false
  end.

(** [Math.round]: the integer nearest to [x], a tie going up; the sign of
    [x] is kept when the result is zero. *)
Definition round (x : number) : number :=
  match x with
  | S754_finite s m e =>
      if (0 <=? e)%Z then x
      else
        let d := (2 ^ (- e))%Z in
        let n := ((2 * cond_Zopp s (Zpos m) + d) / (2 * d))%Z in
        if (n =? 0)%Z then S754_zero s else of_Z n
  | _ => x
  end.

(** The Number nearest to the decimal [m * 10^e] (ties to even), negated
    when [neg]: the value of a numeric literal. *)
Definition of_decimal (neg : bool) (m : N) (e : Z) : number :=
  match m with
  | N0 => S754_zero neg
  | Npos p =>
      if (0 <=? e)%Z then binary_round prec emax neg (p * Z.to_pos (10 ^ e)) 0
      else SFdiv prec emax (S754_finite neg p 0)
                           (S754_finite false (Z.to_pos (10 ^ (- e))) 0)
  end.

End Num.

(** ** Decimal digits *)

Module Digits.

Open Scope N_scope.

Definition is_digit (c : cu) : bool := (48 <=? c) && (c <=? 57).

Fixpoint digits_fuel (fuel : nat) (n : N) (acc : jsstring) : jsstring :=
  match fuel with
  | O => acc
  | S f =>
      let acc' := (48 + n mod 10) :: acc in
      if n <? 10 then acc' else digits_fuel f (n / 10) acc'
  end.

(** The decimal digits of [n], most significant first ([0] is one digit). *)
Definition digits (n : N) : jsstring :=
  digits_fuel (S (N.to_nat (N.log2 n))) n [].

(** The number a sequence of digits denotes. *)
Definition value (ds : jsstring) : N :=
  fold_left (fun acc d => 10 * acc + (d - 48)) ds 0.

Fixpoint span_digits (t : jsstring) : jsstring * jsstring :=
  match t with
  | c :: t' =>
      if is_digit c then let (ds, r) := span_digits t' in (c :: ds, r)
      else ([], t)
  | [] => ([], [])
  end.

End Digits.

(** ** [Number::toString]

    For a finite positive Number [x] the specification takes integers [n],
    [k], [s] with [k >= 1], [10^(k-1) <= s < 10^k] and [s * 10^(n-k)]
    rounding to [x], with [k] as small as possible and, among several [s],
    the one whose decimal is closest to [x] (the even one on a tie). *)

Module NumberToString.

Local Open Scope Q_scope.

Definition real (m : positive) (e : Z) : Q := inject_Z (Zpos m) * Qpower 2 e.
Definition pow10 (z : Z) : Q := Qpower 10 z.
Definition ndigits (n : N) : Z := Z.of_nat (List.length (Digits.digits n)).

(** The [n] with [10^(n-1) <= x < 10^n], for [x > 0]. *)
Definition magnitude (x : Q) : Z :=
  if Qle_bool 1 x then ndigits (Z.to_N (Qfloor x))
  else 1 - ndigits (Z.to_N (Qceiling (/ x) - 1)).

Definition valid (x : Num.number) (k : Z) (c : Z * Z) : bool :=
  let (s, n) := c in
  (10 ^ (k - 1) <=? s)%Z && (s <? 10 ^ k)%Z
  && Num.eqb (Num.of_decimal false (Z.to_N s) (n - k)) x.

Definition candidates (x : Q) (k : Z) : list (Z * Z) :=
  let n0 := magnitude x in
  flat_map (fun n => let f := Qfloor (x / pow10 (n - k)) in [(f, n); ((f + 1)%Z, n)])
           [(n0 - 1)%Z; n0; (n0 + 1)%Z].

Definition distance (x : Q) (k : Z) (c : Z * Z) : Q :=
  Qabs (inject_Z (fst c) * pow10 (snd c - k) - x).

Definition closer (x : Q) (k : Z) (best c : Z * Z) : Z * Z :=
  match distance x k c ?= distance x k best with
  | Lt => c
  | Eq => if Z.even (fst c) then c else best
  | Gt => best
  end.

(** The exact decimal expansion of [m * 2^e], which always rounds to it. *)
Definition exact (m : positive) (e : Z) : Z * Z :=
  if (0 <=? e)%Z then
    let s := (Zpos m * 2 ^ e)%Z in (s, ndigits (Z.to_N s))
  else
    let s := (Zpos m * 5 ^ (- e))%Z in (s, (ndigits (Z.to_N s) + e)%Z).

Fixpoint shortest (fuel : nat) (m : positive) (e : Z) (k : Z) : Z * Z :=
  match fuel with
  | O => exact m e
  | S f =>
      match filter (valid (S754_finite false m e) k) (candidates (real m e) k) with
      | [] => shortest f m e (k + 1)
      | c :: cs => fold_left (closer (real m e) k) cs c
      end
  end.

(** [s] and [n] for the finite positive Number [m * 2^e]. *)
Definition decimal (m : positive) (e : Z) : Z * Z :=
  shortest (S (Z.to_nat (Z.log2 (fst (exact m e))))) m e 1.

Definition zeros (n : Z) : jsstring := repeat (ch "0") (Z.to_nat n).

Definition format (s n : Z) : jsstring :=
  let ds := Digits.digits (Z.to_N s) in
  let k := Z.of_nat (List.length ds) in
  if ((-5 <=? n) && (n <=? 21))%Z then
    if (k <=? n)%Z then ds ++ zeros (n - k)
    else if (0 <? n)%Z then
      firstn (Z.to_nat n) ds ++ ch "." :: skipn (Z.to_nat n) ds
    else ch "0" :: ch "." :: zeros (- n) ++ ds
  else
    let e := (n - 1)%Z in
    let exponent :=
      ch "e" :: (if (0 <=? e)%Z then ch "+" else ch "-") :: Digits.digits (Z.to_N (Z.abs e)) in
    match ds with
    | [d] => d :: exponent
    | d :: ds' => d :: ch "." :: ds' ++ exponent
    | [] => exponent
    end.

Definition toString (x : Num.number) : jsstring :=
  match x with
  | S754_nan => lit "NaN"
  | S754_zero _ => lit "0"
  | S754_infinity s => (if s then [ch "-"] else []) ++ lit "Infinity"
  | S754_finite s m e =>
      let (d, n) := decimal m e in
      (if s then [ch "-"] else []) ++ format d n
  end.

End NumberToString.

(** ** JSON *)

Module JSON.

Open Scope N_scope.

(** The values [JSON.parse] builds.  An object is the list of its own
    properties in property order: array indices first, ascending, then the
    other keys in the order of their creation. *)
#[local] Unset Elimination Schemes.
Inductive value : Type :=
| Null
| Bool (b : bool)
| Number (x : Num.number)
| String (s : jsstring)
| Array (items : list value)
| Object (props : list (jsstring * value)).
#[local] Set Elimination Schemes.

(** The text could not be parsed: [JSON.parse] throws a SyntaxError, whose
    message is left to the engine. *)
Inductive SyntaxError : Type := syntax_error.

(** *** Property keys *)

Fixpoint eqb_string (a b : jsstring) : bool :=
  match a, b with
  | [], [] => true
  | x :: a', y :: b' => (x =? y) && eqb_string a' b'
  | _, _ => false
  end.

(** An array index is the canonical decimal numeral of an integer below
    [2^32 - 1]. *)
Definition array_index (key : jsstring) : option N :=
  let n := Digits.value key in
  if forallb Digits.is_digit key && eqb_string (Digits.digits n) key && (n <? 4294967295)
  then Some n else None.

Fixpoint has_key (key : jsstring) (props : list (jsstring * value)) : bool :=
  match props with
  | [] => false
  | (k, _) :: ps => eqb_string k key || has_key key ps
  end.

Fixpoint overwrite (key : jsstring) (v : value) (props : list (jsstring * value))
  : list (jsstring * value) :=
  match props with
  | [] => []
  | (k, w) :: ps =>
      if eqb_string k key then (k, v) :: ps else (k, w) :: overwrite key v ps
  end.

(** Where a new array index goes: before the first key that is not an array
    index or is a larger one. *)
Fixpoint insert_index (i : N) (key : jsstring) (v : value)
  (props : list (jsstring * value)) : list (jsstring * value) :=
  match props with
  | [] => [(key, v)]
  | (k, w) :: ps =>
      match array_index k with
      | Some j => if j <? i then (k, w) :: insert_index i key v ps
                  else (key, v) :: props
      | None => (key, v) :: props
      end
  end.

(** [CreateDataProperty] on an ordinary object. *)
Definition define (key : jsstring) (v : value) (props : list (jsstring * value))
  : list (jsstring * value) :=
  if has_key key props then overwrite key v props
  else
    match array_index key with
    | Some i => insert_index i key v props
    | None => props ++ [(key, v)]
    end.

(** *** Lexical elements *)

(** JSON white space: TAB, LF, CR, SP. *)
Definition is_ws (c : cu) : bool := (c =? 9) || (c =? 10) || (c =? 13) || (c =? 32).

Fixpoint skip_ws (t : jsstring) : jsstring :=
  match t with
  | c :: t' => if is_ws c then skip_ws t' else t
  | [] => []
  end.

Definition hex_value (c : cu) : option N :=
  if Digits.is_digit c then Some (c - 48)
  else if (97 <=? c) && (c <=? 102) then Some (c - 87)
  else if (65 <=? c) && (c <=? 70) then Some (c - 55)
  else None.

Definition hex_digit (n : N) : cu := if n <? 10 then 48 + n else 87 + n.

(** [\uXXXX] with lower-case digits. *)
Definition unicode_escape (c : cu) : jsstring :=
  [ch "\"; ch "u"; hex_digit (c / 4096 mod 16); hex_digit (c / 256 mod 16);
   hex_digit (c / 16 mod 16); hex_digit (c mod 16)].

Definition hex4 (a b c d : cu) : option cu :=
  match hex_value a, hex_value b, hex_value c, hex_value d with
  | Some x, Some y, Some z, Some w => Some (((x * 16 + y) * 16 + z) * 16 + w)
  | _, _, _, _ => None
  end.

(** The characters of a string literal after its opening quote. *)
Fixpoint parse_chars (t : jsstring) : option (jsstring * jsstring) :=
  match t with
  | [] => None
  | c :: t' =>
      if c =? 34 then Some ([], t')
      else if c =? 92 then
        match t' with
        | e :: t'' =>
            let simple (x : cu) :=
              match parse_chars t'' with
              | Some (s, r) => Some (x :: s, r)
              | None => None
              end in
            if e =? 34 then simple 34
            else if e =? 92 then simple 92
            else if e =? 47 then simple 47
            else if e =? 98 then simple 8
            else if e =? 102 then simple 12
            else if e =? 110 then simple 10
            else if e =? 114 then simple 13
            else if e =? 116 then simple 9
            else if e =? 117 then
              match t'' with
              | h1 :: h2 :: h3 :: h4 :: t5 =>
                  match hex4 h1 h2 h3 h4, parse_chars t5 with
                  | Some x, Some (s, r) => Some (x :: s, r)
                  | _, _ => None
                  end
              | _ => None
              end
            else None
        | [] => None
        end
      else if c <? 32 then None
      else
        match parse_chars t' with
        | Some (s, r) => Some (c :: s, r)
        | None => None
        end
  end.

(** The pieces of a number token, [-? int frac? exp?]: each takes its part
    from the head of the text. *)
Definition take_sign (t : jsstring) : bool * jsstring :=
  match t with
  | c :: r => if c =? 45 then (true, r) else (false, t)
  | [] => (false, t)
  end.

(** [0], or a digit from 1 to 9 and the digits that follow. *)
Definition take_int (t : jsstring) : jsstring * jsstring :=
  match t with
  | c :: r => if c =? 48 then ([c], r) else Digits.span_digits t
  | [] => ([], t)
  end.

(** A dot and at least one digit, or nothing. *)
Definition take_frac (t : jsstring) : option (jsstring * jsstring) :=
  match t with
  | c :: r =>
      if c =? 46 then
        match Digits.span_digits r with
        | ([], _) => None
        | (f, r') => Some (f, r')
        end
      else Some ([], t)
  | [] => Some ([], t)
  end.

(** [e] or [E], a sign or none, and at least one digit; or nothing. *)
Definition take_exp (t : jsstring) : option (Z * jsstring) :=
  match t with
  | c :: r =>
      if (c =? 101) || (c =? 69) then
        let (sign, r1) := match r with
                          | d :: r' => if d =? 45 then (true, r')
                                       else if d =? 43 then (false, r')
                                       else (false, r)
                          | [] => (false, r)
                          end in
        match Digits.span_digits r1 with
        | ([], _) => None
        | (ds, r2) => Some (cond_Zopp sign (Z.of_N (Digits.value ds)), r2)
        end
      else Some (0%Z, t)
  | [] => Some (0%Z, t)
  end.

(** The token after its sign, and its value: the digits of [int] and [frac]
    read as one integer, scaled by the power of ten that the exponent and
    the length of [frac] give. *)
Definition number_body (neg : bool) (t1 : jsstring) : option (Num.number * jsstring) :=
  let (int, t2) := take_int t1 in
  match int with
  | [] => None
  | _ :: _ =>
      match take_frac t2 with
      | None => None
      | Some (f, t3) =>
          match take_exp t3 with
          | None => None
          | Some (e, t4) =>
              Some (Num.of_decimal neg (Digits.value (int ++ f))
                                   (e - Z.of_nat (List.length f)), t4)
          end
      end
  end.

Definition parse_number (t : jsstring) : option (Num.number * jsstring) :=
  let (neg, t1) := take_sign t in number_body neg t1.

Definition starts_with (p t : jsstring) : option jsstring :=
  if eqb_string (firstn (List.length p) t) p then Some (skipn (List.length p) t) else None.

(** *** The parser

    [fuel] bounds the number of values, elements and members still to be
    read; a text of [n] characters never needs more than [n + 1]. *)
Fixpoint parse_value (fuel : nat) (t : jsstring) : option (value * jsstring) :=
  match fuel with
  | O => None
  | S f =>
      match skip_ws t with
      | [] => None
      | c :: r =>
          if c =? 123 then
            match skip_ws r with
            | d :: r' => if d =? 125 then Some (Object [], r')
                         else parse_members f [] (d :: r')
            | [] => None
            end
          else if c =? 91 then
            match skip_ws r with
            | d :: r' => if d =? 93 then Some (Array [], r')
                         else parse_elements f [] (d :: r')
            | [] => None
            end
          else if c =? 34 then
            match parse_chars r with
            | Some (s, r') => Some (String s, r')
            | None => None
            end
          else if c =? 110 then
            match starts_with (lit "ull") r with
            | Some r' => Some (Null, r')
            | None => None
            end
          else if c =? 116 then
            match starts_with (lit "rue") r with
            | Some r' => Some (Bool true, r')
            | None => None
            end
          else if c =? 102 then
            match starts_with (lit "alse") r with
            | Some r' => Some (Bool false, r')
            | None => None
            end
          else
            match parse_number (c :: r) with
            | Some (x, r') => Some (Number x, r')
            | None => None
            end
      end
  end

(** The elements of an array from its next element on; [acc] holds the
    elements read so far, last first. *)
with parse_elements (fuel : nat) (acc : list value) (t : jsstring)
  : option (value * jsstring) :=
  match fuel with
  | O => None
  | S f =>
      match parse_value f t with
      | Some (v, r) =>
          match skip_ws r with
          | c :: r' =>
              if c =? 44 then parse_elements f (v :: acc) r'
              else if c =? 93 then Some (Array (rev (v :: acc)), r')
              else None
          | [] => None
          end
      | None => None
      end
  end

(** The members of an object from its next member on; [props] holds the
    properties defined so far. *)
with parse_members (fuel : nat) (props : list (jsstring * value)) (t : jsstring)
  : option (value * jsstring) :=
  match fuel with
  | O => None
  | S f =>
      match skip_ws t with
      | q :: r0 =>
          if q =? 34 then
            match parse_chars r0 with
            | Some (key, r1) =>
                match skip_ws r1 with
                | c :: r2 =>
                    if c =? 58 then
                      match parse_value f r2 with
                      | Some (v, r3) =>
                          match skip_ws r3 with
                          | d :: r4 =>
                              if d =? 44 then parse_members f (define key v props) r4
                              else if d =? 125 then Some (Object (define key v props), r4)
                              else None
                          | [] => None
                          end
                      | None => None
                      end
                    else None
                | [] => None
                end
            | None => None
            end
          else None
      | [] => None
      end
  end.

(** [JSON.parse(t)] *)
Definition parse (t : jsstring) : value + SyntaxError :=
  match parse_value (S (List.length t)) t with
  | Some (v, r) =>
      match skip_ws r with
      | [] => inl v
      | _ :: _ => inr syntax_error
      end
  | None => inr syntax_error
  end.

(** *** [JSON.stringify] *)

Definition is_surrogate (c : cu) : bool := (0xD800 <=? c) && (c <=? 0xDFFF).

Definition quote_unit (c : cu) : jsstring :=
  if c =? 8 then lit "\b"
  else if c =? 9 then lit "\t"
  else if c =? 10 then lit "\n"
  else if c =? 12 then lit "\f"
  else if c =? 13 then lit "\r"
  else if c =? 34 then [ch "\"; 34]
  else if c =? 92 then lit "\\"
  else if (c <? 32) || is_surrogate c then unicode_escape c
  else [c].

(** The body of [QuoteJSONString]: the text is read by code points, so a
    surrogate pair goes through unchanged and a lone surrogate is escaped. *)
Fixpoint quote_chars (s : jsstring) : jsstring :=
  match s with
  | [] => []
  | c :: s' =>
      if Chars.is_high_surrogate c then
        match s' with
        | d :: s'' =>
            if Chars.is_low_surrogate d then c :: d :: quote_chars s''
            else quote_unit c ++ quote_chars s'
        | [] => quote_unit c
        end
      else quote_unit c ++ quote_chars s'
  end.

Definition quote (s : jsstring) : jsstring := 34 :: quote_chars s ++ [34].

Definition is_finite (x : Num.number) : bool :=
  match x with
  | S754_zero _ | S754_finite _ _ _ => true
  | _ => false
  end.

(** [JSON.stringify(v)] for a value built by [JSON.parse], without replacer
    or indentation. *)
Fixpoint stringify (v : value) : jsstring :=
  match v with
  | Null => lit "null"
  | Bool true => lit "true"
  | Bool false => lit "false"
  | Number x => if is_finite x then NumberToString.toString x else lit "null"
  | String s => quote s
  | Array items => ch "[" :: join [ch ","] (map stringify items) ++ [ch "]"]
  | Object props =>
      ch "{" :: join [ch ","] (map (fun p => quote (fst p) ++ ch ":" :: stringify (snd p)) props)
        ++ [ch "}"]
  end.

End JSON.

(** ** The page component *)

Inductive FileType : Type := html | css | json | js | jsx.

Inductive InputMethod : Type := upload | paste.

(** The text of an error: a fixed text; a fixed text followed by the
    message of the SyntaxError that [JSON.parse] threw; or the text of
    line 105, which is [s], then [suffix.toLowerCase()], then [s'].  There
    [String.prototype.toLowerCase] lower-cases every letter of Unicode, by
    the tables of the engine; the text is kept in its parts, so that no
    table is needed. *)
Inductive ErrorText : Type :=
| Text (s : jsstring)
| TextAndMessage (s : jsstring) (e : JSON.SyntaxError)
| TextWithLowerCase (s : jsstring) (suffix : jsstring) (s' : jsstring).

Record ValidationResult : Type :=
  { isValid : bool; error : option ErrorText }.

Record MinificationResult : Type :=
  { minified : jsstring;
    originalSize : N;
    minifiedSize : N;
    reductionPercentage : Num.number }.

(** [type.toUpperCase()] *)
Definition toUpperCase (type : FileType) : jsstring :=
  match type with
  | html => lit "HTML"
  | css => lit "CSS"
  | json => lit "JSON"
  | js => lit "JS"
  | jsx => lit "JSX"
  end.

Definition fileTypeExtensions (type : FileType) : list jsstring :=
  match type with
  | html => [lit ".html"; lit ".htm"]
  | css => [lit ".css"]
  | json => [lit ".json"]
  | js => [lit ".js"]
  | jsx => [lit ".jsx"]
  end.

Definition invalid (e : ErrorText) : ValidationResult :=
  {| isValid := false; error := Some e |}.

Definition valid : ValidationResult := {| isValid := true; error := None |}.

Definition is_empty (t : jsstring) : bool :=
  match t with [] => true | _ :: _ => false end.

Definition validateContent (content : jsstring) (type : FileType) : ValidationResult :=
  if is_empty (trim content) then invalid (Text (lit "Content cannot be empty"))
  else
    match type with
    | html =>
        if negb (test Pat.html_tag content)
        then invalid (Text (lit "Invalid HTML: No valid HTML tags found"))
        else valid
    | css =>
        if negb (test Pat.css_rule (replace Pat.block_comment [] content))
        then invalid (Text (lit "Invalid CSS: No valid CSS rules found"))
        else valid
    | json =>
        match JSON.parse content with
        | inl _ => valid
        | inr e => invalid (TextAndMessage (lit "Invalid " ++ toUpperCase json ++ lit ": ") e)
        end
    | js =>
        if negb (test Pat.js_marker content)
        then invalid (Text (lit "Invalid " ++ toUpperCase js
                              ++ lit ": No valid JavaScript syntax found"))
        else valid
    | jsx =>
        if negb (test Pat.jsx_marker content)
        then invalid (Text (lit "Invalid " ++ toUpperCase jsx
                              ++ lit ": No valid JSX syntax found"))
        else valid
    end.

(** The result is the minified text, or the SyntaxError of [JSON.parse]. *)
Definition mockMinify (content : jsstring) (type : FileType) : jsstring + JSON.SyntaxError :=
  match type with
  | html =>
      inl (trim
             (replace Pat.between_tags (lit "><")
                (replace Pat.spaces (lit " ")
                   (replace Pat.html_comment [] content))))
  | css =>
      inl (trim
             (replace Pat.before_close_brace (lit "}")
                (replace Pat.after_open_brace (lit "{")
                   (replace Pat.after_semicolon (lit ";")
                      (replace Pat.spaces (lit " ")
                         (replace Pat.block_comment [] content))))))
  | json =>
      match JSON.parse content with
      | inl v => inl (JSON.stringify v)
      | inr e => inr e
      end
  | js | jsx =>
      inl (trim
             (replace Pat.before_close_brace (lit "}")
                (replace Pat.after_open_brace (lit "{")
                   (replace Pat.after_semicolon (lit ";")
                      (replace Pat.spaces (lit " ")
                         (replace Pat.block_comment []
                            (replace Pat.line_comment [] content)))))))
  end.

(** The state of the component. *)
Record State : Type :=
  { inputMethod : InputMethod;
    selectedFileType : FileType;
    inputCode : jsstring;
    fileName : jsstring;
    validation : ValidationResult;
    minificationResult : option MinificationResult;
    isProcessing : bool }.

Definition initial : State :=
  {| inputMethod := paste;
     selectedFileType := js;
     inputCode := [];
     fileName := [];
     validation := {| isValid := false; error := None |};
     minificationResult := None;
     isProcessing := false |}.

Definition setValidation (v : ValidationResult) (st : State) : State :=
  {| inputMethod := inputMethod st; selectedFileType := selectedFileType st;
     inputCode := inputCode st; fileName := fileName st; validation := v;
     minificationResult := minificationResult st; isProcessing := isProcessing st |}.

Definition setInputCode (t : jsstring) (st : State) : State :=
  {| inputMethod := inputMethod st; selectedFileType := selectedFileType st;
     inputCode := t; fileName := fileName st; validation := validation st;
     minificationResult := minificationResult st; isProcessing := isProcessing st |}.

Definition setFileName (t : jsstring) (st : State) : State :=
  {| inputMethod := inputMethod st; selectedFileType := selectedFileType st;
     inputCode := inputCode st; fileName := t; validation := validation st;
     minificationResult := minificationResult st; isProcessing := isProcessing st |}.

Definition setSelectedFileType (type : FileType) (st : State) : State :=
  {| inputMethod := inputMethod st; selectedFileType := type;
     inputCode := inputCode st; fileName := fileName st; validation := validation st;
     minificationResult := minificationResult st; isProcessing := isProcessing st |}.

Definition setMinificationResult (r : option MinificationResult) (st : State) : State :=
  {| inputMethod := inputMethod st; selectedFileType := selectedFileType st;
     inputCode := inputCode st; fileName := fileName st; validation := validation st;
     minificationResult := r; isProcessing := isProcessing st |}.

Definition setIsProcessing (b : bool) (st : State) : State :=
  {| inputMethod := inputMethod st; selectedFileType := selectedFileType st;
     inputCode := inputCode st; fileName := fileName st; validation := validation st;
     minificationResult := minificationResult st; isProcessing := b |}.

(** An uploaded file: its name, its size in bytes and the text
    [readAsText] decodes from it. *)
Record File : Type := { name : jsstring; size : N; text : jsstring }.

(** The part of [name] after its last dot ([name.split(".").pop()]); the
    whole name when it has no dot. *)
Fixpoint last_segment (acc : jsstring) (t : jsstring) : jsstring :=
  match t with
  | [] => acc
  | c :: t' => if N.eqb c (ch ".") then last_segment t' t' else last_segment acc t'
  end.

(** [toLowerCase] as the comparison of line 102 needs it: the letters A to
    Z are lower-cased and every other code unit is kept.
    [String.prototype.toLowerCase] changes letters outside ASCII too, and
    the comparison with the accepted suffixes, which are ASCII, comes out
    the same: a code unit outside ASCII stays outside ASCII when it is
    lower-cased, except U+212A, which becomes k, and U+0130, which becomes
    i followed by U+0307, and no accepted suffix holds a k or an i. *)
Definition toLowerCase (t : jsstring) : jsstring :=
  map (fun c => if Chars.upper c then (c + 32)%N else c) t.

Definition includes (l : list jsstring) (t : jsstring) : bool :=
  existsb (JSON.eqb_string t) l.

(** Lines 89 to 122, with the state once the reader has loaded the text.
    The extension is compared in lower case (line 102); the error text of
    line 105 shows it as the engine lower-cases it. *)
Definition handleFileUpload (file : option File) (st : State) : State :=
  match file with
  | None => st
  | Some f =>
      if (1024 * 1024 <? size f)%N then
        setValidation (invalid (Text (lit "File size exceeds 1MB limit"))) st
      else
        let suffix := last_segment (name f) (name f) in
        let fileExtension := ch "." :: toLowerCase suffix in
        let validExtensions := fileTypeExtensions (selectedFileType st) in
        if negb (includes validExtensions fileExtension) then
          setValidation
            (invalid (TextWithLowerCase
                        (lit "File extension .") suffix
                        (lit " does not match selected type "
                           ++ toUpperCase (selectedFileType st)
                           ++ lit ". Expected: "
                           ++ join (lit ", ") validExtensions)))
            st
        else
          setValidation (validateContent (text f) (selectedFileType st))
            (setInputCode (text f) (setFileName (name f) st))
  end.

Definition handleCodeChange (value : jsstring) (st : State) : State :=
  let st' := setInputCode value st in
  match inputMethod st with
  | paste => setValidation (validateContent value (selectedFileType st)) st'
  | upload => st'
  end.

Definition handleFileTypeChange (type : FileType) (st : State) : State :=
  setMinificationResult None
    (setValidation {| isValid := false; error := None |}
       (setFileName [] (setInputCode [] (setSelectedFileType type st)))).

(** Lines 188 to 197: the record built from the input and its minified text. *)
Definition report (code minified : jsstring) : MinificationResult :=
  let originalSize := utf8_length code in
  let minifiedSize := utf8_length minified in
  {| minified := minified;
     originalSize := originalSize;
     minifiedSize := minifiedSize;
     reductionPercentage :=
       Num.round
         (Num.mul
            (Num.div (Num.sub (Num.of_N originalSize) (Num.of_N minifiedSize))
                     (Num.of_N originalSize))
            (Num.of_Z 100)) |}.

(** The state once [handleMinify] has run to its end.  When [mockMinify]
    throws, the promise is rejected after [setIsProcessing(true)]. *)
Definition handleMinify (st : State) : State :=
  if negb (isValid (validation st)) || is_empty (trim (inputCode st)) then st
  else
    match mockMinify (inputCode st) (selectedFileType st) with
    | inl minified =>
        setIsProcessing false
          (setMinificationResult (Some (report (inputCode st) minified))
             (setIsProcessing true st))
    | inr _ => setIsProcessing true st
    end.

(** ** The download (lines 212 to 227) *)

(** The class [[^/.]]. *)
Definition not_slash_dot (c : cu) : bool := negb (N.eqb c (ch "/") || N.eqb c (ch ".")).

(** [t.replace(/\.[^/.]+$/, rep)], for a replacement text without [$].
    The pattern has no flag: the first match is replaced and no other, and
    [$] is the end of the text; so a match is a dot followed by one
    character or more, none of them a slash or a dot, up to the end of
    the text. *)
Fixpoint replace_extension (rep t : jsstring) : jsstring :=
  match t with
  | [] => []
  | c :: t' =>
      if N.eqb c (ch ".") && negb (is_empty t') && forallb not_slash_dot t' then rep
      else c :: replace_extension rep t'
  end.

(** The name under which [downloadFile] offers the minified text, and that
    text; nothing when there is no result.  The file is made of a Blob of
    the text and a link that is clicked and removed. *)
Definition downloadFile (st : State) : option (jsstring * jsstring) :=
  match minificationResult st with
  | None => None
  | Some r =>
      let extension := hd [] (fileTypeExtensions (selectedFileType st)) in
      let downloadFileName :=
        if is_empty (fileName st) then lit "minified.min" ++ extension
        else replace_extension (lit ".min" ++ extension) (fileName st) in
      Some (downloadFileName, minified r)
  end.

(** * Auxiliary notions used in the statements and proofs *)

(** The number of leading characters of [t] in the class [p]. *)
Fixpoint span (p : cu -> bool) (t : jsstring) : nat :=
  match t with
  | c :: t' => if p c then S (span p t') else O
  | [] => O
  end.

Fixpoint prefixb (w t : jsstring) : bool :=
  match w, t with
  | [], _ => true
  | a :: w', c :: t' => N.eqb c a && prefixb w' t'
  | _ :: _, [] => false
  end.

(** The position of the first occurrence of [w] in [t]. *)
Fixpoint find (w t : jsstring) : option nat :=
  if prefixb w t then Some O
  else
    match t with
    | [] => None
    | _ :: t' => option_map S (find w t')
    end.

Definition never_empty (re : regex) : Prop :=
  forall t, match_at re t <> Some O.

(** The patterns [/;\s+/] and [/{\s+/]. *)
Definition after (a : ascii) : regex := [[Chr a; Cls Chars.is_space; Greedy Chars.is_space]].

Definition blank (t : jsstring) : Prop := Forall (fun c => Chars.is_space c = true) t.

(** The marker words of [Pat.js_marker]. *)
Definition markers : list string :=
  ["function"; "const"; "let"; "var"; "class"; "import"; "export"; "=>"]%string.

Definition occurs (w t : jsstring) : Prop := exists a b, t = a ++ w ++ b.

(** A text of the given kind followed by [n] characters of padding. *)
Definition padded (type : FileType) (n : nat) : jsstring :=
  match type with
  | html => lit "<a>" ++ repeat (ch "a") n
  | css => lit "a{}" ++ repeat (ch "a") n
  | json => lit "1" ++ repeat (ch " ") n
  | js | jsx => lit "let " ++ repeat (ch "a") n
  end.

(** The steps of [mockMinify]. *)
Definition strip_html_comments : jsstring -> jsstring := replace Pat.html_comment [].
Definition strip_block_comments : jsstring -> jsstring := replace Pat.block_comment [].
Definition strip_line_comments : jsstring -> jsstring := replace Pat.line_comment [].
Definition collapse : jsstring -> jsstring := replace Pat.spaces (lit " ").
Definition tighten_after (a : ascii) : jsstring -> jsstring := replace (after a) [ch a].
Definition tighten_before_brace : jsstring -> jsstring :=
  replace Pat.before_close_brace (lit "}").
Definition join_tags : jsstring -> jsstring := replace Pat.between_tags (lit "><").

(** Every two neighbours in [t] are related by [R]. *)
Fixpoint neighbours (R : cu -> cu -> Prop) (t : jsstring) : Prop :=
  match t with
  | a :: t' =>
      match t' with
      | b :: _ => R a b /\ neighbours R t'
      | [] => True
      end
  | [] => True
  end.

(** The first character of [t], if there is one, satisfies [P]. *)
Definition first_is (P : cu -> Prop) (t : jsstring) : Prop :=
  match t with
  | c :: _ => P c
  | [] => True
  end.

Definition not_space (c : cu) : Prop := Chars.is_space c = false.

(** The characters next to which white space is deleted. *)
Definition glue (c : cu) : Prop :=
  c = ch ";" \/ c = ch "{" \/ c = ch "}" \/ c = ch "<" \/ c = ch ">".

(** [squeezed t o]: [o] is [t] without some runs of white space, each of
    them all the white space after a glue character or white space right
    before one. *)
Inductive squeezed : jsstring -> jsstring -> Prop :=
| sq_nil : squeezed [] []
| sq_keep (c : cu) (t o : jsstring) :
    squeezed t o -> squeezed (c :: t) (c :: o)
| sq_after (c : cu) (w t o : jsstring) :
    glue c -> blank w -> first_is not_space t -> squeezed t o ->
    squeezed (c :: w ++ t) (c :: o)
| sq_before (w : jsstring) (c : cu) (t o : jsstring) :
    glue c -> blank w -> squeezed t o -> squeezed (w ++ c :: t) (c :: o).

(** Every white-space character is a space and no two of them are
    neighbours. *)
Definition collapsed (t : jsstring) : Prop :=
  Forall (fun c => Chars.is_space c = true -> c = 32%N) t
  /\ neighbours (fun a b => not_space a \/ not_space b) t.

(** The texts [mockMinify] returns for markup, stylesheets and scripts:
    collapsed, without white space at either end. *)
Definition tidy (t : jsstring) : Prop :=
  collapsed t /\ first_is not_space t /\ first_is not_space (rev t).

(** No two slashes are neighbours. *)
Definition no_slashes : jsstring -> Prop :=
  neighbours (fun a b => ~ (a = ch "/" /\ b = ch "/")).

(** No [*] is followed by [/]. *)
Definition no_close : jsstring -> Prop :=
  neighbours (fun a b => ~ (a = ch "*" /\ b = ch "/")).

(** After the first [/*] of the text, if there is one, nothing closes a
    comment. *)
Fixpoint clean (t : jsstring) : Prop :=
  match t with
  | c :: t' =>
      match t' with
      | d :: r => if N.eqb c (ch "/") && N.eqb d (ch "*") then no_close r else clean t'
      | [] => True
      end
  | [] => True
  end.

(** No white space follows the character [a]. *)
Definition tight_after (a : ascii) : jsstring -> Prop :=
  neighbours (fun x y => x = ch a -> not_space y).

(** No white space precedes a closing brace. *)
Definition tight_before_brace : jsstring -> Prop :=
  neighbours (fun x y => y = ch "}" -> not_space x).

(** The steps stylesheets and scripts share, after the comments are gone. *)
Definition finish (t : jsstring) : jsstring :=
  trim (tighten_before_brace (tighten_after "{" (tighten_after ";" (collapse t)))).

(** Not a surrogate. *)
Definition plain (c : cu) : Prop :=
  Chars.is_high_surrogate c = false /\ Chars.is_low_surrogate c = false.

(** The bytes of a character that is not part of a surrogate pair. *)
Definition unit_length (c : cu) : N :=
  if (c <? 0x80)%N then 1%N else if (c <? 0x800)%N then 2%N else 3%N.

(** The bytes [t] adds to a text that ends with a high surrogate, beyond the
    three of that surrogate. *)
Definition utf8_after_high (t : jsstring) : N :=
  match t with
  | d :: t' => if Chars.is_low_surrogate d then (1 + utf8_length t')%N else utf8_length t
  | [] => 0%N
  end.

(** A comment of the kind, for the patterns of [mockMinify]. *)
Definition has_comment (type : FileType) (t : jsstring) : bool :=
  match type with
  | html => test Pat.html_comment t
  | css => test Pat.block_comment t
  | js | jsx => test Pat.line_comment t || test Pat.block_comment t
  | json => false
  end.


(** Every match starts with a character that is not a surrogate and is at
    least as long as the bytes of the replacement. *)
Definition shrinking (re : regex) (rep : jsstring) : Prop :=
  forall c t n, match_at re (c :: t) = Some (S n) ->
                plain c /\ (utf8_length rep <= N.of_nat (S n))%N.

(** The same with every match longer than the bytes of the replacement. *)
Definition strictly_shrinking (re : regex) (rep : jsstring) : Prop :=
  forall c t n, match_at re (c :: t) = Some (S n) ->
                plain c /\ (utf8_length rep <= N.of_nat n)%N.

(** The percentage of line 190 as a function of the two sizes. *)
Definition percentage (original minified : N) : Num.number :=
  Num.round
    (Num.mul
       (Num.div (Num.sub (Num.of_N original) (Num.of_N minified)) (Num.of_N original))
       (Num.of_Z 100)).

(** The integer a Number is, when it is one (either zero is [0]). *)
Definition integer_value (x : Num.number) : option Z :=
  match x with
  | S754_zero _ => Some 0%Z
  | S754_finite s m e =>
      if (0 <=? e)%Z then Some (cond_Zopp s (Zpos m * 2 ^ e))%Z
      else if (Zpos m mod 2 ^ (- e) =? 0)%Z then Some (cond_Zopp s (Zpos m / 2 ^ (- e)))%Z
      else None
  | _ => None
  end.

(** [r] is an integer nearest to [100 * (original - minified) / original]. *)
Definition nearest_percent (original minified : N) (r : Z) : Prop :=
  (2 * Z.abs (100 * (Z.of_N original - Z.of_N minified) - r * Z.of_N original)
   <= Z.of_N original)%Z.

(** A character that cannot continue a number token. *)
Definition stops_number (c : cu) : Prop :=
  Digits.is_digit c = false /\ c <> ch "." /\ c <> ch "e" /\ c <> ch "E".

Definition digit (c : cu) : Prop := Digits.is_digit c = true.

(** One step of [Digits.value]. *)
Definition value_from (a : N) (ds : jsstring) : N :=
  fold_left (fun acc d => (10 * acc + (d - 48))%N) ds a.

(** ** JSON values and their texts *)

(** The property [p] has an array index below [i] for its key. *)
Definition belowb (i : N) (p : jsstring * JSON.value) : bool :=
  match JSON.array_index (fst p) with
  | Some j => (j <? i)%N
  | None => false
  end.

Definition below (i : N) (p : jsstring * JSON.value) : Prop := belowb i p = true.

(** The property lists in property order: built from the left, a new key
    is not among the earlier ones, and an array index comes after smaller
    array indices only. *)
Inductive normal : list (jsstring * JSON.value) -> Prop :=
| normal_nil : normal []
| normal_snoc ps k v :
    normal ps ->
    JSON.has_key k ps = false ->
    (forall i, JSON.array_index k = Some i -> Forall (below i) ps) ->
    normal (ps ++ [(k, v)]).

(** The properties [props] defined one after the other on an object that
    has the properties [acc]. *)
Definition define_all (props acc : list (jsstring * JSON.value)) : list (jsstring * JSON.value) :=
  fold_left (fun a p => JSON.define (fst p) (snd p) a) props acc.

(** A Number of the format: a finite one has a mantissa and an exponent in
    range, and it is not NaN. *)
Definition valid_number (x : Num.number) : Prop :=
  match x with
  | S754_finite _ m e => bounded Num.prec Num.emax m e = true
  | S754_nan => False
  | _ => True
  end.

(** What [JSON.parse] builds: every Number inside [v] is a Number of the
    format and every object has its properties in property order. *)
Fixpoint well_formed (v : JSON.value) : Prop :=
  match v with
  | JSON.Number x => valid_number x
  | JSON.Array items => fold_right (fun x rest => well_formed x /\ rest) True items
  | JSON.Object props =>
      normal props /\ fold_right (fun p rest => well_formed (snd p) /\ rest) True props
  | _ => True
  end.

(** The digits [Number::toString] chooses for the finite Number [x] denote
    a decimal that is read as [x]. *)
Definition reads_back (x : Num.number) : bool :=
  match x with
  | S754_zero _ => true
  | S754_finite s m e =>
      let (d, n) := NumberToString.decimal m e in
      (0 <? d)%Z
      && Num.eqb (Num.of_decimal false (Z.to_N d) (n - NumberToString.ndigits (Z.to_N d)))
                 (S754_finite false m e)
  | _ => false
  end.

(** The value that the text of [v] denotes: a Number that is not finite is
    printed as [null], and a negative zero as [0]. *)
Fixpoint as_printed (v : JSON.value) : JSON.value :=
  match v with
  | JSON.Number x =>
      match x with
      | S754_zero _ => JSON.Number (S754_zero false)
      | S754_finite _ _ _ => v
      | _ => JSON.Null
      end
  | JSON.Array items => JSON.Array (map as_printed items)
  | JSON.Object props => JSON.Object (map (fun p => (fst p, as_printed (snd p))) props)
  | _ => v
  end.

(** Every Number inside [v] is finite and is no negative zero. *)
Fixpoint plain_numbers (v : JSON.value) : bool :=
  match v with
  | JSON.Number x =>
      match x with
      | S754_zero s => negb s
      | S754_finite _ _ _ => true
      | _ => false
      end
  | JSON.Array items => forallb plain_numbers items
  | JSON.Object props => forallb (fun p => plain_numbers (snd p)) props
  | _ => true
  end.

(** The fuel that reading the text of [v] takes. *)
Fixpoint need (v : JSON.value) : nat :=
  match v with
  | JSON.Array items => S (fold_right (fun x n => S (need x) + n)%nat O items)
  | JSON.Object props => S (fold_right (fun p n => S (need (snd p)) + n)%nat O props)
  | _ => 1%nat
  end.

(** Induction on a value, with the hypothesis for every item of an array
    and every property of an object. *)
Definition value_induction (P : JSON.value -> Prop)
  (HNull : P JSON.Null)
  (HBool : forall b, P (JSON.Bool b))
  (HNumber : forall x, P (JSON.Number x))
  (HString : forall s, P (JSON.String s))
  (HArray : forall items, Forall P items -> P (JSON.Array items))
  (HObject : forall props, Forall (fun p => P (snd p)) props -> P (JSON.Object props))
  : forall v, P v :=
  fix go (v : JSON.value) : P v :=
    match v with
    | JSON.Null => HNull
    | JSON.Bool b => HBool b
    | JSON.Number x => HNumber x
    | JSON.String s => HString s
    | JSON.Array items =>
        HArray items
          ((fix all (l : list JSON.value) : Forall P l :=
              match l with
              | [] => Forall_nil P
              | x :: l' => Forall_cons x (go x) (all l')
              end) items)
    | JSON.Object props =>
        HObject props
          ((fix all (l : list (jsstring * JSON.value)) : Forall (fun p => P (snd p)) l :=
              match l with
              | [] => Forall_nil _
              | p :: l' => Forall_cons p (go (snd p)) (all l')
              end) props)
    end.

(** What may follow a value in a text: nothing, or a character that ends a
    number token and is no white space. *)
Definition delimiter (c : cu) : Prop := c = ch "," \/ c = ch "]" \/ c = ch "}".

(** The text of [v], followed by a delimiter or by nothing, is read as the
    value it denotes, with the fuel [need v] or more. *)
Definition reads_well (v : JSON.value) : Prop :=
  forall (fuel : nat) (rest : jsstring),
    (need v <= fuel)%nat -> first_is delimiter rest ->
    JSON.parse_value fuel (JSON.stringify v ++ rest) = Some (as_printed v, rest).

(** The exponent of the format for a Number of [z] binary digits in all. *)
Abbreviation fexp := (SpecFloat.fexp Num.prec Num.emax).

(** Boolean tests in the hypotheses, as propositions. *)
Ltac bool_to_Prop :=
  repeat match goal with
    | H : _ && _ = true |- _ => apply andb_prop in H; destruct H
    | H : _ || _ = true |- _ => apply orb_prop in H; destruct H
    | H : _ && _ = false |- _ => apply andb_false_iff in H; destruct H
    | H : _ || _ = false |- _ => apply orb_false_iff in H; destruct H
    | H : negb _ = true |- _ => apply negb_true_iff in H
    | H : negb _ = false |- _ => apply negb_false_iff in H
    | H : (_ <=? _)%N = true |- _ => apply N.leb_le in H
    | H : (_ <=? _)%N = false |- _ => apply N.leb_gt in H
    | H : (_ <? _)%N = true |- _ => apply N.ltb_lt in H
    | H : (_ <? _)%N = false |- _ => apply N.ltb_ge in H
    | H : (_ =? _)%N = true |- _ => apply N.eqb_eq in H
    | H : (_ =? _)%N = false |- _ => apply N.eqb_neq in H
    end.


(** The place of the fraction [a / b] between [m] and [m + 1], as a
    location: on [m], below the middle, on it, above it. *)
Definition located (a b m : Z) (l : location) : Prop :=
  match l with
  | loc_Exact => a = (m * b)%Z
  | loc_Inexact Lt => (m * b < a /\ 2 * a < (2 * m + 1) * b)%Z
  | loc_Inexact Eq => (2 * a = (2 * m + 1) * b)%Z
  | loc_Inexact Gt => ((2 * m + 1) * b < 2 * a /\ a < (m + 1) * b)%Z
  end.


(** ** Notions for further properties of the component *)

(** A text in which [opening] is followed, later, by [closing]. *)
Definition encloses (opening closing t : jsstring) : Prop :=
  exists a c b, t = a ++ opening ++ c ++ closing ++ b.


(** The characters of [t] that are no white space, in their order. *)
Definition solid (t : jsstring) : jsstring :=
  filter (fun c => negb (Chars.is_space c)) t.

(** [content] after the first steps of [mockMinify] for the kind, which
    delete every match of its comment patterns, wherever it lies (in a
    script, also inside a string literal). *)
Definition uncommented (type : FileType) (content : jsstring) : jsstring :=
  match type with
  | html => strip_html_comments content
  | css => strip_block_comments content
  | js | jsx => strip_block_comments (strip_line_comments content)
  | json => content
  end.

(** [fileExtension] in [handleFileUpload], as it is compared with the
    extensions of the kind: a dot and the part of the name after its last
    dot, with the letters A to Z in lower case. *)
Definition fileExtension (name : jsstring) : jsstring :=
  ch "." :: toLowerCase (last_segment name name).

(** No code unit of [t] is a control character. *)
Definition above_controls (t : jsstring) : Prop := Forall (fun c => (32 <= c)%N) t.

(** The Number that the integer [a] is, for [0 < a < 2^53], with the sign
    [s]: its mantissa has 53 binary digits. *)
Definition exact_float (s : bool) (a : Z) : Num.number :=
  S754_finite s (Z.to_pos (a * 2 ^ (53 - Zdigits2 a))) (Zdigits2 a - 53).

(** [s] is [t] with some of its characters left out. *)
Inductive subsequence : jsstring -> jsstring -> Prop :=
| subsequence_nil : subsequence [] []
| subsequence_keep (c : cu) (s t : jsstring) :
    subsequence s t -> subsequence (c :: s) (c :: t)
| subsequence_drop (c : cu) (s t : jsstring) :
    subsequence s t -> subsequence s (c :: t).

(** ** The model on small inputs *)

Example replace_spaces :
  replace Pat.spaces (lit " ") (lit "a  b
 c") = lit "a b c".
Proof. reflexivity. Qed.

Example round_half_up : Num.round (Num.div (Num.of_Z 5) (Num.of_Z 2)) = Num.of_Z 3.
Proof. reflexivity. Qed.

Example round_neg_half : Num.round (Num.div (Num.of_Z (-5)) (Num.of_Z 2)) = Num.of_Z (-2).
Proof. reflexivity. Qed.

Example round_neg_small : Num.round (Num.div (Num.of_Z (-1)) (Num.of_Z 4)) = S754_zero true.
Proof. reflexivity. Qed.

Example one_tenth :
  Num.of_decimal false 1 (-1) = S754_finite false 7205759403792794 (-56).
Proof. reflexivity. Qed.

Example too_large : Num.of_decimal false 1 999 = S754_infinity false.
Proof. vm_compute. reflexivity. Qed.

Example toString_tenth :
  NumberToString.toString (Num.of_decimal false 1 (-1)) = lit "0.1".
Proof. vm_compute. reflexivity. Qed.

Example toString_big :
  NumberToString.toString (Num.of_decimal false 1 21) = lit "1e+21".
Proof. vm_compute. reflexivity. Qed.

Example toString_1e20 :
  NumberToString.toString (Num.of_decimal false 1 20) = lit "100000000000000000000".
Proof. vm_compute. reflexivity. Qed.

Example toString_third :
  NumberToString.toString (Num.div (Num.of_Z 1) (Num.of_Z 3)) = lit "0.3333333333333333".
Proof. vm_compute. reflexivity. Qed.

Example toString_small :
  NumberToString.toString (Num.of_decimal true 1 (-7)) = lit "-1e-7".
Proof. vm_compute. reflexivity. Qed.

Example toString_sum :
  NumberToString.toString (Num.of_decimal false 30000000000000004 (-17)) = lit "0.30000000000000004".
Proof. vm_compute. reflexivity. Qed.

Example toString_long :
  NumberToString.toString (Num.of_decimal false 123456789012345678901234567890 0)
  = lit "1.2345678901234568e+29".
Proof. vm_compute. reflexivity. Qed.

Example toString_1000 :
  NumberToString.toString (Num.of_Z 1000) = lit "1000".
Proof. vm_compute. reflexivity. Qed.

Example toString_12_5 :
  NumberToString.toString (Num.of_decimal false 125 (-1)) = lit "12.5".
Proof. vm_compute. reflexivity. Qed.

Example json_fixture :
  option_map JSON.stringify
    (match JSON.parse (litq "{'a': 1, 'b': [1,2,3]}") with inl v => Some v | inr _ => None end)
  = Some (litq "{'a':1,'b':[1,2,3]}").
Proof. vm_compute. reflexivity. Qed.

(** * Facts about the platform functions *)

(** ** Lists of code units *)

Lemma prefixb_app (w t : jsstring) : prefixb w (w ++ t) = true.
Proof.
  induction w as [|a w IH]; simpl; [reflexivity|].
  now rewrite N.eqb_refl, IH.
Qed.

Lemma prefixb_spec (w t : jsstring) :
  prefixb w t = true <-> exists r, t = w ++ r.
Proof.
  split.
  - revert t; induction w as [|a w IH]; intros t H; simpl in *.
    + now exists t.
    + destruct t as [|c t]; [discriminate|].
      apply andb_prop in H as [H1 H2]. apply N.eqb_eq in H1; subst c.
      destruct (IH _ H2) as [r ->]. now exists r.
  - intros [r ->]. apply prefixb_app.
Qed.

Lemma span_le (p : cu -> bool) (t : jsstring) : (span p t <= List.length t)%nat.
Proof. induction t as [|c t IH]; simpl; [lia|]. destruct (p c); simpl; lia. Qed.

Lemma span_skipn_head (p : cu -> bool) (t : jsstring) :
  match skipn (span p t) t with
  | c :: _ => p c = false
  | [] => True
  end.
Proof.
  induction t as [|c t IH]; simpl; [exact I|].
  destruct (p c) eqn:E; simpl; [exact IH | exact E].
Qed.

Lemma span_firstn (p : cu -> bool) (t : jsstring) :
  Forall (fun c => p c = true) (firstn (span p t) t).
Proof.
  induction t as [|c t IH]; simpl; [constructor|].
  destruct (p c) eqn:E; simpl; [constructor; assumption | constructor].
Qed.

Lemma find_le (w t : jsstring) (i : nat) :
  find w t = Some i -> (i + List.length w <= List.length t)%nat.
Proof.
  revert i; induction t as [|c t IH]; intros i H; simpl in H.
  - destruct w; simpl in H; [injection H as <-; simpl; lia | discriminate].
  - destruct (prefixb w (c :: t)) eqn:E.
    + injection H as <-. apply prefixb_spec in E as [r E].
      rewrite E, length_app. lia.
    + destruct (find w t) as [j|]; simpl in H; [|discriminate].
      injection H as <-. specialize (IH j eq_refl). simpl. lia.
Qed.

(** ** The matcher on the shapes that occur in the patterns *)

Module RegexFacts.

Import Chars.

Lemma match_word (w : list ascii) (r : list atom) (t : jsstring) :
  match_seq (map Chr w ++ r) t
  = if prefixb (map ch w) t
    then option_map (Nat.add (List.length w)) (match_seq r (skipn (List.length w) t))
    else None.
Proof.
  revert t; induction w as [|a w IH]; intros t; simpl.
  - now destruct (match_seq r t).
  - destruct t as [|c t]; [reflexivity|].
    destruct (N.eqb c (ch a)); simpl; [|reflexivity].
    rewrite IH. destruct (prefixb (map ch w) t); [|reflexivity].
    now destruct (match_seq r (skipn (List.length w) t)).
Qed.

Lemma match_greedy_end (p : cu -> bool) (t : jsstring) :
  match_seq [Greedy p] t = Some (span p t).
Proof.
  induction t as [|c t IH]; simpl; [reflexivity|].
  destruct (p c); [|reflexivity].
  simpl in IH. now rewrite IH.
Qed.

Lemma match_greedy_eol (t : jsstring) :
  match_seq [Greedy dot; EndOfLine] t = Some (span dot t).
Proof.
  induction t as [|c t IH]; simpl; [reflexivity|].
  unfold dot at 1 3. destruct (is_line_terminator c) eqn:E; simpl.
  - reflexivity.
  - simpl in IH. now rewrite IH.
Qed.

(** A greedy repetition followed by a character outside its class: only
    the longest repetition can be followed by that character. *)
Lemma match_greedy_chr (p : cu -> bool) (a : ascii) (t : jsstring) :
  p (ch a) = false ->
  match_seq [Greedy p; Chr a] t
  = match skipn (span p t) t with
    | c :: _ => if N.eqb c (ch a) then Some (S (span p t)) else None
    | [] => None
    end.
Proof.
  intros Hp. induction t as [|c t IH]; simpl; [reflexivity|].
  destruct (p c) eqn:E; simpl.
  - simpl in IH. rewrite IH.
    destruct (skipn (span p t) t) as [|d r]; simpl.
    + destruct (N.eqb_spec c (ch a)); [congruence | reflexivity].
    + destruct (N.eqb d (ch a)); [reflexivity|].
      destruct (N.eqb_spec c (ch a)); [congruence | reflexivity].
  - now destruct (N.eqb c (ch a)).
Qed.

(** A lazy repetition of any character followed by a word: the match ends
    with the first occurrence of the word. *)
Lemma match_lazy_word (w : list ascii) (t : jsstring) :
  match_seq (Lazy any :: map Chr w) t
  = option_map (fun i => (i + List.length w)%nat) (find (map ch w) t).
Proof.
  induction t as [|c t IH].
  - simpl. rewrite <- (app_nil_r (map Chr w)), match_word. simpl.
    destruct (prefixb (map ch w) []); simpl; [|reflexivity].
    f_equal; lia.
  - change (match_seq (Lazy any :: map Chr w) (c :: t))
      with (match match_seq (map Chr w) (c :: t) with
            | Some n => Some n
            | None => option_map S (match_seq (Lazy any :: map Chr w) t)
            end).
    rewrite IH. rewrite <- (app_nil_r (map Chr w)) at 1. rewrite match_word.
    cbn [find]. destruct (prefixb (map ch w) (c :: t)); simpl.
    + f_equal. lia.
    + now destruct (find (map ch w) t).
Qed.

Lemma match_chr (a : ascii) (r : list atom) (c : cu) (t : jsstring) :
  match_seq (Chr a :: r) (c :: t)
  = if N.eqb c (ch a) then option_map S (match_seq r t) else None.
Proof. reflexivity. Qed.

Lemma match_cls (p : cu -> bool) (r : list atom) (c : cu) (t : jsstring) :
  match_seq (Cls p :: r) (c :: t) = if p c then option_map S (match_seq r t) else None.
Proof. reflexivity. Qed.

Lemma match_one (r : list atom) (t : jsstring) : match_at [r] t = match_seq r t.
Proof. simpl. now destruct (match_seq r t). Qed.

(** No match is longer than the text. *)
Lemma match_seq_le (r : list atom) :
  forall (t : jsstring) (n : nat), match_seq r t = Some n -> (n <= List.length t)%nat.
Proof.
  induction r as [|x r IH]; intros t n H.
  - injection H as <-. lia.
  - destruct x as [a|p|p|p|].
    + destruct t as [|c t]; [discriminate|]. rewrite match_chr in H.
      destruct (N.eqb c (ch a)); [|discriminate].
      destruct (match_seq r t) as [k|] eqn:E; [|discriminate].
      injection H as <-. apply IH in E. simpl; lia.
    + destruct t as [|c t]; [discriminate|]. rewrite match_cls in H.
      destruct (p c); [|discriminate].
      destruct (match_seq r t) as [k|] eqn:E; [|discriminate].
      injection H as <-. apply IH in E. simpl; lia.
    + revert n H; induction t as [|c t IHt]; intros n H.
      * apply (IH [] n H).
      * simpl in H. destruct (p c).
        -- match type of H with
           | match ?s with _ => _ end = _ => destruct s as [k|] eqn:E
           end.
           ++ injection H as <-. apply IHt in E. simpl; lia.
           ++ apply (IH (c :: t) n H).
        -- apply (IH (c :: t) n H).
    + revert n H; induction t as [|c t IHt]; intros n H.
      * simpl in H. destruct (match_seq r []) as [k|] eqn:E; [|discriminate].
        injection H as <-. apply (IH [] k E).
      * simpl in H. destruct (match_seq r (c :: t)) as [k|] eqn:E.
        -- injection H as <-. apply (IH _ _ E).
        -- destruct (p c); [|discriminate].
           match type of H with
           | option_map S ?s = _ => destruct s as [j|] eqn:E'
           end; [|discriminate].
           injection H as <-. apply IHt in E'. simpl; lia.
    + simpl in H. destruct (at_eol t); [|discriminate]. apply (IH _ _ H).
Qed.

Lemma match_at_le (re : regex) (t : jsstring) (n : nat) :
  match_at re t = Some n -> (n <= List.length t)%nat.
Proof.
  induction re as [|r re IH]; simpl; [discriminate|].
  destruct (match_seq r t) as [k|] eqn:E.
  - intros [= <-]. apply (match_seq_le _ _ _ E).
  - exact IH.
Qed.

(** *** [replace], one step at a time *)

Lemma replace_from_skip (re : regex) (rep : jsstring) :
  never_empty re ->
  forall (n : nat) (t : jsstring), (n <= List.length t)%nat ->
    replace_from re rep n t = replace re rep (skipn n t).
Proof.
  intros Hne. induction n as [|n IH]; intros t Hn; [reflexivity|].
  destruct t as [|c t]; simpl in Hn; [lia|].
  simpl. apply IH. lia.
Qed.

Lemma replace_nil (re : regex) (rep : jsstring) :
  never_empty re -> replace re rep [] = [].
Proof.
  intros Hne. unfold replace; simpl.
  destruct (match_at re []) as [n|] eqn:E; [|reflexivity].
  pose proof (match_at_le _ _ _ E) as Hn. simpl in Hn.
  assert (n = O) by lia. subst n. now destruct (Hne []).
Qed.

Lemma replace_nomatch (re : regex) (rep : jsstring) (c : cu) (t : jsstring) :
  match_at re (c :: t) = None ->
  replace re rep (c :: t) = c :: replace re rep t.
Proof. intros H. unfold replace; simpl. now rewrite H. Qed.

Lemma replace_match (re : regex) (rep : jsstring) (c : cu) (t : jsstring) (n : nat) :
  never_empty re ->
  match_at re (c :: t) = Some (S n) ->
  replace re rep (c :: t) = rep ++ replace re rep (skipn n t).
Proof.
  intros Hne H. unfold replace at 1; simpl. rewrite H.
  rewrite replace_from_skip; [reflexivity | assumption |].
  apply match_at_le in H. simpl in H. lia.
Qed.

(** Where nothing matches, nothing is replaced. *)
Lemma replace_id (re : regex) (rep : jsstring) (t : jsstring) :
  test re t = false -> replace re rep t = t.
Proof.
  induction t as [|c t IH]; simpl; intros H.
  - unfold replace; simpl. now destruct (match_at re []).
  - destruct (match_at re (c :: t)) eqn:E; [discriminate|].
    rewrite replace_nomatch by assumption. now rewrite IH.
Qed.

(** *** The patterns of the source *)

Lemma match_spaces (t : jsstring) :
  match_at Pat.spaces t
  = match t with
    | c :: t' => if is_space c then Some (S (span is_space t')) else None
    | [] => None
    end.
Proof.
  unfold Pat.spaces. rewrite match_one. destruct t as [|c t]; [reflexivity|].
  rewrite match_cls, match_greedy_end. reflexivity.
Qed.

Lemma match_after (a : ascii) (t : jsstring) :
  match_at (after a) t
  = match t with
    | c :: d :: t' =>
        if N.eqb c (ch a) && is_space d then Some (S (S (span is_space t'))) else None
    | _ => None
    end.
Proof.
  unfold after. rewrite match_one. destruct t as [|c t]; [reflexivity|].
  rewrite match_chr. destruct (N.eqb c (ch a)); cbn [andb]; [|now destruct t].
  destruct t as [|d t]; [reflexivity|].
  rewrite match_cls, match_greedy_end. now destruct (is_space d).
Qed.

Lemma match_before_close_brace (t : jsstring) :
  match_at Pat.before_close_brace t
  = match t with
    | c :: t' =>
        if is_space c then
          match skipn (span is_space t') t' with
          | d :: _ => if N.eqb d (ch "}") then Some (S (S (span is_space t'))) else None
          | [] => None
          end
        else None
    | [] => None
    end.
Proof.
  unfold Pat.before_close_brace. rewrite match_one. destruct t as [|c t]; [reflexivity|].
  rewrite match_cls. destruct (is_space c); [|reflexivity].
  rewrite match_greedy_chr by reflexivity.
  destruct (skipn (span is_space t) t) as [|d r]; [reflexivity|].
  now destruct (N.eqb d (ch "}")).
Qed.

Lemma match_between_tags (t : jsstring) :
  match_at Pat.between_tags t
  = match t with
    | c :: d :: t' =>
        if N.eqb c (ch ">") && is_space d then
          match skipn (span is_space t') t' with
          | e :: _ => if N.eqb e (ch "<") then Some (S (S (S (span is_space t')))) else None
          | [] => None
          end
        else None
    | _ => None
    end.
Proof.
  unfold Pat.between_tags. rewrite match_one. destruct t as [|c t]; [reflexivity|].
  rewrite match_chr. destruct (N.eqb c (ch ">")); cbn [andb]; [|now destruct t].
  destruct t as [|d t]; [reflexivity|].
  rewrite match_cls. destruct (is_space d); [|reflexivity].
  rewrite match_greedy_chr by reflexivity.
  destruct (skipn (span is_space t) t) as [|e r]; [reflexivity|].
  now destruct (N.eqb e (ch "<")).
Qed.

Lemma match_line_comment (t : jsstring) :
  match_at Pat.line_comment t
  = match t with
    | c :: d :: t' =>
        if N.eqb c (ch "/") && N.eqb d (ch "/") then Some (S (S (span dot t'))) else None
    | _ => None
    end.
Proof.
  unfold Pat.line_comment. rewrite match_one. destruct t as [|c t]; [reflexivity|].
  rewrite match_chr. destruct (N.eqb c (ch "/")); cbn [andb]; [|now destruct t].
  destruct t as [|d t]; [reflexivity|].
  rewrite match_chr. destruct (N.eqb d (ch "/")); [|reflexivity].
  now rewrite match_greedy_eol.
Qed.

Lemma match_block_comment (t : jsstring) :
  match_at Pat.block_comment t
  = match t with
    | c :: d :: t' =>
        if N.eqb c (ch "/") && N.eqb d (ch "*")
        then option_map (fun i => S (S (i + 2))) (find (lit "*/") t')
        else None
    | _ => None
    end.
Proof.
  unfold Pat.block_comment. rewrite match_one. destruct t as [|c t]; [reflexivity|].
  rewrite match_chr. destruct (N.eqb c (ch "/")); cbn [andb]; [|now destruct t].
  destruct t as [|d t]; [reflexivity|].
  rewrite match_chr. destruct (N.eqb d (ch "*")); [|reflexivity].
  rewrite (match_lazy_word ["*"; "/"]%char).
  change (map ch ["*"; "/"]%char) with (lit "*/").
  now destruct (find (lit "*/") t).
Qed.

Lemma match_html_comment (t : jsstring) :
  match_at Pat.html_comment t
  = if prefixb (lit "<!--") t
    then option_map (fun i => (4 + (i + 3))%nat) (find (lit "-->") (skipn 4 t))
    else None.
Proof.
  unfold Pat.html_comment. rewrite match_one.
  change (match_seq (map Chr ["<"; "!"; "-"; "-"]%char
                       ++ Lazy any :: map Chr ["-"; "-"; ">"]%char) t
          = if prefixb (lit "<!--") t
            then option_map (fun i => (4 + (i + 3))%nat) (find (lit "-->") (skipn 4 t))
            else None).
  rewrite match_word.
  change (map ch ["<"; "!"; "-"; "-"]%char) with (lit "<!--").
  destruct (prefixb (lit "<!--") t); [|reflexivity].
  rewrite match_lazy_word. change (map ch ["-"; "-"; ">"]%char) with (lit "-->").
  cbn [List.length].
  now destruct (find (lit "-->") (skipn 4 t)).
Qed.

Lemma never_empty_spaces : never_empty Pat.spaces.
Proof. intros t. rewrite match_spaces. destruct t as [|c t]; [|destruct (is_space c)]; discriminate. Qed.

Lemma never_empty_after (a : ascii) : never_empty (after a).
Proof.
  intros t. rewrite match_after. destruct t as [|c [|d t]]; try discriminate.
  destruct (N.eqb c (ch a) && is_space d); discriminate.
Qed.

Lemma never_empty_before_close_brace : never_empty Pat.before_close_brace.
Proof.
  intros t. rewrite match_before_close_brace. destruct t as [|c t]; [discriminate|].
  destruct (is_space c); [|discriminate].
  destruct (skipn (span is_space t) t) as [|d r]; [discriminate|].
  destruct (N.eqb d (ch "}")); discriminate.
Qed.

Lemma never_empty_between_tags : never_empty Pat.between_tags.
Proof.
  intros t. rewrite match_between_tags. destruct t as [|c [|d t]]; try discriminate.
  destruct (N.eqb c (ch ">") && is_space d); [|discriminate].
  destruct (skipn (span is_space t) t) as [|e r]; [discriminate|].
  destruct (N.eqb e (ch "<")); discriminate.
Qed.

Lemma never_empty_line_comment : never_empty Pat.line_comment.
Proof.
  intros t. rewrite match_line_comment. destruct t as [|c [|d t]]; try discriminate.
  destruct (N.eqb c (ch "/") && N.eqb d (ch "/")); discriminate.
Qed.

Lemma never_empty_block_comment : never_empty Pat.block_comment.
Proof.
  intros t. rewrite match_block_comment. destruct t as [|c [|d t]]; try discriminate.
  destruct (N.eqb c (ch "/") && N.eqb d (ch "*")); [|discriminate].
  destruct (find (lit "*/") t); discriminate.
Qed.

Lemma never_empty_html_comment : never_empty Pat.html_comment.
Proof.
  intros t. rewrite match_html_comment.
  destruct (prefixb (lit "<!--") t); [|discriminate].
  destruct (find (lit "-->") (skipn 4 t)); discriminate.
Qed.

End RegexFacts.

Import RegexFacts.

(** ** [trim] *)

Lemma trimStart_blank (t : jsstring) : blank t -> trimStart t = [].
Proof.
  induction 1 as [|c t Hc _ IH]; simpl; [reflexivity|]. now rewrite Hc.
Qed.

Lemma trimStart_nil (t : jsstring) : trimStart t = [] -> blank t.
Proof.
  induction t as [|c t IH]; simpl; intros H; [constructor|].
  destruct (Chars.is_space c) eqn:E; [|discriminate].
  constructor; [assumption | now apply IH].
Qed.

Lemma blank_rev (t : jsstring) : blank t -> blank (rev t).
Proof. apply Forall_rev. Qed.

Lemma trim_blank (t : jsstring) : blank t -> trim t = [].
Proof.
  intros H. unfold trim, trimEnd. rewrite (trimStart_blank _ H). reflexivity.
Qed.

(** [trimStart] keeps a suffix. *)
Lemma trimStart_suffix (t : jsstring) :
  exists a, blank a /\ t = a ++ trimStart t.
Proof.
  induction t as [|c t (a & Ha & E)]; simpl.
  - exists []. split; [constructor | reflexivity].
  - destruct (Chars.is_space c) eqn:Hc.
    + exists (c :: a). split; [now constructor | simpl; now rewrite <- E].
    + exists []. split; [constructor | reflexivity].
Qed.

Lemma trimEnd_prefix (t : jsstring) :
  exists b, blank b /\ t = trimEnd t ++ b.
Proof.
  unfold trimEnd. destruct (trimStart_suffix (rev t)) as (a & Ha & E).
  exists (rev a). split; [now apply blank_rev|].
  rewrite <- rev_app_distr, <- E. now rewrite rev_involutive.
Qed.

(** [trim] keeps the part between the leading and the trailing blanks. *)
Lemma trim_infix (t : jsstring) :
  exists a b, blank a /\ blank b /\ t = a ++ trim t ++ b.
Proof.
  destruct (trimStart_suffix t) as (a & Ha & E).
  destruct (trimEnd_prefix (trimStart t)) as (b & Hb & E').
  exists a, b. repeat split; try assumption.
  unfold trim. now rewrite <- E', <- E.
Qed.

Lemma trim_nil (t : jsstring) : trim t = [] -> blank t.
Proof.
  intros H. destruct (trim_infix t) as (a & b & Ha & Hb & E).
  rewrite H in E. rewrite E. apply Forall_app. split; assumption.
Qed.

Lemma is_empty_trim (t : jsstring) :
  is_empty (trim t) = true <-> blank t.
Proof.
  split.
  - intros H. apply trim_nil. now destruct (trim t).
  - intros H. now rewrite (trim_blank _ H).
Qed.

(** ** [test] *)

Lemma test_here (re : regex) (t : jsstring) (n : nat) :
  match_at re t = Some n -> test re t = true.
Proof. intros H. destruct t; simpl; now rewrite H. Qed.

Lemma test_later (re : regex) (a t : jsstring) :
  test re t = true -> test re (a ++ t) = true.
Proof.
  intros H. induction a as [|c a IH]; simpl; [assumption|].
  destruct (match_at re (c :: a ++ t)); [reflexivity | assumption].
Qed.

Lemma test_spec (re : regex) (t : jsstring) :
  test re t = true <-> exists a s n, t = a ++ s /\ match_at re s = Some n.
Proof.
  split.
  - induction t as [|c t IH]; simpl.
    + destruct (match_at re []) as [n|] eqn:E; [|discriminate].
      intros _. now exists [], [], n.
    + destruct (match_at re (c :: t)) as [n|] eqn:E.
      * intros _. now exists [], (c :: t), n.
      * intros H. destruct (IH H) as (a & s & n & -> & Hs).
        now exists (c :: a), s, n.
  - intros (a & s & n & -> & H). apply test_later. apply (test_here _ _ _ H).
Qed.

Lemma match_at_in (re : regex) (r : list atom) (t : jsstring) (n : nat) :
  In r re -> match_seq r t = Some n -> exists k, match_at re t = Some k.
Proof.
  induction re as [|r' re IH]; simpl; [contradiction|].
  intros [-> | Hin] H.
  - rewrite H. now exists n.
  - destruct (match_seq r' t) as [k|]; [now exists k | now apply IH].
Qed.

Lemma match_seq_word (s : string) (t : jsstring) :
  match_seq (Pat.word s) (lit s ++ t) = Some (String.length s).
Proof.
  unfold Pat.word. rewrite <- (app_nil_r (map Chr _)), match_word.
  change (map ch (list_ascii_of_string s)) with (lit s).
  rewrite prefixb_app. simpl. f_equal.
  rewrite Nat.add_0_r. clear t. induction s; simpl; congruence.
Qed.

Lemma test_js_marker (m : string) (t : jsstring) :
  In m markers -> occurs (lit m) t -> test Pat.js_marker t = true.
Proof.
  intros Hm (a & b & ->). apply test_later.
  destruct (match_at_in Pat.js_marker (Pat.word m) (lit m ++ b) (String.length m))
    as [k Hk].
  - change Pat.js_marker with (map Pat.word markers). now apply in_map.
  - apply match_seq_word.
  - apply (test_here _ _ _ Hk).
Qed.

Lemma marker_not_blank (m : string) (t : jsstring) :
  In m markers -> occurs (lit m) t -> ~ blank t.
Proof.
  intros Hm (a & b & ->) H.
  apply Forall_app in H as [_ H]. apply Forall_app in H as [H _].
  simpl in Hm.
  repeat (destruct Hm as [<- | Hm]; [inversion H; discriminate|]).
  contradiction.
Qed.

(** ** Sizes *)

Lemma utf8_length_ascii (c : cu) (t : jsstring) :
  (c < 128)%N -> utf8_length (c :: t) = (1 + utf8_length t)%N.
Proof.
  intros H. cbn [utf8_length]. apply N.ltb_lt in H. now rewrite H.
Qed.

Lemma utf8_length_repeat (c : cu) (n : nat) :
  (c < 128)%N -> utf8_length (repeat c n) = N.of_nat n.
Proof.
  intros H. induction n as [|n IH]; [reflexivity|].
  cbn [repeat]. rewrite utf8_length_ascii, IH by assumption. lia.
Qed.

Lemma utf8_length_lit_app (s : string) (t : jsstring) :
  Forall (fun c => (c < 128)%N) (lit s) ->
  utf8_length (lit s ++ t) = (N.of_nat (String.length s) + utf8_length t)%N.
Proof.
  unfold lit. induction s as [|a s IH]; intros H; [reflexivity|].
  cbn [list_ascii_of_string map app String.length] in *.
  inversion H; subst. rewrite utf8_length_ascii by assumption.
  rewrite IH by assumption. lia.
Qed.

(** ** Texts of any size that pass validation *)

Lemma skip_ws_spaces (n : nat) : JSON.skip_ws (repeat (ch " ") n) = [].
Proof. induction n as [|n IH]; [reflexivity | exact IH]. Qed.

Lemma span_digits_spaces (n : nat) :
  Digits.span_digits (repeat (ch " ") n) = ([], repeat (ch " ") n).
Proof. destruct n; reflexivity. Qed.

Lemma parse_one_padded (n : nat) :
  JSON.parse (lit "1" ++ repeat (ch " ") n) = inl (JSON.Number (Num.of_decimal false 1 0)).
Proof.
  unfold JSON.parse.
  assert (H : JSON.parse_number (lit "1" ++ repeat (ch " ") n)
              = Some (Num.of_decimal false 1 0, repeat (ch " ") n)).
  { unfold JSON.parse_number.
    change (JSON.take_sign (lit "1" ++ repeat (ch " ") n))
      with (false, lit "1" ++ repeat (ch " ") n).
    cbv beta iota. unfold JSON.number_body.
    change (JSON.take_int (lit "1" ++ repeat (ch " ") n))
      with (let (ds, r) := Digits.span_digits (repeat (ch " ") n) in (ch "1" :: ds, r)).
    rewrite span_digits_spaces. cbv beta iota.
    destruct n as [|n]; reflexivity. }
  assert (K : JSON.parse_value (S (List.length (lit "1" ++ repeat (ch " ") n)))
                (lit "1" ++ repeat (ch " ") n)
              = Some (JSON.Number (Num.of_decimal false 1 0), repeat (ch " ") n)).
  { change (JSON.parse_value (S (List.length (lit "1" ++ repeat (ch " ") n)))
              (lit "1" ++ repeat (ch " ") n))
      with (match JSON.parse_number (lit "1" ++ repeat (ch " ") n) with
            | Some (x, r') => Some (JSON.Number x, r')
            | None => None
            end).
    now rewrite H. }
  rewrite K, skip_ws_spaces. reflexivity.
Qed.

Lemma padded_valid (type : FileType) (n : nat) :
  validateContent (padded type n) type = valid.
Proof.
  unfold validateContent.
  assert (E : is_empty (trim (padded type n)) = false).
  { destruct (is_empty (trim (padded type n))) eqn:E; [|reflexivity].
    apply is_empty_trim in E. destruct type; inversion E; discriminate. }
  rewrite E. destruct type.
  - now rewrite (test_here Pat.html_tag (padded html n) 3).
  - unfold padded.
    change (lit "a{}" ++ repeat (ch "a") n)
      with (ch "a" :: ch "{" :: ch "}" :: repeat (ch "a") n).
    rewrite !replace_nomatch by reflexivity.
    now rewrite (test_here Pat.css_rule _ 3).
  - unfold padded. now rewrite parse_one_padded.
  - now rewrite (test_here Pat.js_marker (padded js n) 3).
  - now rewrite (test_here Pat.jsx_marker (padded jsx n) 3).
Qed.

Lemma padded_size (type : FileType) (n : nat) :
  (N.of_nat n < utf8_length (padded type n))%N.
Proof.
  destruct type; unfold padded;
    rewrite utf8_length_lit_app by (repeat constructor);
    rewrite utf8_length_repeat by reflexivity;
    cbn [String.length]; lia.
Qed.

(** ** The steps of [mockMinify], one character at a time *)

Lemma skipn_succ (A : Type) (n : nat) (t : list A) (d : A) (r : list A) :
  skipn n t = d :: r -> skipn (S n) t = r.
Proof.
  revert t; induction n as [|n IH]; intros t H.
  - simpl in H. now subst t.
  - destruct t as [|c t]; [discriminate|]. simpl in H. now apply IH.
Qed.

Lemma collapse_nil : collapse [] = [].
Proof. apply replace_nil, never_empty_spaces. Qed.

Lemma collapse_cons (c : cu) (t : jsstring) :
  collapse (c :: t)
  = if Chars.is_space c then ch " " :: collapse (skipn (span Chars.is_space t) t)
    else c :: collapse t.
Proof.
  unfold collapse. destruct (Chars.is_space c) eqn:E.
  - rewrite (replace_match _ _ _ _ (span Chars.is_space t) never_empty_spaces);
      [reflexivity|].
    rewrite match_spaces. now rewrite E.
  - apply replace_nomatch. rewrite match_spaces. now rewrite E.
Qed.

Lemma tighten_after_nil (a : ascii) : tighten_after a [] = [].
Proof. apply replace_nil, never_empty_after. Qed.

Lemma tighten_after_cons (a : ascii) (c : cu) (t : jsstring) :
  tighten_after a (c :: t)
  = match t with
    | d :: t' =>
        if N.eqb c (ch a) && Chars.is_space d
        then c :: tighten_after a (skipn (span Chars.is_space t') t')
        else c :: tighten_after a t
    | [] => [c]
    end.
Proof.
  unfold tighten_after. destruct t as [|d t'].
  - rewrite replace_nomatch by (now rewrite match_after).
    now rewrite (replace_nil _ _ (never_empty_after a)).
  - destruct (N.eqb c (ch a) && Chars.is_space d) eqn:E.
    + rewrite (replace_match _ _ _ _ (S (span Chars.is_space t')) (never_empty_after a)).
      * apply andb_prop in E as [E _]. apply N.eqb_eq in E. now subst c.
      * rewrite match_after. now rewrite E.
    + apply replace_nomatch. rewrite match_after. now rewrite E.
Qed.

Lemma tighten_before_brace_nil : tighten_before_brace [] = [].
Proof. apply replace_nil, never_empty_before_close_brace. Qed.

Lemma tighten_before_brace_cons (c : cu) (t : jsstring) :
  tighten_before_brace (c :: t)
  = if Chars.is_space c then
      match skipn (span Chars.is_space t) t with
      | d :: r => if N.eqb d (ch "}") then d :: tighten_before_brace r
                  else c :: tighten_before_brace t
      | [] => c :: tighten_before_brace t
      end
    else c :: tighten_before_brace t.
Proof.
  unfold tighten_before_brace.
  pose proof (match_before_close_brace (c :: t)) as M. cbv beta iota in M.
  destruct (Chars.is_space c).
  - destruct (skipn (span Chars.is_space t) t) as [|d r] eqn:Es.
    + now apply replace_nomatch.
    + destruct (N.eqb_spec d (ch "}")) as [->|].
      * rewrite (replace_match _ _ _ _ _ never_empty_before_close_brace M).
        now rewrite (skipn_succ _ _ _ _ _ Es).
      * now apply replace_nomatch.
  - now apply replace_nomatch.
Qed.

Lemma join_tags_nil : join_tags [] = [].
Proof. apply replace_nil, never_empty_between_tags. Qed.

Lemma join_tags_cons (c : cu) (t : jsstring) :
  join_tags (c :: t)
  = match t with
    | d :: t' =>
        if N.eqb c (ch ">") && Chars.is_space d then
          match skipn (span Chars.is_space t') t' with
          | e :: r => if N.eqb e (ch "<") then c :: e :: join_tags r
                      else c :: join_tags t
          | [] => c :: join_tags t
          end
        else c :: join_tags t
    | [] => [c]
    end.
Proof.
  unfold join_tags.
  pose proof (match_between_tags (c :: t)) as M. cbv beta iota in M.
  destruct t as [|d t'].
  - rewrite (replace_nomatch _ _ _ _ M). now rewrite (replace_nil _ _ never_empty_between_tags).
  - destruct (N.eqb c (ch ">") && Chars.is_space d) eqn:E.
    + destruct (skipn (span Chars.is_space t') t') as [|e r] eqn:Es.
      * now apply replace_nomatch.
      * destruct (N.eqb_spec e (ch "<")) as [->|].
        -- rewrite (replace_match _ _ _ _ _ never_empty_between_tags M).
           apply andb_prop in E as [E _]. apply N.eqb_eq in E. subst c.
           change (skipn (S (S (span Chars.is_space t'))) (d :: t'))
             with (skipn (S (span Chars.is_space t')) t').
           now rewrite (skipn_succ _ _ _ _ _ Es).
        -- now apply replace_nomatch.
    + now apply replace_nomatch.
Qed.

Lemma strip_line_comments_nil : strip_line_comments [] = [].
Proof. apply replace_nil, never_empty_line_comment. Qed.

Lemma strip_line_comments_cons (c : cu) (t : jsstring) :
  strip_line_comments (c :: t)
  = match t with
    | d :: t' =>
        if N.eqb c (ch "/") && N.eqb d (ch "/")
        then strip_line_comments (skipn (span Chars.dot t') t')
        else c :: strip_line_comments t
    | [] => [c]
    end.
Proof.
  unfold strip_line_comments.
  pose proof (match_line_comment (c :: t)) as M. cbv beta iota in M.
  destruct t as [|d t'].
  - rewrite (replace_nomatch _ _ _ _ M). now rewrite (replace_nil _ _ never_empty_line_comment).
  - destruct (N.eqb c (ch "/") && N.eqb d (ch "/")).
    + now rewrite (replace_match _ _ _ _ _ never_empty_line_comment M).
    + now apply replace_nomatch.
Qed.

Lemma strip_block_comments_nil : strip_block_comments [] = [].
Proof. apply replace_nil, never_empty_block_comment. Qed.

Lemma strip_block_comments_cons (c : cu) (t : jsstring) :
  strip_block_comments (c :: t)
  = match t with
    | d :: t' =>
        if N.eqb c (ch "/") && N.eqb d (ch "*") then
          match find (lit "*/") t' with
          | Some i => strip_block_comments (skipn (i + 2) t')
          | None => c :: strip_block_comments t
          end
        else c :: strip_block_comments t
    | [] => [c]
    end.
Proof.
  unfold strip_block_comments.
  pose proof (match_block_comment (c :: t)) as M. cbv beta iota in M.
  destruct t as [|d t'].
  - rewrite (replace_nomatch _ _ _ _ M). now rewrite (replace_nil _ _ never_empty_block_comment).
  - destruct (N.eqb c (ch "/") && N.eqb d (ch "*")).
    + destruct (find (lit "*/") t') as [i|].
      * now rewrite (replace_match _ _ _ _ _ never_empty_block_comment M).
      * now apply replace_nomatch.
    + now apply replace_nomatch.
Qed.

Lemma strip_html_comments_nil : strip_html_comments [] = [].
Proof. apply replace_nil, never_empty_html_comment. Qed.

Lemma strip_html_comments_cons (c : cu) (t : jsstring) :
  strip_html_comments (c :: t)
  = if prefixb (lit "<!--") (c :: t) then
      match find (lit "-->") (skipn 3 t) with
      | Some i => strip_html_comments (skipn (3 + (i + 3)) t)
      | None => c :: strip_html_comments t
      end
    else c :: strip_html_comments t.
Proof.
  unfold strip_html_comments.
  pose proof (match_html_comment (c :: t)) as M.
  change (skipn 4 (c :: t)) with (skipn 3 t) in M.
  destruct (prefixb (lit "<!--") (c :: t)).
  - destruct (find (lit "-->") (skipn 3 t)) as [i|].
    + now rewrite (replace_match _ _ _ _ _ never_empty_html_comment M).
    + now apply replace_nomatch.
  - now apply replace_nomatch.
Qed.

(** ** Neighbours *)

Lemma length_induction (P : jsstring -> Prop) :
  (forall t, (forall s, (List.length s < List.length t)%nat -> P s) -> P t) ->
  forall t, P t.
Proof.
  intros H t. remember (List.length t) as n eqn:E.
  revert t E. induction n as [n IH] using lt_wf_ind.
  intros t ->. apply H. intros s Hs. now apply (IH (List.length s)).
Qed.

Lemma neighbours_tail (R : cu -> cu -> Prop) (c : cu) (t : jsstring) :
  neighbours R (c :: t) -> neighbours R t.
Proof. destruct t as [|d t]; simpl; [trivial | tauto]. Qed.

Lemma neighbours_cons (R : cu -> cu -> Prop) (c : cu) (t : jsstring) :
  first_is (R c) t -> neighbours R t -> neighbours R (c :: t).
Proof. destruct t as [|d t]; simpl; [trivial | tauto]. Qed.

Lemma neighbours_first (R : cu -> cu -> Prop) (c : cu) (t : jsstring) :
  neighbours R (c :: t) -> first_is (R c) t.
Proof. destruct t as [|d t]; simpl; [trivial | tauto]. Qed.

Lemma neighbours_app_r (R : cu -> cu -> Prop) (a b : jsstring) :
  neighbours R (a ++ b) -> neighbours R b.
Proof.
  induction a as [|c a IH]; [trivial|].
  intros H. apply IH. apply (neighbours_tail R c). exact H.
Qed.

Lemma neighbours_app_l (R : cu -> cu -> Prop) (a b : jsstring) :
  neighbours R (a ++ b) -> neighbours R a.
Proof.
  induction a as [|c a IH]; [intros _; exact I|].
  intros H. apply neighbours_cons.
  - apply neighbours_first in H. destruct a; simpl in *; [trivial | exact H].
  - apply IH. apply (neighbours_tail R c). exact H.
Qed.

Lemma neighbours_impl (R R' : cu -> cu -> Prop) (t : jsstring) :
  (forall a b, R a b -> R' a b) -> neighbours R t -> neighbours R' t.
Proof.
  intros H. induction t as [|c t IH]; [trivial|].
  destruct t as [|d t]; [trivial|]. simpl. intros [H1 H2]. split; [auto|].
  apply IH. exact H2.
Qed.

Lemma first_is_impl (P Q : cu -> Prop) (t : jsstring) :
  (forall c, P c -> Q c) -> first_is P t -> first_is Q t.
Proof. destruct t; simpl; auto. Qed.

(** ** Runs of white space *)

Lemma firstn_span_blank (t : jsstring) : blank (firstn (span Chars.is_space t) t).
Proof. apply span_firstn. Qed.

Lemma skipn_span_first (t : jsstring) :
  first_is not_space (skipn (span Chars.is_space t) t).
Proof.
  pose proof (span_skipn_head Chars.is_space t) as H.
  destruct (skipn (span Chars.is_space t) t); [exact I | exact H].
Qed.

Lemma span_split (t : jsstring) :
  t = firstn (span Chars.is_space t) t ++ skipn (span Chars.is_space t) t.
Proof. symmetry. apply firstn_skipn. Qed.

Lemma length_skipn_span (p : cu -> bool) (t : jsstring) :
  (List.length (skipn (span p t) t) <= List.length t)%nat.
Proof. rewrite length_skipn. lia. Qed.

Lemma glue_not_space (c : cu) : glue c -> not_space c.
Proof. intros [-> | [-> | [-> | [-> | ->]]]]; reflexivity. Qed.

(** ** Squeezing *)

Lemma squeezed_first (t o : jsstring) :
  squeezed t o -> first_is not_space t -> first_is not_space o.
Proof.
  induction 1 as [|c t o _ _|c w t o Hc _ _ _ _|w c t o Hc _ _ _]; simpl; intros H.
  - exact I.
  - exact H.
  - exact H.
  - now apply glue_not_space.
Qed.

(** The first character of the result is a glue character or the first
    character of the text. *)
Lemma squeezed_head (t o : jsstring) :
  squeezed t o -> first_is (fun b => glue b \/ exists t', t = b :: t') o.
Proof.
  induction 1 as [|c t o _ _|c w t o Hc _ _ _ _|w c t o Hc _ _ _]; simpl.
  - exact I.
  - right. now exists t.
  - right. now exists (w ++ t).
  - now left.
Qed.

Lemma squeezed_neighbours (R : cu -> cu -> Prop) (t o : jsstring) :
  (forall a b, glue a -> not_space b -> R a b) ->
  (forall a b, glue b -> R a b) ->
  squeezed t o -> neighbours R t -> neighbours R o.
Proof.
  intros H1 H2.
  assert (K : forall c t o, squeezed t o -> neighbours R (c :: t) ->
                            neighbours R o -> neighbours R (c :: o)).
  { intros c t' o' Hs Hn Ho. apply neighbours_cons; [|exact Ho].
    pose proof (squeezed_head _ _ Hs) as Hh.
    destruct o' as [|b o']; [exact I|]. simpl in *.
    destruct Hh as [Hg | [t'' ->]]; [now apply H2 | apply Hn]. }
  induction 1 as [|c t o Hs IH|c w t o Hc Hw Hf Hs IH|w c t o Hc Hw Hs IH]; intros Hn.
  - exact I.
  - apply (K c t o Hs Hn). apply IH. apply (neighbours_tail R c), Hn.
  - assert (Hn' : neighbours R t)
      by (apply (neighbours_app_r R w), (neighbours_tail R c), Hn).
    apply neighbours_cons; [|now apply IH].
    pose proof (squeezed_first _ _ Hs Hf) as Hf'.
    destruct o as [|b o]; [exact I|]. simpl in *. now apply H1.
  - apply neighbours_app_r in Hn.
    apply (K c t o Hs Hn). apply IH. apply (neighbours_tail R c), Hn.
Qed.

Lemma squeezed_in (t o : jsstring) :
  squeezed t o -> forall c, In c o -> In c t.
Proof.
  induction 1 as [|c t o Hs IH|c w t o Hc Hw Hf Hs IH|w c t o Hc Hw Hs IH];
    intros x Hx; simpl in *.
  - exact Hx.
  - destruct Hx as [-> | Hx]; [now left | right; now apply IH].
  - destruct Hx as [-> | Hx]; [now left|].
    right. apply in_or_app. right. now apply IH.
  - apply in_or_app. right. simpl.
    destruct Hx as [-> | Hx]; [now left | right; now apply IH].
Qed.

Lemma squeezed_collapsed (t o : jsstring) :
  squeezed t o -> collapsed t -> collapsed o.
Proof.
  intros Hs [H1 H2]. split.
  - rewrite Forall_forall in *. intros c Hc. apply H1. apply (squeezed_in _ _ Hs _ Hc).
  - apply (squeezed_neighbours _ t o); try assumption.
    + intros a b Ha _. left. now apply glue_not_space.
    + intros a b Hb. right. now apply glue_not_space.
Qed.

(** ** The steps that squeeze *)

Lemma tighten_after_squeezed (a : ascii) (t : jsstring) :
  glue (ch a) -> squeezed t (tighten_after a t).
Proof.
  intros Ha. induction t as [t IH] using length_induction.
  destruct t as [|c t1]; [rewrite tighten_after_nil; constructor|].
  rewrite tighten_after_cons. destruct t1 as [|d t']; [repeat constructor|].
  destruct (N.eqb c (ch a) && Chars.is_space d) eqn:E.
  - apply andb_prop in E as [E1 E2]. apply N.eqb_eq in E1. subst c.
    rewrite (span_split t') at 1.
    apply (sq_after (ch a) (d :: firstn (span Chars.is_space t') t')); try assumption.
    + constructor; [exact E2 | apply firstn_span_blank].
    + apply skipn_span_first.
    + apply IH. simpl. pose proof (length_skipn_span Chars.is_space t'). lia.
  - apply sq_keep. apply IH. simpl. lia.
Qed.

Lemma tighten_before_brace_squeezed (t : jsstring) :
  squeezed t (tighten_before_brace t).
Proof.
  induction t as [t IH] using length_induction.
  destruct t as [|c t1]; [rewrite tighten_before_brace_nil; constructor|].
  rewrite tighten_before_brace_cons.
  assert (K : squeezed (c :: t1) (c :: tighten_before_brace t1))
    by (apply sq_keep, IH; simpl; lia).
  destruct (Chars.is_space c) eqn:Ec; [|exact K].
  destruct (skipn (span Chars.is_space t1) t1) as [|d r] eqn:Es; [exact K|].
  destruct (N.eqb_spec d (ch "}")) as [->|]; [|exact K].
  rewrite (span_split t1), Es.
  apply (sq_before (c :: firstn (span Chars.is_space t1) t1)).
  - right; right; now left.
  - constructor; [exact Ec | apply firstn_span_blank].
  - apply IH. pose proof (length_skipn_span Chars.is_space t1) as L.
    rewrite Es in L. simpl in *. lia.
Qed.

Lemma join_tags_squeezed (t : jsstring) : squeezed t (join_tags t).
Proof.
  induction t as [t IH] using length_induction.
  destruct t as [|c t1]; [rewrite join_tags_nil; constructor|].
  rewrite join_tags_cons. destruct t1 as [|d t']; [repeat constructor|].
  assert (K : squeezed (c :: d :: t') (c :: join_tags (d :: t')))
    by (apply sq_keep, IH; simpl; lia).
  destruct (N.eqb c (ch ">") && Chars.is_space d) eqn:E; [|exact K].
  destruct (skipn (span Chars.is_space t') t') as [|e r] eqn:Es; [exact K|].
  destruct (N.eqb_spec e (ch "<")) as [->|]; [|exact K].
  apply andb_prop in E as [E1 E2]. apply N.eqb_eq in E1. subst c.
  rewrite (span_split t'), Es.
  apply (sq_after (ch ">") (d :: firstn (span Chars.is_space t') t')).
  - repeat right. reflexivity.
  - constructor; [exact E2 | apply firstn_span_blank].
  - reflexivity.
  - apply sq_keep. apply IH.
    pose proof (length_skipn_span Chars.is_space t') as L.
    rewrite Es in L. simpl in *. lia.
Qed.

(** ** Collapsing white space *)

Lemma collapse_keep (c : cu) (t : jsstring) :
  not_space c -> collapse (c :: t) = c :: collapse t.
Proof. intros H. rewrite collapse_cons. unfold not_space in H. now rewrite H. Qed.

(** The first character of the result is a space or the first character of
    the text. *)
Lemma collapse_head (t : jsstring) :
  first_is (fun b => b = 32%N \/ (not_space b /\ exists t', t = b :: t')) (collapse t).
Proof.
  destruct t as [|c t]; [now rewrite collapse_nil|].
  rewrite collapse_cons. destruct (Chars.is_space c) eqn:E; simpl.
  - now left.
  - right. split; [exact E | now exists t].
Qed.

Lemma collapse_first (t : jsstring) :
  first_is not_space t -> first_is not_space (collapse t).
Proof.
  destruct t as [|c t]; [now rewrite collapse_nil|].
  simpl. intros H. now rewrite (collapse_keep c t H).
Qed.

Lemma collapse_collapsed (t : jsstring) : collapsed (collapse t).
Proof.
  induction t as [t IH] using length_induction.
  destruct t as [|c t1]; [rewrite collapse_nil; split; constructor|].
  rewrite collapse_cons. destruct (Chars.is_space c) eqn:E.
  - destruct (IH (skipn (span Chars.is_space t1) t1)) as [H1 H2].
    { simpl. pose proof (length_skipn_span Chars.is_space t1). lia. }
    split; [constructor; [reflexivity | exact H1]|].
    apply neighbours_cons; [|exact H2].
    apply (first_is_impl not_space); [intros b Hb; now right|].
    apply collapse_first, skipn_span_first.
  - destruct (IH t1) as [H1 H2]; [simpl; lia|].
    split; [constructor; [congruence | exact H1]|].
    apply neighbours_cons; [|exact H2].
    destruct (collapse t1); simpl; [exact I | now left].
Qed.

Lemma collapse_neighbours (R : cu -> cu -> Prop) (t : jsstring) :
  (forall a b, a = 32%N \/ b = 32%N -> R a b) ->
  neighbours R t -> neighbours R (collapse t).
Proof.
  intros HR. induction t as [t IH] using length_induction. intros Hn.
  destruct t as [|c t1]; [now rewrite collapse_nil|].
  rewrite collapse_cons. destruct (Chars.is_space c) eqn:E.
  - apply neighbours_cons.
    + destruct (collapse (skipn (span Chars.is_space t1) t1)); simpl; [exact I|].
      apply HR. now left.
    + apply IH.
      * simpl. pose proof (length_skipn_span Chars.is_space t1). lia.
      * apply (neighbours_app_r R (firstn (span Chars.is_space t1) t1)).
        rewrite <- span_split. apply (neighbours_tail R c), Hn.
  - apply neighbours_cons.
    + pose proof (collapse_head t1) as Hh.
      destruct (collapse t1) as [|b o]; [exact I|]. simpl in *.
      destruct Hh as [-> | [_ [t' ->]]]; [apply HR; now right | apply Hn].
    + apply IH; [simpl; lia | apply (neighbours_tail R c), Hn].
Qed.

Lemma collapsed_tail (c : cu) (t : jsstring) : collapsed (c :: t) -> collapsed t.
Proof.
  intros [H1 H2]. split; [now inversion H1 | apply (neighbours_tail _ c), H2].
Qed.

(** Collapsing a collapsed text changes nothing. *)
Lemma collapse_id (t : jsstring) : collapsed t -> collapse t = t.
Proof.
  induction t as [|c t IH]; intros H; [apply collapse_nil|].
  rewrite collapse_cons. pose proof (IH (collapsed_tail _ _ H)) as IH'.
  destruct H as [H1 H2]. destruct (Chars.is_space c) eqn:E.
  - inversion H1 as [|? ? Hc _]; subst. rewrite (Hc E).
    apply neighbours_first in H2.
    destruct t as [|d t]; [simpl; now rewrite collapse_nil|].
    simpl in H2. destruct H2 as [H2 | H2]; unfold not_space in H2; [congruence|].
    simpl. rewrite H2. simpl. now rewrite IH'.
  - now rewrite IH'.
Qed.

(** ** More on [trim] *)

Lemma trimStart_first (t : jsstring) : first_is not_space (trimStart t).
Proof.
  induction t as [|c t IH]; simpl; [exact I|].
  destruct (Chars.is_space c) eqn:E; [exact IH | exact E].
Qed.

Lemma trimStart_id (t : jsstring) : first_is not_space t -> trimStart t = t.
Proof. destruct t as [|c t]; simpl; [reflexivity|]. intros H. now rewrite H. Qed.

Lemma trim_first (t : jsstring) : first_is not_space (trim t).
Proof.
  unfold trim. pose proof (trimStart_first t) as H.
  destruct (trimEnd_prefix (trimStart t)) as (b & _ & E).
  destruct (trimEnd (trimStart t)) as [|c r]; [exact I|].
  rewrite E in H. exact H.
Qed.

Lemma trim_last (t : jsstring) : first_is not_space (rev (trim t)).
Proof.
  unfold trim, trimEnd. rewrite rev_involutive. apply trimStart_first.
Qed.

Lemma trimEnd_id (t : jsstring) : first_is not_space (rev t) -> trimEnd t = t.
Proof.
  intros H. unfold trimEnd. rewrite (trimStart_id _ H). apply rev_involutive.
Qed.

Lemma trim_id (t : jsstring) :
  first_is not_space t -> first_is not_space (rev t) -> trim t = t.
Proof.
  intros H1 H2. unfold trim. rewrite (trimStart_id _ H1). now apply trimEnd_id.
Qed.

Lemma trim_trim (t : jsstring) : trim (trim t) = trim t.
Proof. apply trim_id; [apply trim_first | apply trim_last]. Qed.

Lemma trim_neighbours (R : cu -> cu -> Prop) (t : jsstring) :
  neighbours R t -> neighbours R (trim t).
Proof.
  destruct (trim_infix t) as (a & b & _ & _ & E). intros H.
  rewrite E in H. apply neighbours_app_r in H. now apply neighbours_app_l in H.
Qed.

Lemma trim_in (t : jsstring) (c : cu) : In c (trim t) -> In c t.
Proof.
  destruct (trim_infix t) as (a & b & _ & _ & E). intros H.
  rewrite E. apply in_or_app. right. apply in_or_app. now left.
Qed.

Lemma trim_collapsed (t : jsstring) : collapsed t -> collapsed (trim t).
Proof.
  intros [H1 H2]. split; [|now apply trim_neighbours].
  rewrite Forall_forall in *. intros c Hc. apply H1. now apply trim_in.
Qed.

(** ** Comments *)

Lemma strip_line_comments_keep (c : cu) (t : jsstring) :
  c <> ch "/" -> strip_line_comments (c :: t) = c :: strip_line_comments t.
Proof.
  intros H. rewrite strip_line_comments_cons. apply N.eqb_neq in H.
  destruct t as [|d t]; [now rewrite strip_line_comments_nil|]. now rewrite H.
Qed.

(** Once the line comments are gone no two slashes are neighbours. *)
Lemma strip_line_comments_no_slashes (t : jsstring) :
  no_slashes (strip_line_comments t).
Proof.
  induction t as [t IH] using length_induction.
  destruct t as [|c t1]; [now rewrite strip_line_comments_nil|].
  rewrite strip_line_comments_cons. destruct t1 as [|d t']; [exact I|].
  destruct (N.eqb c (ch "/") && N.eqb d (ch "/")) eqn:E.
  - apply IH. simpl. pose proof (length_skipn_span Chars.dot t'). lia.
  - apply neighbours_cons; [|apply IH; simpl; lia].
    destruct (N.eqb_spec d (ch "/")) as [->|Hd].
    + rewrite andb_true_r in E. apply N.eqb_neq in E.
      destruct (strip_line_comments (ch "/" :: t')); simpl; [exact I | tauto].
    + rewrite (strip_line_comments_keep d t' Hd). simpl. tauto.
Qed.

Lemma strip_line_comments_id (t : jsstring) :
  no_slashes t -> strip_line_comments t = t.
Proof.
  induction t as [|c t IH]; intros H; [apply strip_line_comments_nil|].
  rewrite strip_line_comments_cons. destruct t as [|d t']; [reflexivity|].
  destruct (N.eqb c (ch "/") && N.eqb d (ch "/")) eqn:E.
  - apply andb_prop in E as [E1 E2]. apply N.eqb_eq in E1, E2. subst c d.
    destruct H as [H _]. now destruct H.
  - rewrite IH; [reflexivity | apply (neighbours_tail _ _ _ H)].
Qed.

Lemma strip_block_comments_keep (c : cu) (t : jsstring) :
  c <> ch "/" -> strip_block_comments (c :: t) = c :: strip_block_comments t.
Proof.
  intros H. rewrite strip_block_comments_cons. apply N.eqb_neq in H.
  destruct t as [|d t]; [now rewrite strip_block_comments_nil|]. now rewrite H.
Qed.

(** Removing block comments from a text without two neighbouring slashes
    leaves it so: a comment starts and ends with a slash. *)
Lemma strip_block_comments_no_slashes (t : jsstring) :
  no_slashes t -> no_slashes (strip_block_comments t).
Proof.
  induction t as [t IH] using length_induction. intros H.
  destruct t as [|c t1]; [now rewrite strip_block_comments_nil|].
  assert (K : no_slashes (c :: strip_block_comments t1)).
  { apply neighbours_cons; [|apply IH; [simpl; lia | apply (neighbours_tail _ _ _ H)]].
    destruct t1 as [|d t']; [now rewrite strip_block_comments_nil|].
    destruct (N.eqb_spec d (ch "/")) as [->|Hd].
    - destruct H as [H _].
      destruct (strip_block_comments (ch "/" :: t')); simpl; [exact I|].
      intros [-> _]. now apply H.
    - rewrite (strip_block_comments_keep d t' Hd). simpl. intros [_ Hx]. now apply Hd. }
  rewrite strip_block_comments_cons. destruct t1 as [|d t']; [exact I|].
  destruct (N.eqb c (ch "/") && N.eqb d (ch "*")); [|exact K].
  destruct (find (lit "*/") t') as [i|] eqn:Ef; [|exact K].
  apply IH.
  - simpl. rewrite length_skipn. lia.
  - apply (neighbours_app_r _ (firstn (i + 2) t')). rewrite firstn_skipn.
    apply (neighbours_tail _ d), (neighbours_tail _ c), H.
Qed.

Lemma find_close_none (t : jsstring) : find (lit "*/") t = None <-> no_close t.
Proof.
  induction t as [|c t IH]; [split; [intros _; exact I | reflexivity]|].
  cbn [find]. destruct (prefixb (lit "*/") (c :: t)) eqn:E.
  - split; [discriminate|]. intros H.
    apply prefixb_spec in E as [r E]. injection E as -> ->.
    destruct H as [H _]. now destruct H.
  - destruct (find (lit "*/") t) as [i|]; simpl.
    + split; [discriminate|]. intros H.
      apply (neighbours_tail _ c) in H. apply IH in H. discriminate.
    + split; [|reflexivity]. intros _.
      apply neighbours_cons; [|now apply IH].
      destruct t as [|d t]; [exact I|]. simpl. intros [-> ->].
      simpl in E. discriminate.
Qed.

Lemma no_close_test (t : jsstring) : no_close t -> test Pat.block_comment t = false.
Proof.
  induction t as [|c t IH]; intros H; [reflexivity|].
  cbn [test]. rewrite match_block_comment.
  pose proof (IH (neighbours_tail _ _ _ H)) as IH'.
  destruct t as [|d t']; [exact IH'|].
  destruct (N.eqb c (ch "/") && N.eqb d (ch "*")); [|exact IH'].
  assert (E : find (lit "*/") t' = None)
    by (apply find_close_none, (neighbours_tail _ d), (neighbours_tail _ c), H).
  now rewrite E.
Qed.

(** In a clean text the comment pattern matches nowhere. *)
Lemma clean_test (t : jsstring) : clean t -> test Pat.block_comment t = false.
Proof.
  induction t as [|c t IH]; intros H; [reflexivity|].
  cbn [test]. rewrite match_block_comment.
  destruct t as [|d t']; [reflexivity|].
  cbn [clean] in H.
  destruct (N.eqb c (ch "/") && N.eqb d (ch "*")) eqn:E.
  - assert (Ef : find (lit "*/") t' = None) by now apply find_close_none.
    rewrite Ef. cbn [option_map test]. rewrite match_block_comment.
    apply andb_prop in E as [_ E]. apply N.eqb_eq in E. subst d.
    destruct t' as [|e t'']; [reflexivity|]. cbn [N.eqb ch N_of_ascii andb].
    change (test Pat.block_comment (e :: t'') = false). now apply no_close_test.
  - now apply IH.
Qed.

Lemma clean_cons_other (c : cu) (t : jsstring) :
  c <> ch "/" -> clean t -> clean (c :: t).
Proof.
  intros Hc H. destruct t as [|d t]; [exact I|].
  cbn [clean]. apply N.eqb_neq in Hc. now rewrite Hc.
Qed.

Lemma strip_block_comments_id (t : jsstring) :
  test Pat.block_comment t = false -> strip_block_comments t = t.
Proof. apply replace_id. Qed.

(** Removing block comments from a text without two neighbouring slashes
    leaves no comment behind. *)
Lemma strip_block_comments_clean (t : jsstring) :
  no_slashes t -> clean (strip_block_comments t).
Proof.
  induction t as [t IH] using length_induction. intros H.
  destruct t as [|c t1]; [now rewrite strip_block_comments_nil|].
  rewrite strip_block_comments_cons. destruct t1 as [|d t']; [exact I|].
  pose proof (IH (d :: t') ltac:(simpl; lia) (neighbours_tail _ _ _ H)) as IH1.
  destruct (N.eqb c (ch "/") && N.eqb d (ch "*")) eqn:E.
  - destruct (find (lit "*/") t') as [i|] eqn:Ef.
    + apply IH.
      * simpl. rewrite length_skipn. lia.
      * apply (neighbours_app_r _ (firstn (i + 2) t')). rewrite firstn_skipn.
        apply (neighbours_tail _ d), (neighbours_tail _ c), H.
    + apply andb_prop in E as [E1 E2]. apply N.eqb_eq in E1, E2. subst c d.
      rewrite strip_block_comments_keep by discriminate.
      apply find_close_none in Ef.
      rewrite (strip_block_comments_id t' (no_close_test _ Ef)). exact Ef.
  - destruct (N.eqb_spec d (ch "/")) as [->|Hd].
    + destruct (N.eqb_spec c (ch "/")) as [->|Hc].
      * destruct H as [H _]. now destruct H.
      * now apply clean_cons_other.
    + rewrite (strip_block_comments_keep d t' Hd) in *.
      cbn [clean]. rewrite E. exact IH1.
Qed.

(** ** Clean texts *)

Lemma no_close_clean (t : jsstring) : no_close t -> clean t.
Proof.
  induction t as [|c t IH]; intros H; [exact I|].
  destruct t as [|d r]; [exact I|]. cbn [clean].
  destruct (N.eqb c (ch "/") && N.eqb d (ch "*")).
  - apply (neighbours_tail _ d), (neighbours_tail _ c), H.
  - apply IH, (neighbours_tail _ c), H.
Qed.

Lemma clean_tail (c : cu) (t : jsstring) : clean (c :: t) -> clean t.
Proof.
  destruct t as [|d r]; [trivial|]. cbn [clean].
  destruct (N.eqb c (ch "/") && N.eqb d (ch "*")) eqn:E; [|trivial].
  intros H. apply andb_prop in E as [_ E]. apply N.eqb_eq in E. subst d.
  apply clean_cons_other; [discriminate | now apply no_close_clean].
Qed.

Lemma clean_app_r (a b : jsstring) : clean (a ++ b) -> clean b.
Proof.
  induction a as [|c a IH]; [trivial|]. intros H. apply IH, (clean_tail c), H.
Qed.

Lemma clean_app_l (a b : jsstring) : clean (a ++ b) -> clean a.
Proof.
  induction a as [|c a IH]; [intros _; exact I|].
  destruct a as [|d a']; [intros _; exact I|].
  cbn [app clean]. destruct (N.eqb c (ch "/") && N.eqb d (ch "*")).
  - apply neighbours_app_l.
  - exact IH.
Qed.

Lemma trim_clean (t : jsstring) : clean t -> clean (trim t).
Proof.
  destruct (trim_infix t) as (a & b & _ & _ & E). intros H.
  rewrite E in H. apply clean_app_r in H. now apply clean_app_l in H.
Qed.

Lemma glue_not_star (c : cu) : glue c -> c <> ch "*".
Proof. intros [-> | [-> | [-> | [-> | ->]]]]; discriminate. Qed.

Lemma glue_not_slash (c : cu) : glue c -> c <> ch "/".
Proof. intros [-> | [-> | [-> | [-> | ->]]]]; discriminate. Qed.

Lemma blank_not_glue (w : jsstring) (c : cu) (t u : jsstring) (x : cu) :
  blank w -> glue c -> ~ glue x -> not_space x -> w ++ c :: t = x :: u -> False.
Proof.
  intros Hw Hc Hx Hs E. destruct w as [|y w]; simpl in E; injection E as E1 E2; subst.
  - contradiction.
  - inversion Hw; subst. unfold not_space in Hs. congruence.
Qed.

Lemma squeezed_keep_inv (c : cu) (t o : jsstring) :
  ~ glue c -> not_space c -> squeezed (c :: t) (c :: o) -> squeezed t o.
Proof.
  intros Hc Hs H. inversion H as [|? ? ? H'|? ? ? ? Hg|w ? ? ? Hg Hw H' E]; subst.
  - exact H'.
  - contradiction.
  - contradiction.
Qed.

Lemma squeezed_no_close (t o : jsstring) : squeezed t o -> no_close t -> no_close o.
Proof.
  apply squeezed_neighbours.
  - intros a b Ha _ [-> _]. now apply (glue_not_star _ Ha).
  - intros a b Hb [_ ->]. now apply (glue_not_slash _ Hb).
Qed.

Lemma squeezed_no_slashes (t o : jsstring) : squeezed t o -> no_slashes t -> no_slashes o.
Proof.
  apply squeezed_neighbours.
  - intros a b Ha _ [-> _]. now apply (glue_not_slash _ Ha).
  - intros a b Hb [_ ->]. now apply (glue_not_slash _ Hb).
Qed.

Lemma squeezed_clean (t o : jsstring) : squeezed t o -> clean t -> clean o.
Proof.
  induction 1 as [|c t o Hs IH|c w t o Hc Hw Hf Hs IH|w c t o Hc Hw Hs IH]; intros H.
  - exact I.
  - pose proof (IH (clean_tail _ _ H)) as IH'.
    pose proof (squeezed_head _ _ Hs) as Hh.
    destruct o as [|b o']; [exact I|]. cbn [clean].
    destruct (N.eqb c (ch "/") && N.eqb b (ch "*")) eqn:E; [|exact IH'].
    apply andb_prop in E as [E1 E2]. apply N.eqb_eq in E1, E2. subst c b.
    simpl in Hh. destruct Hh as [Hg | [t' ->]]; [now destruct (glue_not_star _ Hg)|].
    apply (squeezed_no_close t' o').
    + apply (squeezed_keep_inv (ch "*")); [|reflexivity | exact Hs].
      intros Hg. now destruct (glue_not_star _ Hg).
    + exact H.
  - apply clean_cons_other; [now apply glue_not_slash|].
    apply IH, (clean_app_r w), (clean_tail c), H.
  - apply clean_cons_other; [now apply glue_not_slash|].
    apply IH, (clean_tail c), (clean_app_r w), H.
Qed.

Lemma collapse_clean (t : jsstring) : clean t -> clean (collapse t).
Proof.
  induction t as [t IH] using length_induction. intros H.
  destruct t as [|c t1]; [now rewrite collapse_nil|].
  rewrite collapse_cons. destruct (Chars.is_space c) eqn:Ec.
  - apply clean_cons_other; [discriminate|]. apply IH.
    + simpl. pose proof (length_skipn_span Chars.is_space t1). lia.
    + apply (clean_app_r (firstn (span Chars.is_space t1) t1)).
      rewrite <- span_split. apply (clean_tail c), H.
  - pose proof (IH t1 ltac:(simpl; lia) (clean_tail _ _ H)) as IH'.
    pose proof (collapse_head t1) as Hh.
    destruct (collapse t1) as [|b o'] eqn:Eo; [exact I|]. cbn [clean].
    destruct (N.eqb c (ch "/") && N.eqb b (ch "*")) eqn:E; [|exact IH'].
    apply andb_prop in E as [E1 E2]. apply N.eqb_eq in E1, E2. subst c b.
    simpl in Hh. destruct Hh as [Hh | [Hb [t' ->]]]; [discriminate|].
    rewrite (collapse_keep _ t' Hb) in Eo. injection Eo as <-.
    apply collapse_neighbours.
    + intros a b [-> | ->] [Ha Hb']; discriminate.
    + exact H.
Qed.

(** ** Tight texts *)

Lemma tighten_after_head (a : ascii) (c : cu) (t : jsstring) :
  exists o, tighten_after a (c :: t) = c :: o.
Proof.
  rewrite tighten_after_cons. destruct t as [|d t']; [now exists []|].
  destruct (N.eqb c (ch a) && Chars.is_space d); eexists; reflexivity.
Qed.

Lemma tighten_after_first (a : ascii) (t : jsstring) :
  first_is not_space t -> first_is not_space (tighten_after a t).
Proof.
  destruct t as [|c t]; [now rewrite tighten_after_nil|].
  destruct (tighten_after_head a c t) as [o ->]. trivial.
Qed.

Lemma tighten_after_tight (a : ascii) (t : jsstring) :
  tight_after a (tighten_after a t).
Proof.
  induction t as [t IH] using length_induction.
  destruct t as [|c t1]; [now rewrite tighten_after_nil|].
  rewrite tighten_after_cons. destruct t1 as [|d t']; [exact I|].
  destruct (N.eqb c (ch a) && Chars.is_space d) eqn:E.
  - apply neighbours_cons.
    + apply (first_is_impl not_space); [auto|].
      apply tighten_after_first, skipn_span_first.
    + apply IH. simpl. pose proof (length_skipn_span Chars.is_space t'). lia.
  - apply neighbours_cons; [|apply IH; simpl; lia].
    destruct (tighten_after_head a d t') as [o ->]. simpl. intros ->.
    rewrite N.eqb_refl in E. simpl in E. exact E.
Qed.

Lemma tighten_after_id (a : ascii) (t : jsstring) :
  tight_after a t -> tighten_after a t = t.
Proof.
  induction t as [|c t IH]; intros H; [apply tighten_after_nil|].
  rewrite tighten_after_cons. destruct t as [|d t']; [reflexivity|].
  destruct (N.eqb c (ch a) && Chars.is_space d) eqn:E.
  - apply andb_prop in E as [E1 E2]. apply N.eqb_eq in E1.
    destruct H as [H _]. specialize (H E1). unfold not_space in H. congruence.
  - rewrite IH; [reflexivity | apply (neighbours_tail _ _ _ H)].
Qed.

(** The first character of the result is a closing brace only when the
    first character of the text after its leading white space is one. *)
Lemma tighten_before_brace_first (t : jsstring) :
  first_is (fun y => y = ch "}" ->
                     exists r, skipn (span Chars.is_space t) t = ch "}" :: r)
           (tighten_before_brace t).
Proof.
  destruct t as [|c t1]; [now rewrite tighten_before_brace_nil|].
  rewrite tighten_before_brace_cons. cbn [span].
  destruct (Chars.is_space c) eqn:Ec.
  - cbn [skipn].
    destruct (skipn (span Chars.is_space t1) t1) as [|d r] eqn:Es.
    + simpl. intros ->. discriminate.
    + destruct (N.eqb_spec d (ch "}")) as [->|Hd]; simpl.
      * intros _. now exists r.
      * intros ->. discriminate.
  - simpl. intros ->. now exists t1.
Qed.

Lemma tighten_before_brace_tight (t : jsstring) :
  tight_before_brace (tighten_before_brace t).
Proof.
  induction t as [t IH] using length_induction.
  destruct t as [|c t1]; [now rewrite tighten_before_brace_nil|].
  assert (K : (forall r, skipn (span Chars.is_space t1) t1 = ch "}" :: r ->
                         not_space c) ->
              tight_before_brace (c :: tighten_before_brace t1)).
  { intros Hc. apply neighbours_cons; [|apply IH; simpl; lia].
    pose proof (tighten_before_brace_first t1) as Hf.
    destruct (tighten_before_brace t1) as [|y o]; [exact I|]. simpl in *.
    intros Hy. destruct (Hf Hy) as [r Hr]. now apply (Hc r). }
  rewrite tighten_before_brace_cons. destruct (Chars.is_space c) eqn:Ec.
  - destruct (skipn (span Chars.is_space t1) t1) as [|d r] eqn:Es.
    + apply K. intros r Hr. discriminate.
    + destruct (N.eqb_spec d (ch "}")) as [->|Hd].
      * apply neighbours_cons.
        -- apply (first_is_impl (fun _ => True)); [reflexivity|].
           now destruct (tighten_before_brace r).
        -- apply IH. pose proof (length_skipn_span Chars.is_space t1) as L.
           rewrite Es in L. simpl in *. lia.
      * apply K. intros r' Hr. congruence.
  - apply K. intros _ _. exact Ec.
Qed.

Lemma tighten_before_brace_id (t : jsstring) :
  collapsed t -> tight_before_brace t -> tighten_before_brace t = t.
Proof.
  induction t as [|c t IH]; intros Hc H; [apply tighten_before_brace_nil|].
  rewrite tighten_before_brace_cons.
  rewrite (IH (collapsed_tail _ _ Hc) (neighbours_tail _ _ _ H)).
  destruct (Chars.is_space c) eqn:Ec; [|reflexivity].
  destruct Hc as [_ Hc]. apply neighbours_first in Hc, H.
  destruct t as [|d t']; [reflexivity|]. simpl in Hc, H. cbn [span].
  destruct Hc as [Hc | Hc]; unfold not_space in Hc; [congruence|].
  rewrite Hc. cbn [skipn].
  destruct (N.eqb_spec d (ch "}")) as [->|]; [|reflexivity].
  specialize (H eq_refl). unfold not_space in H. congruence.
Qed.

Lemma squeezed_tight_after (a : ascii) (t o : jsstring) :
  squeezed t o -> tight_after a t -> tight_after a o.
Proof.
  apply squeezed_neighbours.
  - intros x y _ Hy _. exact Hy.
  - intros x y Hy _. now apply glue_not_space.
Qed.

(** ** Joining tags *)

Lemma join_tags_keep (c : cu) (t : jsstring) :
  c <> ch ">" -> join_tags (c :: t) = c :: join_tags t.
Proof.
  intros H. rewrite join_tags_cons. apply N.eqb_neq in H.
  destruct t as [|d t]; [now rewrite join_tags_nil|]. now rewrite H.
Qed.

Lemma join_tags_head (c : cu) (t : jsstring) :
  exists o, join_tags (c :: t) = c :: o.
Proof.
  rewrite join_tags_cons. destruct t as [|d t']; [now exists []|].
  destruct (N.eqb c (ch ">") && Chars.is_space d); [|eexists; reflexivity].
  destruct (skipn (span Chars.is_space t') t') as [|e r]; [eexists; reflexivity|].
  destruct (N.eqb e (ch "<")); eexists; reflexivity.
Qed.

Lemma join_tags_blank (w t : jsstring) :
  blank w -> join_tags (w ++ t) = w ++ join_tags t.
Proof.
  induction 1 as [|c w Hc _ IH]; [reflexivity|].
  simpl. rewrite join_tags_keep, IH; [reflexivity|].
  intros ->. discriminate.
Qed.

Lemma span_app_blank (w r : jsstring) :
  blank w -> first_is not_space r ->
  span Chars.is_space (w ++ r) = List.length w
  /\ skipn (List.length w) (w ++ r) = r.
Proof.
  intros Hw Hr. induction Hw as [|c w Hc _ [IH1 IH2]]; simpl.
  - split; [|reflexivity]. destruct r as [|e r]; [reflexivity|].
    simpl in *. unfold not_space in Hr. now rewrite Hr.
  - rewrite Hc, IH1. split; [reflexivity | exact IH2].
Qed.

(** Whether [> w r] starts with a match of [/>\s+</], for a run [w] of white
    space and a text [r] that does not start with white space. *)
Lemma match_between_tags_run (c : cu) (w r : jsstring) :
  blank w -> first_is not_space r ->
  (match_at Pat.between_tags (c :: w ++ r) = None
   <-> ~ (c = ch ">" /\ w <> [] /\ exists r', r = ch "<" :: r')).
Proof.
  intros Hw Hr. rewrite match_between_tags.
  destruct w as [|d w'].
  - simpl. destruct r as [|e r'].
    + split; [intros _ (_ & H & _); now apply H | reflexivity].
    + simpl in Hr. unfold not_space in Hr. rewrite Hr, andb_false_r.
      split; [intros _ (_ & H & _); now apply H | reflexivity].
  - inversion Hw as [|? ? Hd Hw']; subst. cbn [app]. rewrite Hd, andb_true_r.
    destruct (span_app_blank w' r Hw' Hr) as [-> ->].
    destruct (N.eqb_spec c (ch ">")) as [->|Hc].
    + destruct r as [|e r'].
      * split; [intros _ (_ & _ & r' & H); discriminate | reflexivity].
      * destruct (N.eqb_spec e (ch "<")) as [->|He].
        -- split; [discriminate|]. intros H. destruct H.
           repeat split; [discriminate | now exists r'].
        -- split; [|reflexivity]. intros _ (_ & _ & r'' & H). congruence.
    + split; [|reflexivity]. intros _ (H & _). contradiction.
Qed.

(** Once the tags are joined the pattern matches nowhere. *)
Lemma join_tags_no_gap (t : jsstring) : test Pat.between_tags (join_tags t) = false.
Proof.
  induction t as [t IH] using length_induction.
  destruct t as [|c t1]; [now rewrite join_tags_nil|].
  assert (K : match_at Pat.between_tags (c :: t1) = None ->
              test Pat.between_tags (c :: join_tags t1) = false).
  { intros M. cbn [test]. rewrite (IH t1) by (simpl; lia).
    assert (M' : match_at Pat.between_tags (c :: join_tags t1) = None); [|now rewrite M'].
    rewrite (span_split t1) in M |- *.
    rewrite join_tags_blank by apply firstn_span_blank.
    pose proof (skipn_span_first t1) as Hr.
    set (w := firstn (span Chars.is_space t1) t1) in *.
    assert (Hw : blank w) by apply firstn_span_blank.
    destruct (skipn (span Chars.is_space t1) t1) as [|e r].
    - rewrite join_tags_nil. exact M.
    - destruct (join_tags_head e r) as [o Eo]. rewrite Eo.
      apply (match_between_tags_run c w (e :: r) Hw Hr) in M.
      apply (match_between_tags_run c w (e :: o) Hw Hr).
      intros (H1 & H2 & r' & H3). apply M. repeat split; try assumption.
      injection H3 as -> _. now exists r. }
  pose proof (match_between_tags (c :: t1)) as M. cbv beta iota in M.
  rewrite join_tags_cons.
  destruct t1 as [|d t']; [rewrite join_tags_nil in K; now apply K|].
  destruct (N.eqb c (ch ">") && Chars.is_space d) eqn:E; [|now apply K].
  destruct (skipn (span Chars.is_space t') t') as [|e r] eqn:Es; [now apply K|].
  destruct (N.eqb_spec e (ch "<")) as [->|]; [|now apply K].
  cbn [test]. rewrite match_between_tags. cbn [Chars.is_space ch N_of_ascii].
  rewrite andb_false_r. rewrite match_between_tags.
  rewrite (IH r).
  - now destruct (join_tags r) as [|x [|y o]].
  - pose proof (length_skipn_span Chars.is_space t') as L.
    rewrite Es in L. simpl in *. lia.
Qed.

Lemma span_app_stop (p : cu -> bool) (t b : jsstring) (e : cu) (r : jsstring) :
  skipn (span p t) t = e :: r ->
  span p (t ++ b) = span p t /\ skipn (span p t) (t ++ b) = e :: r ++ b.
Proof.
  induction t as [|c t IH]; simpl; [discriminate|].
  destruct (p c); simpl.
  - intros H. destruct (IH H) as [-> ->]. now split.
  - intros [= -> ->]. now split.
Qed.

Lemma between_tags_extend (s b : jsstring) (n : nat) :
  match_at Pat.between_tags s = Some n -> match_at Pat.between_tags (s ++ b) = Some n.
Proof.
  rewrite !match_between_tags. destruct s as [|c [|d t']]; try discriminate.
  cbn [app]. destruct (N.eqb c (ch ">") && Chars.is_space d); [|discriminate].
  destruct (skipn (span Chars.is_space t') t') as [|e r] eqn:Es; [discriminate|].
  destruct (span_app_stop Chars.is_space t' b e r Es) as [-> ->]. trivial.
Qed.

Lemma test_suffix (re : regex) (a t : jsstring) :
  test re (a ++ t) = false -> test re t = false.
Proof.
  intros H. destruct (test re t) eqn:E; [|reflexivity].
  now rewrite (test_later re a t E) in H.
Qed.

Lemma between_tags_prefix (m b : jsstring) :
  test Pat.between_tags (m ++ b) = false -> test Pat.between_tags m = false.
Proof.
  intros H. destruct (test Pat.between_tags m) eqn:E; [|reflexivity].
  apply test_spec in E as (a & s & n & -> & Hs).
  rewrite <- app_assoc in H. apply test_suffix in H.
  now rewrite (test_here _ _ _ (between_tags_extend s b n Hs)) in H.
Qed.

Lemma trim_no_gap (t : jsstring) :
  test Pat.between_tags t = false -> test Pat.between_tags (trim t) = false.
Proof.
  destruct (trim_infix t) as (a & b & _ & _ & E). intros H.
  rewrite E in H. apply test_suffix in H. now apply between_tags_prefix in H.
Qed.

Lemma join_tags_id (t : jsstring) :
  test Pat.between_tags t = false -> join_tags t = t.
Proof. apply replace_id. Qed.

(** ** Occurrences *)

Lemma find_eq (w t : jsstring) :
  find w t = if prefixb w t then Some O
             else match t with
                  | [] => None
                  | _ :: t' => option_map S (find w t')
                  end.
Proof. destruct t; reflexivity. Qed.

Lemma occurs_find (w t : jsstring) : occurs w t -> exists i, find w t = Some i.
Proof.
  intros (a & b & ->). induction a as [|c a [i IH]]; rewrite find_eq; cbn [app].
  - rewrite prefixb_app. now exists O.
  - destruct (prefixb w (c :: a ++ w ++ b)); [now exists O|].
    rewrite IH. now exists (S i).
Qed.

Lemma no_slashes_occurs (t : jsstring) : no_slashes t -> ~ occurs (lit "//") t.
Proof.
  intros H (a & b & ->). apply neighbours_app_r in H.
  destruct H as [H _]. now apply H.
Qed.

(** ** [mockMinify] as a composition of its steps *)

Lemma mockMinify_html (content : jsstring) :
  mockMinify content html
  = inl (trim (join_tags (collapse (strip_html_comments content)))).
Proof. reflexivity. Qed.

Lemma mockMinify_css (content : jsstring) :
  mockMinify content css = inl (finish (strip_block_comments content)).
Proof. reflexivity. Qed.

Lemma mockMinify_js (content : jsstring) :
  mockMinify content js
  = inl (finish (strip_block_comments (strip_line_comments content))).
Proof. reflexivity. Qed.

Lemma mockMinify_jsx (content : jsstring) :
  mockMinify content jsx
  = inl (finish (strip_block_comments (strip_line_comments content))).
Proof. reflexivity. Qed.

Lemma glue_semicolon : glue (ch ";").
Proof. now left. Qed.

Lemma glue_open_brace : glue (ch "{").
Proof. right. now left. Qed.

(** What the shared steps keep. *)
Lemma finish_neighbours (R : cu -> cu -> Prop) (t : jsstring) :
  (forall a b, a = 32%N \/ b = 32%N -> R a b) ->
  (forall a b, glue a -> not_space b -> R a b) ->
  (forall a b, glue b -> R a b) ->
  neighbours R t -> neighbours R (finish t).
Proof.
  intros H0 H1 H2 H. unfold finish. apply trim_neighbours.
  apply (squeezed_neighbours R _ _ H1 H2 (tighten_before_brace_squeezed _)).
  apply (squeezed_neighbours R _ _ H1 H2 (tighten_after_squeezed "{" _ glue_open_brace)).
  apply (squeezed_neighbours R _ _ H1 H2 (tighten_after_squeezed ";" _ glue_semicolon)).
  now apply collapse_neighbours.
Qed.

Lemma finish_no_slashes (t : jsstring) : no_slashes t -> no_slashes (finish t).
Proof.
  apply finish_neighbours.
  - intros a b [-> | ->] [Ha Hb]; discriminate.
  - intros a b Ha _ [-> _]. now apply (glue_not_slash _ Ha).
  - intros a b Hb [_ ->]. now apply (glue_not_slash _ Hb).
Qed.

Lemma finish_clean (t : jsstring) : clean t -> clean (finish t).
Proof.
  intros H. unfold finish. apply trim_clean.
  apply (squeezed_clean _ _ (tighten_before_brace_squeezed _)).
  apply (squeezed_clean _ _ (tighten_after_squeezed "{" _ glue_open_brace)).
  apply (squeezed_clean _ _ (tighten_after_squeezed ";" _ glue_semicolon)).
  now apply collapse_clean.
Qed.

Lemma finish_tidy (t : jsstring) : tidy (finish t).
Proof.
  unfold finish. split; [|split; [apply trim_first | apply trim_last]].
  apply trim_collapsed.
  apply (squeezed_collapsed _ _ (tighten_before_brace_squeezed _)).
  apply (squeezed_collapsed _ _ (tighten_after_squeezed "{" _ glue_open_brace)).
  apply (squeezed_collapsed _ _ (tighten_after_squeezed ";" _ glue_semicolon)).
  apply collapse_collapsed.
Qed.

Lemma finish_tight (t : jsstring) :
  tight_after ";" (finish t) /\ tight_after "{" (finish t)
  /\ tight_before_brace (finish t).
Proof.
  unfold finish. repeat split.
  - apply trim_neighbours.
    apply (squeezed_tight_after ";" _ _ (tighten_before_brace_squeezed _)).
    apply (squeezed_tight_after ";" _ _ (tighten_after_squeezed "{" _ glue_open_brace)).
    apply tighten_after_tight.
  - apply trim_neighbours.
    apply (squeezed_tight_after "{" _ _ (tighten_before_brace_squeezed _)).
    apply tighten_after_tight.
  - apply trim_neighbours. apply tighten_before_brace_tight.
Qed.

(** The shared steps change nothing in a text they have produced. *)
Lemma finish_finish (t : jsstring) : finish (finish t) = finish t.
Proof.
  destruct (finish_tidy t) as (Hc & Hf & Hl).
  destruct (finish_tight t) as (H1 & H2 & H3).
  set (y := finish t) in *. unfold finish.
  rewrite (collapse_id y Hc), (tighten_after_id ";" y H1), (tighten_after_id "{" y H2).
  rewrite (tighten_before_brace_id y Hc H3). now apply trim_id.
Qed.

(** ** UTF-8 lengths *)

Lemma space_plain (c : cu) : Chars.is_space c = true -> plain c.
Proof.
  intros H. unfold Chars.is_space in H. unfold plain.
  destruct (Chars.is_high_surrogate c) eqn:E1; destruct (Chars.is_low_surrogate c) eqn:E2;
    unfold Chars.is_high_surrogate, Chars.is_low_surrogate in *;
    try (split; reflexivity); exfalso; bool_to_Prop; lia.
Qed.

Lemma ascii_bound (a : ascii) : (ch a < 256)%N.
Proof. destruct a as [[] [] [] [] [] [] [] []]; reflexivity. Qed.

Lemma ascii_plain (a : ascii) : plain (ch a).
Proof.
  pose proof (ascii_bound a) as H. unfold plain.
  destruct (Chars.is_high_surrogate (ch a)) eqn:E1;
    destruct (Chars.is_low_surrogate (ch a)) eqn:E2;
    unfold Chars.is_high_surrogate, Chars.is_low_surrogate in *;
    try (split; reflexivity); exfalso; bool_to_Prop; lia.
Qed.

Lemma unit_length_pos (c : cu) : (1 <= unit_length c)%N.
Proof.
  unfold unit_length. destruct (c <? 128)%N; [lia|]. destruct (c <? 2048)%N; lia.
Qed.

Lemma utf8_plain (c : cu) (t : jsstring) :
  plain c -> utf8_length (c :: t) = (unit_length c + utf8_length t)%N.
Proof.
  intros [H1 H2]. cbn [utf8_length]. unfold unit_length. rewrite H1.
  destruct (c <? 128)%N; [reflexivity|]. destruct (c <? 2048)%N; reflexivity.
Qed.

Lemma utf8_high (c : cu) (t : jsstring) :
  Chars.is_high_surrogate c = true ->
  utf8_length (c :: t) = (3 + utf8_after_high t)%N.
Proof.
  intros H. cbn [utf8_length]. rewrite H.
  unfold Chars.is_high_surrogate in H. bool_to_Prop.
  destruct (N.ltb_spec c 128); [lia|]. destruct (N.ltb_spec c 2048); [lia|].
  destruct t as [|d t']; [reflexivity|]. unfold utf8_after_high.
  destruct (Chars.is_low_surrogate d); lia.
Qed.

Lemma utf8_low (c : cu) (t : jsstring) :
  Chars.is_low_surrogate c = true ->
  utf8_length (c :: t) = (3 + utf8_length t)%N.
Proof.
  intros H. cbn [utf8_length].
  unfold Chars.is_low_surrogate in H. unfold Chars.is_high_surrogate. bool_to_Prop.
  destruct (N.ltb_spec c 128); [lia|]. destruct (N.ltb_spec c 2048); [lia|].
  destruct (N.leb_spec 55296 c); [|lia]. destruct (N.leb_spec c 56319); [lia|].
  reflexivity.
Qed.

(** The three kinds of code unit. *)
Lemma unit_cases (c : cu) :
  plain c \/ Chars.is_high_surrogate c = true
  \/ (Chars.is_high_surrogate c = false /\ Chars.is_low_surrogate c = true).
Proof.
  unfold plain. destruct (Chars.is_high_surrogate c); [tauto|].
  destruct (Chars.is_low_surrogate c); tauto.
Qed.

Lemma high_not_low (c : cu) :
  Chars.is_high_surrogate c = true -> Chars.is_low_surrogate c = false.
Proof.
  intros H. destruct (Chars.is_low_surrogate c) eqn:E; [|reflexivity].
  unfold Chars.is_high_surrogate, Chars.is_low_surrogate in *. bool_to_Prop. lia.
Qed.

Lemma after_high_not_low (c : cu) (t : jsstring) :
  Chars.is_low_surrogate c = false -> utf8_after_high (c :: t) = utf8_length (c :: t).
Proof. intros H. unfold utf8_after_high. now rewrite H. Qed.

Lemma after_high_low (c : cu) (t : jsstring) :
  Chars.is_low_surrogate c = true -> utf8_after_high (c :: t) = (1 + utf8_length t)%N.
Proof. intros H. unfold utf8_after_high. now rewrite H. Qed.

Lemma after_high_bounds (t : jsstring) :
  (utf8_after_high t <= utf8_length t <= utf8_after_high t + 2)%N.
Proof.
  destruct t as [|c t]; [simpl; lia|].
  destruct (Chars.is_low_surrogate c) eqn:E.
  - rewrite (after_high_low c t E), (utf8_low c t E). lia.
  - rewrite (after_high_not_low c t E). lia.
Qed.

Lemma utf8_cons_lt (c : cu) (t : jsstring) :
  (utf8_length t + 1 <= utf8_length (c :: t))%N.
Proof.
  destruct (unit_cases c) as [H | [H | [_ H]]].
  - rewrite (utf8_plain c t H). pose proof (unit_length_pos c). lia.
  - rewrite (utf8_high c t H). pose proof (after_high_bounds t). lia.
  - rewrite (utf8_low c t H). lia.
Qed.

Lemma utf8_skipn (n : nat) (t : jsstring) :
  (n <= List.length t)%nat -> (utf8_length (skipn n t) + N.of_nat n <= utf8_length t)%N.
Proof.
  revert t; induction n as [|n IH]; intros t H; [simpl; lia|].
  destruct t as [|c t]; [simpl in H; lia|].
  simpl in H. cbn [skipn]. pose proof (IH t ltac:(lia)). pose proof (utf8_cons_lt c t). lia.
Qed.

(** Appending never takes more bytes than the two parts. *)
Lemma utf8_app_le (a b : jsstring) :
  (utf8_length (a ++ b) <= utf8_length a + utf8_length b)%N
  /\ (utf8_after_high (a ++ b) <= utf8_after_high a + utf8_length b)%N.
Proof.
  induction a as [|c a [IH1 IH2]].
  - simpl. pose proof (after_high_bounds b). lia.
  - cbn [app].
    assert (K : (utf8_length (c :: a ++ b) <= utf8_length (c :: a) + utf8_length b)%N).
    { destruct (unit_cases c) as [H | [H | [_ H]]].
      - rewrite !(utf8_plain c _ H). lia.
      - rewrite !(utf8_high c _ H). lia.
      - rewrite !(utf8_low c _ H). lia. }
    split; [exact K|].
    destruct (Chars.is_low_surrogate c) eqn:E.
    + rewrite !(after_high_low c _ E). lia.
    + rewrite !(after_high_not_low c _ E). exact K.
Qed.

(** Before a character that is not a low surrogate the bytes add up. *)
Lemma utf8_app_plain (a b : jsstring) :
  first_is (fun c => Chars.is_low_surrogate c = false) b ->
  utf8_length (a ++ b) = (utf8_length a + utf8_length b)%N
  /\ utf8_after_high (a ++ b) = (utf8_after_high a + utf8_length b)%N.
Proof.
  intros Hb. induction a as [|c a [IH1 IH2]].
  - cbn [app]. change (utf8_length []) with 0%N. change (utf8_after_high []) with 0%N.
    split; [lia|]. destruct b as [|d b]; [reflexivity|].
    rewrite (after_high_not_low d b Hb). lia.
  - cbn [app].
    assert (K : utf8_length (c :: a ++ b) = (utf8_length (c :: a) + utf8_length b)%N).
    { destruct (unit_cases c) as [H | [H | [_ H]]].
      - rewrite !(utf8_plain c _ H). lia.
      - rewrite !(utf8_high c _ H). lia.
      - rewrite !(utf8_low c _ H). lia. }
    split; [exact K|].
    destruct (Chars.is_low_surrogate c) eqn:E.
    + rewrite !(after_high_low c _ E). lia.
    + rewrite !(after_high_not_low c _ E). exact K.
Qed.

Lemma utf8_blank_app (w t : jsstring) :
  blank w -> (utf8_length t <= utf8_length (w ++ t))%N.
Proof.
  induction 1 as [|c w Hc _ IH]; [simpl; lia|].
  cbn [app]. pose proof (utf8_cons_lt c (w ++ t)). lia.
Qed.

Lemma utf8_app_blank (t w : jsstring) :
  blank w -> (utf8_length t <= utf8_length (t ++ w))%N.
Proof.
  intros Hw. destruct (utf8_app_plain t w) as [-> _]; [|lia].
  destruct Hw as [|c w Hc _]; [exact I|]. simpl. apply (space_plain c Hc).
Qed.

Lemma utf8_trim (t : jsstring) : (utf8_length (trim t) <= utf8_length t)%N.
Proof.
  destruct (trim_infix t) as (a & b & Ha & Hb & E). rewrite E at 2.
  pose proof (utf8_blank_app a (trim t ++ b) Ha).
  pose proof (utf8_app_blank (trim t) b Hb). lia.
Qed.

(** ** Replacing never adds bytes *)

Lemma utf8_cons_le (c : cu) (o t : jsstring) :
  (utf8_length o <= utf8_length t)%N ->
  (utf8_after_high o <= utf8_after_high t)%N ->
  (utf8_length (c :: o) <= utf8_length (c :: t))%N
  /\ (utf8_after_high (c :: o) <= utf8_after_high (c :: t))%N.
Proof.
  intros H1 H2.
  assert (K : (utf8_length (c :: o) <= utf8_length (c :: t))%N).
  { destruct (unit_cases c) as [H | [H | [_ H]]].
    - rewrite !(utf8_plain c _ H). lia.
    - rewrite !(utf8_high c _ H). lia.
    - rewrite !(utf8_low c _ H). lia. }
  split; [exact K|].
  destruct (Chars.is_low_surrogate c) eqn:E.
  - rewrite !(after_high_low c _ E). lia.
  - rewrite !(after_high_not_low c _ E). exact K.
Qed.

Lemma utf8_cons_strict (c : cu) (o t : jsstring) :
  (utf8_length o < utf8_length t)%N ->
  (utf8_after_high o < utf8_after_high t)%N ->
  (utf8_length (c :: o) < utf8_length (c :: t))%N
  /\ (utf8_after_high (c :: o) < utf8_after_high (c :: t))%N.
Proof.
  intros H1 H2.
  assert (K : (utf8_length (c :: o) < utf8_length (c :: t))%N).
  { destruct (unit_cases c) as [H | [H | [_ H]]].
    - rewrite !(utf8_plain c _ H). lia.
    - rewrite !(utf8_high c _ H). lia.
    - rewrite !(utf8_low c _ H). lia. }
  split; [exact K|].
  destruct (Chars.is_low_surrogate c) eqn:E.
  - rewrite !(after_high_low c _ E). lia.
  - rewrite !(after_high_not_low c _ E). exact K.
Qed.

(** The bytes of [rep ++ o] against those of a text [c :: t] whose first
    [S n] characters were matched, [o] standing for the rest. *)
Lemma utf8_replaced (rep o : jsstring) (c : cu) (t : jsstring) (n : nat) (k : N) :
  plain c -> (n <= List.length t)%nat ->
  (utf8_length rep + k <= N.of_nat (S n))%N ->
  (utf8_length o <= utf8_length (skipn n t))%N ->
  (utf8_length (rep ++ o) + k <= utf8_length (c :: t))%N
  /\ (utf8_after_high (rep ++ o) + k <= utf8_after_high (c :: t))%N.
Proof.
  intros Hc Hn Hr Ho.
  pose proof (utf8_skipn n t Hn) as Hs.
  destruct (utf8_app_le rep o) as [Ha _].
  pose proof (after_high_bounds (rep ++ o)) as Hb.
  rewrite (after_high_not_low c t (proj2 Hc)), (utf8_plain c t Hc).
  pose proof (unit_length_pos c). lia.
Qed.

Lemma replace_shrinks (re : regex) (rep : jsstring) :
  never_empty re -> shrinking re rep ->
  forall t, (utf8_length (replace re rep t) <= utf8_length t)%N
            /\ (utf8_after_high (replace re rep t) <= utf8_after_high t)%N.
Proof.
  intros Hne Hs t. induction t as [t IH] using length_induction.
  destruct t as [|c t1]; [rewrite (replace_nil _ _ Hne); simpl; lia|].
  destruct (match_at re (c :: t1)) as [[|n]|] eqn:M.
  - now destruct (Hne (c :: t1)).
  - rewrite (replace_match _ _ _ _ _ Hne M).
    destruct (Hs _ _ _ M) as [Hc Hr].
    pose proof (match_at_le _ _ _ M) as Hn. simpl in Hn.
    destruct (IH (skipn n t1)) as [IH1 _]; [simpl; rewrite length_skipn; lia|].
    destruct (utf8_replaced rep _ c t1 n 0 Hc ltac:(lia) ltac:(lia) IH1). lia.
  - rewrite (replace_nomatch _ _ _ _ M).
    destruct (IH t1) as [IH1 IH2]; [simpl; lia|]. now apply utf8_cons_le.
Qed.

Lemma replace_shrinks_strictly (re : regex) (rep : jsstring) :
  never_empty re -> strictly_shrinking re rep ->
  forall t, test re t = true ->
            (utf8_length (replace re rep t) < utf8_length t)%N
            /\ (utf8_after_high (replace re rep t) < utf8_after_high t)%N.
Proof.
  intros Hne Hs.
  assert (Hs' : shrinking re rep).
  { intros c t n M. destruct (Hs c t n M). split; [assumption | lia]. }
  intros t. induction t as [t IH] using length_induction. intros Ht.
  destruct t as [|c t1].
  - simpl in Ht. destruct (match_at re []) as [n|] eqn:M; [|discriminate].
    pose proof (match_at_le _ _ _ M) as Hn. simpl in Hn.
    assert (n = O) by lia. subst n. now destruct (Hne []).
  - cbn [test] in Ht. destruct (match_at re (c :: t1)) as [[|n]|] eqn:M.
    + now destruct (Hne (c :: t1)).
    + rewrite (replace_match _ _ _ _ _ Hne M).
      destruct (Hs _ _ _ M) as [Hc Hr].
      pose proof (match_at_le _ _ _ M) as Hn. simpl in Hn.
      destruct (replace_shrinks re rep Hne Hs' (skipn n t1)) as [IH1 _].
      destruct (utf8_replaced rep _ c t1 n 1 Hc ltac:(lia) ltac:(lia) IH1). lia.
    + rewrite (replace_nomatch _ _ _ _ M).
      destruct (IH t1) as [IH1 IH2]; [simpl; lia | exact Ht|].
      now apply utf8_cons_strict.
Qed.

(** *** The steps *)

Lemma utf8_ascii_one (a : ascii) : (utf8_length [ch a] <= 2)%N.
Proof.
  rewrite (utf8_plain _ _ (ascii_plain a)). pose proof (ascii_bound a).
  unfold unit_length. destruct (N.ltb_spec (ch a) 128); [simpl; lia|].
  destruct (N.ltb_spec (ch a) 2048); [simpl; lia | lia].
Qed.

Lemma shrinking_spaces : shrinking Pat.spaces (lit " ").
Proof.
  intros c t n M. rewrite match_spaces in M.
  destruct (Chars.is_space c) eqn:E; [|discriminate].
  split; [now apply space_plain | simpl; lia].
Qed.

Lemma shrinking_after (a : ascii) : shrinking (after a) [ch a].
Proof.
  intros c t n M. rewrite match_after in M. destruct t as [|d t']; [discriminate|].
  destruct (N.eqb c (ch a) && Chars.is_space d) eqn:E; [|discriminate].
  injection M as <-. apply andb_prop in E as [E _]. apply N.eqb_eq in E. subst c.
  split; [apply ascii_plain | pose proof (utf8_ascii_one a); lia].
Qed.

Lemma shrinking_before_close_brace : shrinking Pat.before_close_brace (lit "}").
Proof.
  intros c t n M. rewrite match_before_close_brace in M.
  destruct (Chars.is_space c) eqn:E; [|discriminate].
  split; [now apply space_plain | simpl; lia].
Qed.

Lemma shrinking_between_tags : shrinking Pat.between_tags (lit "><").
Proof.
  intros c t n M. rewrite match_between_tags in M. destruct t as [|d t']; [discriminate|].
  destruct (N.eqb c (ch ">") && Chars.is_space d) eqn:E; [|discriminate].
  destruct (skipn (span Chars.is_space t') t') as [|e r]; [discriminate|].
  destruct (N.eqb e (ch "<")); [|discriminate]. injection M as <-.
  apply andb_prop in E as [E _]. apply N.eqb_eq in E. subst c.
  split; [apply (ascii_plain ">") | simpl; lia].
Qed.

Lemma strictly_shrinking_line_comment : strictly_shrinking Pat.line_comment [].
Proof.
  intros c t n M. rewrite match_line_comment in M. destruct t as [|d t']; [discriminate|].
  destruct (N.eqb c (ch "/") && N.eqb d (ch "/")) eqn:E; [|discriminate].
  apply andb_prop in E as [E _]. apply N.eqb_eq in E. subst c.
  split; [apply (ascii_plain "/") | simpl; lia].
Qed.

Lemma strictly_shrinking_block_comment : strictly_shrinking Pat.block_comment [].
Proof.
  intros c t n M. rewrite match_block_comment in M. destruct t as [|d t']; [discriminate|].
  destruct (N.eqb c (ch "/") && N.eqb d (ch "*")) eqn:E; [|discriminate].
  apply andb_prop in E as [E _]. apply N.eqb_eq in E. subst c.
  split; [apply (ascii_plain "/") | simpl; lia].
Qed.

Lemma strictly_shrinking_html_comment : strictly_shrinking Pat.html_comment [].
Proof.
  intros c t n M. rewrite match_html_comment in M.
  destruct (prefixb (lit "<!--") (c :: t)) eqn:E; [|discriminate].
  apply prefixb_spec in E as [r E]. injection E as -> _.
  split; [apply (ascii_plain "<") | simpl; lia].
Qed.

Lemma utf8_finish_collapse (t : jsstring) :
  (utf8_length (finish t) <= utf8_length (collapse t))%N.
Proof.
  unfold finish, tighten_before_brace, tighten_after.
  pose proof (utf8_trim
    (replace Pat.before_close_brace (lit "}")
       (replace (after "{") [ch "{"] (replace (after ";") [ch ";"] (collapse t))))).
  pose proof (proj1 (replace_shrinks _ _ never_empty_before_close_brace
                       shrinking_before_close_brace
                       (replace (after "{") [ch "{"]
                          (replace (after ";") [ch ";"] (collapse t))))).
  pose proof (proj1 (replace_shrinks _ _ (never_empty_after "{") (shrinking_after "{")
                       (replace (after ";") [ch ";"] (collapse t)))).
  pose proof (proj1 (replace_shrinks _ _ (never_empty_after ";") (shrinking_after ";")
                       (collapse t))).
  lia.
Qed.

Lemma utf8_collapse (t : jsstring) : (utf8_length (collapse t) <= utf8_length t)%N.
Proof. apply (replace_shrinks _ _ never_empty_spaces shrinking_spaces). Qed.

Lemma strictly_shrinking_shrinking (re : regex) (rep : jsstring) :
  strictly_shrinking re rep -> shrinking re rep.
Proof. intros H c t n M. destruct (H c t n M). split; [assumption | lia]. Qed.

Lemma utf8_strip (re : regex) (t : jsstring) :
  never_empty re -> strictly_shrinking re [] ->
  (utf8_length (replace re [] t) <= utf8_length t)%N
  /\ (test re t = true -> (utf8_length (replace re [] t) < utf8_length t)%N)
  /\ (test re t = false -> replace re [] t = t).
Proof.
  intros Hne Hs. split; [|split].
  - apply (replace_shrinks _ _ Hne (strictly_shrinking_shrinking _ _ Hs)).
  - intros Ht. apply (replace_shrinks_strictly _ _ Hne Hs _ Ht).
  - apply replace_id.
Qed.

(** *** Collapsing a run of two or more *)



(** ** The report *)

Lemma report_percentage (code minified : jsstring) :
  reductionPercentage (report code minified)
  = percentage (utf8_length code) (utf8_length minified).
Proof. reflexivity. Qed.

Lemma utf8_length_zero (t : jsstring) : utf8_length t = 0%N -> t = [].
Proof.
  destruct t as [|c t]; [reflexivity|]. intros H.
  pose proof (utf8_cons_lt c t). lia.
Qed.


(** ** Decimal digits *)

Module DigitsFacts.

Import Digits.
Open Scope N_scope.

Lemma value_from_spec (ds : jsstring) (a : N) :
  value_from a ds = a * 10 ^ N.of_nat (List.length ds) + value ds.
Proof.
  unfold value. change (fold_left _ ds 0) with (value_from 0 ds).
  revert a; induction ds as [|d ds IH]; intros a.
  - simpl. lia.
  - cbn [List.length]. rewrite Nat2N.inj_succ, N.pow_succ_r'.
    change (value_from a (d :: ds)) with (value_from (10 * a + (d - 48)) ds).
    change (value_from 0 (d :: ds)) with (value_from (10 * 0 + (d - 48)) ds).
    rewrite (IH (10 * a + (d - 48))), (IH (10 * 0 + (d - 48))). lia.
Qed.

Lemma value_app (a b : jsstring) :
  value (a ++ b) = value a * 10 ^ N.of_nat (List.length b) + value b.
Proof.
  unfold value at 1. rewrite fold_left_app.
  change (fold_left _ a 0) with (value a).
  apply (value_from_spec b (value a)).
Qed.

Lemma value_zeros (n : nat) : value (repeat (ch "0") n) = 0.
Proof.
  induction n as [|n IH]; [reflexivity|].
  change (repeat (ch "0") (S n)) with ([ch "0"] ++ repeat (ch "0") n).
  rewrite value_app, IH. reflexivity.
Qed.

Lemma digit_zeros (n : nat) : Forall digit (repeat (ch "0") n).
Proof. induction n; constructor; [reflexivity | assumption]. Qed.

Lemma span_digits_app (ds rest : jsstring) :
  Forall digit ds -> first_is (fun c => is_digit c = false) rest ->
  span_digits (ds ++ rest) = (ds, rest).
Proof.
  intros Hd Hr. induction Hd as [|d ds Hd _ IH]; cbn [app span_digits].
  - destruct rest as [|c r]; [reflexivity|]. cbn [first_is span_digits] in *.
    now rewrite Hr.
  - unfold digit in Hd. now rewrite Hd, IH.
Qed.

Lemma digits_fuel_acc (fuel : nat) :
  forall n acc, digits_fuel fuel n acc = digits_fuel fuel n [] ++ acc.
Proof.
  induction fuel as [|f IH]; intros n acc; [reflexivity|].
  cbn [digits_fuel]. cbv zeta. destruct (n <? 10); [reflexivity|].
  rewrite (IH _ (_ :: acc)). symmetry. rewrite (IH _ (_ :: [])). symmetry.
  now rewrite <- app_assoc.
Qed.

(** What the digits of [n] are, given fuel for them all. *)
Lemma digits_fuel_spec (f : nat) :
  forall n, n < 2 ^ N.of_nat (S f) ->
    Forall digit (digits_fuel (S f) n [])
    /\ value (digits_fuel (S f) n []) = n
    /\ first_is (fun c => c = 48 -> n = 0) (digits_fuel (S f) n [])
    /\ digits_fuel (S f) n [] <> [].
Proof.
  assert (Small : forall g n, n < 10 ->
            Forall digit (digits_fuel (S g) n [])
            /\ value (digits_fuel (S g) n []) = n
            /\ first_is (fun c => c = 48 -> n = 0) (digits_fuel (S g) n [])
            /\ digits_fuel (S g) n [] <> []).
  { intros g n Hlt. cbn [digits_fuel]. cbv zeta.
    destruct (N.ltb_spec n 10) as [_ | Hge]; [|lia].
    rewrite (N.mod_small n 10 Hlt). repeat split.
    - constructor; [|constructor]. unfold digit, is_digit.
      apply andb_true_intro; split; apply N.leb_le; lia.
    - unfold value. cbn [fold_left]. lia.
    - cbn [first_is]. lia.
    - discriminate. }
  induction f as [|f IH]; intros n Hn.
  - apply Small. change (2 ^ N.of_nat 1) with 2 in Hn. lia.
  - destruct (N.ltb_spec n 10) as [Hlt | Hge]; [now apply Small|].
    pose proof (N.mod_lt n 10 ltac:(lia)) as Hm.
    assert (Hq : n / 10 < 2 ^ N.of_nat (S f)).
    { rewrite (Nat2N.inj_succ (S f)), N.pow_succ_r' in Hn.
      apply N.Div0.div_lt_upper_bound. lia. }
    destruct (IH (n / 10) Hq) as (H1 & H2 & H3 & H4).
    change (digits_fuel (S (S f)) n [])
      with (if n <? 10 then [48 + n mod 10]
            else digits_fuel (S f) (n / 10) [48 + n mod 10]).
    destruct (N.ltb_spec n 10) as [Hlt | _]; [lia|].
    rewrite digits_fuel_acc. repeat split.
    + apply Forall_app. split; [exact H1|]. constructor; [|constructor].
      unfold digit, is_digit. apply andb_true_intro; split; apply N.leb_le;
        clear - Hm; revert Hm; generalize (n mod 10); intros; lia.
    + rewrite value_app, H2. unfold value at 1. cbn [fold_left List.length].
      pose proof (N.div_mod n 10 ltac:(lia)) as Hd.
      change (10 ^ N.of_nat 1) with 10. clear - Hm Hd. revert Hm Hd.
      generalize (n mod 10), (n / 10). intros. lia.
    + destruct (digits_fuel (S f) (n / 10) []) as [|c r]; [now destruct H4|].
      cbn [app first_is] in *. intros Hc. specialize (H3 Hc).
      assert (n < 10) by (apply N.div_small_iff in H3; lia). lia.
    + destruct (digits_fuel (S f) (n / 10) []); discriminate.
Qed.

Lemma digits_spec (n : N) :
  Forall digit (digits n) /\ value (digits n) = n
  /\ first_is (fun c => c = 48 -> n = 0) (digits n) /\ digits n <> [].
Proof.
  unfold digits. apply digits_fuel_spec.
  rewrite Nat2N.inj_succ, N2Nat.id.
  destruct n as [|p]; [reflexivity|]. apply N.log2_spec. lia.
Qed.

End DigitsFacts.

(** ** Number tokens *)

Module NumberFacts.

Import Digits DigitsFacts JSON.
Open Scope N_scope.

Lemma take_sign_minus (t : jsstring) : take_sign (ch "-" :: t) = (true, t).
Proof. reflexivity. Qed.

Lemma take_sign_digit (c : cu) (t : jsstring) :
  digit c -> take_sign (c :: t) = (false, c :: t).
Proof.
  intros H. unfold take_sign. destruct (N.eqb_spec c 45) as [->|]; [discriminate | reflexivity].
Qed.

Lemma take_int_digits (ds rest : jsstring) :
  Forall digit ds -> first_is (fun c => c <> 48) ds ->
  first_is (fun c => is_digit c = false) rest ->
  take_int (ds ++ rest) = (ds, rest).
Proof.
  intros Hd H0 Hr. rewrite <- (span_digits_app ds rest Hd Hr).
  destruct ds as [|c ds]; cbn [app].
  - destruct rest as [|c r]; [reflexivity|]. cbn [first_is] in Hr. unfold take_int.
    destruct (N.eqb_spec c 48) as [->|]; [discriminate | reflexivity].
  - cbn [first_is] in H0. unfold take_int. apply N.eqb_neq in H0. now rewrite H0.
Qed.

Lemma take_int_zero (t : jsstring) : take_int (ch "0" :: t) = ([ch "0"], t).
Proof. reflexivity. Qed.

Lemma take_frac_none (t : jsstring) :
  first_is (fun c => c <> ch ".") t -> take_frac t = Some ([], t).
Proof.
  destruct t as [|c r]; [reflexivity|]. cbn [first_is]. intros H.
  unfold take_frac. change (ch ".") with 46 in H. apply N.eqb_neq in H. now rewrite H.
Qed.

Lemma take_frac_some (f rest : jsstring) :
  Forall digit f -> f <> [] -> first_is (fun c => is_digit c = false) rest ->
  take_frac (ch "." :: f ++ rest) = Some (f, rest).
Proof.
  intros Hd Hn Hr. unfold take_frac. cbn [N.eqb ch N_of_ascii].
  change ((46 =? 46)) with true. cbv iota.
  rewrite (span_digits_app f rest Hd Hr). destruct f; [contradiction | reflexivity].
Qed.

Lemma take_exp_none (t : jsstring) :
  first_is (fun c => c <> ch "e" /\ c <> ch "E") t -> take_exp t = Some (0%Z, t).
Proof.
  destruct t as [|c r]; [reflexivity|]. cbn [first_is]. intros [H1 H2].
  unfold take_exp. change (ch "e") with 101 in H1. change (ch "E") with 69 in H2.
  apply N.eqb_neq in H1, H2. now rewrite H1, H2.
Qed.

Lemma take_exp_some (e : Z) (rest : jsstring) :
  first_is (fun c => is_digit c = false) rest ->
  take_exp (ch "e" :: (if (0 <=? e)%Z then ch "+" else ch "-")
                   :: digits (Z.to_N (Z.abs e)) ++ rest)
  = Some (e, rest).
Proof.
  intros Hr. destruct (digits_spec (Z.to_N (Z.abs e))) as (Hd & Hv & _ & Hn).
  unfold take_exp. change ((ch "e" =? 101) || (ch "e" =? 69)) with true. cbv iota.
  destruct (Z.leb_spec 0 e) as [He | He].
  - change ((ch "+" =? 45)) with false. change ((ch "+" =? 43)) with true. cbv iota.
    rewrite (span_digits_app _ rest Hd Hr), Hv.
    destruct (digits (Z.to_N (Z.abs e))); [contradiction|].
    cbn [cond_Zopp]. f_equal. f_equal. lia.
  - change ((ch "-" =? 45)) with true. cbv iota.
    rewrite (span_digits_app _ rest Hd Hr), Hv.
    destruct (digits (Z.to_N (Z.abs e))); [contradiction|].
    cbn [cond_Zopp]. f_equal. f_equal. lia.
Qed.

(** The sign of a literal only sets the sign of its value. *)
Lemma binary_round_aux_opp (mx ex : Z) (lx : location) :
  binary_round_aux Num.prec Num.emax true mx ex lx
  = SFopp (binary_round_aux Num.prec Num.emax false mx ex lx).
Proof.
  unfold binary_round_aux.
  destruct (shr_fexp Num.prec Num.emax mx ex lx) as [mrs e'].
  destruct (shr_fexp Num.prec Num.emax
              (round_nearest_even (shr_m mrs) (loc_of_shr_record mrs)) e' loc_Exact)
    as [mrs' e''].
  destruct (shr_m mrs'); [reflexivity | | reflexivity].
  now destruct (e'' <=? Num.emax - Num.prec)%Z.
Qed.

Lemma of_decimal_opp (m : N) (e : Z) :
  Num.of_decimal true m e = SFopp (Num.of_decimal false m e).
Proof.
  unfold Num.of_decimal. destruct m as [|p]; [reflexivity|].
  destruct (0 <=? e)%Z.
  - unfold binary_round.
    destruct (shl_align (p * Z.to_pos (10 ^ e)) 0
                (fexp (Z.pos (digits2_pos (p * Z.to_pos (10 ^ e))) + 0)))
      as [mz ez].
    apply binary_round_aux_opp.
  - unfold SFdiv.
    destruct (SFdiv_core_binary Num.prec Num.emax (Z.pos p) 0
                (Z.pos (Z.to_pos (10 ^ (- e)))) 0) as [[mz ez] lz].
    apply binary_round_aux_opp.
Qed.

Lemma of_decimal_shift (neg : bool) (m : N) (z : Z) :
  (0 < m) -> (0 <= z)%Z ->
  Num.of_decimal neg (m * 10 ^ Z.to_N z) 0 = Num.of_decimal neg m z.
Proof.
  intros Hm Hz. unfold Num.of_decimal.
  destruct m as [|p]; [lia|].
  destruct (Z.leb_spec 0 z) as [_|]; [|lia]. cbn [Z.leb Z.compare].
  assert (Hp : (0 < 10 ^ z)%Z) by (apply Z.pow_pos_nonneg; lia).
  destruct (N.pos p * 10 ^ Z.to_N z) as [|q] eqn:E.
  - assert (0 < 10 ^ Z.to_N z) by (apply N.neq_0_lt_0, N.pow_nonzero; lia). lia.
  - f_equal. change (Z.to_pos (10 ^ 0)) with 1%positive.
    apply Pos2Z.inj. rewrite Pos.mul_1_r, Pos2Z.inj_mul, Z2Pos.id by exact Hp.
    change (Z.pos q) with (Z.of_N (N.pos q)). rewrite <- E.
    rewrite N2Z.inj_mul, N2Z.inj_pow, Z2N.id by exact Hz. reflexivity.
Qed.

Lemma stops_not_digit (rest : jsstring) :
  first_is stops_number rest -> first_is (fun c => is_digit c = false) rest.
Proof. apply first_is_impl. now intros c [H _]. Qed.

Lemma stops_not_dot (rest : jsstring) :
  first_is stops_number rest -> first_is (fun c => c <> ch ".") rest.
Proof. apply first_is_impl. now intros c (_ & H & _). Qed.

Lemma stops_not_e (rest : jsstring) :
  first_is stops_number rest -> first_is (fun c => c <> ch "e" /\ c <> ch "E") rest.
Proof. apply first_is_impl. now intros c (_ & _ & H). Qed.

Lemma digit_firstn (n : nat) (ds : jsstring) : Forall digit ds -> Forall digit (firstn n ds).
Proof.
  intros H. rewrite <- (firstn_skipn n ds) in H. now apply Forall_app in H.
Qed.

Lemma digit_skipn (n : nat) (ds : jsstring) : Forall digit ds -> Forall digit (skipn n ds).
Proof.
  intros H. rewrite <- (firstn_skipn n ds) in H. now apply Forall_app in H.
Qed.

Lemma digit_not_e (ds rest : jsstring) :
  Forall digit ds -> first_is (fun c => c <> ch "e" /\ c <> ch "E") rest ->
  first_is (fun c => c <> ch "e" /\ c <> ch "E") (ds ++ rest).
Proof.
  intros Hd Hr. destruct Hd as [|c ds Hc _]; [exact Hr|].
  cbn [app first_is]. split; intros ->; discriminate.
Qed.

(** Reading back the text [Number::toString] makes of the digits [d] and the
    position [n] of the decimal point: the literal denotes [d * 10^(n - k)],
    for [k] the number of digits of [d]. *)
Lemma number_body_format (neg : bool) (d n : Z) (rest : jsstring) :
  (0 < d)%Z -> first_is stops_number rest ->
  number_body neg (NumberToString.format d n ++ rest)
  = Some (Num.of_decimal neg (Z.to_N d) (n - NumberToString.ndigits (Z.to_N d)), rest).
Proof.
  intros Hd Hr.
  pose proof (stops_not_digit rest Hr) as Hr1.
  pose proof (stops_not_dot rest Hr) as Hr2.
  pose proof (stops_not_e rest Hr) as Hr3.
  destruct (digits_spec (Z.to_N d)) as (Hds & Hv & H0 & Hne).
  unfold NumberToString.ndigits, NumberToString.format.
  set (ds := digits (Z.to_N d)) in *.
  set (k := Z.of_nat (List.length ds)).
  assert (Hk : (0 < k)%Z) by (destruct ds; [contradiction | subst k; simpl; lia]).
  assert (H0' : first_is (fun c => c <> 48) ds).
  { destruct ds as [|c r]; [exact I|]. cbn [first_is] in *. intros Hc.
    specialize (H0 Hc). lia. }
  unfold number_body.
  destruct ((-5 <=? n) && (n <=? 21))%Z eqn:En.
  - destruct (Z.leb_spec k n) as [Hkn | Hkn].
    + (* the digits, then zeros *)
      rewrite <- app_assoc, app_assoc.
      rewrite (take_int_digits (ds ++ NumberToString.zeros (n - k)) rest).
      * rewrite (take_frac_none rest Hr2), (take_exp_none rest Hr3).
        destruct (ds ++ NumberToString.zeros (n - k)) eqn:E;
          [apply app_eq_nil in E; destruct E; contradiction|].
        rewrite <- E, app_nil_r, value_app. unfold NumberToString.zeros.
        rewrite value_zeros, Hv, repeat_length, N.add_0_r.
        cbn [List.length]. rewrite Z.sub_0_r.
        rewrite <- (of_decimal_shift neg (Z.to_N d) (n - k)) by lia.
        do 3 f_equal. lia.
      * apply Forall_app. split; [exact Hds | apply digit_zeros].
      * destruct ds; [contradiction | exact H0'].
      * exact Hr1.
    + destruct (Z.ltb_spec 0 n) as [Hn | Hn].
      * (* a decimal point inside the digits *)
        rewrite <- app_assoc. cbn [app].
        assert (Hlen : (Z.to_nat n < List.length ds)%nat) by (subst k; lia).
        rewrite (take_int_digits (firstn (Z.to_nat n) ds)).
        -- rewrite (take_frac_some (skipn (Z.to_nat n) ds) rest).
           ++ rewrite (take_exp_none rest Hr3).
              destruct (firstn (Z.to_nat n) ds) eqn:E.
              { apply (f_equal (@List.length cu)) in E. rewrite length_firstn in E.
                simpl in E. lia. }
              rewrite <- E, firstn_skipn, Hv. do 3 f_equal.
              rewrite length_skipn. subst k. lia.
           ++ now apply digit_skipn.
           ++ intros E. apply (f_equal (@List.length cu)) in E.
              rewrite length_skipn in E. simpl in E. lia.
           ++ exact Hr1.
        -- now apply digit_firstn.
        -- destruct ds as [|c r]; [contradiction|].
           destruct (Z.to_nat n) eqn:E; [lia | exact H0'].
        -- reflexivity.
      * (* zero, a decimal point, zeros, the digits *)
        cbn [app]. rewrite take_int_zero. rewrite <- app_assoc, app_assoc.
        rewrite (take_frac_some (NumberToString.zeros (- n) ++ ds) rest).
        -- rewrite (take_exp_none rest Hr3).
           rewrite (value_app [ch "0"]), value_app. unfold NumberToString.zeros.
           rewrite value_zeros, Hv.
           change (Digits.value [ch "0"]) with 0. rewrite !N.mul_0_l, !N.add_0_l.
           do 3 f_equal. rewrite length_app, repeat_length. subst k. lia.
        -- apply Forall_app. split; [apply digit_zeros | exact Hds].
        -- intros E. apply app_eq_nil in E. destruct E. contradiction.
        -- exact Hr1.
  - (* exponent notation *)
    destruct ds as [|d1 ds'] eqn:Eds; [contradiction|].
    inversion Hds as [|? ? Hd1 Hds']; subst.
    assert (Exp : first_is (fun c => c <> ch "e" /\ c <> ch "E") rest) by exact Hr3.
    destruct ds' as [|d2 ds''].
    + cbn [app].
      match goal with |- context [take_int (d1 :: ?t)] =>
        change (d1 :: t) with ([d1] ++ t);
        rewrite (take_int_digits [d1] t); [|now constructor | exact H0' | reflexivity]
      end.
      rewrite take_frac_none by (cbn [first_is]; discriminate).
      rewrite (take_exp_some (n - 1) rest Hr1).
      rewrite app_nil_r, Hv. do 3 f_equal. subst k. simpl. lia.
    + cbn [app]. rewrite <- app_assoc. cbn [app].
      match goal with |- context [take_int (d1 :: ?t)] =>
        change (d1 :: t) with ([d1] ++ t);
        rewrite (take_int_digits [d1] t); [|now constructor | exact H0' | reflexivity]
      end.
      match goal with |- context [take_frac (_ :: d2 :: ds'' ++ ?t)] =>
        change (d2 :: ds'' ++ t) with ((d2 :: ds'') ++ t);
        rewrite (take_frac_some (d2 :: ds'') t); [|exact Hds' | discriminate | reflexivity]
      end.
      rewrite (take_exp_some (n - 1) rest Hr1).
      cbn [app]. rewrite Hv. do 3 f_equal. subst k. cbn [List.length]. lia.
Qed.

Lemma parse_number_format (neg : bool) (d n : Z) (rest : jsstring) :
  (0 < d)%Z -> first_is stops_number rest ->
  parse_number ((if neg then [ch "-"] else []) ++ NumberToString.format d n ++ rest)
  = Some (Num.of_decimal neg (Z.to_N d) (n - NumberToString.ndigits (Z.to_N d)), rest).
Proof.
  intros Hd Hr. unfold parse_number. destruct neg.
  - cbn [app]. rewrite take_sign_minus. now apply number_body_format.
  - cbn [app].
    assert (Hb : exists b body, NumberToString.format d n = b :: body /\ digit b).
    { destruct (digits_spec (Z.to_N d)) as (Hds & _ & _ & Hne).
      unfold NumberToString.format.
      destruct (digits (Z.to_N d)) as [|c0 r0]; [contradiction|].
      inversion Hds; subst.
      destruct ((-5 <=? n) && (n <=? 21))%Z.
      - destruct (Z.of_nat (List.length (c0 :: r0)) <=? n)%Z; [now eexists _, _|].
        destruct (Z.ltb_spec 0 n); [|now eexists _, _].
        destruct (Z.to_nat n) eqn:E; [lia | now eexists _, _].
      - destruct r0; now eexists _, _. }
    destruct Hb as (b & body & E & Hb).
    pose proof (number_body_format false d n rest Hd Hr) as H.
    rewrite E in *. cbn [app] in *. now rewrite (take_sign_digit b _ Hb).
Qed.

End NumberFacts.

(** ** The digits of [Number::toString] *)

Module ToStringFacts.

Import Digits DigitsFacts NumberToString.

(** The value of [k] digits is below [10^k], and at least [10^(k-1)] when
    the first digit is not zero. *)
Lemma value_bounds (ds : jsstring) :
  Forall digit ds ->
  (value ds < 10 ^ N.of_nat (List.length ds)
   /\ (first_is (fun c => c <> 48) ds -> ds <> [] ->
       10 ^ N.of_nat (Nat.pred (List.length ds)) <= value ds))%N.
Proof.
  induction 1 as [|c r Hc Hr IH].
  - split; [reflexivity | intros _ H; contradiction].
  - change (c :: r) with ([c] ++ r). rewrite value_app.
    change (value [c]) with (10 * 0 + (c - 48))%N.
    unfold digit, is_digit in Hc. apply andb_prop in Hc as [H1 H2].
    apply N.leb_le in H1, H2.
    cbn [app List.length Nat.pred]. rewrite Nat2N.inj_succ, N.pow_succ_r'.
    destruct IH as [IH _]. split.
    + nia.
    + cbn [first_is]. intros H0 _. nia.
Qed.

Lemma ndigits_range (s k : Z) :
  (1 <= k)%Z -> (10 ^ (k - 1) <= s < 10 ^ k)%Z -> ndigits (Z.to_N s) = k.
Proof.
  intros Hk [Hlo Hhi].
  assert (Hs : (0 < s)%Z) by (pose proof (Z.pow_pos_nonneg 10 (k - 1)); lia).
  destruct (digits_spec (Z.to_N s)) as (Hds & Hv & H0 & Hne).
  unfold ndigits. set (ds := digits (Z.to_N s)) in *.
  destruct (value_bounds ds Hds) as [Hlt Hge].
  assert (H0' : first_is (fun c => c <> 48) ds).
  { revert H0. apply first_is_impl. intros c H Hc. specialize (H Hc). lia. }
  specialize (Hge H0' Hne). rewrite Hv in *.
  set (l := List.length ds) in *.
  assert (Hl : (1 <= l)%nat) by (subst l; destruct ds; [contradiction | simpl; lia]).
  assert (Hlt' : (s < 10 ^ Z.of_nat l)%Z).
  { apply N2Z.inj_lt in Hlt. rewrite N2Z.inj_pow, nat_N_Z in Hlt.
    rewrite Z2N.id in Hlt by lia. exact Hlt. }
  assert (Hge' : (10 ^ (Z.of_nat l - 1) <= s)%Z).
  { apply N2Z.inj_le in Hge. rewrite N2Z.inj_pow, nat_N_Z in Hge.
    rewrite Z2N.id in Hge by lia. replace (Z.of_nat l - 1)%Z with (Z.of_nat (Nat.pred l)) by lia.
    exact Hge. }
  destruct (Z.lt_trichotomy (Z.of_nat l) k) as [H|[H|H]]; [|exact H|].
  - assert (10 ^ Z.of_nat l <= 10 ^ (k - 1))%Z by (apply Z.pow_le_mono_r; lia). lia.
  - assert (10 ^ k <= 10 ^ (Z.of_nat l - 1))%Z by (apply Z.pow_le_mono_r; lia). lia.
Qed.

Lemma closer_cases (x : Q) (k : Z) (best c : Z * Z) :
  closer x k best c = best \/ closer x k best c = c.
Proof.
  unfold closer. destruct (distance x k c ?= distance x k best)%Q; auto.
  destruct (Z.even (fst c)); auto.
Qed.

Lemma fold_closer_in (x : Q) (k : Z) (cs : list (Z * Z)) (c : Z * Z) :
  In (fold_left (closer x k) cs c) (c :: cs).
Proof.
  revert c. induction cs as [|d cs IH]; intros c; [now left|].
  cbn [fold_left]. specialize (IH (closer x k c d)).
  destruct IH as [IH|IH].
  - rewrite <- IH. destruct (closer_cases x k c d) as [E|E]; rewrite E; cbn; tauto.
  - right. now right.
Qed.

(** The search returns digits that pass its own test, or it runs out of
    fuel and falls back to the exact expansion. *)
Lemma shortest_cases (fuel : nat) (m : positive) (e k : Z) :
  shortest fuel m e k = exact m e
  \/ exists k', (k <= k')%Z /\ valid (S754_finite false m e) k' (shortest fuel m e k) = true.
Proof.
  revert k. induction fuel as [|f IH]; intros k; [now left|].
  cbn [shortest].
  destruct (filter (valid (S754_finite false m e) k) (candidates (real m e) k))
    as [|c cs] eqn:E.
  - destruct (IH (k + 1)%Z) as [H|(k' & Hk & H)]; [now left|].
    right. exists k'. split; [lia | exact H].
  - right. exists k. split; [lia|].
    pose proof (fold_closer_in (real m e) k cs c) as Hin. rewrite <- E in Hin.
    apply filter_In in Hin. apply Hin.
Qed.

(** Digits that pass the test of the search are read back as the Number. *)
Lemma valid_reads_back (m : positive) (e k d n : Z) :
  (1 <= k)%Z -> valid (S754_finite false m e) k (d, n) = true ->
  (0 < d)%Z
  /\ Num.of_decimal false (Z.to_N d) (n - ndigits (Z.to_N d)) = S754_finite false m e.
Proof.
  intros Hk H. unfold valid in H.
  apply andb_prop in H as [H H3]. apply andb_prop in H as [H1 H2].
  apply Z.leb_le in H1. apply Z.ltb_lt in H2.
  assert (Hd : (0 < d)%Z) by (pose proof (Z.pow_pos_nonneg 10 (k - 1)); lia).
  split; [exact Hd|]. rewrite (ndigits_range d k Hk (conj H1 H2)).
  revert H3. generalize (Num.of_decimal false (Z.to_N d) (n - k)). intros x Hx.
  destruct x as [a|a| |a m' e']; cbn [Num.eqb] in Hx; try discriminate.
  apply andb_prop in Hx as [Hx Hx3]. apply andb_prop in Hx as [Hx1 Hx2].
  apply Bool.eqb_prop in Hx1. apply Pos.eqb_eq in Hx2. apply Z.eqb_eq in Hx3. now subst.
Qed.

End ToStringFacts.

(** ** Binary64 rounding *)

Module FloatFacts.

Open Scope Z_scope.

Lemma fexp_eq (z : Z) : fexp z = Z.max (z - 53) (-1074).
Proof. reflexivity. Qed.

Lemma fexp_mono (a b : Z) : a <= b -> fexp a <= fexp b.
Proof. rewrite !fexp_eq. lia. Qed.

(** *** The number of binary digits *)

Lemma digits2_bounds (p : positive) :
  2 ^ (Zpos (digits2_pos p) - 1) <= Zpos p < 2 ^ Zpos (digits2_pos p).
Proof.
  induction p as [p IH|p IH|]; cbn [digits2_pos]; [| |split; reflexivity].
  - rewrite Pos2Z.inj_succ, (Pos2Z.inj_xI p).
    replace (Z.succ (Zpos (digits2_pos p)) - 1) with (Z.succ (Zpos (digits2_pos p) - 1)) by lia.
    rewrite !Z.pow_succ_r by lia. lia.
  - rewrite Pos2Z.inj_succ, (Pos2Z.inj_xO p).
    replace (Z.succ (Zpos (digits2_pos p)) - 1) with (Z.succ (Zpos (digits2_pos p) - 1)) by lia.
    rewrite !Z.pow_succ_r by lia. lia.
Qed.

Lemma Zdigits2_bounds (z : Z) :
  0 < z -> 1 <= Zdigits2 z /\ 2 ^ (Zdigits2 z - 1) <= z < 2 ^ Zdigits2 z.
Proof.
  destruct z as [|p|p]; try lia. intros _. cbn [Zdigits2].
  split; [lia | apply digits2_bounds].
Qed.

Lemma Zdigits2_unique (z d : Z) : 2 ^ (d - 1) <= z < 2 ^ d -> 0 < z -> Zdigits2 z = d.
Proof.
  intros [Hlo Hhi] Hz. destruct (Zdigits2_bounds z Hz) as (H1 & H2 & H3).
  assert (Hd : 1 <= d).
  { destruct (Z.lt_ge_cases d 1) as [H|H]; [|exact H].
    assert (2 ^ d <= 2 ^ 0) by (destruct (Z.lt_ge_cases d 0);
      [rewrite Z.pow_neg_r by lia; cbn; lia | apply Z.pow_le_mono_r; lia]).
    cbn in *. lia. }
  destruct (Z.lt_trichotomy (Zdigits2 z) d) as [H|[H|H]]; [|exact H|].
  - assert (2 ^ Zdigits2 z <= 2 ^ (d - 1)) by (apply Z.pow_le_mono_r; lia). lia.
  - assert (2 ^ d <= 2 ^ (Zdigits2 z - 1)) by (apply Z.pow_le_mono_r; lia). lia.
Qed.

Lemma Zdigits2_nonneg (z : Z) : 0 <= Zdigits2 z.
Proof. destruct z; cbn; lia. Qed.

Lemma Zdigits2_mul_pow2 (z j : Z) : 0 < z -> 0 <= j -> Zdigits2 (z * 2 ^ j) = Zdigits2 z + j.
Proof.
  intros Hz Hj. destruct (Zdigits2_bounds z Hz) as (H1 & H2 & H3).
  assert (0 < 2 ^ j) by (apply Z.pow_pos_nonneg; lia).
  apply Zdigits2_unique; [|nia].
  replace (Zdigits2 z + j - 1) with (Zdigits2 z - 1 + j) by lia.
  rewrite !Z.pow_add_r by lia. nia.
Qed.

Lemma Zdigits2_mul_le (a b : Z) : 0 < a -> 0 < b -> Zdigits2 (a * b) <= Zdigits2 a + Zdigits2 b.
Proof.
  intros Ha Hb.
  destruct (Zdigits2_bounds a Ha) as (A1 & A2 & A3).
  destruct (Zdigits2_bounds b Hb) as (B1 & B2 & B3).
  destruct (Zdigits2_bounds (a * b) ltac:(nia)) as (C1 & C2 & C3).
  destruct (Z.le_gt_cases (Zdigits2 (a * b)) (Zdigits2 a + Zdigits2 b)) as [H|H]; [exact H|].
  assert (2 ^ (Zdigits2 a + Zdigits2 b) <= 2 ^ (Zdigits2 (a * b) - 1))
    by (apply Z.pow_le_mono_r; lia).
  rewrite Z.pow_add_r in * by lia. nia.
Qed.

Lemma Zdigits2_mono (a b : Z) : 0 <= a <= b -> Zdigits2 a <= Zdigits2 b.
Proof.
  intros [Ha Hab]. destruct (Z.eq_dec a 0) as [->|Hn]; [apply Zdigits2_nonneg|].
  destruct (Zdigits2_bounds a ltac:(lia)) as (A1 & A2 & A3).
  destruct (Zdigits2_bounds b ltac:(lia)) as (B1 & B2 & B3).
  destruct (Z.le_gt_cases (Zdigits2 a) (Zdigits2 b)) as [H|H]; [exact H|].
  assert (2 ^ Zdigits2 b <= 2 ^ (Zdigits2 a - 1)) by (apply Z.pow_le_mono_r; lia). lia.
Qed.

(** The digits of a quotient by a power of two. *)
Lemma Zdigits2_div_pow2 (z n : Z) :
  0 <= z -> 0 <= n -> 0 < z / 2 ^ n -> Zdigits2 (z / 2 ^ n) = Zdigits2 z - n.
Proof.
  intros Hz Hn Hq.
  assert (Hp : 0 < 2 ^ n) by (apply Z.pow_pos_nonneg; lia).
  assert (Hz' : 0 < z).
  { destruct (Z.eq_dec z 0) as [->|]; [rewrite Z.div_0_l in Hq; lia | lia]. }
  destruct (Zdigits2_bounds z Hz') as (H1 & H2 & H3).
  assert (Hd : n < Zdigits2 z).
  { destruct (Z.lt_ge_cases n (Zdigits2 z)) as [H|H]; [exact H|].
    assert (2 ^ Zdigits2 z <= 2 ^ n) by (apply Z.pow_le_mono_r; lia).
    rewrite Z.div_small in Hq; lia. }
  apply Zdigits2_unique; [|exact Hq]. split.
  - apply Z.div_le_lower_bound; [exact Hp|].
    rewrite <- Z.pow_add_r by lia. replace (n + (Zdigits2 z - n - 1)) with (Zdigits2 z - 1) by lia.
    exact H2.
  - apply Z.div_lt_upper_bound; [exact Hp|].
    rewrite <- Z.pow_add_r by lia. replace (n + (Zdigits2 z - n)) with (Zdigits2 z) by lia.
    exact H3.
Qed.

(** *** Shifting to the right *)

Lemma iter_pos_nat (A : Type) (f : A -> A) (p : positive) (x : A) :
  iter_pos f p x = Nat.iter (Pos.to_nat p) f x.
Proof.
  revert x. induction p as [p IH|p IH|]; intros x; cbn [iter_pos].
  - rewrite !IH, Pos2Nat.inj_xI.
    replace (S (2 * Pos.to_nat p)) with (Pos.to_nat p + (Pos.to_nat p + 1))%nat by lia.
    now rewrite !Nat.iter_add.
  - rewrite !IH, Pos2Nat.inj_xO.
    replace (2 * Pos.to_nat p)%nat with (Pos.to_nat p + Pos.to_nat p)%nat by lia.
    now rewrite Nat.iter_add.
  - reflexivity.
Qed.

Lemma shr_1_m (mrs : shr_record) :
  0 <= shr_m mrs -> shr_m (shr_1 mrs) = shr_m mrs / 2.
Proof.
  destruct mrs as [m r s]. cbn [shr_m]. intros H.
  rewrite <- Z.div2_div. destruct m as [|[p|p|]|p]; try reflexivity. lia.
Qed.

Lemma shr_iter_m (n : nat) (mrs : shr_record) :
  0 <= shr_m mrs -> shr_m (Nat.iter n shr_1 mrs) = shr_m mrs / 2 ^ Z.of_nat n.
Proof.
  intros H. induction n as [|n IH]; [cbn; now rewrite Z.div_1_r|].
  rewrite Nat.iter_succ, shr_1_m, IH.
  - rewrite Z.div_div by (try apply Z.pow_pos_nonneg; lia).
    now rewrite Nat2Z.inj_succ, Z.pow_succ_r, Z.mul_comm by lia.
  - rewrite IH. apply Z.div_pos; [exact H | apply Z.pow_pos_nonneg; lia].
Qed.

Lemma shr_iter_exact (n : nat) (z : Z) :
  0 < z ->
  Nat.iter n shr_1 {| shr_m := z * 2 ^ Z.of_nat n; shr_r := false; shr_s := false |}
  = {| shr_m := z; shr_r := false; shr_s := false |}.
Proof.
  intros Hz. induction n as [|n IH]; [cbn; now rewrite Z.mul_1_r|].
  rewrite Nat.iter_succ_r, Nat2Z.inj_succ, Z.pow_succ_r by lia.
  replace (z * (2 * 2 ^ Z.of_nat n)) with (2 * (z * 2 ^ Z.of_nat n)) by lia.
  assert (H : 0 < z * 2 ^ Z.of_nat n)
    by (apply Z.mul_pos_pos; [exact Hz | apply Z.pow_pos_nonneg; lia]).
  destruct (z * 2 ^ Z.of_nat n) as [|q|q] eqn:E; try lia.
  cbn [Z.mul Pos.mul shr_1 orb]. exact IH.
Qed.

Lemma shr_record_m (m : Z) (l : location) : shr_m (shr_record_of_loc m l) = m.
Proof. destruct l as [|[]]; reflexivity. Qed.

(** [shr_fexp] divides the mantissa by the power of two that brings the
    exponent up to the one of the format. *)
Lemma shr_fexp_spec (m e : Z) (l : location) :
  0 <= m ->
  exists mrs e',
    shr_fexp Num.prec Num.emax m e l = (mrs, e')
    /\ e' = Z.max e (fexp (Zdigits2 m + e))
    /\ shr_m mrs = m / 2 ^ (e' - e).
Proof.
  intros Hm. unfold shr_fexp, shr.
  destruct (fexp (Zdigits2 m + e) - e) as [|p|p] eqn:E.
  - eexists _, _. split; [reflexivity|]. split; [lia|].
    rewrite shr_record_m, Z.sub_diag, Z.pow_0_r. now rewrite Z.div_1_r.
  - eexists _, _. split; [reflexivity|]. split; [lia|].
    rewrite iter_pos_nat, shr_iter_m by (now rewrite shr_record_m).
    rewrite shr_record_m, positive_nat_Z. f_equal. f_equal. lia.
  - eexists _, _. split; [reflexivity|]. split; [lia|].
    rewrite shr_record_m, Z.sub_diag, Z.pow_0_r. now rewrite Z.div_1_r.
Qed.

Lemma shr_exact (z e j : Z) :
  0 < z -> 0 <= j ->
  shr {| shr_m := z * 2 ^ j; shr_r := false; shr_s := false |} (e - j) j
  = ({| shr_m := z; shr_r := false; shr_s := false |}, e).
Proof.
  intros Hz Hj. destruct j as [|p|p]; [| |lia].
  - cbn [shr]. now rewrite Z.pow_0_r, Z.mul_1_r, Z.sub_0_r.
  - cbn [shr]. rewrite iter_pos_nat, <- (positive_nat_Z p) at 1.
    rewrite shr_iter_exact by exact Hz. f_equal. lia.
Qed.

Lemma canonical_fexp (m : positive) (e : Z) :
  bounded Num.prec Num.emax m e = true ->
  fexp (Zpos (digits2_pos m) + e) = e /\ e <= 971.
Proof.
  unfold bounded, canonical_mantissa. intros H. apply andb_prop in H as [H1 H2].
  apply Z.eqb_eq in H1. apply Z.leb_le in H2. split; [exact H1 | exact H2].
Qed.

(** *** Rounding *)

(** A mantissa that is a Number of the format times a power of two rounds
    to that Number. *)
Lemma binary_round_aux_exact (sx : bool) (m : positive) (e j : Z) :
  bounded Num.prec Num.emax m e = true -> 0 <= j ->
  binary_round_aux Num.prec Num.emax sx (Zpos m * 2 ^ j) (e - j) loc_Exact
  = S754_finite sx m e.
Proof.
  intros Hb Hj. destruct (canonical_fexp m e Hb) as [Hc He].
  unfold binary_round_aux, shr_fexp.
  rewrite Zdigits2_mul_pow2 by lia. cbn [Zdigits2].
  replace (Zpos (digits2_pos m) + j + (e - j)) with (Zpos (digits2_pos m) + e) by lia.
  rewrite Hc. replace (e - (e - j)) with j by lia.
  cbn [shr_record_of_loc]. rewrite shr_exact by lia.
  cbn [shr_m loc_of_shr_record round_nearest_even Zdigits2 shr_record_of_loc].
  rewrite Hc, Z.sub_diag. cbn [shr shr_m].
  apply Z.leb_le in He. change (Num.emax - Num.prec) with 971. now rewrite He.
Qed.

Lemma round_nearest_even_cases (m : Z) (l : location) :
  m <= round_nearest_even m l <= m + 1.
Proof.
  destruct l as [|[]]; cbn [round_nearest_even]; try lia.
  destruct (Z.even m); lia.
Qed.

(** What [binary_round_aux] returns is a Number of the format, when the
    exponent it is given is not above the one of the format. *)
Lemma binary_round_aux_valid (sx : bool) (mx ex : Z) (lx : location) :
  0 <= mx -> ex <= fexp (Zdigits2 mx + ex) ->
  valid_number (binary_round_aux Num.prec Num.emax sx mx ex lx).
Proof.
  intros Hm Hex.
  destruct (shr_fexp_spec mx ex lx Hm) as (mrs1 & e1 & E1 & He1 & Hm1).
  unfold binary_round_aux. rewrite E1.
  set (m1 := shr_m mrs1) in *.
  pose proof (round_nearest_even_cases m1 (loc_of_shr_record mrs1)) as Hr.
  set (m2 := round_nearest_even m1 (loc_of_shr_record mrs1)) in *.
  assert (Hp1 : 0 < 2 ^ (e1 - ex)) by (apply Z.pow_pos_nonneg; lia).
  assert (Hm1' : 0 <= m1) by (rewrite Hm1; apply Z.div_pos; assumption).
  destruct (shr_fexp_spec m2 e1 loc_Exact ltac:(lia)) as (mrs2 & e2 & E2 & He2 & Hm2).
  rewrite E2.
  assert (Hp2 : 0 < 2 ^ (e2 - e1)) by (apply Z.pow_pos_nonneg; lia).
  destruct (shr_m mrs2) as [|m3|m3] eqn:E3; [exact I| |].
  2:{ assert (0 <= m2 / 2 ^ (e2 - e1)) by (apply Z.div_pos; lia). lia. }
  destruct (e2 <=? Num.emax - Num.prec) eqn:B; [|exact I].
  cbn [valid_number]. unfold bounded. rewrite B, andb_true_r.
  unfold canonical_mantissa. apply Z.eqb_eq.
  change (Zpos (digits2_pos m3)) with (Zdigits2 (Zpos m3)). rewrite Hm2.
  assert (Hq : 0 < m2 / 2 ^ (e2 - e1)) by lia.
  rewrite Zdigits2_div_pow2 by lia.
  replace (Zdigits2 m2 - (e2 - e1) + e2) with (Zdigits2 m2 + e1) by lia.
  assert (Hm2' : 0 < m2).
  { destruct (Z.eq_dec m2 0) as [E|]; [rewrite E, Z.div_0_l in Hq; lia | lia]. }
  assert (Key : e1 <= fexp (Zdigits2 m2 + e1)); [|lia].
  destruct (Z.eq_dec m1 0) as [Z1|N1].
  - assert (e1 = -1074); [|rewrite fexp_eq; lia].
    rewrite fexp_eq in *.
    destruct (Z.eq_dec mx 0) as [->|Nx]; [cbn [Zdigits2] in *; lia|].
    destruct (Zdigits2_bounds mx ltac:(lia)) as (X1 & X2 & X3).
    assert (mx < 2 ^ (e1 - ex)).
    { destruct (Z.lt_ge_cases mx (2 ^ (e1 - ex))) as [H|H]; [exact H|].
      assert (1 <= mx / 2 ^ (e1 - ex)); [|lia].
      apply Z.div_le_lower_bound; lia. }
    destruct (Z.lt_ge_cases (Zdigits2 mx - 1) (e1 - ex)) as [H'|H']; [lia|].
    assert (2 ^ (e1 - ex) <= 2 ^ (Zdigits2 mx - 1)) by (apply Z.pow_le_mono_r; lia). lia.
  - assert (D1 : Zdigits2 m1 = Zdigits2 mx - (e1 - ex)).
    { rewrite Hm1. apply Zdigits2_div_pow2; lia. }
    pose proof (Zdigits2_mono m1 m2 ltac:(lia)) as Hmono.
    pose proof (fexp_mono (Zdigits2 m1 + e1) (Zdigits2 m2 + e1) ltac:(lia)) as Hf.
    replace (Zdigits2 m1 + e1) with (Zdigits2 mx + ex) in Hf by lia. lia.
Qed.

Lemma iter_xO (m d : positive) : Zpos (Pos.iter xO m d) = Zpos m * 2 ^ Zpos d.
Proof.
  induction d as [|d IH] using Pos.peano_ind.
  - cbn [Pos.iter]. rewrite Pos2Z.inj_xO. change (2 ^ 1) with 2. lia.
  - rewrite Pos.iter_succ, Pos2Z.inj_xO, IH, Pos2Z.inj_succ, Z.pow_succ_r by lia. lia.
Qed.

Lemma binary_round_valid (sx : bool) (mx : positive) (ex : Z) :
  valid_number (binary_round Num.prec Num.emax sx mx ex).
Proof.
  unfold binary_round, shl_align.
  change (Zpos (digits2_pos mx)) with (Zdigits2 (Zpos mx)).
  destruct (fexp (Zdigits2 (Zpos mx) + ex) - ex) as [|d|d] eqn:E;
    try (apply binary_round_aux_valid; lia).
  apply binary_round_aux_valid; [lia|].
  rewrite iter_xO, Zdigits2_mul_pow2 by lia.
  replace (Zdigits2 (Zpos mx) + Zpos d + fexp (Zdigits2 (Zpos mx) + ex))
    with (Zdigits2 (Zpos mx) + ex) by lia.
  lia.
Qed.

Lemma binary_round_exact (sx : bool) (p m : positive) (e : Z) :
  bounded Num.prec Num.emax m e = true -> 0 <= e -> Zpos p = Zpos m * 2 ^ e ->
  binary_round Num.prec Num.emax sx p 0 = S754_finite sx m e.
Proof.
  intros Hb He Hp. destruct (canonical_fexp m e Hb) as [Hc _].
  unfold binary_round, shl_align.
  change (Zpos (digits2_pos p)) with (Zdigits2 (Zpos p)).
  rewrite Hp, Zdigits2_mul_pow2 by lia. cbn [Zdigits2].
  replace (Zpos (digits2_pos m) + e + 0) with (Zpos (digits2_pos m) + e) by lia.
  rewrite Hc, Z.sub_0_r.
  pose proof (binary_round_aux_exact sx m e e Hb He) as H.
  rewrite Z.sub_diag, <- Hp in H.
  destruct e as [|e'|e']; [exact H | exact H | lia].
Qed.

(** *** Division *)

Lemma div_core_spec (m1 e1 m2 e2 : Z) :
  0 < m1 -> 0 < m2 ->
  exists q e' l,
    SFdiv_core_binary Num.prec Num.emax m1 e1 m2 e2 = (q, e', l)
    /\ e' = Z.min (fexp (Zdigits2 m1 + e1 - (Zdigits2 m2 + e2))) (e1 - e2)
    /\ q = (m1 * 2 ^ (e1 - e2 - e')) / m2
    /\ ((m1 * 2 ^ (e1 - e2 - e')) mod m2 = 0 -> l = loc_Exact).
Proof.
  intros H1 H2. unfold SFdiv_core_binary. cbv zeta.
  set (e' := Z.min (fexp (Zdigits2 m1 + e1 - (Zdigits2 m2 + e2))) (e1 - e2)).
  set (s := e1 - e2 - e').
  assert (Hs : 0 <= s) by (subst s e'; lia).
  assert (Hm : match s with Zpos _ => Z.shiftl m1 s | 0 => m1 | Zneg _ => 0 end = m1 * 2 ^ s).
  { destruct s as [|p|p]; [rewrite Z.pow_0_r; lia | apply Z.shiftl_mul_pow2; lia | lia]. }
  rewrite Hm.
  destruct (Z.div_eucl (m1 * 2 ^ s) m2) as [q r] eqn:E.
  exists q, e', (new_location m2 r). split; [reflexivity|]. split; [reflexivity|].
  fold s. split; [unfold Z.div; now rewrite E|].
  unfold Z.modulo. rewrite E. intros ->.
  unfold new_location, new_location_even, new_location_odd. now destruct (Z.even m2).
Qed.

Lemma SFdiv_valid (sx sy : bool) (mx my : positive) (ex ey : Z) :
  valid_number (SFdiv Num.prec Num.emax (S754_finite sx mx ex) (S754_finite sy my ey)).
Proof.
  cbn [SFdiv].
  destruct (div_core_spec (Zpos mx) ex (Zpos my) ey ltac:(lia) ltac:(lia))
    as (q & e' & l & E & He & Hq & _).
  rewrite E.
  set (X := Zdigits2 (Zpos mx) + ex - (Zdigits2 (Zpos my) + ey)) in *.
  set (s := ex - ey - e') in *.
  assert (Hs : 0 <= s) by (subst s; lia).
  assert (Hp : 0 < 2 ^ s) by (apply Z.pow_pos_nonneg; lia).
  assert (Hq0 : 0 <= q) by (rewrite Hq; apply Z.div_pos; nia).
  apply binary_round_aux_valid; [exact Hq0|].
  destruct (Zdigits2_bounds (Zpos mx) ltac:(lia)) as (X1 & X2 & X3).
  destruct (Zdigits2_bounds (Zpos my) ltac:(lia)) as (Y1 & Y2 & Y3).
  set (d1 := Zdigits2 (Zpos mx)) in *. set (d2 := Zdigits2 (Zpos my)) in *.
  assert (Hm' : 2 ^ (d1 + s - 1) <= Zpos mx * 2 ^ s).
  { replace (d1 + s - 1) with (d1 - 1 + s) by lia. rewrite Z.pow_add_r by lia. nia. }
  destruct (Z.le_gt_cases (d1 + s) d2) as [Small|Large].
  - (* the quotient may be zero *)
    assert (e' <= -1074) by (rewrite fexp_eq in He; lia).
    pose proof (Zdigits2_nonneg q). rewrite fexp_eq. lia.
  - assert (Hlow : 2 ^ (d1 + s - 1 - d2) <= q).
    { rewrite Hq. apply Z.div_le_lower_bound; [lia|].
      assert (Zpos my * 2 ^ (d1 + s - 1 - d2) <= 2 ^ d2 * 2 ^ (d1 + s - 1 - d2)).
      { apply Z.mul_le_mono_nonneg_r; [apply Z.pow_nonneg; lia | lia]. }
      rewrite <- Z.pow_add_r in H by lia.
      replace (d2 + (d1 + s - 1 - d2)) with (d1 + s - 1) in H by lia. lia. }
    assert (Hq1 : 0 < q) by (pose proof (Z.pow_pos_nonneg 2 (d1 + s - 1 - d2)); lia).
    destruct (Zdigits2_bounds q Hq1) as (Q1 & Q2 & Q3).
    assert (Hd : d1 + s - d2 <= Zdigits2 q).
    { destruct (Z.le_gt_cases (d1 + s - d2) (Zdigits2 q)) as [H|H]; [exact H|].
      assert (2 ^ Zdigits2 q <= 2 ^ (d1 + s - 1 - d2)) by (apply Z.pow_le_mono_r; lia). lia. }
    pose proof (fexp_mono X (Zdigits2 q + e') ltac:(subst X s; lia)). lia.
Qed.

(** The value of a numeric literal is a Number of the format. *)
Lemma of_decimal_valid (neg : bool) (m : N) (e : Z) : valid_number (Num.of_decimal neg m e).
Proof.
  unfold Num.of_decimal. destruct m as [|p]; [exact I|].
  destruct (0 <=? e); [apply binary_round_valid | apply SFdiv_valid].
Qed.

(** A Number of the format with a negative exponent [e] is the quotient
    of its exact decimal expansion, [m * 5^(-e)], by [10^(-e)]. *)
Lemma SFdiv_exact (sx : bool) (p q m : positive) (e : Z) :
  bounded Num.prec Num.emax m e = true -> e < 0 ->
  Zpos p = Zpos m * 5 ^ (- e) -> Zpos q = 10 ^ (- e) ->
  SFdiv Num.prec Num.emax (S754_finite sx p 0) (S754_finite false q 0) = S754_finite sx m e.
Proof.
  intros Hb He Hp Hq. destruct (canonical_fexp m e Hb) as [Hc _].
  cbn [SFdiv]. rewrite xorb_false_r.
  destruct (div_core_spec (Zpos p) 0 (Zpos q) 0 ltac:(lia) ltac:(lia))
    as (quo & e' & l & E & He' & Hquo & Hl).
  rewrite E. clear E.
  set (k := - e) in *.
  assert (H5 : 0 < 5 ^ k) by (apply Z.pow_pos_nonneg; lia).
  assert (H2 : 0 < 2 ^ k) by (apply Z.pow_pos_nonneg; lia).
  assert (H10 : 10 ^ k = 5 ^ k * 2 ^ k) by (rewrite <- Z.pow_mul_l; reflexivity).
  assert (D1 : Zdigits2 (Zpos p) <= Zdigits2 (Zpos m) + Zdigits2 (5 ^ k)).
  { rewrite Hp. apply Zdigits2_mul_le; lia. }
  assert (D2 : Zdigits2 (Zpos q) = Zdigits2 (5 ^ k) + k).
  { rewrite Hq, H10. apply Zdigits2_mul_pow2; lia. }
  pose proof (fexp_mono (Zdigits2 (Zpos p) + 0 - (Zdigits2 (Zpos q) + 0))
                (Zpos (digits2_pos m) + e) ltac:(cbn [Zdigits2] in *; lia)) as Hmono.
  rewrite Hc in Hmono.
  set (s := 0 - 0 - e') in *.
  assert (Hs : k <= s) by (subst s; lia).
  assert (Hprod : Zpos p * 2 ^ s = Zpos m * 2 ^ (s - k) * Zpos q).
  { rewrite Hp, Hq, H10. replace s with (s - k + k) at 1 by lia.
    rewrite Z.pow_add_r by lia. ring. }
  rewrite Hprod in Hquo, Hl.
  rewrite Z.div_mul in Hquo by lia. rewrite Z.mod_mul in Hl by lia.
  rewrite (Hl eq_refl), Hquo.
  replace e' with (e - (s - k)) by (subst s k; lia).
  apply binary_round_aux_exact; [exact Hb | lia].
Qed.

Lemma num_eqb_refl (x : Num.number) : Num.eqb x x = true.
Proof.
  destruct x as [a|a| |a m e]; cbn [Num.eqb]; try reflexivity;
    try (now destruct a).
  rewrite Pos.eqb_refl, Z.eqb_refl. now destruct a.
Qed.

(** *** The digits are read back *)

Import ToStringFacts.

(** The exact decimal expansion of a Number of the format is read back as
    that Number. *)
Lemma exact_reads_back (m : positive) (e : Z) :
  bounded Num.prec Num.emax m e = true ->
  0 < fst (NumberToString.exact m e)
  /\ Num.of_decimal false (Z.to_N (fst (NumberToString.exact m e)))
       (snd (NumberToString.exact m e)
        - NumberToString.ndigits (Z.to_N (fst (NumberToString.exact m e))))
     = S754_finite false m e.
Proof.
  intros Hb. unfold NumberToString.exact.
  destruct (Z.leb_spec 0 e) as [He|He]; cbn [fst snd].
  - assert (Hs : 0 < Zpos m * 2 ^ e) by (apply Z.mul_pos_pos; [lia | apply Z.pow_pos_nonneg; lia]).
    split; [exact Hs|]. rewrite Z.sub_diag.
    destruct (Zpos m * 2 ^ e) as [|p|p] eqn:E; try lia.
    cbn [Z.to_N Num.of_decimal Z.leb Z.compare].
    change (Z.to_pos (10 ^ 0)) with 1%positive. rewrite Pos.mul_1_r.
    apply (binary_round_exact false p m e Hb He). now symmetry.
  - assert (Hs : 0 < Zpos m * 5 ^ (- e))
      by (apply Z.mul_pos_pos; [lia | apply Z.pow_pos_nonneg; lia]).
    split; [exact Hs|].
    replace (NumberToString.ndigits (Z.to_N (Zpos m * 5 ^ (- e))) + e
             - NumberToString.ndigits (Z.to_N (Zpos m * 5 ^ (- e)))) with e by lia.
    destruct (Zpos m * 5 ^ (- e)) as [|p|p] eqn:E; try lia.
    cbn [Z.to_N Num.of_decimal].
    destruct (Z.leb_spec 0 e) as [He'|_]; [lia|].
    apply (SFdiv_exact false p _ m e Hb He); [now symmetry|].
    apply Z2Pos.id. apply Z.pow_pos_nonneg; lia.
Qed.

(** The digits [Number::toString] chooses for a Number of the format are
    read back as that Number. *)
Lemma decimal_reads_back (s : bool) (m : positive) (e : Z) :
  bounded Num.prec Num.emax m e = true -> reads_back (S754_finite s m e) = true.
Proof.
  intros Hb. cbn [reads_back]. unfold NumberToString.decimal.
  set (fuel := S (Z.to_nat (Z.log2 (fst (NumberToString.exact m e))))).
  assert (H : 0 < fst (NumberToString.shortest fuel m e 1)
              /\ Num.of_decimal false (Z.to_N (fst (NumberToString.shortest fuel m e 1)))
                   (snd (NumberToString.shortest fuel m e 1)
                    - NumberToString.ndigits (Z.to_N (fst (NumberToString.shortest fuel m e 1))))
                 = S754_finite false m e).
  { destruct (shortest_cases fuel m e 1) as [E|(k & Hk & Hv)].
    - rewrite E. now apply exact_reads_back.
    - destruct (NumberToString.shortest fuel m e 1) as [d n]. cbn [fst snd].
      now apply (valid_reads_back m e k d n). }
  destruct (NumberToString.shortest fuel m e 1) as [d n]. cbn [fst snd] in H.
  destruct H as [Hd Hx]. rewrite Hx, num_eqb_refl, andb_true_r. now apply Z.ltb_lt.
Qed.

(** *** Rounding to nearest *)

Lemma located_range (a b m : Z) (l : location) :
  0 < b -> located a b m l -> m * b <= a < (m + 1) * b.
Proof. destruct l as [|[]]; cbn [located]; lia. Qed.

(** One shift to the right keeps the location, for the doubled
    denominator. *)
Lemma located_shr_1 (a b : Z) (mrs : shr_record) :
  0 < b -> 0 <= shr_m mrs ->
  located a b (shr_m mrs) (loc_of_shr_record mrs) ->
  located a (2 * b) (shr_m (shr_1 mrs)) (loc_of_shr_record (shr_1 mrs)).
Proof.
  destruct mrs as [m r s]. cbn [shr_m]. intros Hb Hm.
  destruct m as [|[p|p|]|p]; [| | | |lia].
  - destruct r, s; cbn [shr_1 orb shr_m loc_of_shr_record located]; lia.
  - destruct r, s; cbn [shr_1 orb shr_m loc_of_shr_record located];
      change (Zpos p~1) with (2 * Zpos p + 1); generalize (Zpos p); intros k; lia.
  - destruct r, s; cbn [shr_1 orb shr_m loc_of_shr_record located];
      change (Zpos p~0) with (2 * Zpos p); generalize (Zpos p); intros k; lia.
  - destruct r, s; cbn [shr_1 orb shr_m loc_of_shr_record located]; lia.
Qed.

Lemma located_record (a b m : Z) (l : location) :
  located a b m l
  <-> located a b (shr_m (shr_record_of_loc m l)) (loc_of_shr_record (shr_record_of_loc m l)).
Proof. destruct l as [|[]]; reflexivity. Qed.

Lemma located_shr_iter (a b : Z) (n : nat) (mrs : shr_record) :
  0 < b -> 0 <= shr_m mrs ->
  located a b (shr_m mrs) (loc_of_shr_record mrs) ->
  located a (b * 2 ^ Z.of_nat n) (shr_m (Nat.iter n shr_1 mrs))
    (loc_of_shr_record (Nat.iter n shr_1 mrs)).
Proof.
  intros Hb Hm H. induction n as [|n IH]; [cbn; now rewrite Z.mul_1_r|].
  rewrite Nat.iter_succ, Nat2Z.inj_succ, Z.pow_succ_r by lia.
  replace (b * (2 * 2 ^ Z.of_nat n)) with (2 * (b * 2 ^ Z.of_nat n)) by lia.
  assert (Hp : 0 < 2 ^ Z.of_nat n) by (apply Z.pow_pos_nonneg; lia).
  apply located_shr_1; [now apply Z.mul_pos_pos| |exact IH].
  rewrite shr_iter_m by exact Hm. apply Z.div_pos; assumption.
Qed.

Lemma located_shr_fexp (a b m e : Z) (l : location) :
  0 < b -> 0 <= m -> located a b m l ->
  exists mrs e',
    shr_fexp Num.prec Num.emax m e l = (mrs, e')
    /\ e' = Z.max e (fexp (Zdigits2 m + e))
    /\ shr_m mrs = m / 2 ^ (e' - e)
    /\ located a (b * 2 ^ (e' - e)) (shr_m mrs) (loc_of_shr_record mrs).
Proof.
  intros Hb Hm Hl. destruct (shr_fexp_spec m e l Hm) as (mrs & e' & E & He & Hs).
  exists mrs, e'. split; [exact E|]. split; [exact He|]. split; [exact Hs|].
  unfold shr_fexp, shr in E. apply located_record in Hl.
  destruct (fexp (Zdigits2 m + e) - e) as [|p|p] eqn:D; injection E as <- E'.
  - replace (e' - e) with 0 by lia. now rewrite Z.mul_1_r.
  - rewrite iter_pos_nat. replace (e' - e) with (Z.of_nat (Pos.to_nat p)) by lia.
    apply located_shr_iter; [exact Hb | now rewrite shr_record_m | exact Hl].
  - replace (e' - e) with 0 by lia. now rewrite Z.mul_1_r.
Qed.

Lemma round_nearest_even_near (a b m : Z) (l : location) :
  0 < b -> located a b m l ->
  2 * Z.abs (round_nearest_even m l * b - a) <= b.
Proof.
  intros Hb. destruct l as [|[]]; cbn [located round_nearest_even]; try lia.
  destruct (Z.even m); lia.
Qed.

(** Rounding in the normal range: a mantissa of 53 binary digits or more
    becomes one of 53 digits, at a relative distance of at most [2^-53]
    from the fraction [a / b] that the mantissa and its location stand
    for. *)
Lemma binary_round_aux_near (sx : bool) (mx ex : Z) (lx : location) (a b : Z) :
  0 < mx -> 0 < b -> located a b mx lx ->
  53 <= Zdigits2 mx -> -1074 <= Zdigits2 mx + ex - 53 <= 970 ->
  exists m3 e3 m2,
    binary_round_aux Num.prec Num.emax sx mx ex lx = S754_finite sx m3 e3
    /\ Zdigits2 (Zpos m3) = 53
    /\ ex + (Zdigits2 mx - 53) <= e3 <= ex + (Zdigits2 mx - 53) + 1
    /\ Zpos m3 * 2 ^ (e3 - (ex + (Zdigits2 mx - 53))) = m2
    /\ 2 ^ 53 * Z.abs (m2 * (b * 2 ^ (Zdigits2 mx - 53)) - a) <= a.
Proof.
  intros Hmx Hb Hl Hd He.
  set (n := Zdigits2 mx - 53) in *.
  destruct (located_shr_fexp a b mx ex lx Hb ltac:(lia) Hl) as (mrs1 & e1 & E1 & He1 & Hm1 & Hl1).
  assert (Ee1 : e1 = ex + n) by (rewrite fexp_eq in He1; subst n; lia).
  replace (e1 - ex) with n in * by lia.
  unfold binary_round_aux. rewrite E1.
  set (m1 := shr_m mrs1) in *.
  assert (Hp : 0 < 2 ^ n) by (apply Z.pow_pos_nonneg; lia).
  destruct (Zdigits2_bounds mx Hmx) as (_ & X2 & X3).
  assert (M1 : 2 ^ 52 <= m1 < 2 ^ 53).
  { rewrite Hm1. split.
    - apply Z.div_le_lower_bound; [exact Hp|]. rewrite Z.mul_comm, <- Z.pow_add_r by lia.
      replace (52 + n) with (Zdigits2 mx - 1) by lia. exact X2.
    - apply Z.div_lt_upper_bound; [exact Hp|]. rewrite <- Z.pow_add_r by lia.
      replace (n + 53) with (Zdigits2 mx) by lia. exact X3. }
  pose proof (round_nearest_even_cases m1 (loc_of_shr_record mrs1)) as Hr.
  assert (Hb' : 0 < b * 2 ^ n) by (now apply Z.mul_pos_pos).
  pose proof (round_nearest_even_near a (b * 2 ^ n) m1 _ Hb' Hl1) as Hn.
  set (m2 := round_nearest_even m1 (loc_of_shr_record mrs1)) in *.
  pose proof (located_range a (b * 2 ^ n) m1 _ Hb' Hl1) as Ha.
  assert (Hrel : 2 ^ 53 * Z.abs (m2 * (b * 2 ^ n) - a) <= a).
  { revert Hn Ha M1 Hb'. generalize (b * 2 ^ n). intros B Hn Ha M1 HB.
    assert (2 ^ 52 * B <= m1 * B) by (apply Z.mul_le_mono_nonneg_r; lia).
    change (2 ^ 53) with (2 ^ 52 * 2). change (2 ^ 52) with 4503599627370496 in *. lia. }
  unfold shr_fexp. cbn [shr_record_of_loc].
  destruct (Z.eq_dec m2 (2 ^ 53)) as [Top|NTop].
  - exists (2 ^ 52)%positive, (e1 + 1), m2.
    split; [|split; [reflexivity|split; [lia|split; [|exact Hrel]]]].
    + rewrite Top. change (Zdigits2 (2 ^ 53)) with 54.
      replace (fexp (54 + e1) - e1) with 1 by (rewrite fexp_eq; lia).
      cbn [shr iter_pos shr_1 shr_m orb].
      replace (e1 + 1 <=? Num.emax - Num.prec) with true
        by (symmetry; apply Z.leb_le; change (Num.emax - Num.prec) with 971; lia).
      reflexivity.
    + replace (e1 + 1 - (ex + n)) with 1 by lia. rewrite Top. reflexivity.
  - assert (M2 : 2 ^ 52 <= m2 < 2 ^ 53) by lia.
    assert (D2 : Zdigits2 m2 = 53) by (apply Zdigits2_unique; [exact M2 | lia]).
    rewrite D2. replace (fexp (53 + e1) - e1) with 0 by (rewrite fexp_eq; lia).
    cbn [shr shr_m].
    destruct m2 as [|p2|p2] eqn:E2; try lia.
    exists p2, e1, (Zpos p2).
    replace (e1 <=? Num.emax - Num.prec) with true
      by (symmetry; apply Z.leb_le; change (Num.emax - Num.prec) with 971; lia).
    split; [reflexivity|]. split; [exact D2|]. split; [lia|].
    split; [|exact Hrel].
    replace (e1 - (ex + n)) with 0 by lia. now rewrite Z.mul_1_r.
Qed.

End FloatFacts.

(** ** [JSON.stringify] followed by [JSON.parse] *)

Module JSONFacts.

Import JSON NumberFacts.
Open Scope N_scope.

(** *** String literals *)

Lemma eqb_string_refl (a : jsstring) : eqb_string a a = true.
Proof. induction a as [|c a IH]; [reflexivity|]. cbn [eqb_string]. now rewrite N.eqb_refl. Qed.

Lemma eqb_string_eq (a b : jsstring) : eqb_string a b = true <-> a = b.
Proof.
  split; [|intros ->; apply eqb_string_refl].
  revert b. induction a as [|c a IH]; intros [|d b]; cbn [eqb_string]; try discriminate.
  - reflexivity.
  - intros H. apply andb_prop in H as [H1 H2]. apply N.eqb_eq in H1.
    now rewrite H1, (IH _ H2).
Qed.

Lemma eqb_string_neq (a b : jsstring) : eqb_string a b = false <-> a <> b.
Proof.
  destruct (eqb_string a b) eqn:E.
  - apply eqb_string_eq in E. split; [discriminate | contradiction].
  - split; [|reflexivity]. intros _ H. apply eqb_string_eq in H. congruence.
Qed.

Lemma hex_roundtrip (n : N) : n < 16 -> hex_value (hex_digit n) = Some n.
Proof.
  intros H. unfold hex_digit, hex_value, Digits.is_digit.
  destruct (N.ltb_spec n 10) as [L|L].
  - replace (48 <=? 48 + n) with true by (symmetry; apply N.leb_le; lia).
    replace (48 + n <=? 57) with true by (symmetry; apply N.leb_le; lia).
    cbn [andb]. f_equal. lia.
  - replace (87 + n <=? 57) with false by (symmetry; apply N.leb_gt; lia).
    rewrite andb_false_r.
    replace (97 <=? 87 + n) with true by (symmetry; apply N.leb_le; lia).
    replace (87 + n <=? 102) with true by (symmetry; apply N.leb_le; lia).
    cbn [andb]. f_equal. lia.
Qed.

Lemma hex4_roundtrip (c : cu) :
  c < 65536 ->
  hex4 (hex_digit (c / 4096 mod 16)) (hex_digit (c / 256 mod 16))
       (hex_digit (c / 16 mod 16)) (hex_digit (c mod 16)) = Some c.
Proof.
  intros H. unfold hex4.
  rewrite !hex_roundtrip by (apply N.mod_lt; discriminate).
  f_equal.
  pose proof (N.div_mod c 16 ltac:(discriminate)) as E0.
  pose proof (N.div_mod (c / 16) 16 ltac:(discriminate)) as E1.
  pose proof (N.div_mod (c / 256) 16 ltac:(discriminate)) as E2.
  pose proof (N.div_mod (c / 4096) 16 ltac:(discriminate)) as E3.
  replace (c / 256) with (c / 16 / 16) in * by (rewrite N.Div0.div_div; reflexivity).
  replace (c / 4096) with (c / 16 / 16 / 16) in * by (rewrite !N.Div0.div_div; reflexivity).
  assert (c / 16 / 16 / 16 / 16 = 0).
  { rewrite !N.Div0.div_div. apply N.div_small. exact H. }
  revert E0 E1 E2 E3 H0.
  generalize (c mod 16), (c / 16 mod 16), (c / 16 / 16 mod 16), (c / 16 / 16 / 16 mod 16).
  generalize (c / 16 / 16 / 16 / 16), (c / 16 / 16 / 16), (c / 16 / 16), (c / 16).
  intros. lia.
Qed.

Lemma parse_chars_plain (c : cu) (t : jsstring) :
  c <> 34 -> c <> 92 -> 32 <= c ->
  parse_chars (c :: t)
  = match parse_chars t with Some (s, r) => Some (c :: s, r) | None => None end.
Proof.
  intros H1 H2 H3. cbn [parse_chars].
  apply N.eqb_neq in H1, H2. rewrite H1, H2.
  replace (c <? 32) with false by (symmetry; apply N.ltb_ge; exact H3).
  reflexivity.
Qed.

Lemma parse_chars_unicode (h1 h2 h3 h4 : cu) (t : jsstring) :
  parse_chars (ch "\" :: ch "u" :: h1 :: h2 :: h3 :: h4 :: t)
  = match hex4 h1 h2 h3 h4, parse_chars t with
    | Some x, Some (s, r) => Some (x :: s, r)
    | _, _ => None
    end.
Proof. reflexivity. Qed.

Lemma parse_chars_escape (e x : cu) (t : jsstring) :
  In (e, x) [(34, 34); (92, 92); (47, 47); (98, 8); (102, 12); (110, 10); (114, 13); (116, 9)] ->
  parse_chars (ch "\" :: e :: t)
  = match parse_chars t with Some (s, r) => Some (x :: s, r) | None => None end.
Proof.
  intros H. repeat (destruct H as [H|H]; [injection H as <- <-; reflexivity|]).
  destruct H.
Qed.

(** One quoted code unit is read back as itself. *)
Lemma parse_quote_unit (c : cu) (t s r : jsstring) :
  parse_chars t = Some (s, r) ->
  parse_chars (quote_unit c ++ t) = Some (c :: s, r).
Proof.
  intros Ht. unfold quote_unit.
  destruct (N.eqb_spec c 8) as [->|N8];
    [change (lit "\b" ++ t) with (ch "\" :: 98 :: t);
     rewrite (parse_chars_escape 98 8) by (cbn; tauto); now rewrite Ht|].
  destruct (N.eqb_spec c 9) as [->|N9];
    [change (lit "\t" ++ t) with (ch "\" :: 116 :: t);
     rewrite (parse_chars_escape 116 9) by (cbn; tauto); now rewrite Ht|].
  destruct (N.eqb_spec c 10) as [->|N10];
    [change (lit "\n" ++ t) with (ch "\" :: 110 :: t);
     rewrite (parse_chars_escape 110 10) by (cbn; tauto); now rewrite Ht|].
  destruct (N.eqb_spec c 12) as [->|N12];
    [change (lit "\f" ++ t) with (ch "\" :: 102 :: t);
     rewrite (parse_chars_escape 102 12) by (cbn; tauto); now rewrite Ht|].
  destruct (N.eqb_spec c 13) as [->|N13];
    [change (lit "\r" ++ t) with (ch "\" :: 114 :: t);
     rewrite (parse_chars_escape 114 13) by (cbn; tauto); now rewrite Ht|].
  destruct (N.eqb_spec c 34) as [->|N34];
    [cbn [app]; rewrite (parse_chars_escape 34 34) by (cbn; tauto); now rewrite Ht|].
  destruct (N.eqb_spec c 92) as [->|N92];
    [change (lit "\\" ++ t) with (ch "\" :: 92 :: t);
     rewrite (parse_chars_escape 92 92) by (cbn; tauto); now rewrite Ht|].
  destruct ((c <? 32) || is_surrogate c) eqn:E.
  - unfold unicode_escape. cbn [app]. rewrite parse_chars_unicode, hex4_roundtrip, Ht; [reflexivity|].
    apply orb_prop in E as [E|E]; [apply N.ltb_lt in E; lia|].
    unfold is_surrogate in E. apply andb_prop in E as [_ E]. apply N.leb_le in E. lia.
  - apply orb_false_elim in E as [E _]. apply N.ltb_ge in E.
    cbn [app]. rewrite parse_chars_plain, Ht by assumption. reflexivity.
Qed.

(** The body of a quoted string, up to the closing quote, is read back as
    the string. *)
Lemma parse_quote_chars (s rest : jsstring) :
  parse_chars (quote_chars s ++ 34 :: rest) = Some (s, rest).
Proof.
  induction s as [s IH] using length_induction.
  destruct s as [|c s']; [reflexivity|].
  cbn [quote_chars].
  assert (Unit : parse_chars ((quote_unit c ++ quote_chars s') ++ 34 :: rest)
                 = Some (c :: s', rest)).
  { rewrite <- app_assoc. apply parse_quote_unit. apply IH. simpl. lia. }
  destruct (Chars.is_high_surrogate c) eqn:Hc; [|exact Unit].
  destruct s' as [|d s''].
  - rewrite <- (app_nil_r (quote_unit c)). exact Unit.
  - destruct (Chars.is_low_surrogate d) eqn:Hd; [|exact Unit].
    unfold Chars.is_high_surrogate in Hc. unfold Chars.is_low_surrogate in Hd.
    apply andb_prop in Hc as [Hc1 Hc2]. apply andb_prop in Hd as [Hd1 Hd2].
    apply N.leb_le in Hc1, Hc2, Hd1, Hd2.
    cbn [app]. rewrite parse_chars_plain by lia. rewrite parse_chars_plain by lia.
    rewrite IH by (simpl; lia). reflexivity.
Qed.

(** *** Property order *)

Lemma has_key_app (k : jsstring) (a b : list (jsstring * value)) :
  has_key k (a ++ b) = has_key k a || has_key k b.
Proof.
  induction a as [|[k' w] a IH]; [reflexivity|].
  cbn [app has_key]. now rewrite IH, orb_assoc.
Qed.

Lemma array_index_canonical (k : jsstring) (i : N) :
  array_index k = Some i -> k = Digits.digits i.
Proof.
  unfold array_index. intros H.
  destruct (forallb Digits.is_digit k
            && eqb_string (Digits.digits (Digits.value k)) k
            && (Digits.value k <? 4294967295)) eqn:E; [|discriminate].
  injection H as <-. apply andb_prop in E as [E _]. apply andb_prop in E as [_ E].
  apply eqb_string_eq in E. now symmetry.
Qed.

Lemma insert_index_app (i : N) (key : jsstring) (v : value) (a b : list (jsstring * value)) :
  insert_index i key v (a ++ b)
  = if forallb (belowb i) a then a ++ insert_index i key v b
    else insert_index i key v a ++ b.
Proof.
  induction a as [|[k w] a IH].
  - reflexivity.
  - cbn [app insert_index forallb]. unfold belowb at 1. cbn [fst].
    destruct (array_index k) as [j|]; cbn [andb]; [|reflexivity].
    destruct (j <? i); cbn [andb]; [|reflexivity].
    rewrite IH. now destruct (forallb (belowb i) a).
Qed.

Lemma insert_index_single (i : N) (key : jsstring) (v : value) (p : jsstring * value) :
  insert_index i key v [p] = if belowb i p then [p; (key, v)] else [(key, v); p].
Proof.
  destruct p as [k w]. unfold belowb. cbn [insert_index fst].
  destruct (array_index k) as [j|]; [|reflexivity]. now destruct (j <? i).
Qed.

Lemma Forall_below (i : N) (ps : list (jsstring * value)) :
  Forall (below i) ps <-> forallb (belowb i) ps = true.
Proof.
  rewrite forallb_forall, Forall_forall. reflexivity.
Qed.

Lemma insert_index_below (i : N) (key : jsstring) (v : value) (ps : list (jsstring * value)) :
  Forall (below i) ps -> insert_index i key v ps = ps ++ [(key, v)].
Proof.
  intros H. apply Forall_below in H.
  rewrite <- (app_nil_r ps) at 1. rewrite insert_index_app, H. reflexivity.
Qed.

Lemma Forall_insert_index (P : jsstring * value -> Prop) (i : N) (key : jsstring) (v : value)
  (ps : list (jsstring * value)) :
  Forall P (insert_index i key v ps) <-> P (key, v) /\ Forall P ps.
Proof.
  induction ps as [|[k w] ps IH]; cbn [insert_index].
  - split; [intros H; inversion H; subst; split; [assumption | constructor]|].
    intros [H _]. now constructor.
  - assert (Here : Forall P ((key, v) :: (k, w) :: ps) <-> P (key, v) /\ Forall P ((k, w) :: ps)).
    { split; [intros H; inversion H; subst; now split | intros [H1 H2]; now constructor]. }
    destruct (array_index k) as [j|]; [|exact Here].
    destruct (j <? i); [|exact Here].
    split.
    + intros H. inversion H as [|? ? H1 H2]; subst. apply IH in H2 as [H2 H3].
      split; [assumption | now constructor].
    + intros [H1 H2]. inversion H2 as [|? ? H3 H4]; subst.
      constructor; [assumption|]. apply IH. now split.
Qed.

Lemma has_key_insert_index (k : jsstring) (i : N) (key : jsstring) (v : value)
  (ps : list (jsstring * value)) :
  has_key k (insert_index i key v ps) = eqb_string key k || has_key k ps.
Proof.
  induction ps as [|[k' w] ps IH]; cbn [insert_index]; [reflexivity|].
  destruct (array_index k') as [j|]; [|reflexivity].
  destruct (j <? i); [|reflexivity].
  cbn [has_key]. rewrite IH.
  destruct (eqb_string k' k), (eqb_string key k); reflexivity.
Qed.

Lemma overwrite_app (key : jsstring) (v : value) (a b : list (jsstring * value)) :
  overwrite key v (a ++ b)
  = if has_key key a then overwrite key v a ++ b else a ++ overwrite key v b.
Proof.
  induction a as [|[k w] a IH]; [reflexivity|].
  cbn [app overwrite has_key].
  destruct (eqb_string k key); cbn [orb]; [reflexivity|].
  rewrite IH. now destruct (has_key key a).
Qed.

Lemma has_key_overwrite (k key : jsstring) (v : value) (ps : list (jsstring * value)) :
  has_key k (overwrite key v ps) = has_key k ps.
Proof.
  induction ps as [|[k' w] ps IH]; [reflexivity|].
  cbn [overwrite]. destruct (eqb_string k' key); cbn [has_key]; [reflexivity|].
  now rewrite IH.
Qed.

Lemma below_overwrite (i : N) (key : jsstring) (v : value) (ps : list (jsstring * value)) :
  Forall (below i) ps -> Forall (below i) (overwrite key v ps).
Proof.
  induction 1 as [|[k w] ps H1 H2 IH]; [constructor|].
  cbn [overwrite]. destruct (eqb_string k key); constructor; assumption.
Qed.

Lemma normal_overwrite (key : jsstring) (v : value) (ps : list (jsstring * value)) :
  normal ps -> normal (overwrite key v ps).
Proof.
  induction 1 as [|ps k w Hn IH Hk Hb]; [constructor|].
  rewrite overwrite_app. destruct (has_key key ps).
  - constructor; [exact IH | now rewrite has_key_overwrite|].
    intros i Hi. apply below_overwrite. now apply Hb.
  - cbn [overwrite]. destruct (eqb_string k key); now constructor.
Qed.

Lemma normal_insert_index (i : N) (key : jsstring) (v : value) (ps : list (jsstring * value)) :
  normal ps -> has_key key ps = false -> array_index key = Some i ->
  normal (insert_index i key v ps).
Proof.
  intros Hn. induction Hn as [|ps k w Hn IH Hk Hb]; intros Hkey Hi.
  - apply (normal_snoc [] key v); [constructor | reflexivity | constructor].
  - rewrite has_key_app in Hkey. apply orb_false_elim in Hkey as [Hkey Hne].
    cbn [has_key] in Hne. rewrite orb_false_r in Hne. apply eqb_string_neq in Hne.
    assert (Hne' : eqb_string key k = false) by (apply eqb_string_neq; congruence).
    assert (Far : forall ik, array_index k = Some ik -> belowb i (k, w) = false -> i < ik).
    { intros ik Hik. unfold belowb. cbn [fst]. rewrite Hik. intros Hlt.
      apply N.ltb_ge in Hlt.
      assert (ik <> i); [|lia]. intros ->.
      apply array_index_canonical in Hik, Hi. congruence. }
    rewrite insert_index_app.
    destruct (forallb (belowb i) ps) eqn:Hall.
    + rewrite insert_index_single. destruct (belowb i (k, w)) eqn:Hkw.
      * change [(k, w); (key, v)] with ([(k, w)] ++ [(key, v)]).
        rewrite app_assoc. constructor.
        -- now constructor.
        -- rewrite has_key_app, Hkey. cbn [has_key]. rewrite orb_false_r.
           apply eqb_string_neq. exact Hne.
        -- intros i' Hi'. rewrite Hi in Hi'. injection Hi' as <-.
           apply Forall_app. split; [now apply Forall_below|].
           constructor; [exact Hkw | constructor].
      * change [(key, v); (k, w)] with ([(key, v)] ++ [(k, w)]).
        rewrite app_assoc. constructor.
        -- constructor; [exact Hn | exact Hkey|].
           intros i' Hi'. rewrite Hi in Hi'. injection Hi' as <-. now apply Forall_below.
        -- rewrite has_key_app, Hk. cbn [has_key]. now rewrite Hne'.
        -- intros ik Hik. apply Forall_app. split; [now apply Hb|].
           constructor; [|constructor]. unfold below, belowb. cbn [fst]. rewrite Hi.
           apply N.ltb_lt. now apply Far.
    + constructor.
      * now apply IH.
      * rewrite has_key_insert_index, Hne', Hk. reflexivity.
      * intros ik Hik. apply Forall_insert_index. split; [|now apply Hb].
        unfold below, belowb. cbn [fst]. rewrite Hi. apply N.ltb_lt.
        specialize (Hb ik Hik). apply Forall_below in Hb.
        assert (Ex : exists p, In p ps /\ belowb i p = false).
        { clear -Hall. induction ps as [|p ps IH]; [discriminate|].
          cbn [forallb] in Hall. destruct (belowb i p) eqn:E.
          - destruct (IH Hall) as (q & Hq & Hq'). exists q. split; [now right | exact Hq'].
          - exists p. split; [now left | exact E]. }
        destruct Ex as (p & Hp & Hp').
        rewrite forallb_forall in Hb. specialize (Hb p Hp).
        unfold belowb in Hb, Hp'. destruct (array_index (fst p)) as [j|]; [|discriminate].
        apply N.ltb_lt in Hb. apply N.ltb_ge in Hp'. lia.
Qed.

(** [define] keeps the property order. *)
Lemma normal_define (key : jsstring) (v : value) (ps : list (jsstring * value)) :
  normal ps -> normal (define key v ps).
Proof.
  intros Hn. unfold define. destruct (has_key key ps) eqn:Hk.
  - now apply normal_overwrite.
  - destruct (array_index key) as [i|] eqn:Hi.
    + now apply normal_insert_index.
    + constructor; [exact Hn | exact Hk | intros i Hi'; congruence].
Qed.

(** Defining the properties of a list in property order, one after the
    other, builds that list. *)
Lemma define_all_normal (ps : list (jsstring * value)) :
  normal ps -> define_all ps [] = ps.
Proof.
  induction 1 as [|ps k v Hn IH Hk Hb]; [reflexivity|].
  unfold define_all in *. rewrite fold_left_app, IH. cbn [fold_left fst snd].
  unfold define. rewrite Hk. destruct (array_index k) as [i|] eqn:Hi; [|reflexivity].
  apply insert_index_below. now apply Hb.
Qed.

Lemma normal_map (f : value -> value) (ps : list (jsstring * value)) :
  normal ps -> normal (map (fun p => (fst p, f (snd p))) ps).
Proof.
  induction 1 as [|ps k v Hn IH Hk Hb]; [constructor|].
  rewrite map_app. cbn [map fst snd]. constructor.
  - exact IH.
  - rewrite <- Hk. clear. induction ps as [|[k' w] ps IH]; [reflexivity|].
    cbn [map has_key fst]. now rewrite IH.
  - intros i Hi. specialize (Hb i Hi). clear -Hb.
    induction Hb as [|[k' w] ps H1 H2 IH]; constructor; assumption.
Qed.

(** *** One step of the parser *)

Lemma skip_ws_first (t : jsstring) :
  first_is (fun c => is_ws c = false) t -> skip_ws t = t.
Proof. destruct t as [|c t]; [reflexivity|]. cbn [first_is skip_ws]. now intros ->. Qed.

Lemma delimiter_stops (rest : jsstring) :
  first_is delimiter rest -> first_is stops_number rest.
Proof.
  apply first_is_impl. intros c [-> | [-> | ->]]; repeat split; discriminate.
Qed.

Lemma delimiter_no_ws (rest : jsstring) :
  first_is delimiter rest -> skip_ws rest = rest.
Proof.
  intros H. apply skip_ws_first. revert H. apply first_is_impl.
  now intros c [-> | [-> | ->]].
Qed.

Lemma parse_value_array (f : nat) (t : jsstring) :
  parse_value (S f) (ch "[" :: t)
  = match skip_ws t with
    | d :: r' => if d =? 93 then Some (Array [], r') else parse_elements f [] (d :: r')
    | [] => None
    end.
Proof. reflexivity. Qed.

Lemma parse_value_object (f : nat) (t : jsstring) :
  parse_value (S f) (ch "{" :: t)
  = match skip_ws t with
    | d :: r' => if d =? 125 then Some (Object [], r') else parse_members f [] (d :: r')
    | [] => None
    end.
Proof. reflexivity. Qed.

Lemma parse_value_string (f : nat) (t : jsstring) :
  parse_value (S f) (34 :: t)
  = match parse_chars t with
    | Some (s, r') => Some (String s, r')
    | None => None
    end.
Proof. reflexivity. Qed.

Lemma parse_value_number (f : nat) (c : cu) (t : jsstring) :
  c = ch "-" \/ digit c ->
  parse_value (S f) (c :: t)
  = match parse_number (c :: t) with
    | Some (x, r') => Some (Number x, r')
    | None => None
    end.
Proof.
  intros H.
  assert (E : is_ws c = false /\ (c =? 123) = false /\ (c =? 91) = false /\ (c =? 34) = false
              /\ (c =? 110) = false /\ (c =? 116) = false /\ (c =? 102) = false).
  { destruct H as [->|H]; [repeat split; reflexivity|].
    unfold digit, Digits.is_digit in H. apply andb_prop in H as [H1 H2].
    apply N.leb_le in H1, H2. unfold is_ws.
    repeat split; try (apply N.eqb_neq; lia).
    repeat (apply orb_false_intro); apply N.eqb_neq; lia. }
  destruct E as (E0 & E1 & E2 & E3 & E4 & E5 & E6).
  cbn [parse_value skip_ws]. rewrite E0. cbv beta iota.
  now rewrite E1, E2, E3, E4, E5, E6.
Qed.

Lemma parse_elements_step (f : nat) (acc : list value) (t : jsstring) :
  parse_elements (S f) acc t
  = match parse_value f t with
    | Some (v, r) =>
        match skip_ws r with
        | c :: r' =>
            if c =? 44 then parse_elements f (v :: acc) r'
            else if c =? 93 then Some (Array (rev (v :: acc)), r')
            else None
        | [] => None
        end
    | None => None
    end.
Proof. reflexivity. Qed.

Lemma parse_members_step (f : nat) (props : list (jsstring * value)) (t : jsstring) :
  parse_members (S f) props (34 :: t)
  = match parse_chars t with
    | Some (key, r1) =>
        match skip_ws r1 with
        | c :: r2 =>
            if c =? 58 then
              match parse_value f r2 with
              | Some (v, r3) =>
                  match skip_ws r3 with
                  | d :: r4 =>
                      if d =? 44 then parse_members f (define key v props) r4
                      else if d =? 125 then Some (Object (define key v props), r4)
                      else None
                  | [] => None
                  end
              | None => None
              end
            else None
        | [] => None
        end
    | None => None
    end.
Proof. reflexivity. Qed.

Lemma join_map_cons (A : Type) (f : A -> jsstring) (sep : jsstring) (x y : A) (l : list A) :
  join sep (map f (x :: y :: l)) = f x ++ sep ++ join sep (map f (y :: l)).
Proof. reflexivity. Qed.

(** *** The text of a value *)

Lemma format_first (d n : Z) :
  exists b body, NumberToString.format d n = b :: body /\ digit b.
Proof.
  destruct (DigitsFacts.digits_spec (Z.to_N d)) as (Hds & _ & _ & Hne).
  unfold NumberToString.format.
  destruct (Digits.digits (Z.to_N d)) as [|c0 r0]; [contradiction|].
  inversion Hds; subst.
  destruct ((-5 <=? n) && (n <=? 21))%Z.
  - destruct (Z.of_nat (List.length (c0 :: r0)) <=? n)%Z; [now eexists _, _|].
    destruct (Z.ltb_spec 0 n); [|now eexists _, _].
    destruct (Z.to_nat n) eqn:E; [lia | now eexists _, _].
  - destruct r0; now eexists _, _.
Qed.

(** A text starts with a character that is no white space and closes
    neither an array nor an object. *)
Lemma stringify_first (v : value) :
  exists c t, stringify v = c :: t /\ is_ws c = false /\ c <> ch "]" /\ c <> ch "}".
Proof.
  assert (Known : forall c t, In c (lit "ntf[{-0NI" ++ [34]) ->
            exists c' t', c :: t = c' :: t' /\ is_ws c' = false /\ c' <> ch "]" /\ c' <> ch "}").
  { intros c t H. exists c, t. split; [reflexivity|].
    repeat (destruct H as [<-|H]; [repeat split; discriminate|]). destruct H. }
  destruct v as [|[|]|x|s|items|props]; cbn [stringify];
    try (apply Known; cbn; tauto).
  destruct (is_finite x); [|apply Known; cbn; tauto].
  destruct x as [z|z| |s m e]; cbn [NumberToString.toString];
    try (apply Known; cbn; tauto).
  - destruct z; apply Known; cbn; tauto.
  - destruct (NumberToString.decimal m e) as [d n].
    destruct s; [apply Known; cbn; tauto|].
    destruct (format_first d n) as (b & body & E & Hb). cbn [app]. rewrite E.
    exists b, body. unfold digit, Digits.is_digit in Hb. apply andb_prop in Hb as [H1 H2].
    apply N.leb_le in H1, H2. unfold is_ws.
    repeat split; try (intros ->; cbn in H2; lia).
    repeat (apply orb_false_intro); apply N.eqb_neq; lia.
Qed.

Lemma member_text (k body rest : jsstring) :
  (quote k ++ ch ":" :: body) ++ rest = 34 :: quote_chars k ++ 34 :: ch ":" :: body ++ rest.
Proof. unfold quote. cbn [app]. now rewrite <- !app_assoc. Qed.

Lemma num_eqb_eq (x y : Num.number) : Num.eqb x y = true -> x = y.
Proof.
  destruct x as [a|a| |a m e], y as [b|b| |b m' e']; cbn [Num.eqb]; try discriminate.
  - intros H. apply Bool.eqb_prop in H. now subst.
  - intros H. apply Bool.eqb_prop in H. now subst.
  - reflexivity.
  - intros H. apply andb_prop in H as [H H3]. apply andb_prop in H as [H1 H2].
    apply Bool.eqb_prop in H1. apply Pos.eqb_eq in H2. apply Z.eqb_eq in H3. now subst.
Qed.

(** *** Reading a text back *)

Lemma reads_well_number (x : Num.number) :
  valid_number x -> reads_well (Number x).
Proof.
  intros Hx fuel rest Hf Hr. destruct fuel as [|f]; [cbn in Hf; lia|].
  pose proof (delimiter_stops rest Hr) as Hs.
  destruct x as [z|z| |s m e]; cbn [stringify is_finite as_printed]; try reflexivity.
  - change (NumberToString.toString (S754_zero z) ++ rest) with (ch "0" :: rest).
    rewrite parse_value_number by (right; reflexivity).
    unfold parse_number. change (take_sign (ch "0" :: rest)) with (false, ch "0" :: rest).
    unfold number_body.
    rewrite take_int_zero, (take_frac_none rest (stops_not_dot rest Hs)),
      (take_exp_none rest (stops_not_e rest Hs)).
    reflexivity.
  - apply (FloatFacts.decimal_reads_back s) in Hx.
    cbn [reads_back] in Hx. cbn [NumberToString.toString].
    destruct (NumberToString.decimal m e) as [d n].
    apply andb_prop in Hx as [Hd Hx]. apply Z.ltb_lt in Hd. apply num_eqb_eq in Hx.
    pose proof (parse_number_format s d n rest Hd Hs) as Hp.
    assert (Hv : Num.of_decimal s (Z.to_N d) (n - NumberToString.ndigits (Z.to_N d))
                 = S754_finite s m e).
    { destruct s; [|exact Hx]. now rewrite of_decimal_opp, Hx. }
    rewrite Hv in Hp. rewrite <- app_assoc.
    destruct ((if s then [ch "-"] else []) ++ NumberToString.format d n ++ rest)
      as [|c t] eqn:E; [discriminate|].
    rewrite parse_value_number, Hp; [reflexivity|].
    destruct s; [injection E as <- _; now left|].
    destruct (format_first d n) as (b & body & Eb & Hb). rewrite Eb in E.
    injection E as <- _. now right.
Qed.

Lemma reads_well_elements (items : list value) :
  items <> [] -> Forall reads_well items ->
  forall (f : nat) (acc : list value) (rest : jsstring),
    (fold_right (fun x n => S (need x) + n) 0 items <= f)%nat ->
    first_is delimiter rest ->
    parse_elements f acc (join [ch ","] (map stringify items) ++ ch "]" :: rest)
    = Some (Array (rev acc ++ map as_printed items), rest).
Proof.
  induction items as [|x xs IH]; [contradiction|]. intros _ Hall f acc rest Hf Hr.
  inversion Hall as [|? ? Hx Hxs]; subst. cbn [fold_right] in Hf.
  destruct f as [|f]; [lia|]. rewrite parse_elements_step.
  destruct xs as [|y ys].
  - cbn [map join]. rewrite (Hx f) by (cbn [first_is]; unfold delimiter; (lia || tauto)).
    cbn [rev app]. reflexivity.
  - rewrite join_map_cons, <- !app_assoc.
    rewrite (Hx f) by (cbn [first_is app]; unfold delimiter; (lia || tauto)).
    change (skip_ws ([ch ","] ++ ?t)) with (ch "," :: t). cbv beta iota.
    change (ch "," =? 44) with true. cbv iota.
    rewrite (IH ltac:(discriminate) Hxs f (as_printed x :: acc) rest) by (assumption || lia).
    cbn [rev map]. now rewrite <- app_assoc.
Qed.

Lemma reads_well_members (props : list (jsstring * value)) :
  props <> [] -> Forall (fun p => reads_well (snd p)) props ->
  forall (f : nat) (acc : list (jsstring * value)) (rest : jsstring),
    (fold_right (fun p n => S (need (snd p)) + n) 0 props <= f)%nat ->
    first_is delimiter rest ->
    parse_members f acc
      (join [ch ","] (map (fun p => quote (fst p) ++ ch ":" :: stringify (snd p)) props)
         ++ ch "}" :: rest)
    = Some (Object (define_all (map (fun p => (fst p, as_printed (snd p))) props) acc), rest).
Proof.
  induction props as [|[k v] ps IH]; [contradiction|]. intros _ Hall f acc rest Hf Hr.
  inversion Hall as [|? ? Hv Hps]; subst. cbn [fold_right snd] in Hf. cbn [snd] in Hv.
  destruct f as [|f]; [lia|].
  destruct ps as [|q qs].
  - cbn [map join fst snd]. rewrite member_text, parse_members_step, parse_quote_chars.
    change (skip_ws (ch ":" :: ?t)) with (ch ":" :: t). cbv beta iota.
    change (ch ":" =? 58) with true. cbv iota.
    rewrite (Hv f) by (cbn [first_is]; unfold delimiter; (lia || tauto)).
    reflexivity.
  - rewrite join_map_cons. cbn [fst snd]. rewrite <- app_assoc, member_text.
    rewrite parse_members_step, parse_quote_chars.
    change (skip_ws (ch ":" :: ?t)) with (ch ":" :: t). cbv beta iota.
    change (ch ":" =? 58) with true. cbv iota. rewrite <- app_assoc.
    rewrite (Hv f) by (cbn [first_is app]; unfold delimiter; (lia || tauto)).
    change (skip_ws ([ch ","] ++ ?t)) with (ch "," :: t). cbv beta iota.
    change (ch "," =? 44) with true. cbv iota.
    apply (IH ltac:(discriminate) Hps f (define k (as_printed v) acc) rest); [lia | exact Hr].
Qed.

Lemma well_formed_array (items : list value) :
  well_formed (Array items) <-> Forall well_formed items.
Proof.
  cbn [well_formed]. induction items as [|x xs IH]; cbn [fold_right].
  - split; constructor.
  - rewrite IH. split; [intros [H1 H2]; now constructor | intros H; now inversion H].
Qed.

Lemma well_formed_object (props : list (jsstring * value)) :
  well_formed (Object props)
  <-> normal props /\ Forall (fun p => well_formed (snd p)) props.
Proof.
  cbn [well_formed].
  assert (E : fold_right (fun p rest => well_formed (snd p) /\ rest) True props
              <-> Forall (fun p => well_formed (snd p)) props).
  { induction props as [|p ps IH]; cbn [fold_right].
    - split; constructor.
    - rewrite IH. split; [intros [H1 H2]; now constructor | intros H; now inversion H]. }
  now rewrite E.
Qed.

(** The text of a value that [JSON.parse] can build is read as the value
    it denotes. *)
Lemma parse_stringify (v : value) : well_formed v -> reads_well v.
Proof.
  induction v as [|b|x|s|items IH|props IH] using value_induction; intros Hn.
  - intros [|f] rest Hfuel Hr; [cbn in Hfuel; lia | reflexivity].
  - intros [|f] rest Hfuel Hr; [cbn in Hfuel; lia | destruct b; reflexivity].
  - now apply reads_well_number.
  - intros [|f] rest Hfuel Hr; [cbn in Hfuel; lia|].
    cbn [stringify as_printed]. unfold quote. cbn [app]. rewrite <- app_assoc.
    change ([34] ++ rest) with (34 :: rest).
    now rewrite parse_value_string, parse_quote_chars.
  - intros [|f] rest Hfuel Hr; [cbn in Hfuel; lia|].
    cbn [stringify as_printed need] in *. cbn [app]. rewrite <- app_assoc.
    rewrite parse_value_array.
    assert (Hall : Forall reads_well items).
    { apply well_formed_array in Hn.
      rewrite Forall_forall in *. intros y Hy. apply IH; auto. }
    destruct items as [|x xs]; [reflexivity|].
    pose proof (reads_well_elements (x :: xs) ltac:(discriminate) Hall f [] rest
                  ltac:(lia) Hr) as Hp.
    change ([ch "]"] ++ rest) with (ch "]" :: rest).
    destruct (stringify_first x) as (c & t & E & Hc & Hc' & _).
    assert (Ht : exists t', join [ch ","] (map stringify (x :: xs)) ++ ch "]" :: rest = c :: t').
    { destruct xs; [cbn [map join] | rewrite join_map_cons]; rewrite E; now eexists. }
    destruct Ht as [t' Ht]. rewrite Ht in *. cbn [skip_ws]. rewrite Hc.
    apply N.eqb_neq in Hc'. change (ch "]") with 93 in Hc'. rewrite Hc'. exact Hp.
  - intros [|f] rest Hfuel Hr; [cbn in Hfuel; lia|].
    cbn [stringify as_printed need] in *. cbn [app]. rewrite <- app_assoc.
    rewrite parse_value_object.
    apply well_formed_object in Hn as [Hn Hvs].
    assert (Hall : Forall (fun p => reads_well (snd p)) props).
    { rewrite Forall_forall in *. intros y Hy. apply IH; auto. }
    destruct props as [|p ps]; [reflexivity|].
    pose proof (reads_well_members (p :: ps) ltac:(discriminate) Hall f [] rest
                  ltac:(lia) Hr) as Hp.
    rewrite (define_all_normal _ (normal_map as_printed _ Hn)) in Hp.
    change ([ch "}"] ++ rest) with (ch "}" :: rest).
    assert (Ht : exists t', join [ch ","]
                   (map (fun p => quote (fst p) ++ ch ":" :: stringify (snd p)) (p :: ps))
                   ++ ch "}" :: rest = 34 :: t').
    { destruct ps; [cbn [map join] | rewrite join_map_cons]; unfold quote; now eexists. }
    destruct Ht as [t' Ht]. rewrite Ht in *. exact Hp.
Qed.

(** *** The fuel of [JSON.parse] is enough *)

Lemma need_join (A : Type) (n : A -> nat) (text : A -> jsstring) (c : cu) (l : list A) :
  Forall (fun p => (n p <= List.length (text p))%nat) l ->
  (fold_right (fun p k => S (n p) + k) 0 l <= S (List.length (join [c] (map text l))))%nat.
Proof.
  induction 1 as [|x xs Hx Hxs IH]; [cbn; lia|].
  destruct xs as [|y ys].
  - cbn [fold_right map join]. lia.
  - rewrite join_map_cons, !length_app. cbn [fold_right List.length] in *. lia.
Qed.

Lemma need_length (v : value) : (need v <= List.length (stringify v))%nat.
Proof.
  assert (Atom : forall v, need v = 1%nat -> (need v <= List.length (stringify v))%nat).
  { intros w ->. destruct (stringify_first w) as (c & t & -> & _). cbn. lia. }
  induction v as [|b|x|s|items IH|props IH] using value_induction;
    try (apply Atom; reflexivity).
  - cbn [need stringify List.length]. rewrite length_app.
    pose proof (need_join _ need stringify (ch ",") items IH). cbn [List.length]. lia.
  - cbn [need stringify List.length]. rewrite length_app.
    pose proof (need_join _ (fun p => need (snd p))
                  (fun p => quote (fst p) ++ ch ":" :: stringify (snd p)) (ch ",") props) as H.
    cbn [List.length]. cbv beta in H.
    assert (H' : Forall (fun p => (need (snd p)
                   <= List.length (quote (fst p) ++ ch ":" :: stringify (snd p)))%nat) props).
    { rewrite Forall_forall in *. intros p Hp. specialize (IH p Hp).
      rewrite length_app. cbn [List.length]. lia. }
    apply le_n_S. rewrite Nat.add_1_r. exact (H H').
Qed.

(** *** What the parser builds *)

Lemma Forall_overwrite (P : value -> Prop) (key : jsstring) (v : value)
  (ps : list (jsstring * value)) :
  P v -> Forall (fun p => P (snd p)) ps -> Forall (fun p => P (snd p)) (overwrite key v ps).
Proof.
  intros Hv. induction 1 as [|[k w] ps H1 H2 IH]; [constructor|].
  cbn [overwrite]. destruct (eqb_string k key); constructor; assumption.
Qed.

Lemma Forall_define (P : value -> Prop) (key : jsstring) (v : value)
  (ps : list (jsstring * value)) :
  P v -> Forall (fun p => P (snd p)) ps -> Forall (fun p => P (snd p)) (define key v ps).
Proof.
  intros Hv Hps. unfold define. destruct (has_key key ps).
  - now apply Forall_overwrite.
  - destruct (array_index key).
    + apply Forall_insert_index. now split.
    + apply Forall_app. split; [assumption | now repeat constructor].
Qed.

Lemma parse_number_valid (t r : jsstring) (x : Num.number) :
  parse_number t = Some (x, r) -> valid_number x.
Proof.
  unfold parse_number, number_body.
  destruct (take_sign t) as [neg t1]. destruct (take_int t1) as [[|c int] t2]; [discriminate|].
  destruct (take_frac t2) as [[f t3]|]; [|discriminate].
  destruct (take_exp t3) as [[e t4]|]; [|discriminate].
  intros H. injection H as <- _. apply FloatFacts.of_decimal_valid.
Qed.

(** Every Number in a parsed value is a Number of the format, and every
    object has its properties in property order. *)
Lemma parse_well_formed (fuel : nat) :
  (forall t v r, parse_value fuel t = Some (v, r) -> well_formed v)
  /\ (forall acc t v r, Forall well_formed acc ->
        parse_elements fuel acc t = Some (v, r) -> well_formed v)
  /\ (forall props t v r, normal props -> Forall (fun p => well_formed (snd p)) props ->
        parse_members fuel props t = Some (v, r) -> well_formed v).
Proof.
  induction fuel as [|f (IHv & IHe & IHm)]; [repeat split; discriminate|].
  split; [|split].
  - intros t v r. cbn [parse_value].
    destruct (skip_ws t) as [|c r0]; [discriminate|].
    destruct (c =? 123).
    { destruct (skip_ws r0) as [|d r']; [discriminate|]. destruct (d =? 125).
      - intros H. injection H as <- _. apply well_formed_object. split; constructor.
      - apply IHm; constructor. }
    destruct (c =? 91).
    { destruct (skip_ws r0) as [|d r']; [discriminate|]. destruct (d =? 93).
      - intros H. injection H as <- _. exact I.
      - apply IHe; constructor. }
    destruct (c =? 34).
    { destruct (parse_chars r0) as [[s r']|]; [|discriminate].
      intros H. injection H as <- _. exact I. }
    destruct (c =? 110).
    { destruct (starts_with (lit "ull") r0); [|discriminate].
      intros H. injection H as <- _. exact I. }
    destruct (c =? 116).
    { destruct (starts_with (lit "rue") r0); [|discriminate].
      intros H. injection H as <- _. exact I. }
    destruct (c =? 102).
    { destruct (starts_with (lit "alse") r0); [|discriminate].
      intros H. injection H as <- _. exact I. }
    destruct (parse_number (c :: r0)) as [[x r']|] eqn:E; [|discriminate].
    intros H. injection H as <- _. exact (parse_number_valid _ _ _ E).
  - intros acc t v r Hacc. rewrite parse_elements_step.
    destruct (parse_value f t) as [[w r0]|] eqn:E; [|discriminate].
    apply IHv in E.
    destruct (skip_ws r0) as [|c r']; [discriminate|].
    destruct (c =? 44); [apply IHe; now constructor|].
    destruct (c =? 93); [|discriminate].
    intros H. injection H as <- _. apply well_formed_array.
    apply (Forall_rev (l := w :: acc)). now constructor.
  - intros props t v r Hn Hvs. cbn [parse_members].
    destruct (skip_ws t) as [|q r0]; [discriminate|].
    destruct (q =? 34); [|discriminate].
    destruct (parse_chars r0) as [[key r1]|]; [|discriminate].
    destruct (skip_ws r1) as [|c r2]; [discriminate|].
    destruct (c =? 58); [|discriminate].
    destruct (parse_value f r2) as [[w r3]|] eqn:E; [|discriminate].
    apply IHv in E.
    destruct (skip_ws r3) as [|d r4]; [discriminate|].
    destruct (d =? 44).
    { apply IHm; [now apply normal_define | now apply Forall_define]. }
    destruct (d =? 125); [|discriminate].
    intros H. injection H as <- _. apply well_formed_object.
    split; [now apply normal_define | now apply Forall_define].
Qed.

Lemma parse_value_well_formed (x : jsstring) (v : value) : parse x = inl v -> well_formed v.
Proof.
  unfold parse. destruct (parse_value (S (List.length x)) x) as [[w r]|] eqn:E; [|discriminate].
  destruct (skip_ws r); [|discriminate]. intros H. injection H as <-.
  now apply (parse_well_formed _) in E.
Qed.

(** [JSON.parse(JSON.stringify(v))] *)
Lemma parse_stringify_text (v : value) :
  well_formed v -> parse (stringify v) = inl (as_printed v).
Proof.
  intros Hn. unfold parse.
  rewrite <- (app_nil_r (stringify v)) at 2.
  rewrite (parse_stringify v Hn _ []); [reflexivity | | exact I].
  pose proof (need_length v). lia.
Qed.

(** The value that a text denotes has the same text. *)
Lemma stringify_as_printed (v : value) : stringify (as_printed v) = stringify v.
Proof.
  induction v as [|b|x|s|items IH|props IH] using value_induction; try reflexivity.
  - destruct x as [z|z| |z m e]; reflexivity.
  - cbn [as_printed stringify]. rewrite map_map. do 3 f_equal.
    apply map_ext_in. intros x Hx. rewrite Forall_forall in IH. now apply IH.
  - cbn [as_printed stringify]. rewrite map_map. do 3 f_equal.
    apply map_ext_in. intros p Hp. rewrite Forall_forall in IH. cbn [fst snd].
    now rewrite (IH p Hp).
Qed.

(** A value without Infinity and negative zero is the one its text
    denotes. *)
Lemma as_printed_plain (v : value) : plain_numbers v = true -> as_printed v = v.
Proof.
  induction v as [|b|x|s|items IH|props IH] using value_induction; try reflexivity.
  - destruct x as [[|]|z| |z m e]; try reflexivity; discriminate.
  - intros H. change (forallb plain_numbers items = true) in H.
    rewrite forallb_forall in H. rewrite Forall_forall in IH.
    cbn [as_printed]. f_equal. rewrite <- (map_id items) at 2.
    apply map_ext_in. intros x Hx. apply IH; auto.
  - intros H. change (forallb (fun p => plain_numbers (snd p)) props = true) in H.
    rewrite forallb_forall in H. rewrite Forall_forall in IH.
    cbn [as_printed]. f_equal. rewrite <- (map_id props) at 2.
    apply map_ext_in. intros [k w] Hp. cbn [fst snd]. f_equal. apply (IH _ Hp), (H _ Hp).
Qed.

End JSONFacts.

(** ** The percentage for all sizes *)

Module PercentFacts.

Import FloatFacts.

Local Open Scope Z_scope.

Lemma exact_mantissa (a : Z) :
  0 < a < 2 ^ 53 ->
  2 ^ 52 <= a * 2 ^ (53 - Zdigits2 a) < 2 ^ 53
  /\ Zpos (Z.to_pos (a * 2 ^ (53 - Zdigits2 a))) = a * 2 ^ (53 - Zdigits2 a)
  /\ 1 <= Zdigits2 a <= 53.
Proof.
  intros Ha. destruct (Zdigits2_bounds a ltac:(lia)) as (D1 & D2 & D3).
  assert (D : Zdigits2 a <= 53).
  { destruct (Z.le_gt_cases (Zdigits2 a) 53) as [H|H]; [exact H|].
    assert (2 ^ 53 <= 2 ^ (Zdigits2 a - 1)) by (apply Z.pow_le_mono_r; lia). lia. }
  assert (Hp : 0 < 2 ^ (53 - Zdigits2 a)) by (apply Z.pow_pos_nonneg; lia).
  assert (R : 2 ^ 52 <= a * 2 ^ (53 - Zdigits2 a) < 2 ^ 53).
  { split.
    - replace 52 with (Zdigits2 a - 1 + (53 - Zdigits2 a)) at 1 by lia.
      rewrite Z.pow_add_r by lia. apply Z.mul_le_mono_nonneg_r; lia.
    - replace 53 with (Zdigits2 a + (53 - Zdigits2 a)) at 2 by lia.
      rewrite Z.pow_add_r by lia. apply Z.mul_lt_mono_pos_r; lia. }
  split; [exact R|]. split; [|lia]. apply Z2Pos.id. lia.
Qed.

Lemma exact_bounded (a : Z) :
  0 < a < 2 ^ 53 ->
  bounded Num.prec Num.emax (Z.to_pos (a * 2 ^ (53 - Zdigits2 a))) (Zdigits2 a - 53) = true.
Proof.
  intros Ha. destruct (exact_mantissa a Ha) as (R & P & D).
  unfold bounded, canonical_mantissa. apply andb_true_intro. split.
  - apply Z.eqb_eq. change (Zpos (digits2_pos ?p)) with (Zdigits2 (Zpos p)).
    rewrite P. rewrite (Zdigits2_unique _ 53) by (change (53 - 1) with 52; lia).
    rewrite fexp_eq. lia.
  - apply Z.leb_le. change (Num.emax - Num.prec) with 971. lia.
Qed.

(** An integer below [2^53], given with trailing zero bits, rounds to
    itself. *)
Lemma binary_round_int (sx : bool) (p : positive) (a k : Z) :
  0 < a < 2 ^ 53 -> 0 <= k -> Zpos p = a * 2 ^ k ->
  binary_round Num.prec Num.emax sx p (- k) = exact_float sx a.
Proof.
  intros Ha Hk Hp. destruct (exact_mantissa a Ha) as (R & P & D).
  pose proof (exact_bounded a Ha) as Hb.
  unfold binary_round, shl_align, exact_float.
  change (Zpos (digits2_pos p)) with (Zdigits2 (Zpos p)).
  rewrite Hp, Zdigits2_mul_pow2 by lia.
  replace (fexp (Zdigits2 a + k + - k)) with (Zdigits2 a - 53) by (rewrite fexp_eq; lia).
  set (m := Z.to_pos (a * 2 ^ (53 - Zdigits2 a))) in *.
  destruct (Zdigits2 a - 53 - - k) as [|d|d] eqn:E.
  - pose proof (binary_round_aux_exact sx m (Zdigits2 a - 53) 0 Hb ltac:(lia)) as H.
    rewrite Z.mul_1_r, Z.sub_0_r in H. rewrite <- H, P, Hp.
    replace k with (53 - Zdigits2 a) by lia. now replace (- (53 - Zdigits2 a)) with (Zdigits2 a - 53) by lia.
  - pose proof (binary_round_aux_exact sx m (Zdigits2 a - 53) (Zpos d) Hb ltac:(lia)) as H.
    rewrite <- H, P, Hp. replace (Zdigits2 a - 53 - Zpos d) with (- k) by lia.
    replace k with (53 - Zdigits2 a + Zpos d) at 1 by lia.
    rewrite Z.pow_add_r by lia. now rewrite Z.mul_assoc.
  - pose proof (binary_round_aux_exact sx m (Zdigits2 a - 53) 0 Hb ltac:(lia)) as H.
    rewrite Z.mul_1_r, Z.sub_0_r in H. rewrite <- H, P.
    rewrite iter_xO, Hp, <- Z.mul_assoc, <- Z.pow_add_r by lia.
    now replace (k + Zpos d) with (53 - Zdigits2 a) by lia.
Qed.

Lemma of_Z_exact (z : Z) :
  0 < Z.abs z < 2 ^ 53 -> Num.of_Z z = exact_float (z <? 0) (Z.abs z).
Proof.
  intros Hz. unfold Num.of_Z, binary_normalize.
  destruct z as [|p|p]; [cbn in Hz; lia | |];
    apply (binary_round_int _ p _ 0); cbn [Z.abs] in *; lia.
Qed.

Lemma of_N_exact (n : N) :
  (0 < n)%N -> Z.of_N n < 2 ^ 53 -> Num.of_N n = exact_float false (Z.of_N n).
Proof.
  intros H0 H. unfold Num.of_N. rewrite of_Z_exact by lia.
  replace (Z.of_N n <? 0) with false by (symmetry; apply Z.ltb_ge; lia).
  now rewrite Z.abs_eq by lia.
Qed.

Lemma shl_align_value (m : positive) (e ez : Z) :
  ez <= e -> Zpos (fst (shl_align m e ez)) = Zpos m * 2 ^ (e - ez).
Proof.
  intros H. unfold shl_align. destruct (ez - e) as [|d|d] eqn:E; cbn [fst].
  - replace (e - ez) with 0 by lia. lia.
  - lia.
  - rewrite iter_xO. now replace (e - ez) with (Zpos d) by lia.
Qed.

(** The difference of two sizes is computed without error. *)
Lemma sub_exact (o m : N) :
  Z.of_N o < 2 ^ 53 -> Z.of_N m < 2 ^ 53 ->
  Num.sub (Num.of_N o) (Num.of_N m) = Num.of_Z (Z.of_N o - Z.of_N m).
Proof.
  intros Ho Hm.
  destruct (N.eq_dec o 0) as [->|Ho0]; destruct (N.eq_dec m 0) as [->|Hm0].
  - reflexivity.
  - rewrite (of_N_exact m) by lia. change (Num.of_N 0) with (S754_zero false).
    rewrite of_Z_exact by lia.
    replace (Z.of_N 0 - Z.of_N m <? 0) with true by (symmetry; apply Z.ltb_lt; lia).
    replace (Z.abs (Z.of_N 0 - Z.of_N m)) with (Z.of_N m) by lia. reflexivity.
  - rewrite (of_N_exact o) by lia. change (Num.of_N 0) with (S754_zero false).
    rewrite Z.sub_0_r. fold (Num.of_N o). now rewrite (of_N_exact o) by lia.
  - rewrite (of_N_exact o), (of_N_exact m) by lia.
    set (a := Z.of_N o) in *. set (b := Z.of_N m) in *.
    assert (Ha : 0 < a < 2 ^ 53) by lia. assert (Hb : 0 < b < 2 ^ 53) by lia.
    destruct (exact_mantissa a Ha) as (Ra & Pa & Da).
    destruct (exact_mantissa b Hb) as (Rb & Pb & Db).
    unfold exact_float, Num.sub, SFsub. cbv zeta.
    set (ez := Z.min (Zdigits2 a - 53) (Zdigits2 b - 53)).
    rewrite !shl_align_value by lia. cbn [cond_Zopp]. rewrite Pa, Pb.
    assert (E : a * 2 ^ (53 - Zdigits2 a) * 2 ^ (Zdigits2 a - 53 - ez)
                - b * 2 ^ (53 - Zdigits2 b) * 2 ^ (Zdigits2 b - 53 - ez)
                = (a - b) * 2 ^ (- ez)).
    { rewrite <- !Z.mul_assoc, <- !Z.pow_add_r by lia.
      replace (53 - Zdigits2 a + (Zdigits2 a - 53 - ez)) with (- ez) by lia.
      replace (53 - Zdigits2 b + (Zdigits2 b - 53 - ez)) with (- ez) by lia. ring. }
    rewrite E. clear E.
    assert (Hp : 0 < 2 ^ (- ez)) by (apply Z.pow_pos_nonneg; lia).
    unfold binary_normalize.
    destruct ((a - b) * 2 ^ (- ez)) as [|p|p] eqn:E.
    + assert (a - b = 0) by nia. replace (a - b) with 0 by lia. reflexivity.
    + assert (0 < a - b) by nia.
      rewrite of_Z_exact by lia.
      replace (a - b <? 0) with false by (symmetry; apply Z.ltb_ge; lia).
      rewrite Z.abs_eq by lia.
      replace ez with (- - ez) at 1 by lia. apply binary_round_int; lia.
    + assert (a - b < 0) by nia.
      rewrite of_Z_exact by lia.
      replace (a - b <? 0) with true by (symmetry; apply Z.ltb_lt; lia).
      replace ez with (- - ez) at 1 by lia. apply binary_round_int; lia.
Qed.

(** The location that the division gives is the place of the remainder. *)
Lemma new_location_located (b q r : Z) :
  0 < b -> 0 <= r < b -> located (q * b + r) b q (new_location b r).
Proof.
  intros Hb Hr. unfold new_location, new_location_even, new_location_odd.
  destruct (Z.even b) eqn:Ev.
  - destruct (Z.eqb_spec r 0); [cbn [located]; lia|].
    destruct (Z.compare_spec (2 * r) b); cbn [located]; lia.
  - rewrite <- Z.negb_odd in Ev. apply negb_false_iff, Z.odd_spec in Ev.
    destruct Ev as [k Hk].
    destruct (Z.eqb_spec r 0); [cbn [located]; lia|].
    destruct (Z.compare_spec (2 * r + 1) b); cbn [located]; lia.
Qed.

Lemma div_core_located (m1 e1 m2 e2 : Z) :
  0 < m1 -> 0 < m2 ->
  exists q e' l,
    SFdiv_core_binary Num.prec Num.emax m1 e1 m2 e2 = (q, e', l)
    /\ e' = Z.min (fexp (Zdigits2 m1 + e1 - (Zdigits2 m2 + e2))) (e1 - e2)
    /\ q = (m1 * 2 ^ (e1 - e2 - e')) / m2
    /\ located (m1 * 2 ^ (e1 - e2 - e')) m2 q l.
Proof.
  intros H1 H2. unfold SFdiv_core_binary. cbv zeta.
  set (e' := Z.min (fexp (Zdigits2 m1 + e1 - (Zdigits2 m2 + e2))) (e1 - e2)).
  set (s := e1 - e2 - e').
  assert (Hs : 0 <= s) by (subst s e'; lia).
  assert (Hm : match s with Zpos _ => Z.shiftl m1 s | 0 => m1 | Zneg _ => 0 end = m1 * 2 ^ s).
  { destruct s as [|p|p]; [rewrite Z.pow_0_r; lia | apply Z.shiftl_mul_pow2; lia | lia]. }
  rewrite Hm.
  pose proof (Z.div_mod (m1 * 2 ^ s) m2 ltac:(lia)) as Hdm.
  pose proof (Z.mod_pos_bound (m1 * 2 ^ s) m2 H2) as Hr.
  unfold Z.div, Z.modulo in Hdm, Hr.
  destruct (Z.div_eucl (m1 * 2 ^ s) m2) as [q r] eqn:E.
  exists q, e', (new_location m2 r). split; [reflexivity|]. split; [reflexivity|].
  fold s. split; [unfold Z.div; now rewrite E|].
  rewrite Hdm at 1. rewrite (Z.mul_comm m2 q). now apply new_location_located.
Qed.

Lemma digits_between (q lo hi : Z) :
  0 <= lo -> 2 ^ lo <= q < 2 ^ hi -> lo + 1 <= Zdigits2 q <= hi.
Proof.
  intros Hlo [H1 H2].
  assert (Hq : 0 < q) by (pose proof (Z.pow_pos_nonneg 2 lo); lia).
  destruct (Zdigits2_bounds q Hq) as (D1 & D2 & D3). split.
  - destruct (Z.le_gt_cases (lo + 1) (Zdigits2 q)) as [H|H]; [exact H|].
    assert (2 ^ Zdigits2 q <= 2 ^ lo) by (apply Z.pow_le_mono_r; lia). lia.
  - destruct (Z.le_gt_cases (Zdigits2 q) hi) as [H|H]; [exact H|].
    assert (2 ^ hi <= 2 ^ (Zdigits2 q - 1)) by (apply Z.pow_le_mono_r; lia). lia.
Qed.

(** The quotient of two integers below [2^53]: a Number of 53 digits at a
    relative distance of at most [2^-53] from the fraction. *)
Lemma div_near (sd : bool) (a o : Z) :
  0 < a < 2 ^ 53 -> 0 < o < 2 ^ 53 ->
  exists m3 e3 g,
    Num.div (exact_float sd a) (exact_float false o) = S754_finite sd m3 e3
    /\ Zdigits2 (Zpos m3) = 53
    /\ e3 = Zdigits2 a - Zdigits2 o - 53 + g /\ 0 <= g <= 2
    /\ Z.abs (Zpos m3 * 2 ^ g * (o * 2 ^ (53 - Zdigits2 o))
               - a * 2 ^ (53 - Zdigits2 a) * 2 ^ 53)
        <= a * 2 ^ (53 - Zdigits2 a).
Proof.
  intros Ha Ho.
  destruct (exact_mantissa a Ha) as (Ra & Pa & Da).
  destruct (exact_mantissa o Ho) as (Ro & Po & Do).
  unfold Num.div, exact_float. cbn [SFdiv]. rewrite xorb_false_r.
  destruct (div_core_located (Zpos (Z.to_pos (a * 2 ^ (53 - Zdigits2 a)))) (Zdigits2 a - 53)
              (Zpos (Z.to_pos (o * 2 ^ (53 - Zdigits2 o)))) (Zdigits2 o - 53)
              ltac:(lia) ltac:(lia)) as (q & e' & l & E & He' & Hq & Hl).
  rewrite E. clear E. rewrite Pa, Po in *.
  set (m1 := a * 2 ^ (53 - Zdigits2 a)) in *. set (m2 := o * 2 ^ (53 - Zdigits2 o)) in *.
  rewrite (Zdigits2_unique m1 53), (Zdigits2_unique m2 53) in He'
    by (change (53 - 1) with 52; lia).
  assert (Ee : e' = Zdigits2 a - Zdigits2 o - 53) by (rewrite fexp_eq in He'; lia).
  replace (Zdigits2 a - 53 - (Zdigits2 o - 53) - e') with 53 in * by lia.
  assert (Q : 2 ^ 52 <= q < 2 ^ 54).
  { rewrite Hq. change (2 ^ 52) with 4503599627370496 in *.
    change (2 ^ 53) with 9007199254740992 in *. change (2 ^ 54) with 18014398509481984.
    split.
    - apply Z.div_le_lower_bound; lia.
    - apply Z.div_lt_upper_bound; lia. }
  pose proof (digits_between q 52 54 ltac:(lia) Q) as Dq.
  destruct (binary_round_aux_near sd q e' l (m1 * 2 ^ 53) m2 ltac:(lia) ltac:(lia) Hl
              ltac:(lia) ltac:(lia)) as (m3 & e3 & y & E & D3 & He3 & Hy & Hn).
  exists m3, e3, (e3 - e'). split; [exact E|]. split; [exact D3|].
  split; [lia|]. split; [lia|].
  set (c := Zdigits2 q - 53) in *.
  assert (Hg : Zpos m3 * 2 ^ (e3 - e') = y * 2 ^ c).
  { rewrite <- Hy, <- Z.mul_assoc, <- Z.pow_add_r by lia.
    now replace (e3 - (e' + c) + c) with (e3 - e') by lia. }
  rewrite Hg. replace (y * 2 ^ c * m2) with (y * (m2 * 2 ^ c)) by ring.
  change (2 ^ 53) with 9007199254740992 in *. lia.
Qed.

(** The product with 100: a Number of 53 digits at a relative distance of
    at most [2^-53] from the product. *)
Lemma mul_near (sd : bool) (m3 : positive) (e3 : Z) :
  Zdigits2 (Zpos m3) = 53 -> -200 <= e3 <= 200 ->
  exists m5 e5 h,
    Num.mul (S754_finite sd m3 e3) (Num.of_Z 100) = S754_finite sd m5 e5
    /\ Zdigits2 (Zpos m5) = 53
    /\ e5 = e3 - 46 + h /\ 0 <= h
    /\ 2 ^ 53 * Z.abs (Zpos m5 * 2 ^ h - Zpos m3 * (100 * 2 ^ 46))
        <= Zpos m3 * (100 * 2 ^ 46).
Proof.
  intros D3 He3.
  change (Num.of_Z 100) with (S754_finite false 7036874417766400 (-46)).
  unfold Num.mul. cbn [SFmul]. rewrite xorb_false_r.
  destruct (Zdigits2_bounds (Zpos m3) ltac:(lia)) as (_ & B1 & B2). rewrite D3 in B1, B2.
  rewrite Pos2Z.inj_mul. change (Zpos 7036874417766400) with (100 * 2 ^ 46).
  set (mx := Zpos m3 * (100 * 2 ^ 46)).
  assert (Mx : 2 ^ 104 <= mx < 2 ^ 106).
  { subst mx. change (2 ^ (53 - 1)) with 4503599627370496 in *.
    change (2 ^ 53) with 9007199254740992 in *. change (100 * 2 ^ 46) with 7036874417766400.
    change (2 ^ 104) with 20282409603651670423947251286016.
    change (2 ^ 106) with 81129638414606681695789005144064. lia. }
  pose proof (digits_between mx 104 106 ltac:(lia) Mx) as Dx.
  destruct (binary_round_aux_near sd mx (e3 + -46) loc_Exact mx 1 ltac:(lia) ltac:(lia)
              ltac:(cbn [located]; lia) ltac:(lia) ltac:(lia))
    as (m5 & e5 & y & E & D5 & He5 & Hy & Hn).
  exists m5, e5, (e5 - (e3 - 46)). split; [exact E|]. split; [exact D5|].
  split; [lia|]. split; [lia|].
  set (c := Zdigits2 mx - 53) in *.
  assert (Hh : Zpos m5 * 2 ^ (e5 - (e3 - 46)) = y * (1 * 2 ^ c)).
  { rewrite <- Hy, Z.mul_1_l, <- Z.mul_assoc, <- Z.pow_add_r by lia.
    now replace (e5 - (e3 + -46 + c) + c) with (e5 - (e3 - 46)) by lia. }
  rewrite Hh. exact Hn.
Qed.

(** *** Math.round *)

Lemma integer_value_of_Z (n : Z) :
  Z.abs n < 2 ^ 53 -> integer_value (Num.of_Z n) = Some n.
Proof.
  intros Hn. destruct (Z.eq_dec n 0) as [->|Hn0]; [reflexivity|].
  rewrite of_Z_exact by lia.
  destruct (exact_mantissa (Z.abs n) ltac:(lia)) as (R & P & D).
  unfold exact_float, integer_value. rewrite P.
  assert (S : cond_Zopp (n <? 0) (Z.abs n) = n).
  { destruct (Z.ltb_spec n 0); cbn [cond_Zopp]; lia. }
  destruct (Z.leb_spec 0 (Zdigits2 (Z.abs n) - 53)) as [H|H].
  - replace (53 - Zdigits2 (Z.abs n)) with 0 by lia.
    replace (Zdigits2 (Z.abs n) - 53) with 0 by lia.
    rewrite Z.pow_0_r, !Z.mul_1_r. now rewrite S.
  - replace (- (Zdigits2 (Z.abs n) - 53)) with (53 - Zdigits2 (Z.abs n)) by lia.
    assert (Hp : 0 < 2 ^ (53 - Zdigits2 (Z.abs n))) by (apply Z.pow_pos_nonneg; lia).
    rewrite Z.mod_mul by lia. cbn [Z.eqb]. rewrite Z.div_mul by lia. now rewrite S.
Qed.

Lemma round_value (s : bool) (m : positive) (e : Z) :
  Zdigits2 (Zpos m) = 53 ->
  integer_value (Num.round (S754_finite s m e))
  = Some (if 0 <=? e then cond_Zopp s (Zpos m * 2 ^ e)
          else (2 * cond_Zopp s (Zpos m) + 2 ^ (- e)) / (2 * 2 ^ (- e))).
Proof.
  intros D. unfold Num.round.
  destruct (Z.leb_spec 0 e) as [He|He].
  - unfold integer_value. now replace (0 <=? e) with true by (symmetry; apply Z.leb_le; lia).
  - destruct (Zdigits2_bounds (Zpos m) ltac:(lia)) as (_ & _ & B). rewrite D in B.
    assert (HD : 2 <= 2 ^ (- e)).
    { change 2 with (2 ^ 1) at 1. apply Z.pow_le_mono_r; lia. }
    set (M := cond_Zopp s (Zpos m)). set (d := 2 ^ (- e)) in *.
    assert (HM : Z.abs M < 2 ^ 53) by (subst M; destruct s; cbn [cond_Zopp]; lia).
    change (2 ^ 53) with 9007199254740992 in *.
    assert (Hn : Z.abs ((2 * M + d) / (2 * d)) < 9007199254740992).
    { apply Z.abs_lt. split.
      - apply Z.lt_le_trans with (-9007199254740992 + 1); [lia|].
        apply Z.div_le_lower_bound; lia.
      - apply Z.div_lt_upper_bound; lia. }
    destruct (Z.eqb_spec ((2 * M + d) / (2 * d)) 0) as [E|E].
    + now rewrite E.
    + now apply integer_value_of_Z.
Qed.

(** *** The two roundings together *)

(** The quotient and the product rounded, against the exact fraction: with
    [x1] the rounded quotient and [x2] the rounded product, as integers on
    the scales of the two operations. *)
Lemma two_roundings (a o dA dO g m3 x2 : Z) :
  0 < a < 2 ^ 44 -> 0 < o -> 1 <= dA <= 44 -> 1 <= dO <= 53 -> 0 <= g <= 2 ->
  0 < m3 ->
  Z.abs (m3 * 2 ^ g * (o * 2 ^ (53 - dO)) - a * 2 ^ (53 - dA) * 2 ^ 53)
  <= a * 2 ^ (53 - dA) ->
  2 ^ 53 * Z.abs (x2 - m3 * (100 * 2 ^ 46)) <= m3 * (100 * 2 ^ 46) ->
  2 * Z.abs (x2 * o - 100 * a * 2 ^ (99 + dO - dA - g)) < 2 ^ (99 + dO - dA - g).
Proof.
  intros Ha Ho HdA HdO Hg Hm3 H1 H2.
  set (t := 99 + dO - dA - g). set (u := 53 - dO + g).
  set (W := 2 ^ (53 - dA)) in *.
  assert (HW : 0 < W) by (apply Z.pow_pos_nonneg; lia).
  assert (Hu : 0 < 2 ^ u) by (apply Z.pow_pos_nonneg; lia).
  assert (Ht : 0 < 2 ^ t) by (apply Z.pow_pos_nonneg; lia).
  set (m2 := o * 2 ^ (53 - dO)) in *.
  assert (Hm2 : 0 < m2) by (apply Z.mul_pos_pos; [lia | apply Z.pow_pos_nonneg; lia]).
  set (G := 2 ^ g * m2).
  assert (HG : 0 < G) by (apply Z.mul_pos_pos; [apply Z.pow_pos_nonneg; lia | lia]).
  set (E1 := m3 * 2 ^ g * m2 - a * W * 2 ^ 53) in *.
  set (E2 := x2 - m3 * (100 * 2 ^ 46)) in *.
  set (V := x2 * o - 100 * a * 2 ^ t).
  assert (Pw : 2 ^ u * 2 ^ t = 2 ^ 99 * W).
  { subst W. rewrite <- !Z.pow_add_r by lia. f_equal. lia. }
  assert (Pg : G = o * 2 ^ u).
  { subst G m2 u. rewrite Z.pow_add_r by lia. ring. }
  assert (T : E2 * G + 100 * 2 ^ 46 * E1 = 2 ^ u * V).
  { subst E1 E2 V. fold G. rewrite <- Z.mul_assoc. fold G.
    replace (2 ^ u * (x2 * o - 100 * a * 2 ^ t))
      with (x2 * (o * 2 ^ u) - 100 * a * (2 ^ u * 2 ^ t)) by ring.
    rewrite Pw, <- Pg. change (2 ^ 99) with (2 ^ 46 * 2 ^ 53). unfold G. ring. }
  assert (F1 : 2 ^ 53 * Z.abs (E2 * G) <= 100 * 2 ^ 46 * (m3 * G)).
  { rewrite Z.abs_mul, (Z.abs_eq G) by lia.
    replace (2 ^ 53 * (Z.abs E2 * G)) with (2 ^ 53 * Z.abs E2 * G) by ring.
    replace (100 * 2 ^ 46 * (m3 * G)) with (m3 * (100 * 2 ^ 46) * G) by ring.
    apply Z.mul_le_mono_nonneg_r; lia. }
  assert (F2 : m3 * G = E1 + a * W * 2 ^ 53) by (subst E1 G; ring).
  assert (F3 : 2 ^ 53 * Z.abs (2 ^ u * V) <= 100 * 2 ^ 46 * (a * W) * (2 * 2 ^ 53 + 1)).
  { rewrite <- T. revert F1 F2 H1. generalize (E2 * G) (m3 * G) (a * W). intros p q aw.
    change (2 ^ 53) with 9007199254740992. change (2 ^ 46) with 70368744177664. lia. }
  rewrite Z.abs_mul, (Z.abs_eq (2 ^ u)) in F3 by lia.
  destruct (Z.lt_ge_cases (2 * Z.abs V) (2 ^ t)) as [Hlt|Hge]; [exact Hlt|exfalso].
  assert (F4 : 2 ^ u * 2 ^ t <= 2 ^ u * (2 * Z.abs V)) by (apply Z.mul_le_mono_nonneg_l; lia).
  rewrite Pw in F4.
  assert (F5 : a * W <= (2 ^ 44 - 1) * W) by (apply Z.mul_le_mono_nonneg_r; lia).
  replace (2 ^ u * (2 * Z.abs V)) with (2 * (2 ^ u * Z.abs V)) in F4 by ring.
  revert F3 F4 F5. generalize (2 ^ u * Z.abs V) (a * W). intros p aw.
  change (2 ^ 53) with 9007199254740992. change (2 ^ 46) with 70368744177664.
  change (2 ^ 99) with 633825300114114700748351602688.
  change (2 ^ 44) with 17592186044416. lia.
Qed.

Lemma digits_below (a k : Z) : 0 < a < 2 ^ k -> 0 <= k -> Zdigits2 a <= k.
Proof.
  intros Ha Hk. destruct (Zdigits2_bounds a ltac:(lia)) as (D1 & D2 & D3).
  destruct (Z.le_gt_cases (Zdigits2 a) k) as [H|H]; [exact H|].
  assert (2 ^ k <= 2 ^ (Zdigits2 a - 1)) by (apply Z.pow_le_mono_r; lia). lia.
Qed.

(** For sizes below [2^44] the percentage of the report is an integer
    nearest to the exact percentage. *)
Lemma percentage_nearest (o m : N) :
  (0 < o)%N -> Z.of_N o < 2 ^ 44 -> Z.of_N m < 2 ^ 44 ->
  exists r, integer_value (percentage o m) = Some r /\ nearest_percent o m r.
Proof.
  intros Ho0 Ho Hm. unfold percentage, nearest_percent.
  change (2 ^ 44) with 17592186044416 in Ho, Hm.
  rewrite sub_exact by (change (2 ^ 53) with 9007199254740992; lia).
  rewrite (of_N_exact o) by (change (2 ^ 53) with 9007199254740992; lia).
  set (O := Z.of_N o) in *. set (d := O - Z.of_N m).
  destruct (Z.eq_dec d 0) as [E0|Hd].
  - rewrite E0. exists 0. split; [reflexivity | lia].
  - rewrite of_Z_exact by (change (2 ^ 53) with 9007199254740992; lia).
    set (a := Z.abs d).
    assert (Ha : 0 < a < 2 ^ 44) by (change (2 ^ 44) with 17592186044416; lia).
    assert (Ha' : 0 < a < 2 ^ 53) by (change (2 ^ 53) with 9007199254740992; lia).
    assert (HO : 0 < O < 2 ^ 53) by (change (2 ^ 53) with 9007199254740992; lia).
    destruct (exact_mantissa a Ha') as (_ & _ & Da).
    destruct (exact_mantissa O HO) as (_ & _ & Do).
    pose proof (digits_below a 44 Ha ltac:(lia)) as Da'.
    destruct (div_near (d <? 0) a O Ha' HO) as (m3 & e3 & g & E1 & D3 & He3 & Hg & H1).
    rewrite E1.
    destruct (mul_near (d <? 0) m3 e3 D3 ltac:(lia)) as (m5 & e5 & h & E2 & D5 & He5 & Hh & H2).
    rewrite E2, round_value by exact D5.
    eexists. split; [reflexivity|].
    pose proof (two_roundings a O (Zdigits2 a) (Zdigits2 O) g (Zpos m3) (Zpos m5 * 2 ^ h)
                  Ha ltac:(lia) ltac:(lia) ltac:(lia) Hg ltac:(lia) H1 H2) as IV.
    set (t := 99 + Zdigits2 O - Zdigits2 a - g) in *.
    assert (Ht : 0 < 2 ^ t) by (apply Z.pow_pos_nonneg; lia).
    assert (Hh' : 0 < 2 ^ h) by (apply Z.pow_pos_nonneg; lia).
    destruct (Z.leb_spec 0 e5) as [He|He].
    + replace h with (e5 + t) in IV by lia. rewrite Z.pow_add_r in IV by lia.
      set (N := Zpos m5 * 2 ^ e5).
      replace (Zpos m5 * (2 ^ e5 * 2 ^ t) * O - 100 * a * 2 ^ t)
        with (2 ^ t * (N * O - 100 * a)) in IV by (subst N; ring).
      rewrite Z.abs_mul, (Z.abs_eq (2 ^ t)) in IV by lia.
      assert (Hz : Z.abs (N * O - 100 * a) = 0).
      { destruct (Z.eq_dec (Z.abs (N * O - 100 * a)) 0) as [Hz|Hz]; [exact Hz|exfalso].
        assert (2 ^ t * 1 <= 2 ^ t * Z.abs (N * O - 100 * a))
          by (apply Z.mul_le_mono_nonneg_l; lia).
        lia. }
      subst a. destruct (Z.ltb_spec d 0); cbn [cond_Zopp]; lia.
    + set (D := 2 ^ (- e5)) in *.
      assert (HD : 0 < D) by (apply Z.pow_pos_nonneg; lia).
      assert (Pt : 2 ^ t = 2 ^ h * D).
      { subst D. rewrite <- Z.pow_add_r by lia. f_equal. lia. }
      rewrite Pt in IV.
      replace (Zpos m5 * 2 ^ h * O - 100 * a * (2 ^ h * D))
        with (2 ^ h * (Zpos m5 * O - 100 * a * D)) in IV by ring.
      rewrite Z.abs_mul, (Z.abs_eq (2 ^ h)) in IV by lia.
      assert (IV' : 2 * Z.abs (Zpos m5 * O - 100 * a * D) < D).
      { destruct (Z.lt_ge_cases (2 * Z.abs (Zpos m5 * O - 100 * a * D)) D) as [L|L];
          [exact L|exfalso].
        assert (2 ^ h * D <= 2 ^ h * (2 * Z.abs (Zpos m5 * O - 100 * a * D)))
          by (apply Z.mul_le_mono_nonneg_l; lia).
        lia. }
      clear IV.
      set (M := cond_Zopp (d <? 0) (Zpos m5)).
      pose proof (Z.mul_div_le (2 * M + D) (2 * D) ltac:(lia)) as L1.
      pose proof (Z.mul_succ_div_gt (2 * M + D) (2 * D) ltac:(lia)) as L2.
      set (n := (2 * M + D) / (2 * D)) in *.
      assert (L1' : 2 * D * n * O <= (2 * M + D) * O)
        by (apply Z.mul_le_mono_nonneg_r; lia).
      assert (L2' : (2 * M + D) * O < 2 * D * Z.succ n * O)
        by (apply Z.mul_lt_mono_pos_r; lia).
      assert (K : D * (2 * Z.abs (100 * d - n * O)) < D * (O + 1)).
      { replace (D * (2 * Z.abs (100 * d - n * O)))
          with (2 * Z.abs (D * (100 * d - n * O)))
          by (rewrite Z.abs_mul, (Z.abs_eq D) by lia; ring).
        subst M a. destruct (Z.ltb_spec d 0); cbn [cond_Zopp] in *; lia. }
      apply Z.mul_lt_mono_pos_l in K; lia.
Qed.

End PercentFacts.

(** * The claims *)

(** ** C3: the stylesheet fixture *)

(** C3, as stated, fails: minifying [.a { color: red; /* note */ }] as a
    stylesheet does not give [.a{color:red;}]. *)
Lemma C3_counterexample :
  mockMinify (lit ".a { color: red; /* note */ }") css <> inl (lit ".a{color:red;}").
Proof. vm_compute. discriminate. Qed.

(** C3, amended: [.a { color: red; /* note */ }] is valid as a stylesheet and
    its minified text is [.a {color: red;}]: the comment goes, white space
    after [;] and [{] and before [}] goes, and the space before [{] and the
    one after [:] stay. *)
Theorem C3_stylesheet_fixture :
  validateContent (lit ".a { color: red; /* note */ }") css = valid
  /\ mockMinify (lit ".a { color: red; /* note */ }") css = inl (lit ".a {color: red;}").
Proof. split; vm_compute; reflexivity. Qed.

(** ** C6: empty input *)

(** C6, as stated, fails: the reason given for the empty text is not
    [empty input]. *)
Lemma C6_counterexample :
  validateContent [] js <> invalid (Text (lit "empty input")).
Proof. vm_compute. discriminate. Qed.

(** C6, amended: for every kind, a text that is empty or made of white space
    only is invalid, with the reason [Content cannot be empty]. *)
Theorem C6_blank_is_rejected (content : jsstring) (type : FileType) :
  blank content ->
  validateContent content type = invalid (Text (lit "Content cannot be empty")).
Proof.
  intros H. unfold validateContent.
  apply is_empty_trim in H. now rewrite H.
Qed.

Lemma C6_blank_is_rejected_witness :
  blank (lit "   ")
  /\ validateContent (lit "   ") json = invalid (Text (lit "Content cannot be empty")).
Proof.
  assert (H : blank (lit "   ")) by (repeat constructor).
  split; [exact H | apply (C6_blank_is_rejected _ json H)].
Defined.

(** ** C10: the markers of a script *)

(** C10: a text in which one of the words [function], [const], [let], [var],
    [class], [import], [export], [=>] occurs anywhere is valid as a script;
    so is the prose [please export the report]. *)
Theorem C10_marker_anywhere :
  (forall (m : string) (content : jsstring),
      In m markers -> occurs (lit m) content -> ~ blank content ->
      validateContent content js = valid)
  /\ validateContent (lit "please export the report") js = valid.
Proof.
  split; [|vm_compute; reflexivity].
  intros m content Hm Hocc Hnb. unfold validateContent.
  destruct (is_empty (trim content)) eqn:E.
  - apply is_empty_trim in E. contradiction.
  - now rewrite (test_js_marker _ _ Hm Hocc).
Qed.

Lemma C10_marker_anywhere_witness :
  In "export"%string markers
  /\ occurs (lit "export") (lit "we export nothing")
  /\ ~ blank (lit "we export nothing")
  /\ validateContent (lit "we export nothing") js = valid.
Proof.
  assert (Hm : In "export"%string markers) by (simpl; tauto).
  assert (Ho : occurs (lit "export") (lit "we export nothing"))
    by (exists (lit "we "), (lit " nothing"); reflexivity).
  assert (Hb : ~ blank (lit "we export nothing"))
    by (intros H; inversion H; discriminate).
  split; [exact Hm | split; [exact Ho | split; [exact Hb |]]].
  apply (proj1 C10_marker_anywhere "export"%string _ Hm Ho Hb).
Defined.

(** ** C7: the size ceiling *)

(** C7, as stated, fails: a text of 2 MiB is valid as a script. *)
Lemma C7_counterexample :
  utf8_length (lit "const " ++ repeat (ch "a") (N.to_nat 2097146)) = (2 * 1024 * 1024)%N
  /\ validateContent (lit "const " ++ repeat (ch "a") (N.to_nat 2097146)) js = valid.
Proof.
  split.
  - rewrite utf8_length_lit_app by (repeat constructor).
    rewrite utf8_length_repeat by reflexivity.
    rewrite N2Nat.id. reflexivity.
  - generalize (N.to_nat 2097146); intros n. unfold validateContent.
    destruct (is_empty (trim (lit "const " ++ repeat (ch "a") n))) eqn:E.
    + apply is_empty_trim in E. inversion E; discriminate.
    + now rewrite (test_here Pat.js_marker (lit "const " ++ repeat (ch "a") n) 5).
Qed.

(** C7, amended: the ceiling is fixed at 1024 * 1024 bytes and belongs to the
    upload of a file: whatever the kind, [handleFileUpload] rejects a larger
    file before its text is read, with the reason
    [File size exceeds 1MB limit], and leaves the rest of the state as it
    was.  [validateContent] has no ceiling: for every kind there are valid
    texts of more than any given number of bytes. *)
Theorem C7_size_limit_on_upload_only :
  (forall (f : File) (st : State),
      (1024 * 1024 < size f)%N ->
      handleFileUpload (Some f) st
      = setValidation (invalid (Text (lit "File size exceeds 1MB limit"))) st)
  /\ (forall (type : FileType) (bytes : N),
         exists content,
           (bytes < utf8_length content)%N /\ validateContent content type = valid).
Proof.
  split.
  - intros f st H. unfold handleFileUpload.
    apply N.ltb_lt in H. now rewrite H.
  - intros type bytes. exists (padded type (N.to_nat bytes)). split.
    + rewrite <- (N2Nat.id bytes) at 1. apply padded_size.
    + apply padded_valid.
Qed.

Lemma C7_size_limit_on_upload_only_witness :
  (1024 * 1024 < 2097152)%N
  /\ validation (handleFileUpload
                   (Some {| name := lit "big.css"; size := 2097152; text := lit "a{}" |})
                   initial)
     = invalid (Text (lit "File size exceeds 1MB limit")).
Proof.
  assert (H : (1024 * 1024 < 2097152)%N) by reflexivity.
  split; [exact H|].
  rewrite (proj1 C7_size_limit_on_upload_only
             {| name := lit "big.css"; size := 2097152; text := lit "a{}" |} initial H).
  reflexivity.
Defined.

(** ** C9: white space in the minified text *)

Lemma minified_tidy (content : jsstring) (type : FileType) (out : jsstring) :
  type <> json -> mockMinify content type = inl out -> tidy out.
Proof.
  intros Hj H.
  assert (K : exists z, collapsed z /\ out = trim z).
  { destruct type; try contradiction; injection H as <-; eexists; (split; [|reflexivity]).
    - apply (squeezed_collapsed _ _ (join_tags_squeezed _)), collapse_collapsed.
    - apply (squeezed_collapsed _ _ (tighten_before_brace_squeezed _)).
      apply (squeezed_collapsed _ _ (tighten_after_squeezed "{" _ ltac:(right; now left))).
      apply (squeezed_collapsed _ _ (tighten_after_squeezed ";" _ ltac:(now left))).
      apply collapse_collapsed.
    - apply (squeezed_collapsed _ _ (tighten_before_brace_squeezed _)).
      apply (squeezed_collapsed _ _ (tighten_after_squeezed "{" _ ltac:(right; now left))).
      apply (squeezed_collapsed _ _ (tighten_after_squeezed ";" _ ltac:(now left))).
      apply collapse_collapsed.
    - apply (squeezed_collapsed _ _ (tighten_before_brace_squeezed _)).
      apply (squeezed_collapsed _ _ (tighten_after_squeezed "{" _ ltac:(right; now left))).
      apply (squeezed_collapsed _ _ (tighten_after_squeezed ";" _ ltac:(now left))).
      apply collapse_collapsed. }
  destruct K as (z & Hz & ->). split; [now apply trim_collapsed|].
  split; [apply trim_first | apply trim_last].
Qed.

(** C9: for markup, stylesheets and scripts, every white-space character of
    the minified text is a plain space (so there is no newline and no tab),
    no two white-space characters are neighbours, wherever they stood in the
    input, and the text neither starts nor ends with white space. *)
Theorem C9_whitespace_collapsed_everywhere
  (content : jsstring) (type : FileType) (out : jsstring) :
  In type [html; css; js; jsx] ->
  mockMinify content type = inl out ->
  (forall c, In c out -> Chars.is_space c = true -> c = ch " ")
  /\ ~ In (ch "009") out /\ ~ In (ch "010") out
  /\ (forall a b c d, out = a ++ c :: d :: b ->
                      Chars.is_space c = false \/ Chars.is_space d = false)
  /\ (forall c r, out = c :: r -> Chars.is_space c = false)
  /\ (forall r c, out = r ++ [c] -> Chars.is_space c = false).
Proof.
  intros Ht H.
  assert (Hj : type <> json)
    by (intros ->; simpl in Ht; repeat destruct Ht as [Ht | Ht]; try discriminate; exact Ht).
  destruct (minified_tidy content type out Hj H) as ([H1 H2] & H3 & H4).
  rewrite Forall_forall in H1.
  repeat split.
  - exact H1.
  - intros Hin. now specialize (H1 _ Hin eq_refl).
  - intros Hin. now specialize (H1 _ Hin eq_refl).
  - intros a b c d ->. apply neighbours_app_r in H2. simpl in H2. apply H2.
  - intros c r ->. exact H3.
  - intros r c ->. rewrite rev_app_distr in H4. exact H4.
Qed.

Lemma C9_whitespace_collapsed_everywhere_witness :
  In js [html; css; js; jsx]
  /\ mockMinify (litq "let s = 'a    b';  ") js = inl (litq "let s = 'a b';")
  /\ ~ In (ch "009") (litq "let s = 'a b';").
Proof.
  assert (Ht : In js [html; css; js; jsx]) by (simpl; tauto).
  assert (H : mockMinify (litq "let s = 'a    b';  ") js = inl (litq "let s = 'a b';"))
    by (vm_compute; reflexivity).
  split; [exact Ht | split; [exact H|]].
  apply (C9_whitespace_collapsed_everywhere _ _ _ Ht H).
Defined.

(** ** C1: a string literal that holds two slashes *)

(** C1, as stated, fails: the script that assigns the double-quoted literal
    //not a comment to [s] holds that literal; its minified text stops right
    after the opening quote and does not hold it.  (In [litq] an apostrophe
    stands for a double quote.) *)
Lemma C1_counterexample :
  occurs (litq "'//not a comment'") (litq "const s = '//not a comment';")
  /\ mockMinify (litq "const s = '//not a comment';") js = inl (litq "const s = '")
  /\ ~ occurs (litq "'//not a comment'") (litq "const s = '").
Proof.
  split; [|split].
  - exists (lit "const s = "), (lit ";"). reflexivity.
  - vm_compute. reflexivity.
  - intros H. apply occurs_find in H as [i H]. vm_compute in H. discriminate.
Qed.

(** C1, amended: the minified text of a script (js or jsx) never holds two
    slashes in a row, inside a string literal or outside: a line is cut at
    its first [//].  So the double-quoted literal //not a comment is never
    in it, and the script that assigns it to [s] is cut right after the
    opening quote. *)
Theorem C1_no_double_slash_survives :
  (forall (content : jsstring) (type : FileType) (out : jsstring),
      In type [js; jsx] ->
      mockMinify content type = inl out ->
      ~ occurs (lit "//") out /\ ~ occurs (litq "'//not a comment'") out)
  /\ mockMinify (litq "const s = '//not a comment';") js = inl (litq "const s = '").
Proof.
  split; [|vm_compute; reflexivity].
  intros content type out Ht H.
  assert (Hn : ~ occurs (lit "//") out).
  { apply no_slashes_occurs.
    assert (E : out = finish (strip_block_comments (strip_line_comments content))).
    { destruct Ht as [<- | [<- | []]].
      - rewrite mockMinify_js in H. now injection H.
      - rewrite mockMinify_jsx in H. now injection H. }
    rewrite E. apply finish_no_slashes, strip_block_comments_no_slashes.
    apply strip_line_comments_no_slashes. }
  split; [exact Hn|].
  intros (a & b & ->). apply Hn.
  exists (a ++ [34%N]), (lit "not a comment" ++ [34%N] ++ b).
  rewrite <- !app_assoc. reflexivity.
Qed.

Lemma C1_no_double_slash_survives_witness :
  In js [js; jsx]
  /\ mockMinify (lit "a = 1 // one") js = inl (lit "a = 1")
  /\ ~ occurs (lit "//") (lit "a = 1").
Proof.
  assert (Ht : In js [js; jsx]) by (simpl; tauto).
  assert (H : mockMinify (lit "a = 1 // one") js = inl (lit "a = 1"))
    by (vm_compute; reflexivity).
  split; [exact Ht | split; [exact H|]].
  apply (proj1 C1_no_double_slash_survives _ _ _ Ht H).
Defined.

(** ** C4: minifying twice *)

(** C4, as stated, fails for markup and for stylesheets: removing a comment
    can bring the two halves of another one together, which the second pass
    removes. *)
Lemma C4_counterexample :
  (mockMinify (lit "<!<!---->-- a -->") html = inl (lit "<!-- a -->")
   /\ mockMinify (lit "<!-- a -->") html = inl [])
  /\ (mockMinify (lit "//**/* x */") css = inl (lit "/* x */")
      /\ mockMinify (lit "/* x */") css = inl []).
Proof. repeat split; vm_compute; reflexivity. Qed.

(** C4, amended: minifying the minified text of a script (js or jsx) or of
    structured data again returns it unchanged, for every input; for a
    stylesheet and for markup it does so whenever the minified text holds no
    comment of its kind. *)
Theorem C4_idempotent_without_new_comment :
  (forall (content : jsstring) (type : FileType) (out : jsstring),
      In type [js; jsx; json] ->
      mockMinify content type = inl out -> mockMinify out type = inl out)
  /\ (forall (content out : jsstring),
         mockMinify content css = inl out ->
         test Pat.block_comment out = false ->
         mockMinify out css = inl out)
  /\ (forall (content out : jsstring),
         mockMinify content html = inl out ->
         test Pat.html_comment out = false ->
         mockMinify out html = inl out).
Proof.
  split; [|split].
  - intros content type out Ht H.
    assert (Script : In type [js; jsx] -> mockMinify out type = inl out).
    { clear Ht. intros Ht.
      assert (E : out = finish (strip_block_comments (strip_line_comments content))
                  /\ mockMinify out type
                     = inl (finish (strip_block_comments (strip_line_comments out)))).
      { destruct Ht as [<- | [<- | []]].
        - rewrite mockMinify_js in H. injection H as <-. now split.
        - rewrite mockMinify_jsx in H. injection H as <-. now split. }
      destruct E as [E ->]. f_equal.
      assert (Hs : no_slashes out).
      { rewrite E. apply finish_no_slashes, strip_block_comments_no_slashes.
        apply strip_line_comments_no_slashes. }
      assert (Hc : clean out).
      { rewrite E. apply finish_clean, strip_block_comments_clean.
        apply strip_line_comments_no_slashes. }
      rewrite (strip_line_comments_id out Hs).
      rewrite (strip_block_comments_id out (clean_test out Hc)).
      rewrite E. apply finish_finish. }
    destruct Ht as [<- | [<- | [<- | []]]]; [apply Script; cbn; tauto ..|].
    unfold mockMinify in H. destruct (JSON.parse content) as [v|] eqn:E; [|discriminate].
    injection H as <-. unfold mockMinify.
    rewrite (JSONFacts.parse_stringify_text v (JSONFacts.parse_value_well_formed _ _ E)).
    now rewrite JSONFacts.stringify_as_printed.
  - intros content out H Hn. rewrite mockMinify_css in *. injection H as <-. f_equal.
    rewrite (strip_block_comments_id _ Hn). apply finish_finish.
  - intros content out H Hn. rewrite mockMinify_html in *. injection H as E. f_equal.
    unfold strip_html_comments. rewrite (replace_id _ _ _ Hn).
    assert (Hc : collapsed (join_tags (collapse (strip_html_comments content)))).
    { apply (squeezed_collapsed _ _ (join_tags_squeezed _)), collapse_collapsed. }
    assert (Hg : test Pat.between_tags out = false).
    { rewrite <- E. apply trim_no_gap, join_tags_no_gap. }
    rewrite (collapse_id out); [|rewrite <- E; now apply trim_collapsed].
    rewrite (join_tags_id out Hg). rewrite <- E. apply trim_trim.
Qed.

Lemma C4_idempotent_without_new_comment_witness :
  In js [js; jsx; json]
  /\ mockMinify (lit "let a = { b : 1 } ; // c") js = inl (lit "let a = {b : 1} ;")
  /\ mockMinify (lit "let a = {b : 1} ;") js = inl (lit "let a = {b : 1} ;").
Proof.
  assert (Ht : In js [js; jsx; json]) by (simpl; tauto).
  assert (H : mockMinify (lit "let a = { b : 1 } ; // c") js = inl (lit "let a = {b : 1} ;"))
    by (vm_compute; reflexivity).
  split; [exact Ht | split; [exact H|]].
  apply (proj1 C4_idempotent_without_new_comment _ _ _ Ht H).
Defined.

(** ** C5: the size of the minified text *)




(** ** C8: the report *)

(** C8, as stated, fails: a script of 200 bytes whose minified text has 171
    bytes is reported with the percentage 14, while
    [100 * (200 - 171) / 200] is 14.5, which [Math.round] takes to 15.
    (In binary64 the quotient of 29 and 200 lies below 0.145 and its
    product with 100 below 14.5.)  No other rule for a value halfway
    between two integers fits either: a script of 8 bytes whose minified
    text has 7 is reported with 13, for the exact value 12.5. *)
Lemma C8_counterexample :
  let code := lit "var a;" ++ repeat (ch " ") 29 ++ repeat (ch "b") 165 in
  let code' := lit "var  a;b" in
  (exists r, minificationResult (handleMinify (handleCodeChange code initial)) = Some r
             /\ originalSize r = 200%N /\ minifiedSize r = 171%N
             /\ reductionPercentage r = Num.of_Z 14)
  /\ (2 * (100 * (200 - 171)) = (2 * 14 + 1) * 200)%Z
  /\ Num.round (Num.div (Num.of_Z (2 * 14 + 1)) (Num.of_Z 2)) = Num.of_Z 15
  /\ Num.of_Z 14 <> Num.of_Z 15
  /\ (exists r, minificationResult (handleMinify (handleCodeChange code' initial)) = Some r
                /\ originalSize r = 8%N /\ minifiedSize r = 7%N
                /\ reductionPercentage r = Num.of_Z 13)
  /\ (2 * (100 * (8 - 7)) = (2 * 12 + 1) * 8)%Z.
Proof.
  intros code code'. split; [|split; [|split; [|split; [|split]]]].
  - eexists. split; [vm_compute; reflexivity|]. repeat split.
  - reflexivity.
  - vm_compute. reflexivity.
  - vm_compute. discriminate.
  - eexists. split; [vm_compute; reflexivity|]. repeat split.
  - reflexivity.
Qed.

(** C8, amended: the two sizes of the report are the UTF-8 byte lengths of
    the two texts and the percentage is
    [Math.round(((original - minified) / original) * 100)] in binary64
    arithmetic.  For an original that is not empty and sizes below 2^44
    bytes it is an integer at most one half away from
    [100 * (original - minified) / original]; when that value lies halfway
    between two integers it can be the lower one (200 and 171 bytes give
    14).  It is negative, not clamped, when the minified text is the larger
    one: the structured data [1e20] has 4 bytes, its minified text 21, the
    percentage is -425.  The case of an original of size 0 does not arise:
    [handleMinify] builds no report when the input is empty or white space
    only, and every report it builds has an original size above 0; for a
    valid input that [mockMinify] minifies it stores the report of the
    input and its minified text. *)
Theorem C8_report_sizes_and_percentage :
  (forall code min : jsstring,
      originalSize (report code min) = utf8_length code
      /\ minifiedSize (report code min) = utf8_length min
      /\ minified (report code min) = min
      /\ reductionPercentage (report code min)
         = Num.round
             (Num.mul
                (Num.div (Num.sub (Num.of_N (utf8_length code)) (Num.of_N (utf8_length min)))
                         (Num.of_N (utf8_length code)))
                (Num.of_Z 100)))
  /\ (forall code min : jsstring,
         (1 <= utf8_length code < 2 ^ 44)%N -> (utf8_length min < 2 ^ 44)%N ->
         exists r, integer_value (reductionPercentage (report code min)) = Some r
                   /\ nearest_percent (utf8_length code) (utf8_length min) r)
  /\ percentage 200 171 = Num.of_Z 14
  /\ (mockMinify (lit "1e20") json = inl (lit "100000000000000000000")
      /\ reductionPercentage (report (lit "1e20") (lit "100000000000000000000"))
         = Num.of_Z (-425))
  /\ (forall st : State, blank (inputCode st) -> handleMinify st = st)
  /\ (forall (st : State) (r : MinificationResult),
         minificationResult (handleMinify st) = Some r ->
         minificationResult st = Some r \/ (0 < originalSize r)%N)
  /\ (forall (st : State) (out : jsstring),
         isValid (validation st) = true -> ~ blank (inputCode st) ->
         mockMinify (inputCode st) (selectedFileType st) = inl out ->
         minificationResult (handleMinify st) = Some (report (inputCode st) out)
         /\ isProcessing (handleMinify st) = false).
Proof.
  split; [|split; [|split; [|split; [|split; [|split]]]]].
  - intros code min. repeat split.
  - intros code min [Ho1 Ho2] Hm. rewrite report_percentage.
    apply PercentFacts.percentage_nearest.
    + apply N.lt_le_trans with 1%N; [reflexivity | exact Ho1].
    + change (2 ^ 44)%Z with (Z.of_N (2 ^ 44)). now apply N2Z.inj_lt.
    + change (2 ^ 44)%Z with (Z.of_N (2 ^ 44)). now apply N2Z.inj_lt.
  - vm_compute. reflexivity.
  - split; vm_compute; reflexivity.
  - intros st H. unfold handleMinify. apply is_empty_trim in H. rewrite H.
    now rewrite orb_true_r.
  - intros st r. unfold handleMinify.
    destruct (negb (isValid (validation st)) || is_empty (trim (inputCode st))) eqn:G;
      [now left|].
    destruct (mockMinify (inputCode st) (selectedFileType st)) as [out|e]; [|now left].
    cbn [minificationResult setIsProcessing setMinificationResult].
    intros H. injection H as <-. right.
    change (originalSize (report (inputCode st) out)) with (utf8_length (inputCode st)).
    destruct (inputCode st) as [|c t].
    + apply orb_false_elim in G as [_ G]. discriminate G.
    + pose proof (utf8_cons_lt c t). lia.
  - intros st out Hv Hb Hm. unfold handleMinify. rewrite Hv. cbn [negb orb].
    destruct (is_empty (trim (inputCode st))) eqn:E.
    + apply is_empty_trim in E. contradiction.
    + rewrite Hm. split; reflexivity.
Qed.

Lemma C8_report_sizes_and_percentage_witness :
  (1 <= utf8_length (lit "a  b") < 2 ^ 44)%N
  /\ (utf8_length (lit "a b") < 2 ^ 44)%N
  /\ exists r, integer_value (reductionPercentage (report (lit "a  b") (lit "a b"))) = Some r
               /\ nearest_percent (utf8_length (lit "a  b")) (utf8_length (lit "a b")) r.
Proof.
  assert (Ho : (1 <= utf8_length (lit "a  b") < 2 ^ 44)%N)
    by (vm_compute; split; [discriminate | reflexivity]).
  assert (Hm : (utf8_length (lit "a b") < 2 ^ 44)%N) by (vm_compute; reflexivity).
  split; [exact Ho | split; [exact Hm|]].
  apply (proj1 (proj2 C8_report_sizes_and_percentage) _ _ Ho Hm).
Defined.

(** ** C2: structured data keeps its value *)

(** C2, as stated, fails: [1e999] is valid structured data and is read as
    Infinity; its minified text is [null], which is read as null. *)
Lemma C2_counterexample :
  validateContent (lit "1e999") json = valid
  /\ JSON.parse (lit "1e999") = inl (JSON.Number (S754_infinity false))
  /\ mockMinify (lit "1e999") json = inl (lit "null")
  /\ JSON.parse (lit "null") = inl JSON.Null.
Proof. repeat split; vm_compute; reflexivity. Qed.

(** C2, amended: the document [{"a": 1, "b": [1,2,3]}] is valid and its
    minified text is [{"a":1,"b":[1,2,3]}]; and for every text [x] that
    [JSON.parse] reads as a value [v], the minified text is
    [JSON.stringify v] and is read as [v] in which every Infinity has
    become null and every negative zero has become zero; that is [v]
    itself when [v] holds neither. *)
Theorem C2_structured_data_keeps_its_value :
  (validateContent (litq "{'a': 1, 'b': [1,2,3]}") json = valid
   /\ mockMinify (litq "{'a': 1, 'b': [1,2,3]}") json = inl (litq "{'a':1,'b':[1,2,3]}"))
  /\ (forall (x : jsstring) (v : JSON.value),
         JSON.parse x = inl v ->
         mockMinify x json = inl (JSON.stringify v)
         /\ JSON.parse (JSON.stringify v) = inl (as_printed v)
         /\ (plain_numbers v = true -> JSON.parse (JSON.stringify v) = inl v)).
Proof.
  split; [split; vm_compute; reflexivity|].
  intros x v Hx.
  assert (Hp : JSON.parse (JSON.stringify v) = inl (as_printed v)).
  { apply JSONFacts.parse_stringify_text. now apply (JSONFacts.parse_value_well_formed x). }
  split; [unfold mockMinify; now rewrite Hx|].
  split; [exact Hp|].
  intros Hv. now rewrite Hp, (JSONFacts.as_printed_plain v Hv).
Qed.

Lemma C2_structured_data_keeps_its_value_witness :
  let x := litq "{'n': -0.5e1, '1': ['e', null, true, 1e999, -0], 'n': 2.5}" in
  let v := JSON.Object
             [(lit "1", JSON.Array [JSON.String (lit "e"); JSON.Null; JSON.Bool true;
                                    JSON.Number (S754_infinity false);
                                    JSON.Number (S754_zero true)]);
              (lit "n", JSON.Number (Num.of_decimal false 25 (-1)))] in
  let y := litq "[0.1, -2e-7, 123456789012345678901234567890, {'k': 'a\nb'}]" in
  let w := JSON.Array
             [JSON.Number (Num.of_decimal false 1 (-1));
              JSON.Number (Num.of_decimal true 2 (-7));
              JSON.Number (Num.of_decimal false 123456789012345678901234567890 0);
              JSON.Object [(lit "k", JSON.String [ch "a"; 10%N; ch "b"])]] in
  (JSON.parse x = inl v
   /\ mockMinify x json = inl (litq "{'1':['e',null,true,null,0],'n':2.5}")
   /\ JSON.parse (JSON.stringify v) = inl (as_printed v))
  /\ (JSON.parse y = inl w
      /\ plain_numbers w = true
      /\ mockMinify y json = inl (litq "[0.1,-2e-7,1.2345678901234568e+29,{'k':'a\nb'}]")
      /\ JSON.parse (JSON.stringify w) = inl w).
Proof.
  intros x v y w.
  assert (Hx : JSON.parse x = inl v) by (vm_compute; reflexivity).
  assert (Hy : JSON.parse y = inl w) by (vm_compute; reflexivity).
  assert (Hw : plain_numbers w = true) by reflexivity.
  destruct (proj2 C2_structured_data_keeps_its_value x v Hx) as (H1 & H2 & _).
  destruct (proj2 C2_structured_data_keeps_its_value y w Hy) as (H3 & _ & H4).
  split; [split; [exact Hx | split; [rewrite H1; vm_compute; reflexivity | exact H2]]|].
  split; [exact Hy | split; [exact Hw | split; [rewrite H3; vm_compute; reflexivity|]]].
  exact (H4 Hw).
Defined.


(** * Further properties of the component *)

(** ** What is left in a minified text *)

Lemma encloses_block_comment (t : jsstring) :
  encloses (lit "/*") (lit "*/") t -> test Pat.block_comment t = true.
Proof.
  intros (a & c & b & ->). apply test_later.
  apply (test_here _ _ (S (S (match find (lit "*/") (c ++ lit "*/" ++ b) with
                              | Some i => i + 2 | None => O end)))).
  change (lit "/*" ++ c ++ lit "*/" ++ b) with (ch "/" :: ch "*" :: (c ++ lit "*/" ++ b)).
  rewrite match_block_comment.
  change (N.eqb (ch "/") (ch "/") && N.eqb (ch "*") (ch "*")) with true. cbv iota.
  destruct (occurs_find (lit "*/") (c ++ lit "*/" ++ b)) as [i Hi]; [now exists c, b|].
  now rewrite Hi.
Qed.

(** X1: the minified text of a script (js or jsx) holds no block comment:
    nowhere in it is [/*] followed, later, by [*/]. *)
Theorem X1_script_without_block_comment
  (content : jsstring) (type : FileType) (out : jsstring) :
  In type [js; jsx] ->
  mockMinify content type = inl out ->
  ~ encloses (lit "/*") (lit "*/") out.
Proof.
  intros Ht H Hc. apply encloses_block_comment in Hc.
  assert (E : out = finish (strip_block_comments (strip_line_comments content))).
  { destruct Ht as [<- | [<- | []]].
    - rewrite mockMinify_js in H. now injection H.
    - rewrite mockMinify_jsx in H. now injection H. }
  rewrite E, clean_test in Hc; [discriminate|].
  apply finish_clean, strip_block_comments_clean, strip_line_comments_no_slashes.
Qed.

Lemma X1_script_without_block_comment_witness :
  In jsx [js; jsx]
  /\ mockMinify (lit "a /* b */ = /* c */ 1") jsx = inl (lit "a = 1")
  /\ ~ encloses (lit "/*") (lit "*/") (lit "a = 1").
Proof.
  assert (Ht : In jsx [js; jsx]) by (simpl; tauto).
  assert (H : mockMinify (lit "a /* b */ = /* c */ 1") jsx = inl (lit "a = 1"))
    by (vm_compute; reflexivity).
  split; [exact Ht | split; [exact H|]].
  apply (X1_script_without_block_comment _ _ _ Ht H).
Defined.

(** X2: in the minified text of markup no white space stands between a
    [>] and the next [<]. *)
Theorem X2_markup_tags_joined (content out : jsstring) :
  mockMinify content html = inl out ->
  forall a w b, blank w -> out = a ++ ch ">" :: w ++ ch "<" :: b -> w = [].
Proof.
  intros H a w b Hw E. rewrite mockMinify_html in H. injection H as H.
  assert (Hg : test Pat.between_tags out = false).
  { rewrite <- H. apply trim_no_gap, join_tags_no_gap. }
  rewrite E in Hg. apply test_suffix in Hg.
  destruct (match_at Pat.between_tags (ch ">" :: w ++ ch "<" :: b)) as [n|] eqn:M.
  - apply test_here in M. congruence.
  - apply (match_between_tags_run (ch ">") w (ch "<" :: b) Hw) in M; [|reflexivity].
    destruct w as [|c w]; [reflexivity|]. exfalso. apply M.
    split; [reflexivity|]. split; [discriminate|]. now exists b.
Qed.

Lemma X2_markup_tags_joined_witness :
  mockMinify (lit "<p> a </p>   <p>b</p>") html = inl (lit "<p> a </p><p>b</p>")
  /\ forall a w b, blank w -> lit "<p> a </p><p>b</p>" = a ++ ch ">" :: w ++ ch "<" :: b -> w = [].
Proof.
  assert (H : mockMinify (lit "<p> a </p>   <p>b</p>") html = inl (lit "<p> a </p><p>b</p>"))
    by (vm_compute; reflexivity).
  split; [exact H | exact (X2_markup_tags_joined _ _ H)].
Defined.

(** X3: in the minified text of a stylesheet or a script no white space
    follows a [;] or a [{], and none precedes a [}]. *)
Theorem X3_punctuation_tight
  (content : jsstring) (type : FileType) (out : jsstring) :
  In type [css; js; jsx] ->
  mockMinify content type = inl out ->
  forall a x y b, out = a ++ x :: y :: b ->
    (x = ch ";" \/ x = ch "{" -> Chars.is_space y = false)
    /\ (y = ch "}" -> Chars.is_space x = false).
Proof.
  intros Ht H a x y b E.
  assert (F : exists z, out = finish z).
  { destruct Ht as [<- | [<- | [<- | []]]].
    - rewrite mockMinify_css in H. injection H as <-. now eexists.
    - rewrite mockMinify_js in H. injection H as <-. now eexists.
    - rewrite mockMinify_jsx in H. injection H as <-. now eexists. }
  destruct F as [z ->]. destruct (finish_tight z) as (H1 & H2 & H3).
  rewrite E in H1, H2, H3. unfold tight_after, tight_before_brace in *.
  apply neighbours_app_r in H1, H2, H3. cbn [neighbours] in H1, H2, H3.
  split; [intros [Hx | Hx]; [now apply H1 | now apply H2] | now apply H3].
Qed.

Lemma X3_punctuation_tight_witness :
  In css [css; js; jsx]
  /\ mockMinify (lit "a { b : c ;  d : e ; }") css = inl (lit "a {b : c ;d : e ;}")
  /\ forall a x y b, lit "a {b : c ;d : e ;}" = a ++ x :: y :: b ->
       (x = ch ";" \/ x = ch "{" -> Chars.is_space y = false)
       /\ (y = ch "}" -> Chars.is_space x = false).
Proof.
  assert (Ht : In css [css; js; jsx]) by (simpl; tauto).
  assert (H : mockMinify (lit "a { b : c ;  d : e ; }") css = inl (lit "a {b : c ;d : e ;}"))
    by (vm_compute; reflexivity).
  split; [exact Ht | split; [exact H | exact (X3_punctuation_tight _ _ _ Ht H)]].
Defined.

(** ** What minification changes *)

Lemma solid_app (a b : jsstring) : solid (a ++ b) = solid a ++ solid b.
Proof. apply filter_app. Qed.

Lemma solid_blank (w : jsstring) : blank w -> solid w = [].
Proof.
  induction 1 as [|c w Hc Hw IH]; [reflexivity|].
  cbn [solid filter]. rewrite Hc. exact IH.
Qed.

Lemma solid_nil (t : jsstring) : solid t = [] -> blank t.
Proof.
  induction t as [|c t IH]; [constructor|]. cbn [solid filter].
  destruct (Chars.is_space c) eqn:E; cbn [negb]; [|discriminate].
  intros H. constructor; [exact E | now apply IH].
Qed.

Lemma squeezed_solid (t o : jsstring) : squeezed t o -> solid o = solid t.
Proof.
  induction 1 as [|c t o H IH|c w t o Hc Hw Ht H IH|w c t o Hc Hw H IH].
  - reflexivity.
  - cbn [solid filter]. fold (solid o) (solid t). now rewrite IH.
  - change (c :: w ++ t) with ([c] ++ w ++ t). change (c :: o) with ([c] ++ o).
    now rewrite !solid_app, (solid_blank w Hw), IH.
  - change (c :: o) with ([c] ++ o). change (w ++ c :: t) with (w ++ [c] ++ t).
    now rewrite !solid_app, (solid_blank w Hw), IH.
Qed.

Lemma solid_skipn_span (t : jsstring) :
  solid (skipn (span Chars.is_space t) t) = solid t.
Proof.
  rewrite (span_split t) at 3.
  now rewrite solid_app, (solid_blank _ (firstn_span_blank t)).
Qed.

Lemma collapse_solid (t : jsstring) : solid (collapse t) = solid t.
Proof.
  induction t as [t IH] using length_induction.
  destruct t as [|c t1]; [now rewrite collapse_nil|].
  rewrite collapse_cons. destruct (Chars.is_space c) eqn:E.
  - cbn [solid filter]. rewrite E. cbn [negb]. fold (solid t1).
    change (negb (Chars.is_space (ch " "))) with false. cbv iota.
    fold (solid (collapse (skipn (span Chars.is_space t1) t1))).
    rewrite IH, solid_skipn_span; [reflexivity|].
    pose proof (length_skipn_span Chars.is_space t1). simpl. lia.
  - cbn [solid filter]. rewrite E. cbn [negb]. fold (solid t1) (solid (collapse t1)).
    rewrite IH; [reflexivity | simpl; lia].
Qed.

Lemma trim_solid (t : jsstring) : solid (trim t) = solid t.
Proof.
  destruct (trim_infix t) as (a & b & Ha & Hb & E). rewrite E at 2.
  now rewrite !solid_app, (solid_blank a Ha), (solid_blank b Hb), app_nil_r.
Qed.

Lemma finish_solid (t : jsstring) : solid (finish t) = solid t.
Proof.
  unfold finish. rewrite trim_solid.
  rewrite (squeezed_solid _ _ (tighten_before_brace_squeezed _)).
  rewrite (squeezed_solid _ _ (tighten_after_squeezed "{" _ glue_open_brace)).
  rewrite (squeezed_solid _ _ (tighten_after_squeezed ";" _ glue_semicolon)).
  apply collapse_solid.
Qed.

Lemma minified_as_trimmed (content : jsstring) (type : FileType) (out : jsstring) :
  In type [html; css; js; jsx] ->
  mockMinify content type = inl out ->
  solid out = solid (uncommented type content) /\ first_is not_space out.
Proof.
  intros Ht H. destruct Ht as [<- | [<- | [<- | [<- | []]]]].
  - rewrite mockMinify_html in H. injection H as <-. split; [|apply trim_first].
    rewrite trim_solid, (squeezed_solid _ _ (join_tags_squeezed _)). apply collapse_solid.
  - rewrite mockMinify_css in H. injection H as <-.
    split; [apply finish_solid | apply trim_first].
  - rewrite mockMinify_js in H. injection H as <-.
    split; [apply finish_solid | apply trim_first].
  - rewrite mockMinify_jsx in H. injection H as <-.
    split; [apply finish_solid | apply trim_first].
Qed.

Lemma uncommented_id (type : FileType) (content : jsstring) :
  has_comment type content = false -> uncommented type content = content.
Proof.
  destruct type; cbn [has_comment uncommented]; intros H; try reflexivity.
  - now apply replace_id.
  - now apply strip_block_comments_id.
  - apply orb_false_elim in H as [H1 H2].
    unfold strip_line_comments. rewrite (replace_id _ _ _ H1).
    now apply strip_block_comments_id.
  - apply orb_false_elim in H as [H1 H2].
    unfold strip_line_comments. rewrite (replace_id _ _ _ H1).
    now apply strip_block_comments_id.
Qed.

(** *** Nothing is added *)

Lemma subsequence_refl (t : jsstring) : subsequence t t.
Proof. induction t as [|c t IH]; constructor; exact IH. Qed.

Lemma subsequence_trans (a b c : jsstring) :
  subsequence a b -> subsequence b c -> subsequence a c.
Proof.
  intros Hab Hbc. revert a Hab.
  induction Hbc as [|x b c Hbc IH|x b c Hbc IH]; intros a Hab.
  - exact Hab.
  - inversion Hab as [|y a' b' Ha'|y a' b' Ha']; subst.
    + constructor. now apply IH.
    + apply subsequence_drop. now apply IH.
  - apply subsequence_drop. now apply IH.
Qed.

Lemma subsequence_skipn (n : nat) (t : jsstring) : subsequence (skipn n t) t.
Proof.
  revert t. induction n as [|n IH]; intros t; [apply subsequence_refl|].
  destruct t as [|c t]; [constructor|]. cbn [skipn]. apply subsequence_drop, IH.
Qed.

Lemma subsequence_solid (s t : jsstring) :
  subsequence s t -> subsequence (solid s) (solid t).
Proof.
  induction 1 as [|c s t H IH|c s t H IH]; cbn [solid filter].
  - constructor.
  - destruct (negb (Chars.is_space c)); [now constructor | exact IH].
  - destruct (negb (Chars.is_space c)); [now apply subsequence_drop | exact IH].
Qed.

(** Deleting the matches of a pattern leaves a subsequence of the text. *)
Lemma replace_empty_subsequence (re : regex) :
  never_empty re -> forall t : jsstring, subsequence (replace re [] t) t.
Proof.
  intros Hne t. induction t as [t IH] using length_induction.
  destruct t as [|c t1]; [rewrite (replace_nil _ _ Hne); constructor|].
  destruct (match_at re (c :: t1)) as [[|n]|] eqn:M.
  - now destruct (Hne (c :: t1)).
  - rewrite (replace_match _ _ _ _ _ Hne M). cbn [app].
    pose proof (match_at_le _ _ _ M) as Hn. simpl in Hn.
    apply subsequence_drop.
    apply (subsequence_trans _ (skipn n t1)); [|apply subsequence_skipn].
    apply IH. simpl. rewrite length_skipn. lia.
  - rewrite (replace_nomatch _ _ _ _ M). constructor. apply IH. simpl. lia.
Qed.

Lemma uncommented_subsequence (type : FileType) (content : jsstring) :
  subsequence (uncommented type content) content.
Proof.
  destruct type; cbn [uncommented]; try apply subsequence_refl.
  - apply replace_empty_subsequence, never_empty_html_comment.
  - apply replace_empty_subsequence, never_empty_block_comment.
  - apply (subsequence_trans _ (strip_line_comments content)).
    + apply replace_empty_subsequence, never_empty_block_comment.
    + apply replace_empty_subsequence, never_empty_line_comment.
  - apply (subsequence_trans _ (strip_line_comments content)).
    + apply replace_empty_subsequence, never_empty_block_comment.
    + apply replace_empty_subsequence, never_empty_line_comment.
Qed.

(** X4: minification of markup, stylesheets and scripts adds, alters and
    reorders no character other than white space: the characters other
    than white space of the minified text are characters of the input, in
    the order they have there.  Some of them can be missing, and not only
    those of comments: a line of a script is cut at [//] also inside a
    string literal.  For an input in which no comment pattern of the kind
    finds a match, none is missing: only white space changes. *)
Theorem X4_nothing_added_or_reordered
  (content : jsstring) (type : FileType) (out : jsstring) :
  In type [html; css; js; jsx] ->
  mockMinify content type = inl out ->
  subsequence (solid out) (solid content)
  /\ (has_comment type content = false -> solid out = solid content).
Proof.
  intros Ht H. destruct (minified_as_trimmed _ _ _ Ht H) as [E _].
  split.
  - rewrite E. apply subsequence_solid, uncommented_subsequence.
  - intros Hc. now rewrite E, uncommented_id.
Qed.

Lemma X4_nothing_added_or_reordered_witness :
  In js [html; css; js; jsx]
  /\ mockMinify (litq "var u='http://x.y/a';f();") js = inl (litq "var u='http:")
  /\ subsequence (solid (litq "var u='http:")) (solid (litq "var u='http://x.y/a';f();")).
Proof.
  assert (Ht : In js [html; css; js; jsx]) by (simpl; tauto).
  assert (H : mockMinify (litq "var u='http://x.y/a';f();") js = inl (litq "var u='http:"))
    by (vm_compute; reflexivity).
  split; [exact Ht | split; [exact H|]].
  exact (proj1 (X4_nothing_added_or_reordered _ _ _ Ht H)).
Defined.

(** Deleting the matches of a pattern leaves characters of the text only. *)
Lemma replace_empty_Forall (re : regex) (P : cu -> Prop) :
  never_empty re ->
  forall t : jsstring, Forall P t -> Forall P (replace re [] t).
Proof.
  intros Hne t. induction t as [t IH] using length_induction. intros Ht.
  destruct t as [|c t1]; [now rewrite (replace_nil _ _ Hne)|].
  inversion Ht as [|? ? Hc Ht1]; subst.
  destruct (match_at re (c :: t1)) as [[|n]|] eqn:M.
  - now destruct (Hne (c :: t1)).
  - rewrite (replace_match _ _ _ _ _ Hne M). cbn [app].
    pose proof (match_at_le _ _ _ M) as Hn. simpl in Hn.
    apply IH; [simpl; rewrite length_skipn; lia|].
    rewrite <- (firstn_skipn n t1) in Ht1. now apply Forall_app in Ht1.
  - rewrite (replace_nomatch _ _ _ _ M). constructor; [exact Hc|].
    apply IH; [simpl; lia | exact Ht1].
Qed.

Lemma uncommented_Forall (P : cu -> Prop) (type : FileType) (content : jsstring) :
  Forall P content -> Forall P (uncommented type content).
Proof.
  intros H. destruct type; cbn [uncommented]; try exact H.
  - now apply replace_empty_Forall; [apply never_empty_html_comment|].
  - now apply replace_empty_Forall; [apply never_empty_block_comment|].
  - apply replace_empty_Forall; [apply never_empty_block_comment|].
    now apply replace_empty_Forall; [apply never_empty_line_comment|].
  - apply replace_empty_Forall; [apply never_empty_block_comment|].
    now apply replace_empty_Forall; [apply never_empty_line_comment|].
Qed.

(** X5: for markup, stylesheets and scripts the minified text of an input
    that is empty or white space only is the empty text. *)
Theorem X5_blank_gives_empty (content : jsstring) (type : FileType) (out : jsstring) :
  In type [html; css; js; jsx] ->
  blank content ->
  mockMinify content type = inl out -> out = [].
Proof.
  intros Ht Hb H. destruct (minified_as_trimmed _ _ _ Ht H) as [E Hf].
  rewrite (solid_blank _ (uncommented_Forall _ type content Hb)) in E.
  apply solid_nil in E. destruct out as [|c r]; [reflexivity|].
  inversion E; subst. cbn [first_is] in Hf. unfold not_space in Hf. congruence.
Qed.

Lemma X5_blank_gives_empty_witness :
  In css [html; css; js; jsx]
  /\ blank [ch " "; ch "010"; ch "009"]
  /\ mockMinify [ch " "; ch "010"; ch "009"] css = inl [].
Proof.
  assert (Ht : In css [html; css; js; jsx]) by (simpl; tauto).
  assert (Hb : blank [ch " "; ch "010"; ch "009"]) by (repeat constructor).
  split; [exact Ht | split; [exact Hb|]].
  destruct (mockMinify [ch " "; ch "010"; ch "009"] css) as [out|e] eqn:H;
    [|vm_compute in H; discriminate].
  now rewrite (X5_blank_gives_empty _ _ _ Ht Hb H).
Defined.

(** ** The texts that minification leaves as they are *)

Lemma uncommented_smaller (type : FileType) (content : jsstring) :
  (utf8_length (uncommented type content) <= utf8_length content)%N
  /\ (has_comment type content = true ->
      (utf8_length (uncommented type content) < utf8_length content)%N).
Proof.
  destruct (utf8_strip Pat.html_comment content never_empty_html_comment
              strictly_shrinking_html_comment) as (Hh1 & Hh2 & _).
  destruct (utf8_strip Pat.line_comment content never_empty_line_comment
              strictly_shrinking_line_comment) as (Hl1 & Hl2 & Hl3).
  destruct (utf8_strip Pat.block_comment content never_empty_block_comment
              strictly_shrinking_block_comment) as (Hb1 & Hb2 & _).
  destruct (utf8_strip Pat.block_comment (strip_line_comments content)
              never_empty_block_comment strictly_shrinking_block_comment) as (Hc1 & _ & _).
  fold (strip_html_comments content) in *. fold (strip_line_comments content) in *.
  fold (strip_block_comments content) in *.
  fold (strip_block_comments (strip_line_comments content)) in *.
  assert (Script : (utf8_length (strip_block_comments (strip_line_comments content))
                    <= utf8_length content)%N
                   /\ (test Pat.line_comment content || test Pat.block_comment content = true ->
                       (utf8_length (strip_block_comments (strip_line_comments content))
                        < utf8_length content)%N)).
  { split; [lia|]. destruct (test Pat.line_comment content) eqn:E.
    - intros _. specialize (Hl2 eq_refl). lia.
    - cbn [orb]. rewrite (Hl3 eq_refl) in *. exact Hb2. }
  destruct type; cbn [uncommented has_comment]; try (split; [assumption | assumption]).
  - split; [lia | discriminate].
  - exact Script.
  - exact Script.
Qed.

Lemma minified_smaller (content : jsstring) (type : FileType) (out : jsstring) :
  In type [html; css; js; jsx] ->
  mockMinify content type = inl out ->
  (utf8_length out <= utf8_length (uncommented type content))%N.
Proof.
  intros Ht H.
  assert (Hf : forall z, (utf8_length (finish z) <= utf8_length z)%N).
  { intros z. pose proof (utf8_finish_collapse z). pose proof (utf8_collapse z). lia. }
  destruct Ht as [<- | [<- | [<- | [<- | []]]]].
  - rewrite mockMinify_html in H. injection H as <-. cbn [uncommented].
    pose proof (utf8_trim (join_tags (collapse (strip_html_comments content)))).
    pose proof (proj1 (replace_shrinks _ _ never_empty_between_tags shrinking_between_tags
                         (collapse (strip_html_comments content)))) as K.
    fold (join_tags (collapse (strip_html_comments content))) in K.
    pose proof (utf8_collapse (strip_html_comments content)). lia.
  - rewrite mockMinify_css in H. injection H as <-. apply Hf.
  - rewrite mockMinify_js in H. injection H as <-. apply Hf.
  - rewrite mockMinify_jsx in H. injection H as <-. apply Hf.
Qed.

Lemma finish_id (t : jsstring) :
  tidy t -> tight_after ";" t -> tight_after "{" t -> tight_before_brace t ->
  finish t = t.
Proof.
  intros (Hc & Hf & Hl) H1 H2 H3. unfold finish.
  rewrite (collapse_id t Hc), (tighten_after_id ";" t H1), (tighten_after_id "{" t H2).
  rewrite (tighten_before_brace_id t Hc H3). now apply trim_id.
Qed.

(** X6: the texts that minification returns unchanged.  A stylesheet or a
    script is returned as it is exactly when it holds no comment of its
    kind, its white space is single spaces between other characters, none
    of them after a [;] or a [{] or before a [}]; markup, exactly when it
    holds no comment, its white space is single spaces between other
    characters and none of them stands between a [>] and a [<]. *)
Theorem X6_unchanged_texts (content : jsstring) :
  (forall type : FileType,
      In type [css; js; jsx] ->
      (mockMinify content type = inl content
       <-> has_comment type content = false /\ tidy content
           /\ tight_after ";" content /\ tight_after "{" content
           /\ tight_before_brace content))
  /\ (mockMinify content html = inl content
      <-> has_comment html content = false /\ tidy content
          /\ test Pat.between_tags content = false).
Proof.
  assert (NoComment : forall type, In type [html; css; js; jsx] ->
            mockMinify content type = inl content -> has_comment type content = false).
  { intros type Ht H. destruct (has_comment type content) eqn:E; [|reflexivity].
    pose proof (minified_smaller _ _ _ Ht H).
    pose proof (proj2 (uncommented_smaller type content) E). lia. }
  split.
  - intros type Ht.
    assert (Ht' : In type [html; css; js; jsx]) by (cbn in *; tauto).
    assert (E : mockMinify content type = inl (finish (uncommented type content))).
    { destruct Ht as [<- | [<- | [<- | []]]];
        [apply mockMinify_css | apply mockMinify_js | apply mockMinify_jsx]. }
    split.
    + intros H. split; [now apply NoComment|].
      rewrite E in H. injection H as H. rewrite <- H.
      split; [apply finish_tidy | apply finish_tight].
    + intros (Hc & Ht1 & H1 & H2 & H3).
      now rewrite E, (uncommented_id _ _ Hc), finish_id.
  - rewrite mockMinify_html. split.
    + intros H. split; [apply NoComment; [cbn; tauto | now rewrite mockMinify_html]|].
      injection H as H. rewrite <- H. split.
      * apply (minified_tidy (content) html); [discriminate | apply mockMinify_html].
      * apply trim_no_gap, join_tags_no_gap.
    + intros (Hc & (Hcol & Hf & Hl) & Hg). cbn [has_comment] in Hc.
      unfold strip_html_comments. rewrite (replace_id _ _ _ Hc).
      rewrite (collapse_id _ Hcol), (join_tags_id _ Hg). f_equal. now apply trim_id.
Qed.

Lemma X6_unchanged_texts_witness :
  In css [css; js; jsx]
  /\ mockMinify (lit ".a {color: red;}") css = inl (lit ".a {color: red;}")
  /\ tight_before_brace (lit ".a {color: red;}").
Proof.
  assert (Ht : In css [css; js; jsx]) by (simpl; tauto).
  assert (H : mockMinify (lit ".a {color: red;}") css = inl (lit ".a {color: red;}"))
    by (vm_compute; reflexivity).
  split; [exact Ht | split; [exact H|]].
  exact (proj2 (proj2 (proj2 (proj2
           (proj1 (proj1 (X6_unchanged_texts (lit ".a {color: red;}")) css Ht) H))))).
Defined.

(** ** What validation accepts *)

Lemma span_app_stop_all (p : cu -> bool) (w r : jsstring) :
  Forall (fun c => p c = true) w -> first_is (fun c => p c = false) r ->
  span p (w ++ r) = List.length w /\ skipn (List.length w) (w ++ r) = r.
Proof.
  intros Hw Hr. induction Hw as [|c w Hc Hw IH]; cbn [app List.length skipn span].
  - split; [|reflexivity]. destruct r as [|d r]; [reflexivity|].
    cbn [first_is] in Hr. cbn [span]. now rewrite Hr.
  - rewrite Hc. destruct IH as [IH1 IH2]. now rewrite IH1.
Qed.

Lemma span_stop (p : cu -> bool) (t : jsstring) (c : cu) (r : jsstring) :
  skipn (span p t) t = c :: r ->
  t = firstn (span p t) t ++ c :: r /\ Forall (fun x => p x = true) (firstn (span p t) t).
Proof.
  intros H. split; [|apply span_firstn]. now rewrite <- H, firstn_skipn.
Qed.

Lemma present_not_blank (t : jsstring) (c : cu) :
  In c t -> Chars.is_space c = false -> ~ blank t.
Proof.
  intros Hin Hc Hb. unfold blank in Hb. rewrite Forall_forall in Hb.
  specialize (Hb c Hin). congruence.
Qed.

Lemma validate_not_blank (content : jsstring) (type : FileType) :
  ~ blank content ->
  validateContent content type
  = match type with
    | html =>
        if negb (test Pat.html_tag content)
        then invalid (Text (lit "Invalid HTML: No valid HTML tags found"))
        else valid
    | css =>
        if negb (test Pat.css_rule (replace Pat.block_comment [] content))
        then invalid (Text (lit "Invalid CSS: No valid CSS rules found"))
        else valid
    | json =>
        match JSON.parse content with
        | inl _ => valid
        | inr e => invalid (TextAndMessage (lit "Invalid JSON: ") e)
        end
    | js =>
        if negb (test Pat.js_marker content)
        then invalid (Text (lit "Invalid JS: No valid JavaScript syntax found"))
        else valid
    | jsx =>
        if negb (test Pat.jsx_marker content)
        then invalid (Text (lit "Invalid JSX: No valid JSX syntax found"))
        else valid
    end.
Proof.
  intros Hb. unfold validateContent.
  destruct (is_empty (trim content)) eqn:E; [apply is_empty_trim in E; contradiction|].
  destruct type; reflexivity.
Qed.

Lemma validate_blank (content : jsstring) (type : FileType) :
  blank content -> validateContent content type <> valid.
Proof.
  intros Hb. unfold validateContent. apply is_empty_trim in Hb. rewrite Hb. discriminate.
Qed.

(** A tag, for validation: [<], one character or more other than [>], and
    [>]. *)
Lemma match_html_tag (t : jsstring) (n : nat) :
  match_at Pat.html_tag t = Some n
  <-> exists c b, t = ch "<" :: c ++ ch ">" :: b /\ c <> []
                  /\ Forall (fun x => x <> ch ">") c /\ n = S (S (List.length c)).
Proof.
  unfold Pat.html_tag. rewrite match_one.
  assert (P : forall x, Chars.other_than ">" x = true <-> x <> ch ">").
  { intros x. unfold Chars.other_than. rewrite negb_true_iff. apply N.eqb_neq. }
  split.
  - destruct t as [|x [|y t]]; try discriminate.
    + rewrite match_chr. destruct (N.eqb x (ch "<")); discriminate.
    + rewrite match_chr. destruct (N.eqb_spec x (ch "<")) as [->|]; [|discriminate].
      rewrite match_cls. destruct (Chars.other_than ">" y) eqn:Hy; [|discriminate].
      rewrite match_greedy_chr by reflexivity.
      destruct (skipn (span (Chars.other_than ">") t) t) as [|d r] eqn:S; [discriminate|].
      destruct (N.eqb_spec d (ch ">")) as [->|]; [|discriminate].
      cbn [option_map]. intros H. injection H as <-.
      destruct (span_stop _ _ _ _ S) as [E F].
      exists (y :: firstn (span (Chars.other_than ">") t) t), r.
      split; [cbn [app]; now rewrite <- E|]. split; [discriminate|].
      split.
      * constructor; [now apply P|]. revert F. apply Forall_impl. intros a. apply P.
      * cbn [List.length]. rewrite length_firstn.
        pose proof (span_le (Chars.other_than ">") t). do 2 f_equal. lia.
  - intros (c & b & -> & Hc & Hall & ->). destruct c as [|y c]; [contradiction|].
    inversion Hall as [|? ? Hy Hc']; subst. cbn [app].
    rewrite match_chr. change (N.eqb (ch "<") (ch "<")) with true. cbv iota.
    rewrite match_cls, (proj2 (P y) Hy), match_greedy_chr by reflexivity.
    destruct (span_app_stop_all (Chars.other_than ">") c (ch ">" :: b)) as [E1 E2].
    + revert Hc'. apply Forall_impl. intros a. apply P.
    + reflexivity.
    + rewrite E1, E2. reflexivity.
Qed.

(** X7: markup is valid exactly when somewhere in it a [<] is followed by
    one character or more other than [>] and then a [>]; any other text
    that is not white space only gets the reason
    [Invalid HTML: No valid HTML tags found]. *)
Theorem X7_markup_validity (content : jsstring) :
  (validateContent content html = valid
   <-> exists a c b, content = a ++ ch "<" :: c ++ ch ">" :: b /\ c <> []
                     /\ Forall (fun x => x <> ch ">") c)
  /\ (~ blank content ->
      validateContent content html = valid
      \/ validateContent content html
         = invalid (Text (lit "Invalid HTML: No valid HTML tags found"))).
Proof.
  split.
  - split.
    + intros H. destruct (test Pat.html_tag content) eqn:T.
      * apply test_spec in T as (a & s & n & -> & M).
        apply match_html_tag in M as (c & b & -> & Hc & Hall & _). now exists a, c, b.
      * exfalso. unfold validateContent in H.
        destruct (is_empty (trim content)); [discriminate|]. rewrite T in H. discriminate.
    + intros (a & c & b & -> & Hc & Hall).
      rewrite validate_not_blank.
      * replace (test Pat.html_tag (a ++ ch "<" :: c ++ ch ">" :: b)) with true; [reflexivity|].
        symmetry. apply test_later.
        apply (test_here _ _ (S (S (List.length c)))). apply match_html_tag.
        now exists c, b.
      * apply (present_not_blank _ (ch "<")); [|reflexivity].
        apply in_or_app. right. now left.
  - intros Hb. rewrite (validate_not_blank _ _ Hb).
    destruct (test Pat.html_tag content); [now left | now right].
Qed.

Lemma X7_markup_validity_witness :
  ~ blank (lit "a <> b")
  /\ validateContent (lit "a <> b") html
     = invalid (Text (lit "Invalid HTML: No valid HTML tags found"))
  /\ validateContent (lit "1 < 2 and 3 > 2") html = valid.
Proof.
  assert (Hb : ~ blank (lit "a <> b")) by (intros H; inversion H; discriminate).
  split; [exact Hb|]. split.
  - destruct (proj2 (X7_markup_validity (lit "a <> b")) Hb) as [H | H]; [|exact H].
    vm_compute in H. discriminate.
  - apply (proj1 (X7_markup_validity _)).
    exists (lit "1 "), (lit " 2 and 3 "), (lit " 2").
    split; [reflexivity|]. split; [discriminate|]. repeat constructor; discriminate.
Defined.

(** A greedy repetition of a class before a character outside the class:
    the repetition takes the whole run, and giving characters back never
    helps. *)
Lemma match_greedy_chr_then (p : cu -> bool) (a : ascii) (r : list atom) (t : jsstring) :
  p (ch a) = false ->
  match_seq (Greedy p :: Chr a :: r) t
  = match skipn (span p t) t with
    | c :: t' =>
        if N.eqb c (ch a)
        then option_map (fun n => (span p t + S n)%nat) (match_seq r t')
        else None
    | [] => None
    end.
Proof.
  intros Hp. induction t as [|c t IH]; [reflexivity|].
  change (match_seq (Greedy p :: Chr a :: r) (c :: t))
    with (if p c then
            match match_seq (Greedy p :: Chr a :: r) t with
            | Some n => Some (S n)
            | None => match_seq (Chr a :: r) (c :: t)
            end
          else match_seq (Chr a :: r) (c :: t)).
  cbn [span]. destruct (p c) eqn:E.
  - cbn [skipn]. rewrite IH, match_chr.
    assert (Hc : N.eqb c (ch a) = false).
    { apply N.eqb_neq. intros ->. congruence. }
    rewrite Hc.
    destruct (skipn (span p t) t) as [|d t']; [reflexivity|].
    destruct (N.eqb d (ch a)); [|reflexivity].
    now destruct (match_seq r t').
  - cbn [skipn]. rewrite match_chr. destruct (N.eqb c (ch a)); [|reflexivity].
    now destruct (match_seq r t).
Qed.

Lemma not_brace_spec (x : cu) :
  Chars.not_brace x = true <-> x <> ch "{" /\ x <> ch "}".
Proof.
  unfold Chars.not_brace. rewrite negb_true_iff, orb_false_iff, !N.eqb_neq. reflexivity.
Qed.

(** A rule, for validation: [{], characters other than braces, and [}],
    after characters other than braces. *)
Lemma match_css_rule (t : jsstring) :
  (exists n, match_at Pat.css_rule t = Some n)
  <-> exists w c b, t = w ++ ch "{" :: c ++ ch "}" :: b
                    /\ Forall (fun x => Chars.not_brace x = true) w
                    /\ Forall (fun x => Chars.not_brace x = true) c.
Proof.
  unfold Pat.css_rule. rewrite match_one, match_greedy_chr_then by reflexivity.
  split.
  - intros [n H].
    destruct (skipn (span Chars.not_brace t) t) as [|d t'] eqn:S; [discriminate|].
    destruct (N.eqb_spec d (ch "{")) as [->|]; [|discriminate].
    rewrite match_greedy_chr in H by reflexivity.
    destruct (skipn (span Chars.not_brace t') t') as [|e r] eqn:S'; [discriminate|].
    destruct (N.eqb_spec e (ch "}")) as [->|]; [|discriminate].
    destruct (span_stop _ _ _ _ S) as [E F]. destruct (span_stop _ _ _ _ S') as [E' F'].
    exists (firstn (span Chars.not_brace t) t), (firstn (span Chars.not_brace t') t'), r.
    split; [now rewrite <- E'|]. now split.
  - intros (w & c & b & -> & Hw & Hc).
    destruct (span_app_stop_all Chars.not_brace w (ch "{" :: c ++ ch "}" :: b) Hw eq_refl)
      as [E1 E2].
    rewrite E1, E2. change (N.eqb (ch "{") (ch "{")) with true. cbv iota.
    rewrite match_greedy_chr by reflexivity.
    destruct (span_app_stop_all Chars.not_brace c (ch "}" :: b) Hc eq_refl) as [E3 E4].
    rewrite E3, E4. now eexists.
Qed.

(** X8: a stylesheet is valid exactly when, once its comments are removed,
    somewhere in it a [{] is followed by characters other than braces, or
    by none, and then a [}]; any other text that is not white space only
    gets the reason [Invalid CSS: No valid CSS rules found]. *)
Theorem X8_stylesheet_validity (content : jsstring) :
  (validateContent content css = valid
   <-> exists a c b, uncommented css content = a ++ ch "{" :: c ++ ch "}" :: b
                     /\ Forall (fun x => x <> ch "{" /\ x <> ch "}") c)
  /\ (~ blank content ->
      validateContent content css = valid
      \/ validateContent content css
         = invalid (Text (lit "Invalid CSS: No valid CSS rules found"))).
Proof.
  cbn [uncommented]. unfold strip_block_comments. split.
  - split.
    + intros H.
      destruct (test Pat.css_rule (replace Pat.block_comment [] content)) eqn:T.
      * apply test_spec in T as (a & s & n & E & M).
        destruct (proj1 (match_css_rule s) (ex_intro _ n M)) as (w & c & b & -> & Hw & Hc).
        exists (a ++ w), c, b. split; [now rewrite E, <- app_assoc|].
        revert Hc. apply Forall_impl. intros x. apply not_brace_spec.
      * exfalso. unfold validateContent in H.
        destruct (is_empty (trim content)); [discriminate|]. rewrite T in H. discriminate.
    + intros (a & c & b & E & Hc).
      assert (Hb : ~ blank content).
      { intros Hb.
        apply (replace_empty_Forall Pat.block_comment _ never_empty_block_comment) in Hb.
        rewrite E in Hb. apply Forall_app in Hb as [_ Hb]. inversion Hb. discriminate. }
      rewrite (validate_not_blank _ _ Hb), E.
      replace (test Pat.css_rule (a ++ ch "{" :: c ++ ch "}" :: b)) with true; [reflexivity|].
      symmetry. apply test_later.
      destruct (proj2 (match_css_rule (ch "{" :: c ++ ch "}" :: b))) as [n M].
      * exists [], c, b. split; [reflexivity|]. split; [constructor|].
        revert Hc. apply Forall_impl. intros x. apply not_brace_spec.
      * apply (test_here _ _ _ M).
  - intros Hb. rewrite (validate_not_blank _ _ Hb).
    destruct (test Pat.css_rule (replace Pat.block_comment [] content)); [now left | now right].
Qed.

Lemma X8_stylesheet_validity_witness :
  ~ blank (lit "a { b /* } */")
  /\ validateContent (lit "a { b /* } */") css
     = invalid (Text (lit "Invalid CSS: No valid CSS rules found"))
  /\ validateContent (lit "{}") css = valid.
Proof.
  assert (Hb : ~ blank (lit "a { b /* } */")) by (intros H; inversion H; discriminate).
  split; [exact Hb|]. split.
  - destruct (proj2 (X8_stylesheet_validity (lit "a { b /* } */")) Hb) as [H | H]; [|exact H].
    vm_compute in H. discriminate.
  - apply (proj1 (X8_stylesheet_validity _)).
    exists [], [], []. split; [reflexivity | constructor].
Defined.

Lemma match_at_some (re : regex) (t : jsstring) (n : nat) :
  match_at re t = Some n -> exists r, In r re /\ match_seq r t = Some n.
Proof.
  induction re as [|r re IH]; cbn [match_at]; [discriminate|].
  destruct (match_seq r t) as [k|] eqn:E.
  - intros H. injection H as <-. exists r. split; [now left | exact E].
  - intros H. destruct (IH H) as (r' & Hin & Hr'). exists r'. split; [now right | exact Hr'].
Qed.

Lemma match_word_prefix (s : string) (t : jsstring) (n : nat) :
  match_seq (Pat.word s) t = Some n -> exists r, t = lit s ++ r.
Proof.
  unfold Pat.word. rewrite <- (app_nil_r (map Chr _)), match_word.
  change (map ch (list_ascii_of_string s)) with (lit s).
  destruct (prefixb (lit s) t) eqn:E; [|discriminate].
  intros _. now apply prefixb_spec.
Qed.

Lemma test_js_marker_inv (t : jsstring) :
  test Pat.js_marker t = true -> exists m, In m markers /\ occurs (lit m) t.
Proof.
  intros H. apply test_spec in H as (a & s & n & -> & M).
  apply match_at_some in M as (r & Hr & M).
  change Pat.js_marker with (map Pat.word markers) in Hr.
  apply in_map_iff in Hr as (m & <- & Hm).
  apply match_word_prefix in M as [b ->]. exists m. split; [exact Hm | now exists a, b].
Qed.

(** An opening or closing tag of a component: [<] or [</] before a letter
    from A to Z. *)
Lemma test_jsx_marker (t : jsstring) :
  test Pat.jsx_marker t = true
  <-> (exists m, In m markers /\ occurs (lit m) t)
      \/ (exists a u b, Chars.upper u = true
                        /\ (t = a ++ ch "<" :: u :: b \/ t = a ++ ch "<" :: ch "/" :: u :: b)).
Proof.
  split.
  - intros H. apply test_spec in H as (a & s & n & -> & M).
    apply match_at_some in M as (r & Hr & M). unfold Pat.jsx_marker in Hr.
    apply in_app_or in Hr as [Hr | [<- | [<- | []]]].
    + left. change Pat.js_marker with (map Pat.word markers) in Hr.
      apply in_map_iff in Hr as (m & <- & Hm).
      apply match_word_prefix in M as [b ->]. exists m. split; [exact Hm | now exists a, b].
    + right. destruct s as [|x [|u b]]; try discriminate.
      * rewrite match_chr in M. destruct (N.eqb x (ch "<")); discriminate.
      * rewrite match_chr in M. destruct (N.eqb_spec x (ch "<")) as [->|]; [|discriminate].
        rewrite match_cls in M. destruct (Chars.upper u) eqn:U; [|discriminate].
        exists a, u, b. split; [exact U | now left].
    + right. destruct s as [|x [|y [|u b]]]; try discriminate.
      * rewrite match_chr in M. destruct (N.eqb x (ch "<")); discriminate.
      * rewrite !match_chr in M.
        destruct (N.eqb x (ch "<")); [|discriminate]. destruct (N.eqb y (ch "/")); discriminate.
      * rewrite !match_chr in M.
        destruct (N.eqb_spec x (ch "<")) as [->|]; [|discriminate].
        destruct (N.eqb_spec y (ch "/")) as [->|]; [|discriminate].
        rewrite match_cls in M. destruct (Chars.upper u) eqn:U; [|discriminate].
        exists a, u, b. split; [exact U | now right].
  - intros [(m & Hm & (a & b & ->)) | (a & u & b & U & [-> | ->])]; apply test_later.
    + destruct (match_at_in Pat.jsx_marker (Pat.word m) (lit m ++ b) (String.length m))
        as [k Hk].
      * unfold Pat.jsx_marker. apply in_or_app. left.
        change Pat.js_marker with (map Pat.word markers). now apply in_map.
      * apply match_seq_word.
      * apply (test_here _ _ _ Hk).
    + destruct (match_at_in Pat.jsx_marker [Chr "<"; Cls Chars.upper] (ch "<" :: u :: b) 2)
        as [k Hk].
      * unfold Pat.jsx_marker. apply in_or_app. right. now left.
      * rewrite match_chr. change (N.eqb (ch "<") (ch "<")) with true. cbv iota.
        now rewrite match_cls, U.
      * apply (test_here _ _ _ Hk).
    + destruct (match_at_in Pat.jsx_marker [Chr "<"; Chr "/"; Cls Chars.upper]
                  (ch "<" :: ch "/" :: u :: b) 3) as [k Hk].
      * unfold Pat.jsx_marker. apply in_or_app. right. right. now left.
      * rewrite !match_chr. change (N.eqb (ch "<") (ch "<")) with true.
        change (N.eqb (ch "/") (ch "/")) with true. cbv iota.
        now rewrite match_cls, U.
      * apply (test_here _ _ _ Hk).
Qed.

(** X9: a script (js) is valid exactly when one of the words [function],
    [const], [let], [var], [class], [import], [export], [=>] occurs in it;
    a script with markup (jsx), exactly when one of these words occurs in
    it or a [<] or [</] stands before a letter from A to Z.  So every text
    that is valid as js is valid as jsx. *)
Theorem X9_script_validity (content : jsstring) :
  (validateContent content js = valid
   <-> exists m, In m markers /\ occurs (lit m) content)
  /\ (validateContent content jsx = valid
      <-> (exists m, In m markers /\ occurs (lit m) content)
          \/ (exists a u b, Chars.upper u = true
                /\ (content = a ++ ch "<" :: u :: b
                    \/ content = a ++ ch "<" :: ch "/" :: u :: b)))
  /\ (validateContent content js = valid -> validateContent content jsx = valid).
Proof.
  assert (Js : validateContent content js = valid
               <-> exists m, In m markers /\ occurs (lit m) content).
  { split.
    - intros H. apply test_js_marker_inv. unfold validateContent in H.
      destruct (is_empty (trim content)); [discriminate|].
      now destruct (test Pat.js_marker content).
    - intros (m & Hm & Ho). rewrite validate_not_blank by now apply (marker_not_blank m).
      now rewrite (test_js_marker m content Hm Ho). }
  assert (Jsx : validateContent content jsx = valid
                <-> (exists m, In m markers /\ occurs (lit m) content)
                    \/ (exists a u b, Chars.upper u = true
                          /\ (content = a ++ ch "<" :: u :: b
                              \/ content = a ++ ch "<" :: ch "/" :: u :: b))).
  { split.
    - intros H. apply test_jsx_marker. unfold validateContent in H.
      destruct (is_empty (trim content)); [discriminate|].
      now destruct (test Pat.jsx_marker content).
    - intros H.
      assert (Hb : ~ blank content).
      { destruct H as [(m & Hm & Ho) | (a & u & b & U & [-> | ->])].
        - now apply (marker_not_blank m).
        - apply (present_not_blank _ (ch "<")); [|reflexivity].
          apply in_or_app. right. now left.
        - apply (present_not_blank _ (ch "<")); [|reflexivity].
          apply in_or_app. right. now left. }
      rewrite (validate_not_blank _ _ Hb).
      now rewrite (proj2 (test_jsx_marker content) H). }
  split; [exact Js|]. split; [exact Jsx|].
  intros H. apply Jsx. left. now apply Js.
Qed.

Lemma X9_script_validity_witness :
  validateContent (lit "let x") js = valid
  /\ validateContent (lit "let x") jsx = valid
  /\ (validateContent (lit "</Box>") jsx = valid
      /\ validateContent (lit "</Box>") js <> valid).
Proof.
  assert (H : validateContent (lit "let x") js = valid) by (vm_compute; reflexivity).
  split; [exact H|].
  split; [exact (proj2 (proj2 (X9_script_validity (lit "let x"))) H)|].
  split.
  - apply (proj1 (proj2 (X9_script_validity (lit "</Box>")))). right.
    exists [], (ch "B"), (lit "ox>"). split; [reflexivity | now right].
  - vm_compute. discriminate.
Defined.

(** ** Typing, then minification *)

Lemma valid_minifies (content : jsstring) (type : FileType) :
  validateContent content type = valid ->
  ~ blank content /\ exists out, mockMinify content type = inl out.
Proof.
  intros Hv.
  assert (Hb : ~ blank content) by (intros Hb; now apply (validate_blank content type)).
  split; [exact Hb|].
  destruct type; try (eexists; reflexivity).
  rewrite (validate_not_blank _ _ Hb) in Hv. cbn [mockMinify].
  destruct (JSON.parse content) as [v|e]; [now eexists | discriminate].
Qed.

(** X11: typing a text into the paste box and pressing Minify.  When the
    text is valid for the selected kind the state ends with the report of
    that text; when it is not, pressing Minify changes nothing: the state
    keeps the verdict of validation and the result it had before the text
    was typed. *)
Theorem X11_type_then_minify (value : jsstring) (st : State) :
  inputMethod st = paste ->
  (validateContent value (selectedFileType st) = valid ->
   exists out,
     mockMinify value (selectedFileType st) = inl out
     /\ minificationResult (handleMinify (handleCodeChange value st))
        = Some (report value out)
     /\ inputCode (handleMinify (handleCodeChange value st)) = value)
  /\ (validateContent value (selectedFileType st) <> valid ->
      handleMinify (handleCodeChange value st) = handleCodeChange value st
      /\ minificationResult (handleCodeChange value st) = minificationResult st
      /\ validation (handleCodeChange value st)
         = validateContent value (selectedFileType st)).
Proof.
  intros Hp. unfold handleCodeChange. rewrite Hp. split.
  - intros Hv. destruct (valid_minifies _ _ Hv) as (Hb & out & Ho).
    exists out. split; [exact Ho|].
    unfold handleMinify. cbn [validation setValidation]. rewrite Hv.
    cbn [isValid valid negb orb inputCode setValidation setInputCode selectedFileType].
    destruct (is_empty (trim value)) eqn:E; [apply is_empty_trim in E; contradiction|].
    rewrite Ho. split; reflexivity.
  - intros Hv. split; [|split; reflexivity].
    unfold handleMinify. cbn [validation setValidation].
    assert (Hi : isValid (validateContent value (selectedFileType st)) = false).
    { unfold validateContent in *. destruct (is_empty (trim value)); [reflexivity|].
      destruct (selectedFileType st);
        repeat match goal with
          | |- context [if ?b then _ else _] => destruct b
          | |- context [match ?x with inl _ => _ | inr _ => _ end] => destruct x
          end; try reflexivity; now contradiction Hv. }
    now rewrite Hi.
Qed.

Lemma X11_type_then_minify_witness :
  inputMethod initial = paste
  /\ validateContent (lit "var a  =  1 ;") (selectedFileType initial) = valid
  /\ exists out,
       mockMinify (lit "var a  =  1 ;") (selectedFileType initial) = inl out
       /\ minificationResult (handleMinify (handleCodeChange (lit "var a  =  1 ;") initial))
          = Some (report (lit "var a  =  1 ;") out).
Proof.
  assert (Hp : inputMethod initial = paste) by reflexivity.
  assert (Hv : validateContent (lit "var a  =  1 ;") (selectedFileType initial) = valid)
    by (vm_compute; reflexivity).
  split; [exact Hp | split; [exact Hv|]].
  destruct (proj1 (X11_type_then_minify (lit "var a  =  1 ;") initial Hp) Hv)
    as (out & H1 & H2 & _).
  exists out. now split.
Defined.

(** ** Uploading a file *)

Lemma last_segment_plain (acc t : jsstring) :
  ~ In (ch ".") t -> last_segment acc t = acc.
Proof.
  revert acc. induction t as [|c t IH]; intros acc H; [reflexivity|].
  cbn [last_segment]. destruct (N.eqb_spec c (ch ".")) as [->|].
  - exfalso. apply H. now left.
  - apply IH. intros Hin. apply H. now right.
Qed.

Lemma last_segment_dot (acc stem e : jsstring) :
  ~ In (ch ".") e -> last_segment acc (stem ++ ch "." :: e) = e.
Proof.
  intros He. revert acc. induction stem as [|c stem IH]; intros acc; cbn [app last_segment].
  - change (N.eqb (ch ".") (ch ".")) with true. cbv iota. now apply last_segment_plain.
  - destruct (N.eqb c (ch ".")); apply IH.
Qed.

Lemma includes_In (l : list jsstring) (t : jsstring) : includes l t = true <-> In t l.
Proof.
  unfold includes. rewrite existsb_exists. split.
  - intros (x & Hx & E). apply JSONFacts.eqb_string_eq in E. now subst.
  - intros H. exists t. split; [exact H | apply JSONFacts.eqb_string_refl].
Qed.

Lemma upload_outcome (f : File) (st : State) :
  handleFileUpload (Some f) st
  = if (1024 * 1024 <? size f)%N then
      setValidation (invalid (Text (lit "File size exceeds 1MB limit"))) st
    else if negb (includes (fileTypeExtensions (selectedFileType st)) (fileExtension (name f)))
    then
      setValidation
        (invalid (TextWithLowerCase
                    (lit "File extension .") (last_segment (name f) (name f))
                    (lit " does not match selected type "
                       ++ toUpperCase (selectedFileType st)
                       ++ lit ". Expected: "
                       ++ join (lit ", ") (fileTypeExtensions (selectedFileType st)))))
        st
    else
      setValidation (validateContent (text f) (selectedFileType st))
        (setInputCode (text f) (setFileName (name f) st)).
Proof. reflexivity. Qed.

(** X12: which uploads are taken.  A file of at most 1024 * 1024 bytes
    becomes the input when the part of its name after the last dot is,
    but for the case of its letters, an extension of the selected kind
    without its dot; a name without a dot counts as that part as a whole.
    The text of the file is then the input code, its name the file name,
    and the verdict is the one of validation on its text. *)
Theorem X12_upload_by_extension (f : File) (st : State) :
  (size f <= 1024 * 1024)%N ->
  (exists stem e, name f = stem ++ ch "." :: e /\ ~ In (ch ".") e
                  /\ In (ch "." :: toLowerCase e) (fileTypeExtensions (selectedFileType st)))
  \/ (~ In (ch ".") (name f)
      /\ In (ch "." :: toLowerCase (name f)) (fileTypeExtensions (selectedFileType st))) ->
  handleFileUpload (Some f) st
  = setValidation (validateContent (text f) (selectedFileType st))
      (setInputCode (text f) (setFileName (name f) st)).
Proof.
  intros Hs Hn. rewrite upload_outcome.
  replace (1024 * 1024 <? size f)%N with false by (symmetry; apply N.ltb_ge; exact Hs).
  assert (Hin : In (fileExtension (name f)) (fileTypeExtensions (selectedFileType st))).
  { unfold fileExtension. destruct Hn as [(stem & e & E & He & Hin) | [Hd Hin]].
    - now rewrite E, last_segment_dot.
    - now rewrite last_segment_plain. }
  apply includes_In in Hin. now rewrite Hin.
Qed.

Lemma X12_upload_by_extension_witness :
  let f := {| name := lit "site.v2.HTM"; size := 1024 * 1024; text := lit "<p>hi</p>" |} in
  let st := handleFileTypeChange html initial in
  (size f <= 1024 * 1024)%N
  /\ (name f = lit "site.v2" ++ ch "." :: lit "HTM" /\ ~ In (ch ".") (lit "HTM")
      /\ In (ch "." :: toLowerCase (lit "HTM")) (fileTypeExtensions (selectedFileType st)))
  /\ inputCode (handleFileUpload (Some f) st) = lit "<p>hi</p>"
  /\ fileName (handleFileUpload (Some f) st) = lit "site.v2.HTM"
  /\ validation (handleFileUpload (Some f) st) = valid.
Proof.
  intros f st.
  assert (Hs : (size f <= 1024 * 1024)%N) by (vm_compute; discriminate).
  assert (Hn : name f = lit "site.v2" ++ ch "." :: lit "HTM" /\ ~ In (ch ".") (lit "HTM")
               /\ In (ch "." :: toLowerCase (lit "HTM"))
                    (fileTypeExtensions (selectedFileType st))).
  { split; [reflexivity|]. split; [|vm_compute; tauto].
    vm_compute. intros [H | [H | [H | []]]]; discriminate H. }
  split; [exact Hs | split; [exact Hn|]].
  rewrite (X12_upload_by_extension f st Hs
             (or_introl (ex_intro _ (lit "site.v2") (ex_intro _ (lit "HTM") Hn)))).
  repeat split; vm_compute; reflexivity.
Defined.

(** X13: an upload that is refused, because the file has more than
    1024 * 1024 bytes or because its extension is not one of the selected
    kind, changes the verdict only: the input code, the file name and the
    result stay what they were, the verdict is invalid, and pressing
    Minify then changes nothing. *)
Theorem X13_refused_upload (f : File) (st : State) :
  (1024 * 1024 < size f)%N
  \/ ~ In (fileExtension (name f)) (fileTypeExtensions (selectedFileType st)) ->
  inputCode (handleFileUpload (Some f) st) = inputCode st
  /\ fileName (handleFileUpload (Some f) st) = fileName st
  /\ minificationResult (handleFileUpload (Some f) st) = minificationResult st
  /\ isValid (validation (handleFileUpload (Some f) st)) = false
  /\ handleMinify (handleFileUpload (Some f) st) = handleFileUpload (Some f) st.
Proof.
  intros H. rewrite upload_outcome.
  destruct (1024 * 1024 <? size f)%N eqn:Es; [repeat split|].
  destruct (includes (fileTypeExtensions (selectedFileType st)) (fileExtension (name f))) eqn:Ei;
    [|repeat split].
  exfalso. destruct H as [H | H].
  - apply N.ltb_ge in Es. lia.
  - apply H. now apply includes_In.
Qed.

Lemma X13_refused_upload_witness :
  let f := {| name := lit "notes.js.txt"; size := 10; text := lit "let a" |} in
  let st := handleCodeChange (lit "let b") initial in
  ~ In (fileExtension (name f)) (fileTypeExtensions (selectedFileType st))
  /\ inputCode (handleFileUpload (Some f) st) = lit "let b"
  /\ isValid (validation (handleFileUpload (Some f) st)) = false.
Proof.
  intros f st.
  assert (H : ~ In (fileExtension (name f)) (fileTypeExtensions (selectedFileType st))).
  { vm_compute. intros [E | []]. discriminate. }
  split; [exact H|].
  destruct (X13_refused_upload f st (or_intror H)) as (H1 & _ & _ & H4 & _).
  split; [rewrite H1; reflexivity | exact H4].
Defined.

(** ** The download *)

Lemma not_slash_dot_lower (c : cu) :
  not_slash_dot (if Chars.upper c then (c + 32)%N else c) = true -> not_slash_dot c = true.
Proof.
  unfold not_slash_dot.
  destruct (Chars.upper c) eqn:U; [|trivial].
  intros _. unfold Chars.upper in U. apply andb_prop in U as [U1 U2].
  apply N.leb_le in U1, U2.
  apply negb_true_iff, orb_false_iff. split; apply N.eqb_neq; cbn; lia.
Qed.

Lemma not_slash_dot_toLowerCase (e : jsstring) :
  forallb not_slash_dot (toLowerCase e) = true -> forallb not_slash_dot e = true.
Proof.
  induction e as [|c e IH]; [trivial|].
  cbn [toLowerCase map forallb]. intros H. apply andb_prop in H as [H1 H2].
  rewrite (not_slash_dot_lower c H1). exact (IH H2).
Qed.

Lemma replace_extension_plain (rep t : jsstring) :
  ~ In (ch ".") t -> replace_extension rep t = t.
Proof.
  induction t as [|c t IH]; [reflexivity|]. intros H. cbn [replace_extension].
  destruct (N.eqb_spec c (ch ".")) as [->|_].
  - exfalso. apply H. now left.
  - cbn [andb]. rewrite IH; [reflexivity|]. intros Hin. apply H. now right.
Qed.

Lemma forallb_not_slash_dot_app (a b : jsstring) :
  forallb not_slash_dot (a ++ ch "." :: b) = false.
Proof.
  rewrite forallb_app. cbn [forallb].
  change (not_slash_dot (ch ".")) with false. now rewrite andb_false_r.
Qed.

Lemma replace_extension_last (rep stem e : jsstring) :
  e <> [] -> forallb not_slash_dot e = true ->
  replace_extension rep (stem ++ ch "." :: e) = stem ++ rep.
Proof.
  intros Hne He. induction stem as [|c stem IH]; cbn [app replace_extension].
  - change (N.eqb (ch ".") (ch ".")) with true. rewrite He.
    destruct e; [contradiction | reflexivity].
  - rewrite forallb_not_slash_dot_app, andb_false_r. now rewrite IH.
Qed.

Lemma suffix_shape (type : FileType) (e : jsstring) :
  In (ch "." :: toLowerCase e) (fileTypeExtensions type) ->
  e <> [] /\ forallb not_slash_dot e = true.
Proof.
  intros H. split.
  - intros ->. destruct type; cbn in H; intuition discriminate.
  - apply not_slash_dot_toLowerCase.
    destruct type; cbn [fileTypeExtensions In] in H;
      repeat (destruct H as [H | H]; [injection H as <-; reflexivity|]); contradiction.
Qed.

(** X14: the name of the downloaded file.  Without a result nothing is
    offered.  With a result the file holds the minified text; its
    extension is the first one of the selected kind.  For pasted code,
    which has no file name, the name is minified.min followed by that
    extension; for an uploaded file whose extension is one of the kind,
    the part of the name from its last dot on is replaced by .min and that
    extension, so a file page.htm is offered as page.min.html; a name
    without a dot is kept as it is. *)
Theorem X14_download_name (st : State) :
  (minificationResult st = None -> downloadFile st = None)
  /\ forall r, minificationResult st = Some r ->
       let extension := hd [] (fileTypeExtensions (selectedFileType st)) in
       (fileName st = [] ->
        downloadFile st = Some (lit "minified.min" ++ extension, minified r))
       /\ (forall stem e,
              fileName st = stem ++ ch "." :: e ->
              In (ch "." :: toLowerCase e) (fileTypeExtensions (selectedFileType st)) ->
              downloadFile st = Some (stem ++ lit ".min" ++ extension, minified r))
       /\ (fileName st <> [] -> ~ In (ch ".") (fileName st) ->
           downloadFile st = Some (fileName st, minified r)).
Proof.
  unfold downloadFile. split; [now intros ->|].
  intros r ->. cbv zeta. split; [|split].
  - now intros ->.
  - intros stem e E Hin. rewrite E.
    destruct (suffix_shape _ _ Hin) as [Hne He].
    rewrite replace_extension_last by assumption.
    destruct stem; reflexivity.
  - intros Hne Hdot. rewrite replace_extension_plain by exact Hdot.
    destruct (fileName st); [contradiction | reflexivity].
Qed.

Lemma X14_download_name_witness :
  let f := {| name := lit "my.page.HTM"; size := 20; text := lit "<p> hi </p>  <p>x</p>" |} in
  let st := handleMinify (handleFileUpload (Some f) (handleFileTypeChange html initial)) in
  exists r,
    minificationResult st = Some r
    /\ fileName st = lit "my.page" ++ ch "." :: lit "HTM"
    /\ In (ch "." :: toLowerCase (lit "HTM")) (fileTypeExtensions (selectedFileType st))
    /\ downloadFile st = Some (lit "my.page.min.html", lit "<p> hi </p><p>x</p>").
Proof.
  intros f st.
  assert (Hr : minificationResult st
               = Some (report (lit "<p> hi </p>  <p>x</p>") (lit "<p> hi </p><p>x</p>")))
    by (vm_compute; reflexivity).
  assert (Hn : fileName st = lit "my.page" ++ ch "." :: lit "HTM") by (vm_compute; reflexivity).
  assert (Hin : In (ch "." :: toLowerCase (lit "HTM"))
                  (fileTypeExtensions (selectedFileType st))) by (vm_compute; tauto).
  eexists. split; [exact Hr | split; [exact Hn | split; [exact Hin|]]].
  rewrite (proj1 (proj2 (proj2 (X14_download_name st) _ Hr)) _ _ Hn Hin).
  vm_compute. reflexivity.
Defined.

(** ** Minify pressed again *)

(** X15: when Minify has run to its end, running it again on the state it
    left changes nothing: the input, the kind and the verdict are not
    touched by it, so the same result is computed. *)
Theorem X15_minify_again (st : State) :
  handleMinify (handleMinify st) = handleMinify st.
Proof.
  unfold handleMinify at 2 3.
  destruct (negb (isValid (validation st)) || is_empty (trim (inputCode st))) eqn:E.
  - unfold handleMinify. now rewrite E.
  - destruct (mockMinify (inputCode st) (selectedFileType st)) as [out|err] eqn:M;
      unfold handleMinify; destruct st; cbn in *; rewrite E, M; reflexivity.
Qed.

(** ** Structured data on one line *)

Module PrintFacts.

Import Digits DigitsFacts NumberToString JSON.

Lemma above_app (a b : jsstring) : above_controls a -> above_controls b -> above_controls (a ++ b).
Proof. intros Ha Hb. apply Forall_app. now split. Qed.

Lemma above_digits (n : N) : above_controls (digits n).
Proof.
  destruct (digits_spec n) as [H _]. revert H. apply Forall_impl.
  intros c Hc. unfold digit, is_digit in Hc. apply andb_prop in Hc as [Hc _].
  apply N.leb_le in Hc. lia.
Qed.

Lemma above_zeros (n : Z) : above_controls (zeros n).
Proof.
  unfold zeros. induction (Z.to_nat n) as [|k IH]; constructor; [cbn; lia | exact IH].
Qed.

Lemma above_literal (t : jsstring) :
  forallb (fun c => 32 <=? c)%N t = true -> above_controls t.
Proof.
  intros H. apply Forall_forall. intros c Hc.
  rewrite forallb_forall in H. apply N.leb_le. now apply H.
Qed.

Lemma above_firstn (n : nat) (t : jsstring) : above_controls t -> above_controls (firstn n t).
Proof.
  intros H. unfold above_controls in H. rewrite <- (firstn_skipn n t) in H.
  now apply Forall_app in H.
Qed.

Lemma above_skipn (n : nat) (t : jsstring) : above_controls t -> above_controls (skipn n t).
Proof.
  intros H. unfold above_controls in H. rewrite <- (firstn_skipn n t) in H.
  now apply Forall_app in H.
Qed.

Lemma above_format (s n : Z) : above_controls (format s n).
Proof.
  unfold format. pose proof (above_digits (Z.to_N s)) as Hds.
  set (ds := digits (Z.to_N s)) in *.
  assert (He : forall e, above_controls
                 (ch "e" :: (if (0 <=? e)%Z then ch "+" else ch "-")
                    :: digits (Z.to_N (Z.abs e)))).
  { intros e. constructor; [cbn; lia|]. constructor; [destruct (0 <=? e)%Z; cbn; lia|].
    apply above_digits. }
  destruct ((-5 <=? n) && (n <=? 21))%Z.
  - destruct (Z.of_nat (List.length ds) <=? n)%Z.
    + apply above_app; [exact Hds | apply above_zeros].
    + destruct (0 <? n)%Z.
      * apply above_app; [now apply above_firstn|].
        constructor; [cbn; lia | now apply above_skipn].
      * constructor; [cbn; lia|]. constructor; [cbn; lia|].
        apply above_app; [apply above_zeros | exact Hds].
  - destruct ds as [|d [|d' ds']]; [apply He | |].
    + constructor; [now inversion Hds | apply He].
    + inversion Hds as [|? ? Hd Hds']; subst.
      constructor; [exact Hd|]. constructor; [cbn; lia|].
      apply above_app; [exact Hds' | apply He].
Qed.

Lemma above_toString (x : Num.number) : above_controls (toString x).
Proof.
  destruct x as [s|s| |s m e]; cbn [toString];
    try (destruct s; now apply above_literal).
  - now apply above_literal.
  - destruct (decimal m e) as [d n].
    apply above_app; [destruct s; [|constructor] | apply above_format].
    constructor; [cbn; lia | constructor].
Qed.

Lemma above_hex_digit (n : N) : (32 <= hex_digit n)%N.
Proof. unfold hex_digit. destruct (n <? 10)%N; lia. Qed.

Lemma above_quote_unit (c : cu) : above_controls (quote_unit c).
Proof.
  unfold quote_unit.
  repeat match goal with
         | |- above_controls (if (?x =? ?y)%N then _ else _) =>
             destruct (x =? y)%N; [apply Forall_forall; cbn; intros ? H; intuition lia|]
         end.
  destruct ((c <? 32)%N || is_surrogate c) eqn:E.
  - unfold unicode_escape.
    repeat (constructor; [first [apply above_hex_digit | cbn; lia]|]). constructor.
  - apply orb_false_iff in E as [E _]. apply N.ltb_ge in E.
    constructor; [exact E | constructor].
Qed.

Lemma above_quote_chars (s : jsstring) : above_controls (quote_chars s).
Proof.
  induction s as [s IH] using length_induction.
  destruct s as [|c s']; [constructor|]. cbn [quote_chars].
  assert (Unit : above_controls (quote_unit c ++ quote_chars s')).
  { apply above_app; [apply above_quote_unit | apply IH; simpl; lia]. }
  destruct (Chars.is_high_surrogate c) eqn:Hc; [|exact Unit].
  destruct s' as [|d s'']; [apply above_quote_unit|].
  destruct (Chars.is_low_surrogate d) eqn:Hd; [|exact Unit].
  unfold Chars.is_high_surrogate in Hc. unfold Chars.is_low_surrogate in Hd.
  apply andb_prop in Hc as [Hc _]. apply andb_prop in Hd as [Hd _].
  apply N.leb_le in Hc, Hd.
  constructor; [lia|]. constructor; [lia|]. apply IH. simpl. lia.
Qed.

Lemma above_quote (s : jsstring) : above_controls (quote s).
Proof.
  unfold quote. constructor; [lia|].
  apply above_app; [apply above_quote_chars | constructor; [lia | constructor]].
Qed.

Lemma above_join (A : Type) (text : A -> jsstring) (l : list A) :
  Forall (fun p => above_controls (text p)) l ->
  above_controls (join [ch ","] (map text l)).
Proof.
  induction 1 as [|x xs Hx Hxs IH]; [constructor|].
  destruct xs as [|y ys]; [exact Hx|].
  rewrite JSONFacts.join_map_cons. apply above_app; [exact Hx|].
  constructor; [cbn; lia | exact IH].
Qed.

Lemma above_stringify (v : value) : above_controls (stringify v).
Proof.
  induction v as [|b|x|s|items IH|props IH] using value_induction; cbn [stringify].
  - now apply above_literal.
  - destruct b; now apply above_literal.
  - destruct (is_finite x); [apply above_toString | now apply above_literal].
  - apply above_quote.
  - constructor; [cbn; lia|].
    apply above_app; [now apply above_join | constructor; [cbn; lia | constructor]].
  - constructor; [cbn; lia|].
    apply above_app; [|constructor; [cbn; lia | constructor]].
    apply above_join. revert IH. apply Forall_impl. intros [k w] H.
    apply above_app; [apply above_quote|]. constructor; [cbn; lia | exact H].
Qed.

End PrintFacts.

(** X16: minified structured data is on one line.  Whatever the layout of
    the input, the output of [mockMinify] for JSON holds no code unit
    below 32: no line feed, no carriage return, no tab and no other
    control character, also inside its strings, where they are written
    as escapes; and it is not empty. *)
Theorem X16_structured_data_on_one_line (content out : jsstring) :
  mockMinify content json = inl out ->
  out <> [] /\ Forall (fun c => (32 <= c)%N) out.
Proof.
  cbn [mockMinify]. destruct (JSON.parse content) as [v|e]; [|discriminate].
  intros H. injection H as <-. split; [|apply PrintFacts.above_stringify].
  destruct (JSONFacts.stringify_first v) as (c & r & E & _). rewrite E. discriminate.
Qed.

Lemma X16_structured_data_on_one_line_witness :
  let content := lit "[1," ++ [10; 9]%N ++ litq " 'a\nb' ]" in
  mockMinify content json = inl (litq "[1,'a\nb']")
  /\ litq "[1,'a\nb']" <> []
  /\ Forall (fun c => (32 <= c)%N) (litq "[1,'a\nb']").
Proof.
  intros content.
  assert (H : mockMinify content json = inl (litq "[1,'a\nb']")) by (vm_compute; reflexivity).
  split; [exact H|].
  exact (X16_structured_data_on_one_line content (litq "[1,'a\nb']") H).
Defined.

(** X17: the percentage of the report is a whole number nearest to the
    exact percentage.  For an original that is not empty and two sizes
    below 2^44 bytes, the two roundings of the binary64 division and
    multiplication never move [Math.round] away from the exact value
    [100 * (original - minified) / original] by more than a half; and when
    the minified text is not the larger one, the percentage lies between
    0 and 100. *)
Theorem X17_percentage_is_nearest (code min : jsstring) :
  (0 < utf8_length code < 2 ^ 44)%N -> (utf8_length min < 2 ^ 44)%N ->
  exists r : Z,
    integer_value (reductionPercentage (report code min)) = Some r
    /\ nearest_percent (utf8_length code) (utf8_length min) r
    /\ ((utf8_length min <= utf8_length code)%N -> (0 <= r <= 100)%Z).
Proof.
  intros [Ho0 Ho] Hm. rewrite report_percentage.
  destruct (PercentFacts.percentage_nearest (utf8_length code) (utf8_length min) Ho0)
    as (r & Hr & Hn).
  - change (2 ^ 44)%Z with (Z.of_N (2 ^ 44)). now apply N2Z.inj_lt.
  - change (2 ^ 44)%Z with (Z.of_N (2 ^ 44)). now apply N2Z.inj_lt.
  - exists r. split; [exact Hr|]. split; [exact Hn|].
    intros Hle. unfold nearest_percent in Hn.
    apply N2Z.inj_le in Hle. apply N2Z.inj_lt in Ho0. change (Z.of_N 0) with 0%Z in Ho0.
    pose proof (N2Z.is_nonneg (utf8_length min)) as Hm0.
    revert Hn Hle Ho0 Hm0.
    generalize (Z.of_N (utf8_length code)) (Z.of_N (utf8_length min)).
    intros o m Hn Hle Ho0 Hm0.
    destruct (Z.le_gt_cases 0 r) as [L|L]; [destruct (Z.le_gt_cases r 100) as [U|U]|].
    + lia.
    + exfalso. assert (101 * o <= r * o)%Z by (apply Z.mul_le_mono_nonneg_r; lia). lia.
    + exfalso. assert (r * o <= -1 * o)%Z by (apply Z.mul_le_mono_nonneg_r; lia). lia.
Qed.

Lemma X17_percentage_is_nearest_witness :
  (0 < utf8_length (lit "a {  } b") < 2 ^ 44)%N
  /\ (utf8_length (lit "a {} b") < 2 ^ 44)%N
  /\ exists r : Z,
       integer_value (reductionPercentage (report (lit "a {  } b") (lit "a {} b"))) = Some r
       /\ nearest_percent (utf8_length (lit "a {  } b")) (utf8_length (lit "a {} b")) r
       /\ ((utf8_length (lit "a {} b") <= utf8_length (lit "a {  } b"))%N -> (0 <= r <= 100)%Z).
Proof.
  assert (Ho : (0 < utf8_length (lit "a {  } b") < 2 ^ 44)%N) by (vm_compute; split; reflexivity).
  assert (Hm : (utf8_length (lit "a {} b") < 2 ^ 44)%N) by (vm_compute; reflexivity).
  split; [exact Ho | split; [exact Hm|]].
  exact (X17_percentage_is_nearest (lit "a {  } b") (lit "a {} b") Ho Hm).
Defined.
